(** * Productboard tools: the reconciliation engines, embedded and verified

    A shallow embedding of the classification and execution code of the
    four bulk modules (custom-field migration, duplicate notes, CSV bulk
    update, CSV company import), of their CSV helpers and of the
    [deleteNote] backend action, with the properties the specification
    states about them.

    Conventions of the embedding:
    - a JavaScript string is the list of its UTF-16 code units ([jsstring]);
    - a JavaScript [Map] is an association list in insertion order;
    - a JavaScript object used as a dictionary (a CSV row, a [results]
      record) is a [gmap];
    - a backend action awaited by the frontend is an oracle over an abstract
      [World]: it returns its response together with the next world, and the
      run records every call, progress report and delay in a trace. *)

From Stdlib Require Import ZArith NArith QArith List String Ascii Bool Lia
  Permutation Sorted DecimalString.
From stdpp Require Import gmap list.
Import ListNotations.

(** ** JavaScript strings and the built-ins the modules use *)

Module JS.

Definition jsstring : Type := list N.

(** An ASCII literal as a JavaScript string. *)
Definition js (s : string) : jsstring :=
  List.map N_of_ascii (list_ascii_of_string s).
Arguments js s%_string.

Definition dquote : N := 34%N.
Definition comma : N := 44%N.
Definition newline : N := 10%N.
Definition percent : N := 37%N.

(** [WhiteSpace] and [LineTerminator] code points of ECMAScript, the
    characters [String.prototype.trim] removes. *)
Definition isWhiteSpace (c : N) : bool :=
  ((c =? 9) || (c =? 10) || (c =? 11) || (c =? 12) || (c =? 13) || (c =? 32)
   || (c =? 160) || (c =? 5760) || ((8192 <=? c) && (c <=? 8202))
   || (c =? 8232) || (c =? 8233) || (c =? 8239) || (c =? 8287)
   || (c =? 12288) || (c =? 65279))%N.

Fixpoint trimStart (s : jsstring) : jsstring :=
  match s with
  | [] => []
  | c :: s' => if isWhiteSpace c then trimStart s' else s
  end.

Definition trimEnd (s : jsstring) : jsstring := rev (trimStart (rev s)).

Definition trim (s : jsstring) : jsstring := trimEnd (trimStart s).

Definition jsstring_eqb (a b : jsstring) : bool := bool_decide (a = b).

Fixpoint startsWith (search s : jsstring) : bool :=
  match search, s with
  | [], _ => true
  | _ :: _, [] => false
  | a :: search', b :: s' => (a =? b)%N && startsWith search' s'
  end.

(** [s.includes(search)] *)
Fixpoint includes (search s : jsstring) : bool :=
  startsWith search s ||
  match s with
  | [] => false
  | _ :: s' => includes search s'
  end.

(** [s.replace(/c/g, by)] for a one-character pattern. *)
Definition replaceAll (c : N) (by_ : jsstring) (s : jsstring) : jsstring :=
  List.flat_map (fun x => if (x =? c)%N then by_ else [x]) s.

(** [s.split(sep)] for a non-empty separator: [skip] counts the code units
    of a separator occurrence still to be passed over. *)
Fixpoint split_from (sep : jsstring) (skip : nat) (cur s : jsstring)
  : list jsstring :=
  match s with
  | [] => [cur]
  | c :: s' =>
      match skip with
      | S k => split_from sep k cur s'
      | O =>
          if startsWith sep s
          then cur :: split_from sep (length sep - 1) [] s'
          else split_from sep 0 (cur ++ [c]) s'
      end
  end.

Definition split (sep s : jsstring) : list jsstring := split_from sep 0 [] s.

(** A value that may be [null] or [undefined] instead of a string. *)
Inductive nullable : Type :=
| JNull
| JUndefined
| JStr (s : jsstring).

Definition of_option (o : option jsstring) : nullable :=
  match o with
  | Some s => JStr s
  | None => JUndefined
  end.

(** [v || ''] on an optional string: absent and empty both give [''] . *)
Definition orEmpty (o : option jsstring) : jsstring :=
  match o with
  | Some s => s
  | None => []
  end.

(** Rendering inside a template literal of a value that may be
    [undefined]. *)
Definition template (o : option jsstring) : jsstring :=
  match o with
  | Some s => s
  | None => js "undefined"
  end.

(** *** Numbers read by [parseFloat]

    [parseFloat] returns the double nearest to the decimal literal it reads.
    The embedding keeps the literal's exact value, sign, decimal mantissa and
    power of ten, so that [NaN] (no literal) is told apart from every number
    without rounding. *)
Inductive number : Type :=
| NaN
| Infinity (negative : bool)
| Finite (negative : bool) (mantissa : N) (exp10 : Z).

Definition isNaN (x : number) : bool :=
  match x with
  | NaN => true
  | _ => false
  end.

(** The mathematical value of a finite number. *)
Definition numberValue (x : number) : option Q :=
  match x with
  | Finite neg m e =>
      let v := (inject_Z (Z.of_N m) * Qpower (10 # 1) e)%Q in
      Some (if neg then Qopp v else v)
  | _ => None
  end.

Definition isDigit (c : N) : bool := ((48 <=? c) && (c <=? 57))%N.

Fixpoint spanDigits (s : jsstring) : jsstring * jsstring :=
  match s with
  | [] => ([], [])
  | c :: s' =>
      if isDigit c
      then let '(ds, r) := spanDigits s' in (c :: ds, r)
      else ([], s)
  end.

Definition digitsValue (ds : jsstring) : N :=
  fold_left (fun acc c => (acc * 10 + (c - 48))%N) ds 0%N.

(** An optional sign: the flag says whether it was a minus. *)
Definition spanSign (s : jsstring) : bool * jsstring :=
  match s with
  | c :: r =>
      if (c =? 43)%N then (false, r)
      else if (c =? 45)%N then (true, r)
      else (false, s)
  | [] => (false, s)
  end.

(** [ExponentPart]: [e] or [E], an optional sign and at least one digit;
    anything else is not part of the literal. *)
Definition parseExponent (s : jsstring) : Z :=
  match s with
  | c :: r =>
      if ((c =? 101) || (c =? 69))%N then
        let '(neg, r') := spanSign r in
        match fst (spanDigits r') with
        | [] => 0%Z
        | ds => let e := Z.of_N (digitsValue ds) in if neg then (- e)%Z else e
        end
      else 0%Z
  | [] => 0%Z
  end.

(** [parseFloat(s)]: leading white space is skipped, then the longest
    prefix that is a [StrDecimalLiteral] is read; [NaN] when there is
    none. *)
Definition parseFloat (s : jsstring) : number :=
  let '(neg, u) := spanSign (trimStart s) in
  if startsWith (js "Infinity") u then Infinity neg
  else
    let '(ip, r1) := spanDigits u in
    let '(fp, r2) :=
      match r1 with
      | c :: r => if (c =? 46)%N then spanDigits r else ([], r1)
      | [] => ([], r1)
      end in
    match ip ++ fp with
    | [] => NaN
    | ds => Finite neg (digitsValue ds)
              (parseExponent r2 - Z.of_nat (length fp))
    end.

(** Decimal digits of a natural number, as [String(n)] prints an integer. *)
Definition digitsOf (n : N) : jsstring :=
  js (NilZero.string_of_uint (N.to_uint n)).

(** *** Arrays: [Array.prototype.sort] with a comparator

    The sort of ECMAScript is stable; for a comparator that is a total
    preorder its result is the one of this insertion sort. *)
Section Sort.
Context {A : Type} (compareFn : A -> A -> Z).

Fixpoint insertSorted (x : A) (l : list A) : list A :=
  match l with
  | [] => [x]
  | y :: l' =>
      if (compareFn x y <=? 0)%Z then x :: l else y :: insertSorted x l'
  end.

Definition sort (l : list A) : list A := fold_right insertSorted [] l.

(** [a] may stand before [b]: the comparator does not put [b] first. *)
Definition precedes (a b : A) : Prop := (compareFn a b <= 0)%Z.
End Sort.

(** *** [Map] with string keys, in insertion order *)
Section JsMap.
Context {V : Type}.

Definition jsmap : Type := list (jsstring * V).

Fixpoint map_get (k : jsstring) (m : jsmap) : option V :=
  match m with
  | [] => None
  | (k', v) :: m' => if jsstring_eqb k k' then Some v else map_get k m'
  end.

(** [m.set(k, v)]: an existing key keeps its position. *)
Fixpoint map_set (k : jsstring) (v : V) (m : jsmap) : jsmap :=
  match m with
  | [] => [(k, v)]
  | (k', v') :: m' =>
      if jsstring_eqb k k' then (k, v) :: m' else (k', v') :: map_set k v m'
  end.

Definition map_keys (m : jsmap) : list jsstring := List.map fst m.
End JsMap.
Arguments jsmap V : clear implicits.

(** The code-unit order of two strings, as a comparator result. On
    ISO-8601 timestamps [localeCompare] agrees with it. *)
Fixpoint codeUnitCompare (a b : jsstring) : Z :=
  match a, b with
  | [], [] => 0%Z
  | [], _ :: _ => (-1)%Z
  | _ :: _, [] => 1%Z
  | x :: a', y :: b' =>
      if (x <? y)%N then (-1)%Z
      else if (y <? x)%N then 1%Z
      else codeUnitCompare a' b'
  end.

End JS.
Import JS.

(** ** CSV helpers (note import module: [parseCSVLine], [escapeCSV]) *)

Module Csv.

(** The body of the [for] loop of [parseCSVLine]: [i++] inside the loop
    (an escaped quote) consumes the next character as well. *)
Fixpoint parseCSVLine_from (line : jsstring) (result : list jsstring)
  (current : jsstring) (inQuotes : bool) : list jsstring :=
  match line with
  | [] => result ++ [trim current]
  | char :: rest =>
      if inQuotes then
        if (char =? dquote)%N then
          match rest with
          | nextChar :: rest' =>
              if (nextChar =? dquote)%N
              then parseCSVLine_from rest' result (current ++ [dquote]) true
              else parseCSVLine_from rest result current false
          | [] => parseCSVLine_from rest result current false
          end
        else parseCSVLine_from rest result (current ++ [char]) true
      else
        if (char =? dquote)%N then parseCSVLine_from rest result current true
        else if (char =? comma)%N
             then parseCSVLine_from rest (result ++ [trim current]) [] false
             else parseCSVLine_from rest result (current ++ [char]) false
  end.

Definition parseCSVLine (line : jsstring) : list jsstring :=
  parseCSVLine_from line [] [] false.

Definition escapeCSV (value : jsstring) : jsstring :=
  if includes [comma] value || includes [dquote] value || includes [newline] value
  then [dquote] ++ replaceAll dquote [dquote; dquote] value ++ [dquote]
  else value.

(** The test [escapeCSV] makes before it quotes a value. *)
Definition needsQuoting (value : jsstring) : bool :=
  includes [comma] value || includes [dquote] value || includes [newline] value.

End Csv.

(** ** Runs: awaited calls, progress reports and delays

    A run is a function of the world. Besides its result it yields the
    events it produced, in order, and the world it leaves. *)

Module Exec.

(** What awaiting a call gives: its value, or the error it threw, already
    converted with [String(error)]. *)
Inductive Outcome (R : Type) : Type :=
| Returned (r : R)
| Threw (error : jsstring).
Arguments Returned {R} r.
Arguments Threw {R} error.

Inductive Event (C : Type) : Type :=
| EvCall (c : C)
| EvProgress (current total : nat)
| EvDelay (ms : N).
Arguments EvCall {C} c.
Arguments EvProgress {C} current total.
Arguments EvDelay {C} ms.

Definition Run (W C A : Type) : Type := W -> A * list (Event C) * W.

Definition ret {W C A} (a : A) : Run W C A := fun w => (a, [], w).

Definition bind {W C A B} (m : Run W C A) (k : A -> Run W C B) : Run W C B :=
  fun w =>
    let '(a, t1, w1) := m w in
    let '(b, t2, w2) := k a w1 in
    (b, t1 ++ t2, w2).

Definition emit {W C} (e : Event C) : Run W C unit := fun w => (tt, [e], w).

(** Awaiting an action: the oracle answers, [log] records the call with its
    answer. *)
Definition await {W C R} (oracle : W -> R * W) (log : R -> C) : Run W C R :=
  fun w => let '(r, w') := oracle w in (r, [EvCall (log r)], w').

Definition result_of {W C A} (x : A * list (Event C) * W) : A := fst (fst x).
Definition trace_of {W C A} (x : A * list (Event C) * W) : list (Event C) :=
  snd (fst x).
Definition world_of {W C A} (x : A * list (Event C) * W) : W := snd x.

(** [for (let i = start; i < items.length; i++) body(i, items[i])], the
    accumulator being the array the body pushes to. *)
Fixpoint forEach {W C A R} (body : nat -> A -> R -> Run W C R)
  (i : nat) (items : list A) (acc : R) : Run W C R :=
  match items with
  | [] => ret acc
  | x :: rest => bind (body i x acc) (forEach body (S i) rest)
  end.

(** [await new Promise(resolve => setTimeout(resolve, ms))] after item [i]
    of [total], every [every] items and not after the last one. *)
Definition rateLimitDelay {W C} (every : nat) (ms : N) (i total : nat)
  : Run W C unit :=
  if ((i + 1) mod every =? 0) && (i + 1 <? total)
  then emit (EvDelay ms)
  else ret tt.

(** What ends the turn of item [i] of [total] in a loop that reports its
    progress and then waits as [rateLimitDelay] does. *)
Definition turnEnding {C} (every : nat) (ms : N) (total i : nat) : list (Event C) :=
  EvProgress (i + 1) total
  :: (if ((i + 1) mod every =? 0) && (i + 1 <? total) then [EvDelay ms] else []).

(** The trace of a loop over [total] items whose turns are each one call
    followed by its ending; [cs] are the calls, [start] the index of the
    first. *)
Definition turnsOf {C} (every : nat) (ms : N) (total start : nat) (cs : list C)
  : list (Event C) :=
  List.concat (imap (fun i c => EvCall c :: turnEnding every ms total (start + i)) cs).

(** The delays of a trace, in order. *)
Definition delays {C} (t : list (Event C)) : list N :=
  List.flat_map (fun e => match e with EvDelay ms => [ms] | _ => [] end) t.

(** A delay is due after a progress report [current] of [total] when
    [current] is a positive multiple of [every] and items remain. *)
Definition due (every current total : nat) : bool :=
  (current mod every =? 0) && (0 <? current) && (current <? total).

(** [throttled every ms t]: in [t] a delay stands exactly after the
    progress reports where one is due, and lasts [ms]. *)
Fixpoint throttled {C} (every : nat) (ms : N) (t : list (Event C)) : bool :=
  match t with
  | [] => true
  | EvProgress c n :: rest =>
      match rest with
      | EvDelay d :: rest' =>
          due every c n && (d =? ms)%N && throttled every ms rest'
      | _ => negb (due every c n) && throttled every ms rest
      end
  | EvDelay _ :: _ => false
  | EvCall _ :: rest => throttled every ms rest
  end.

(** The trace does not begin with a delay. *)
Definition noDelayHead {C} (t : list (Event C)) : bool :=
  match t with
  | EvDelay _ :: _ => false
  | _ => true
  end.

(** The trace holds calls only. *)
Definition callsOnly {C} (t : list (Event C)) : bool :=
  forallb (fun e => match e with EvCall _ => true | _ => false end) t.

(** The calls of a trace, in order. *)
Definition calls {C} (t : list (Event C)) : list C :=
  List.flat_map (fun e => match e with EvCall c => [c] | _ => [] end) t.

End Exec.
Import Exec.

Declare Scope run_scope.
Delimit Scope run_scope with run.
Notation "'perform' x <- m 'in' k" := (bind m (fun x => k))
  (at level 10, x name, m at level 100, k at level 200) : run_scope.
Notation "'effect' m 'in' k" := (bind m (fun _ => k))
  (at level 10, m at level 100, k at level 200) : run_scope.
Open Scope run_scope.

(** ** Backend: error sanitizing and the [deleteNote] action *)

Module Backend.

(** [SAFE_ERROR_MAP] *)
Definition SAFE_ERROR_MAP : list (N * jsstring) :=
  [ (400%N, js "Invalid request parameters");
    (401%N, js "Invalid or expired API token");
    (403%N, js "Access denied - check token permissions");
    (404%N, js "Resource not found");
    (409%N, js "Conflict - resource already exists");
    (422%N, js "Invalid data format");
    (429%N, js "Rate limit exceeded - please wait and retry");
    (500%N, js "Productboard server error");
    (502%N, js "Productboard service unavailable");
    (503%N, js "Productboard service temporarily unavailable");
    (504%N, js "Request timed out") ].

Fixpoint lookupStatus (status : N) (m : list (N * jsstring)) : option jsstring :=
  match m with
  | [] => None
  | (k, v) :: m' => if (k =? status)%N then Some v else lookupStatus status m'
  end.

(** [sanitizeApiError]: the logging to the console is not part of the
    result. *)
Definition sanitizeApiError (status : N) (rawError : jsstring) : jsstring :=
  match lookupStatus status SAFE_ERROR_MAP with
  | Some msg => msg
  | None => js "Request failed (" ++ digitsOf status ++ js ")"
  end.

Module HttpResponse.
Record t : Type := mk { status : N; text : Outcome jsstring }.
End HttpResponse.

Module Request.
Record t : Type := mk { url : jsstring; method : jsstring; headers : list (jsstring * jsstring) }.
End Request.

Module DeleteNoteResult.
Record t : Type := mk { success : bool; error : option jsstring; status : option N }.
End DeleteNoteResult.

Definition API_BASE_URL : jsstring := js "https://api.productboard.com".

Definition getHeaders (apiToken : jsstring) : list (jsstring * jsstring) :=
  [ (js "accept", js "application/json");
    (js "Authorization", js "Bearer " ++ apiToken);
    (js "X-Version", js "1") ].

(** The request [deleteNote] sends. *)
Definition deleteRequest (apiToken noteId : jsstring) : Request.t :=
  Request.mk (API_BASE_URL ++ js "/notes/" ++ noteId) (js "DELETE") (getHeaders apiToken).

Section Actions.
Context {World : Type}.
(** [fetch], and [String.prototype.toLowerCase], which the embedding does
    not define. *)
Variable fetch : Request.t -> World -> Outcome HttpResponse.t * World.
Variable toLowerCase : jsstring -> jsstring.

(** [sanitizeCatchError], on the message of the error caught. *)
Definition sanitizeCatchError (message : jsstring) : jsstring :=
  let messageLower := toLowerCase message in
  if includes (js "fetch") messageLower || includes (js "network") messageLower
  then js "Network error - check your connection"
  else if includes (js "timeout") messageLower then js "Request timed out"
  else if includes (js "abort") messageLower then js "Request was cancelled"
  else js "An unexpected error occurred".

(** [deleteNote]: the handler of the action. *)
Definition deleteNote (apiToken noteId : jsstring) (w : World)
  : DeleteNoteResult.t * World :=
  let url := API_BASE_URL ++ js "/notes/" ++ noteId in
  let '(r, w') := fetch (Request.mk url (js "DELETE") (getHeaders apiToken)) w in
  match r with
  | Threw message =>
      (DeleteNoteResult.mk false (Some (sanitizeCatchError message)) None, w')
  | Returned response =>
      let status := HttpResponse.status response in
      if ((status =? 204) || (status =? 404))%N then
        (DeleteNoteResult.mk true None (Some status), w')
      else if (status =? 429)%N then
        (DeleteNoteResult.mk false
           (Some (js "Rate limit exceeded - please wait and retry")) (Some 429%N), w')
      else
        match HttpResponse.text response with
        | Threw message =>
            (DeleteNoteResult.mk false (Some (sanitizeCatchError message)) None, w')
        | Returned errorText =>
            (DeleteNoteResult.mk false
               (Some (sanitizeApiError status errorText)) (Some status), w')
        end
  end.

End Actions.

End Backend.

(** ** Duplicate notes module *)

Module DuplicateNotes.

Module Note.
(** [company] holds the [id] of the note's company when the note has one. *)
Record t : Type := mk {
  id : jsstring;
  title : option jsstring;
  content : option jsstring;
  company : option jsstring;
  createdAt : option jsstring;
  source : option (option jsstring) }.
End Note.

Module Company.
Record t : Type := mk { id : jsstring; name : jsstring }.
End Company.

Module DuplicateGroup.
Record t : Type := mk {
  key : jsstring;
  notes : list Note.t;
  keepNote : Note.t;
  deleteNotes : list Note.t }.
End DuplicateGroup.

Module DeletionResult.
Record t : Type := mk {
  noteId : jsstring;
  title : jsstring;
  companyName : jsstring;
  success : bool;
  error : option jsstring }.
End DeletionResult.

Definition SEP : jsstring := js "|||".

(** [note.company?.id || null]: an empty id counts as no company. *)
Definition companyIdOf (note : Note.t) : option jsstring :=
  match Note.company note with
  | Some companyId => if jsstring_eqb companyId [] then None else Some companyId
  | None => None
  end.

Definition hasCompany (note : Note.t) : bool :=
  match companyIdOf note with
  | Some _ => true
  | None => false
  end.

(** [m.get(key) || []] *)
Definition getOrEmpty {V} (key : jsstring) (m : jsmap (list V)) : list V :=
  match map_get key m with
  | Some group => group
  | None => []
  end.

(** First loop: one note into [groupsWithCompany] or
    [groupsWithoutCompany]. *)
Definition groupNote (groups : jsmap (list Note.t) * jsmap (list Note.t))
  (note : Note.t) : jsmap (list Note.t) * jsmap (list Note.t) :=
  let '(groupsWithCompany, groupsWithoutCompany) := groups in
  let content := trim (orEmpty (Note.content note)) in
  let title := trim (orEmpty (Note.title note)) in
  match companyIdOf note with
  | Some companyId =>
      let key := content ++ SEP ++ title ++ SEP ++ companyId in
      (map_set key (getOrEmpty key groupsWithCompany ++ [note]) groupsWithCompany,
       groupsWithoutCompany)
  | None =>
      let key := content ++ SEP ++ title in
      (groupsWithCompany,
       map_set key (getOrEmpty key groupsWithoutCompany ++ [note]) groupsWithoutCompany)
  end.

(** The filter of [matchingKeys]: the first two parts of the key are
    [content] and [title]. *)
Definition sameContentTitle (content title : option jsstring) (k : jsstring)
  : bool :=
  let parts := split SEP k in
  bool_decide (parts !! 0%nat = content) && bool_decide (parts !! 1%nat = title).

(** Third loop body: one group without company merged into
    [duplicatesMap]. *)
Definition mergeGroup (duplicatesMap : jsmap (list Note.t))
  (entry : jsstring * list Note.t) : jsmap (list Note.t) :=
  let '(keyNoCompany, groupNoCompany) := entry in
  let parts := split SEP keyNoCompany in
  let content := parts !! 0%nat in
  let title := parts !! 1%nat in
  let matchingKeys :=
    List.filter (sameContentTitle content title) (map_keys duplicatesMap) in
  match matchingKeys with
  | [] =>
      let key := template content ++ SEP ++ template title ++ js "|||null" in
      map_set key groupNoCompany duplicatesMap
  | _ =>
      fold_left
        (fun dm matchKey =>
           map_set matchKey (getOrEmpty matchKey dm ++ groupNoCompany) dm)
        matchingKeys duplicatesMap
  end.

(** [new Set(ids)] *)
Definition setAdd (s : list jsstring) (x : jsstring) : list jsstring :=
  if existsb (jsstring_eqb x) s then s else s ++ [x].

Definition newSet (l : list jsstring) : list jsstring := fold_left setAdd l [].

Section Grouping.
(** [String.prototype.localeCompare], which depends on the locale of the
    engine. *)
Variable localeCompare : jsstring -> jsstring -> Z.

Definition byCreatedAt (a b : Note.t) : Z :=
  localeCompare (orEmpty (Note.createdAt a)) (orEmpty (Note.createdAt b)).

(** Last loop body: the group of one entry of [duplicatesMap], if it holds
    duplicates. A group that passes the test has a first note. *)
Definition duplicateGroupOf (entry : jsstring * list Note.t)
  : list DuplicateGroup.t :=
  let '(key, notes) := entry in
  let uniqueIds := newSet (List.map Note.id notes) in
  if (1 <? length notes) && (1 <? length uniqueIds) then
    let sorted := sort byCreatedAt notes in
    let withCompany := List.filter hasCompany sorted in
    match (if 0 <? length withCompany then withCompany !! 0%nat else sorted !! 0%nat) with
    | Some keepNote =>
        let deleteNotes :=
          List.filter
            (fun n => negb (jsstring_eqb (Note.id n) (Note.id keepNote))) sorted in
        [DuplicateGroup.mk key sorted keepNote deleteNotes]
    | None => []
    end
  else [].

Definition findDuplicateGroups (notes : list Note.t) : list DuplicateGroup.t :=
  let '(groupsWithCompany, groupsWithoutCompany) :=
    fold_left groupNote notes ([], []) in
  let duplicatesMap := fold_left mergeGroup groupsWithoutCompany groupsWithCompany in
  List.flat_map duplicateGroupOf duplicatesMap.

(** The keep and delete policy of a duplicate group, as the specification
    words it: the note kept is a member; if a member has a company, the note
    kept has one and no member with a company is earlier; if no member has a
    company, no member is earlier; the notes to delete are the members with
    another id, in the order of the group. *)
Definition keepPolicy (g : DuplicateGroup.t) : Prop :=
  let keep := DuplicateGroup.keepNote g in
  let members := DuplicateGroup.notes g in
  In keep members
  /\ (forall m, In m members -> hasCompany m = true ->
       hasCompany keep = true /\ precedes byCreatedAt keep m)
  /\ ((forall m, In m members -> hasCompany m = false) ->
       forall m, In m members -> precedes byCreatedAt keep m)
  /\ DuplicateGroup.deleteNotes g
      = List.filter (fun n => negb (jsstring_eqb (Note.id n) (Note.id keep))) members
  /\ (forall m, In m members -> Note.id m <> Note.id keep ->
       In m (DuplicateGroup.deleteNotes g)).

End Grouping.

(** Every note of every group of the map is a note of [notes]. *)
Definition groupsFrom (notes : list Note.t) (m : jsmap (list Note.t)) : Prop :=
  forall k g n, In (k, g) m -> In n g -> In n notes.

(** The three notes of the specification's example. *)
Definition noteA : Note.t :=
  Note.mk (js "A") (Some (js "t")) (Some (js "x")) (Some (js "C1"))
    (Some (js "2020-01-01")) None.
Definition noteB : Note.t :=
  Note.mk (js "B") (Some (js "t")) (Some (js "x")) (Some (js "C1"))
    (Some (js "2020-02-01")) None.
Definition noteC : Note.t :=
  Note.mk (js "C") (Some (js "t")) (Some (js "x")) None
    (Some (js "2019-01-01")) None.

(** *** Deleting the duplicates *)

Inductive Call : Type :=
| DeleteNote (apiToken noteId : jsstring) (r : Outcome Backend.DeleteNoteResult.t).

Section Deleting.
Context {World : Type}.
Variable deleteNoteAction :
  jsstring -> jsstring -> World -> Outcome Backend.DeleteNoteResult.t * World.

(** [companies.get(id)?.name || ''] for a note with a company, [''] for one
    without. *)
Definition companyNameOf (companies : jsmap Company.t) (note : Note.t) : jsstring :=
  match companyIdOf note with
  | Some companyId =>
      match map_get companyId companies with
      | Some c => Company.name c
      | None => []
      end
  | None => []
  end.

(** The entry recorded for a note after the answer to its deletion. *)
Definition deletionEntry (companies : jsmap Company.t) (note : Note.t)
  (r : Outcome Backend.DeleteNoteResult.t) : DeletionResult.t :=
  let companyName := companyNameOf companies note in
  match r with
  | Returned result =>
      DeletionResult.mk (Note.id note) (orEmpty (Note.title note)) companyName
        (Backend.DeleteNoteResult.success result)
        (Backend.DeleteNoteResult.error result)
  | Threw error =>
      DeletionResult.mk (Note.id note) (orEmpty (Note.title note)) companyName
        false (Some error)
  end.

(** The body of the deletion loop. *)
Definition deleteOne (apiToken : jsstring) (companies : jsmap Company.t)
  (total : nat) (i : nat) (note : Note.t) (results : list DeletionResult.t)
  : Run World Call (list DeletionResult.t) :=
  perform r <- await (deleteNoteAction apiToken (Note.id note))
                     (DeleteNote apiToken (Note.id note)) in
  let results' := results ++ [deletionEntry companies note r] in
  effect emit (EvProgress (length results') total) in
  effect rateLimitDelay 50 1000 i total in
  ret results'.

Definition handleDeleteDuplicates (apiToken : jsstring)
  (duplicateGroups : list DuplicateGroup.t) (companies : jsmap Company.t)
  : Run World Call (list DeletionResult.t) :=
  let notesToDelete := List.flat_map DuplicateGroup.deleteNotes duplicateGroups in
  effect emit (EvProgress 0 (length notesToDelete)) in
  forEach (deleteOne apiToken companies (length notesToDelete)) 0 notesToDelete [].

End Deleting.

End DuplicateNotes.

(** ** Duplicate notes with the arrays in a store

    [findDuplicateGroups] again, with every array it reads or writes held
    in a store and named by its location, so that what it pushes to and what
    it leaves alone can be told apart: the array of notes it is given, the
    groups it builds in its three [Map]s, the copies it sorts and filters.
    The notes themselves are never assigned to and stay values. *)

Module NoteArrays.
Import DuplicateNotes.

(** The arrays allocated so far; the location of an array is its index. *)
Definition Store : Type := list (list Note.t).

Definition readArray (a : nat) (h : list (list Note.t)) : list Note.t :=
  default [] (h !! a).

(** A new array, [[]], [[...xs]] or the result of [filter]. *)
Definition newArray (content : list Note.t) (h : Store) : nat * Store :=
  (length h, h ++ [content]).

(** [a.push(...xs)] *)
Definition pushAll (a : nat) (xs : list Note.t) (h : list (list Note.t)) : Store :=
  <[ a := readArray a h ++ xs ]> h.

(** [const group = m.get(key) || []; group.push(...xs); m.set(key, group)] *)
Definition pushInto (key : jsstring) (xs : list Note.t) (m : jsmap nat) (h : Store)
  : jsmap nat * Store :=
  let '(group, h1) :=
    match map_get key m with
    | Some a => (a, h)
    | None => newArray [] h
    end in
  (map_set key group m, pushAll group xs h1).

(** [for (const x of a) body]: the array is read at every step. Without
    fuel left the loop has not ended. *)
Fixpoint forOf {S} (fuel : nat) (a : nat) (i : nat)
  (body : Note.t -> S -> Store -> S * Store) (s : S) (h : Store) : option (S * Store) :=
  match fuel with
  | O => None
  | Datatypes.S fuel' =>
      match readArray a h !! i with
      | None => Some (s, h)
      | Some x => let '(s', h') := body x s h in forOf fuel' a (Datatypes.S i) body s' h'
      end
  end.

Definition groupNote (note : Note.t) (groups : jsmap nat * jsmap nat) (h : Store)
  : (jsmap nat * jsmap nat) * Store :=
  let '(groupsWithCompany, groupsWithoutCompany) := groups in
  let content := trim (orEmpty (Note.content note)) in
  let title := trim (orEmpty (Note.title note)) in
  match companyIdOf note with
  | Some companyId =>
      let key := content ++ SEP ++ title ++ SEP ++ companyId in
      let '(m, h') := pushInto key [note] groupsWithCompany h in
      ((m, groupsWithoutCompany), h')
  | None =>
      let key := content ++ SEP ++ title in
      let '(m, h') := pushInto key [note] groupsWithoutCompany h in
      ((groupsWithCompany, m), h')
  end.

(** [duplicatesMap.set(key, [...group])] *)
Definition copyGroup (acc : jsmap nat * Store) (entry : jsstring * nat)
  : jsmap nat * Store :=
  let '(duplicatesMap, h) := acc in
  let '(key, group) := entry in
  let '(copy, h1) := newArray (readArray group h) h in
  (map_set key copy duplicatesMap, h1).

Definition mergeGroup (acc : jsmap nat * Store) (entry : jsstring * nat)
  : jsmap nat * Store :=
  let '(duplicatesMap, h) := acc in
  let '(keyNoCompany, groupNoCompany) := entry in
  let parts := split SEP keyNoCompany in
  let content := parts !! 0%nat in
  let title := parts !! 1%nat in
  let matchingKeys :=
    List.filter (sameContentTitle content title) (map_keys duplicatesMap) in
  match matchingKeys with
  | [] =>
      let key := template content ++ SEP ++ template title ++ js "|||null" in
      let '(copy, h1) := newArray (readArray groupNoCompany h) h in
      (map_set key copy duplicatesMap, h1)
  | _ =>
      fold_left
        (fun acc matchKey =>
           pushInto matchKey (readArray groupNoCompany (snd acc)) (fst acc) (snd acc))
        matchingKeys (duplicatesMap, h)
  end.

(** The map of arrays a map of locations stands for, and its locations. *)
Definition abs (h : Store) (m : jsmap nat) : jsmap (list Note.t) :=
  List.map (fun e => (fst e, readArray (snd e) h)) m.

Definition locs (m : jsmap nat) : list nat := List.map snd m.

(** A map built by the function: its keys differ, its arrays differ and
    were allocated by the function, after the first [n] of the store. *)
Definition wfMap (n : nat) (h : Store) (m : jsmap nat) : Prop :=
  NoDup (map_keys m) /\ NoDup (locs m)
  /\ forall a, a ∈ locs m -> n <= a < length h.

(** The two maps of the first loop, in the store [h], stand for the two
    maps of arrays [p]: they are well formed, share no array, and the first
    [n] arrays of the store are those of [h0]. *)
Definition groupsRel (n : nat) (h0 : Store)
  (p : jsmap (list Note.t) * jsmap (list Note.t)) (s : jsmap nat * jsmap nat)
  (h : Store) : Prop :=
  abs h (fst s) = fst p /\ abs h (snd s) = snd p
  /\ wfMap n h (fst s) /\ wfMap n h (snd s)
  /\ (forall a, a ∈ locs (fst s) -> a ∉ locs (snd s))
  /\ take n h = h0 /\ n <= length h.

(** A duplicate group whose arrays are in the store. *)
Module Group.
Record t : Type := mk {
  key : jsstring;
  notes : nat;
  keepNote : Note.t;
  deleteNotes : nat }.
End Group.

(** The arrays of the group are arrays of the store. *)
Definition inStore (h : Store) (g : Group.t) : Prop :=
  Group.notes g < length h /\ Group.deleteNotes g < length h.

(** The group as a reader of the store sees it. *)
Definition view (h : Store) (g : Group.t) : DuplicateGroup.t :=
  DuplicateGroup.mk (Group.key g) (readArray (Group.notes g) h) (Group.keepNote g)
    (readArray (Group.deleteNotes g) h).

Section Grouping.
Variable localeCompare : jsstring -> jsstring -> Z.

Definition duplicateGroupOf (acc : list Group.t * Store) (entry : jsstring * nat)
  : list Group.t * Store :=
  let '(duplicateGroups, h) := acc in
  let '(key, notes) := entry in
  let uniqueIds := newSet (List.map Note.id (readArray notes h)) in
  if (1 <? length (readArray notes h)) && (1 <? length uniqueIds) then
    let '(sorted, h1) := newArray (sort (byCreatedAt localeCompare) (readArray notes h)) h in
    let '(withCompany, h2) := newArray (List.filter hasCompany (readArray sorted h1)) h1 in
    match (if 0 <? length (readArray withCompany h2)
           then readArray withCompany h2 !! 0%nat
           else readArray sorted h2 !! 0%nat) with
    | Some keepNote =>
        let '(deleteNotes, h3) :=
          newArray
            (List.filter (fun n => negb (jsstring_eqb (Note.id n) (Note.id keepNote)))
               (readArray sorted h2)) h2 in
        (duplicateGroups ++ [Group.mk key sorted keepNote deleteNotes], h3)
    | None => (duplicateGroups, h2)
    end
  else (duplicateGroups, h).

Definition findDuplicateGroups (fuel : nat) (notes : nat) (h : Store)
  : option (list Group.t * Store) :=
  match forOf fuel notes 0 groupNote ([], []) h with
  | None => None
  | Some ((groupsWithCompany, groupsWithoutCompany), h1) =>
      let '(duplicatesMap, h2) := fold_left copyGroup groupsWithCompany ([], h1) in
      let '(duplicatesMap', h3) :=
        fold_left mergeGroup groupsWithoutCompany (duplicatesMap, h2) in
      Some (fold_left duplicateGroupOf duplicatesMap' ([], h3))
  end.

End Grouping.

End NoteArrays.

(** ** Custom field migration module

    A remote field value is of any shape: the embedding keeps its type
    [V] abstract, [None] standing for [null]. *)

Module FieldMigration.

Module CustomField.
Record t : Type := mk {
  id : jsstring;
  name : jsstring;
  type : jsstring;
  description : option jsstring }.
End CustomField.

Module Feature.
Record t : Type := mk {
  id : jsstring;
  name : jsstring;
  description : option jsstring;
  status : option jsstring }.
End Feature.

Inductive Action : Type :=
| will_update
| skipped_has_value
| skipped_source_empty.

Module FieldMapping.
Record t : Type := mk {
  id : jsstring;
  sourceFieldId : jsstring;
  targetFieldId : jsstring }.
End FieldMapping.

Module FieldData.
Record t (V : Type) : Type := mk { value : option V; hasValue : bool }.
Arguments mk {V} value hasValue.
Arguments value {V} t.
Arguments hasValue {V} t.
End FieldData.

Module PreviewItem.
Record t (V : Type) : Type := mk {
  featureId : jsstring;
  featureName : jsstring;
  sourceFieldId : jsstring;
  sourceFieldName : jsstring;
  targetFieldId : jsstring;
  targetFieldName : jsstring;
  sourceValue : option V;
  targetValue : option V;
  action : Action }.
Arguments mk {V}.
Arguments featureId {V} t.
Arguments featureName {V} t.
Arguments sourceFieldId {V} t.
Arguments sourceFieldName {V} t.
Arguments targetFieldId {V} t.
Arguments targetFieldName {V} t.
Arguments sourceValue {V} t.
Arguments targetValue {V} t.
Arguments action {V} t.
End PreviewItem.

Module MigrationResult.
Record t (V : Type) : Type := mk {
  featureId : jsstring;
  featureName : jsstring;
  sourceFieldName : jsstring;
  targetFieldName : jsstring;
  success : bool;
  action : jsstring;
  newValue : option V;
  response : jsstring;
  error : option jsstring }.
Arguments mk {V}.
Arguments featureId {V} t.
Arguments featureName {V} t.
Arguments sourceFieldName {V} t.
Arguments targetFieldName {V} t.
Arguments success {V} t.
Arguments action {V} t.
Arguments newValue {V} t.
Arguments response {V} t.
Arguments error {V} t.
End MigrationResult.

Module SetValueResult.
Record t : Type := mk {
  success : bool;
  response : option jsstring;
  error : option jsstring }.
End SetValueResult.

Inductive Call (V : Type) : Type :=
| LoadAllFeatures (r : Outcome (list Feature.t))
| GetBatchCustomFieldValues (customFieldId : jsstring) (featureIds : list jsstring)
    (r : Outcome (gmap jsstring (FieldData.t V)))
| SetCustomFieldValue (customFieldId featureId : jsstring) (value : option V)
    (fieldType : jsstring) (r : Outcome SetValueResult.t).
Arguments LoadAllFeatures {V} r.
Arguments GetBatchCustomFieldValues {V} customFieldId featureIds r.
Arguments SetCustomFieldValue {V} customFieldId featureId value fieldType r.

Definition isAction (a b : Action) : bool :=
  match a, b with
  | will_update, will_update => true
  | skipped_has_value, skipped_has_value => true
  | skipped_source_empty, skipped_source_empty => true
  | _, _ => false
  end.

(** [fieldMappings.filter(m => m.sourceFieldId && m.targetFieldId)] *)
Definition validMappings (fieldMappings : list FieldMapping.t) : list FieldMapping.t :=
  List.filter
    (fun m => negb (jsstring_eqb (FieldMapping.sourceFieldId m) [])
              && negb (jsstring_eqb (FieldMapping.targetFieldId m) []))
    fieldMappings.

(** [customFields.find(f => f.id === id)?.name || ''] *)
Definition fieldNameOf (customFields : list CustomField.t) (id : jsstring) : jsstring :=
  match List.find (fun f => jsstring_eqb (CustomField.id f) id) customFields with
  | Some f => CustomField.name f
  | None => []
  end.

Section Migration.
Context {World V : Type}.
Variable apiToken : jsstring.
(** [loadAllFeatures] drains the pages of the feature listing; the embedding
    takes the drained list, or the error thrown on the way. *)
Variable loadAllFeatures : World -> Outcome (list Feature.t) * World.
Variable getBatchCustomFieldValues :
  jsstring -> jsstring -> list jsstring -> World ->
  Outcome (gmap jsstring (FieldData.t V)) * World.
Variable setCustomFieldValue :
  jsstring -> jsstring -> jsstring -> option V -> jsstring -> World ->
  Outcome SetValueResult.t * World.

(** [results[feature.id] || { value: null, hasValue: false }] *)
Definition dataOf (results : gmap jsstring (FieldData.t V)) (featureId : jsstring)
  : FieldData.t V :=
  match results !! featureId with
  | Some d => d
  | None => FieldData.mk None false
  end.

(** The decision taken for one feature under one mapping. *)
Definition classify (onlyEmptyTargets : bool) (sourceData targetData : FieldData.t V)
  : Action :=
  if negb (FieldData.hasValue sourceData) then skipped_source_empty
  else if onlyEmptyTargets && FieldData.hasValue targetData then skipped_has_value
  else will_update.

(** The item pushed for one feature under one mapping. *)
Definition previewItemOf (customFields : list CustomField.t) (onlyEmptyTargets : bool)
  (mapping : FieldMapping.t) (sourceValues targetValues : gmap jsstring (FieldData.t V))
  (feature : Feature.t) : PreviewItem.t V :=
  let sourceData := dataOf sourceValues (Feature.id feature) in
  let targetData := dataOf targetValues (Feature.id feature) in
  PreviewItem.mk (Feature.id feature) (Feature.name feature)
    (FieldMapping.sourceFieldId mapping)
    (fieldNameOf customFields (FieldMapping.sourceFieldId mapping))
    (FieldMapping.targetFieldId mapping)
    (fieldNameOf customFields (FieldMapping.targetFieldId mapping))
    (FieldData.value sourceData) (FieldData.value targetData)
    (classify onlyEmptyTargets sourceData targetData).

(** The loop over the mappings: [None] when one of the two batch fetches
    of a mapping threw, which the [catch] of the handler receives. *)
Fixpoint previewMappings (customFields : list CustomField.t) (onlyEmptyTargets : bool)
  (allFeatures : list Feature.t) (mappings : list FieldMapping.t)
  (allItems : list (PreviewItem.t V))
  : Run World (Call V) (option (list (PreviewItem.t V))) :=
  match mappings with
  | [] => ret (Some allItems)
  | mapping :: rest =>
      let featureIds := List.map Feature.id allFeatures in
      let sourceId := FieldMapping.sourceFieldId mapping in
      let targetId := FieldMapping.targetFieldId mapping in
      perform rs <- await (getBatchCustomFieldValues apiToken sourceId featureIds)
                          (GetBatchCustomFieldValues sourceId featureIds) in
      perform rt <- await (getBatchCustomFieldValues apiToken targetId featureIds)
                          (GetBatchCustomFieldValues targetId featureIds) in
      match rs, rt with
      | Returned sourceValues, Returned targetValues =>
          previewMappings customFields onlyEmptyTargets allFeatures rest
            (allItems ++
             List.map (previewItemOf customFields onlyEmptyTargets mapping
                         sourceValues targetValues) allFeatures)
      | _, _ => ret None
      end
  end.

(** [handleLoadPreview], as the new value of the state [previewItems]. *)
Definition handleLoadPreview (fieldMappings : list FieldMapping.t)
  (customFields : list CustomField.t) (onlyEmptyTargets : bool)
  (previewItems : list (PreviewItem.t V))
  : Run World (Call V) (list (PreviewItem.t V)) :=
  match validMappings fieldMappings with
  | [] => ret previewItems
  | mappings =>
      perform r <- await loadAllFeatures LoadAllFeatures in
      match r with
      | Threw _ => ret []
      | Returned allFeatures =>
          if length allFeatures =? 0 then ret []
          else
            perform items <- previewMappings customFields onlyEmptyTargets
                               allFeatures mappings [] in
            match items with
            | Some allItems => ret allItems
            | None => ret []
            end
      end
  end.

(** The type sent for the target field of an item:
    [targetField?.type || 'text']. *)
Definition fieldTypeOf (customFields : list CustomField.t) (item : PreviewItem.t V)
  : jsstring :=
  match List.find (fun f => jsstring_eqb (CustomField.id f) (PreviewItem.targetFieldId item))
          customFields with
  | Some f => if jsstring_eqb (CustomField.type f) [] then js "text" else CustomField.type f
  | None => js "text"
  end.

(** The result recorded for an item after the answer of the sink. *)
Definition migrationEntry (item : PreviewItem.t V) (r : Outcome SetValueResult.t)
  : MigrationResult.t V :=
  match r with
  | Returned result =>
      MigrationResult.mk (PreviewItem.featureId item) (PreviewItem.featureName item)
        (PreviewItem.sourceFieldName item) (PreviewItem.targetFieldName item)
        (SetValueResult.success result) (js "updated") (PreviewItem.sourceValue item)
        (orEmpty (SetValueResult.response result)) (SetValueResult.error result)
  | Threw error =>
      MigrationResult.mk (PreviewItem.featureId item) (PreviewItem.featureName item)
        (PreviewItem.sourceFieldName item) (PreviewItem.targetFieldName item)
        false (js "failed") (PreviewItem.sourceValue item) [] (Some error)
  end.

(** The body of the loop of [handleExecuteMigration]. *)
Definition migrateOne (customFields : list CustomField.t) (total : nat)
  (i : nat) (item : PreviewItem.t V) (results : list (MigrationResult.t V))
  : Run World (Call V) (list (MigrationResult.t V)) :=
  let fieldType := fieldTypeOf customFields item in
  perform r <- await (setCustomFieldValue apiToken (PreviewItem.targetFieldId item)
                        (PreviewItem.featureId item) (PreviewItem.sourceValue item) fieldType)
                     (SetCustomFieldValue (PreviewItem.targetFieldId item)
                        (PreviewItem.featureId item) (PreviewItem.sourceValue item) fieldType) in
  let results' := results ++ [migrationEntry item r] in
  effect emit (EvProgress (length results') total) in
  ret results'.

Definition itemsToUpdate (previewItems : list (PreviewItem.t V)) : list (PreviewItem.t V) :=
  List.filter (fun item => isAction (PreviewItem.action item) will_update) previewItems.

Definition handleExecuteMigration (previewItems : list (PreviewItem.t V))
  (customFields : list CustomField.t)
  : Run World (Call V) (list (MigrationResult.t V)) :=
  let items := itemsToUpdate previewItems in
  effect emit (EvProgress 0 (length items)) in
  forEach (migrateOne customFields (length items)) 0 items [].

(** The answers of the sink found in a trace, in order, and whether an
    answer is a success. *)
Definition sinkOutcomes (t : list (Event (Call V))) : list (Outcome SetValueResult.t) :=
  List.flat_map
    (fun c => match c with SetCustomFieldValue _ _ _ _ r => [r] | _ => [] end)
    (calls t).

Definition succeeded (r : Outcome SetValueResult.t) : bool :=
  match r with
  | Returned result => SetValueResult.success result
  | Threw _ => false
  end.

(** The items the sink was called for, in order: target field, feature and
    value sent. *)
Definition sinkTargets (t : list (Event (Call V))) : list (jsstring * jsstring * option V) :=
  List.flat_map
    (fun c =>
       match c with
       | SetCustomFieldValue customFieldId featureId value _ _ =>
           [(customFieldId, featureId, value)]
       | _ => []
       end)
    (calls t).

(** What the sink is called with for an item, and whether a result is a
    failure. *)
Definition targetOf (item : PreviewItem.t V) : jsstring * jsstring * option V :=
  (PreviewItem.targetFieldId item, PreviewItem.featureId item, PreviewItem.sourceValue item).

Definition failedEntry (entry : MigrationResult.t V) : bool :=
  negb (MigrationResult.success entry).





End Migration.

End FieldMigration.

(** ** CSV bulk update module *)

Module BulkUpdate.

Definition CSVRow : Type := gmap jsstring jsstring.

Module CsvData.
Record t : Type := mk { columns : list jsstring; rows : list CSVRow }.
End CsvData.

Module CustomField.
Record t : Type := mk { id : jsstring; name : jsstring; type : jsstring }.
End CustomField.

Module ColumnMapping.
Record t : Type := mk { csvColumn : jsstring; mappedTo : option jsstring }.
End ColumnMapping.

Module FieldUpdateDetail.
Record t : Type := mk {
  fieldId : jsstring;
  fieldName : jsstring;
  oldValue : option jsstring;
  newValue : jsstring;
  skipped : bool }.
End FieldUpdateDetail.

Module UpdateResult.
Record t : Type := mk {
  rowIndex : nat;
  featureId : jsstring;
  featureName : jsstring;
  success : bool;
  error : option jsstring;
  fieldUpdates : list FieldUpdateDetail.t;
  allFieldsSkipped : option bool }.
End UpdateResult.

(** One element of the [customFields] argument of
    [updateFeatureCustomFields]. *)
Module FieldPayload.
Record t : Type := mk { fieldId : jsstring; fieldType : jsstring; value : number }.
End FieldPayload.

Module FeatureResult.
(** [data] is absent on failure; [name] is the name it carries, if any. *)
Record t : Type := mk { success : bool; data : option (option jsstring) }.
End FeatureResult.

Module ValueResult.
Record t (V : Type) : Type := mk { success : bool; hasValue : bool; value : option V }.
Arguments mk {V} success hasValue value.
Arguments success {V} t.
Arguments hasValue {V} t.
Arguments value {V} t.
End ValueResult.

Module UpdateResponse.
Record t : Type := mk { success : bool; error : option jsstring }.
End UpdateResponse.

Inductive Call (V : Type) : Type :=
| GetFeature (featureId : jsstring) (r : Outcome FeatureResult.t)
| GetCustomFieldValue (customFieldId featureId : jsstring) (r : Outcome (ValueResult.t V))
| UpdateFeatureCustomFields (featureId : jsstring) (customFields : list FieldPayload.t)
    (r : Outcome UpdateResponse.t).
Arguments GetFeature {V} featureId r.
Arguments GetCustomFieldValue {V} customFieldId featureId r.
Arguments UpdateFeatureCustomFields {V} featureId customFields r.

Definition isBlankValue (value : nullable) : bool :=
  match value with
  | JNull | JUndefined => true
  | JStr s =>
      let trimmed := trim s in
      jsstring_eqb trimmed [] || jsstring_eqb trimmed (js "-")
      || jsstring_eqb trimmed (js "'-")
  end.

(** [value.trim().replace(/%/g, '')] *)
Definition cleanedValue (value : jsstring) : jsstring :=
  replaceAll percent [] (trim value).

(** [parseFloat(cleanedValue)]: the numeric coercion of a cell. *)
Definition numericValue (value : jsstring) : number := parseFloat (cleanedValue value).

(** [columnMappings.filter(m => m.mappedTo && m.csvColumn !== uuidColumn)] *)
Definition getValueColumns (columnMappings : list ColumnMapping.t) (uuidColumn : jsstring)
  : list ColumnMapping.t :=
  List.filter
    (fun m =>
       match ColumnMapping.mappedTo m with
       | Some fieldId => negb (jsstring_eqb fieldId [])
       | None => false
       end
       && negb (jsstring_eqb (ColumnMapping.csvColumn m) uuidColumn))
    columnMappings.

(** The test of the first loop of [handleStartUpdate]: a UUID and at least
    one non-blank value. *)
Definition hasWork (uuidColumn : jsstring) (valueColumns : list ColumnMapping.t)
  (row : CSVRow) : bool :=
  let featureId := option_map trim (row !! uuidColumn) in
  negb (isBlankValue (of_option featureId))
  && existsb
       (fun mapping =>
          negb (isBlankValue (of_option (row !! ColumnMapping.csvColumn mapping))))
       valueColumns.

Fixpoint rowsToProcess_from (uuidColumn : jsstring) (valueColumns : list ColumnMapping.t)
  (i : nat) (rows : list CSVRow) : list (nat * CSVRow) :=
  match rows with
  | [] => []
  | row :: rest =>
      (if hasWork uuidColumn valueColumns row then [(i, row)] else [])
      ++ rowsToProcess_from uuidColumn valueColumns (S i) rest
  end.

Definition rowsToProcess (uuidColumn : jsstring) (valueColumns : list ColumnMapping.t)
  (rows : list CSVRow) : list (nat * CSVRow) :=
  rowsToProcess_from uuidColumn valueColumns 0 rows.

(** Whether the answer to an update is a success, and whether the answer
    to a value lookup shows an existing value. *)
Definition succeeded (r : Outcome UpdateResponse.t) : bool :=
  match r with
  | Returned result => UpdateResponse.success result
  | Threw _ => false
  end.

Definition populated {V} (r : Outcome (ValueResult.t V)) : bool :=
  match r with
  | Returned current => ValueResult.success current && ValueResult.hasValue current
  | Threw _ => false
  end.

(** The features looked up in a trace and the answers to the updates sent,
    in order. *)
Definition visited {V} (t : list (Event (Call V))) : list jsstring :=
  List.flat_map (fun c => match c with GetFeature featureId _ => [featureId] | _ => [] end)
    (calls t).

Definition updateOutcomes {V} (t : list (Event (Call V))) : list (Outcome UpdateResponse.t) :=
  List.flat_map
    (fun c => match c with UpdateFeatureCustomFields _ _ r => [r] | _ => [] end)
    (calls t).

Definition failed (r : UpdateResult.t) : bool := negb (UpdateResult.success r).

Definition fullySkipped (r : UpdateResult.t) : bool :=
  match UpdateResult.allFieldsSkipped r with
  | Some true => true
  | _ => false
  end.

(** The events that end an iteration not left by [continue]. *)
Definition rowEnding {V} (total i : nat) : list (Event (Call V)) :=
  EvProgress (i + 1) total
  :: (if ((i + 1) mod 10 =? 0) && (i + 1 <? total) then [EvDelay 200%N] else []).

(** The trace holds lookups of current values only. *)
Definition lookupsOnly {V} (t : list (Event (Call V))) : bool :=
  forallb
    (fun e => match e with EvCall (GetCustomFieldValue _ _ _) => true | _ => false end) t.

Section Update.
Context {World V : Type}.
Variable apiToken : jsstring.
Variable getFeature : jsstring -> jsstring -> World -> Outcome FeatureResult.t * World.
Variable getCustomFieldValue :
  jsstring -> jsstring -> jsstring -> World -> Outcome (ValueResult.t V) * World.
Variable updateFeatureCustomFields :
  jsstring -> jsstring -> list FieldPayload.t -> World -> Outcome UpdateResponse.t * World.
(** [formatFieldValue] and [String] on a number, taken as functions to the
    text they produce. *)
Variable formatFieldValue : option V -> jsstring.
Variable numberToString : number -> jsstring.

Variable customFields : list CustomField.t.
Variable preserveExistingValues : bool.

(** The lookup of the current value under [preserveExistingValues]: the old
    value to record and whether the field is skipped. *)
Definition existingValue (fieldId featureId : jsstring)
  : Run World (Call V) (option jsstring * bool) :=
  if preserveExistingValues then
    perform r <- await (getCustomFieldValue apiToken fieldId featureId)
                       (GetCustomFieldValue fieldId featureId) in
    match r with
    | Returned currentValueResult =>
        if ValueResult.success currentValueResult && ValueResult.hasValue currentValueResult
        then ret (Some (formatFieldValue (ValueResult.value currentValueResult)), true)
        else ret (None, false)
    | Threw _ => ret (None, false)
    end
  else ret (None, false).

(** The found field of a mapping, if its cell holds a number. *)
Definition numericField (row : CSVRow) (mapping : ColumnMapping.t)
  : option (CustomField.t * number) :=
  match List.find
          (fun f => bool_decide (Some (CustomField.id f) = ColumnMapping.mappedTo mapping))
          customFields with
  | None => None
  | Some field =>
      let csvValue := row !! ColumnMapping.csvColumn mapping in
      if isBlankValue (of_option csvValue) then None
      else
        let n := numericValue (orEmpty csvValue) in
        if isNaN n then None else Some (field, n)
  end.

(** The body of the loop over [valueColumns] for one row. *)
Definition updateField (featureId : jsstring) (row : CSVRow)
  (_ : nat) (mapping : ColumnMapping.t)
  (acc : list FieldUpdateDetail.t * list FieldPayload.t)
  : Run World (Call V) (list FieldUpdateDetail.t * list FieldPayload.t) :=
  let '(fieldUpdates, customFieldUpdates) := acc in
  match List.find
          (fun f => bool_decide (Some (CustomField.id f) = ColumnMapping.mappedTo mapping))
          customFields with
  | None => ret acc
  | Some field =>
      let csvValue := row !! ColumnMapping.csvColumn mapping in
      if isBlankValue (of_option csvValue) then ret acc
      else
        let numericValue := numericValue (orEmpty csvValue) in
        if isNaN numericValue then ret acc
        else
          perform existing <- existingValue (CustomField.id field) featureId in
          let '(oldValue, shouldSkip) := existing in
          let fieldUpdates' :=
            fieldUpdates ++
            [FieldUpdateDetail.mk (CustomField.id field) (CustomField.name field)
               oldValue (numberToString numericValue) shouldSkip] in
          let customFieldUpdates' :=
            if shouldSkip then customFieldUpdates
            else customFieldUpdates ++
                 [FieldPayload.mk (CustomField.id field) (CustomField.type field)
                    numericValue] in
          ret (fieldUpdates', customFieldUpdates')
  end.

(** The end of an iteration that was not left by [continue]: progress, then
    the rate limiting delay. *)
Definition endOfRow (total i : nat) (results : list UpdateResult.t)
  : Run World (Call V) (list UpdateResult.t) :=
  effect emit (EvProgress (i + 1) total) in
  effect rateLimitDelay 10 200 i total in
  ret results.

(** The name shown for a feature: the one fetched, else its UUID. *)
Definition featureNameOf (featureId : jsstring) (r : Outcome FeatureResult.t) : jsstring :=
  match r with
  | Returned featureResult =>
      if FeatureResult.success featureResult then
        match FeatureResult.data featureResult with
        | Some (Some name) => if jsstring_eqb name [] then featureId else name
        | Some None => featureId
        | None => featureId
        end
      else featureId
  | Threw _ => featureId
  end.

(** The result recorded for a row after the answer to its update. *)
Definition sentResult (rowIndex : nat) (featureId featureName : jsstring)
  (fieldUpdates : list FieldUpdateDetail.t) (r : Outcome UpdateResponse.t)
  : UpdateResult.t :=
  match r with
  | Returned result =>
      UpdateResult.mk rowIndex featureId featureName
        (UpdateResponse.success result) (UpdateResponse.error result)
        fieldUpdates (Some false)
  | Threw error =>
      UpdateResult.mk rowIndex featureId featureName false (Some error)
        fieldUpdates (Some false)
  end.

(** The feature a row is about: [row[uuidColumn]!.trim()]. *)
Definition rowFeatureId (uuidColumn : jsstring) (entry : nat * CSVRow) : jsstring :=
  trim (orEmpty (snd entry !! uuidColumn)).

(** The body of the main loop of [handleStartUpdate]. *)
Definition updateRow (uuidColumn : jsstring) (valueColumns : list ColumnMapping.t)
  (total : nat) (i : nat) (entry : nat * CSVRow) (results : list UpdateResult.t)
  : Run World (Call V) (list UpdateResult.t) :=
  let '(rowIndex, row) := entry in
  let featureId := trim (orEmpty (row !! uuidColumn)) in
  perform fr <- await (getFeature apiToken featureId) (GetFeature featureId) in
  let featureName := featureNameOf featureId fr in
  perform acc <- forEach (updateField featureId row) 0 valueColumns ([], []) in
  let '(fieldUpdates, customFieldUpdates) := acc in
  let allFieldsSkipped :=
    (0 <? length fieldUpdates) && (length customFieldUpdates =? 0) in
  if allFieldsSkipped then
    endOfRow total i
      (results ++
       [UpdateResult.mk rowIndex featureId featureName true None fieldUpdates (Some true)])
  else if length customFieldUpdates =? 0 then ret results
  else
    perform r <- await (updateFeatureCustomFields apiToken featureId customFieldUpdates)
                       (UpdateFeatureCustomFields featureId customFieldUpdates) in
    endOfRow total i
      (results ++ [sentResult rowIndex featureId featureName fieldUpdates r]).

(** The turns of the main loop, each taken alone: the body run on a row
    from no results, in the world the turn before left. A turn is given with
    the world it starts in. *)
Fixpoint turnsFrom (uuidColumn : jsstring) (valueColumns : list ColumnMapping.t)
  (total i : nat) (rows : list (nat * CSVRow)) (w : World)
  : list (World * (list UpdateResult.t * list (Event (Call V)) * World)) :=
  match rows with
  | [] => []
  | entry :: rest =>
      let turn := updateRow uuidColumn valueColumns total i entry [] w in
      (w, turn) :: turnsFrom uuidColumn valueColumns total (S i) rest (world_of turn)
  end.

(** [handleStartUpdate], as the new value of the state [updateResults]. *)
Definition handleStartUpdate (csvData : option CsvData.t) (uuidColumn : jsstring)
  (columnMappings : list ColumnMapping.t) (updateResults : list UpdateResult.t)
  : Run World (Call V) (list UpdateResult.t) :=
  match csvData with
  | None => ret updateResults
  | Some data =>
      if jsstring_eqb uuidColumn [] then ret updateResults
      else
        let valueColumns := getValueColumns columnMappings uuidColumn in
        let rows := rowsToProcess uuidColumn valueColumns (CsvData.rows data) in
        effect emit (EvProgress 0 (length rows)) in
        forEach (updateRow uuidColumn valueColumns (length rows)) 0 rows []
  end.

End Update.

End BulkUpdate.

(** ** CSV company import module: writing the custom fields of one company *)

Module CompanyImport.

Module CompanyFieldConfig.
Record t : Type := mk { id : jsstring; name : jsstring; type : jsstring }.
End CompanyFieldConfig.

Module SetFieldResult.
Record t : Type := mk { success : bool; error : option jsstring }.
End SetFieldResult.

(** [processedValue]: the text of the cell, or the number read from it. *)
Inductive ProcessedValue : Type :=
| TextValue (s : jsstring)
| NumberValue (n : number).

Module ImportResult.
Record t : Type := mk {
  rowIndex : nat;
  name : jsstring;
  domain : jsstring;
  action : jsstring;
  success : bool;
  companyId : option jsstring;
  error : option jsstring;
  fieldErrors : option (list jsstring) }.
End ImportResult.

Inductive Call : Type :=
| SetCompanyFieldValue (companyId fieldId fieldType : jsstring) (value : ProcessedValue)
    (r : Outcome SetFieldResult.t).

Section Importing.
Context {World : Type}.
Variable apiToken : jsstring.
Variable setCompanyFieldValue :
  jsstring -> jsstring -> jsstring -> jsstring -> ProcessedValue -> World ->
  Outcome SetFieldResult.t * World.
Variable companyFields : list CompanyFieldConfig.t.

(** The loop over [Object.entries(company.customFields)]. The call is not
    guarded by a [try]: an error it throws leaves the loop and the
    handler. *)
Fixpoint setFieldValues (companyId : jsstring) (entries : list (jsstring * jsstring))
  (fieldErrors : list jsstring) : Run World Call (Outcome (list jsstring)) :=
  match entries with
  | [] => ret (Returned fieldErrors)
  | (fieldId, value) :: rest =>
      if jsstring_eqb value [] then setFieldValues companyId rest fieldErrors
      else
        let fieldConfig :=
          List.find (fun f => jsstring_eqb (CompanyFieldConfig.id f) fieldId)
            companyFields in
        let isNumber :=
          match fieldConfig with
          | Some f => jsstring_eqb (CompanyFieldConfig.type f) (js "number")
          | None => false
          end in
        let numValue := parseFloat value in
        if isNumber && isNaN numValue then
          setFieldValues companyId rest
            (fieldErrors ++
             [js "Invalid number value for "
              ++ match fieldConfig with
                 | Some f => CompanyFieldConfig.name f
                 | None => []
                 end
              ++ js ": " ++ value])
        else
          let processedValue := if isNumber then NumberValue numValue else TextValue value in
          let fieldType :=
            match fieldConfig with
            | Some f =>
                if jsstring_eqb (CompanyFieldConfig.type f) [] then js "text"
                else CompanyFieldConfig.type f
            | None => js "text"
            end in
          perform r <- await (setCompanyFieldValue apiToken companyId fieldId fieldType
                                processedValue)
                             (SetCompanyFieldValue companyId fieldId fieldType
                                processedValue) in
          match r with
          | Threw error => ret (Threw error)
          | Returned setResult =>
              if SetFieldResult.success setResult then
                setFieldValues companyId rest fieldErrors
              else
                let fieldName :=
                  match fieldConfig with
                  | Some f =>
                      if jsstring_eqb (CompanyFieldConfig.name f) [] then fieldId
                      else CompanyFieldConfig.name f
                  | None => fieldId
                  end in
                setFieldValues companyId rest
                  (fieldErrors ++
                   [fieldName ++ js ": " ++ template (SetFieldResult.error setResult)])
          end
  end.

(** The result pushed for a company whose fields were written. *)
Definition fieldsResult (rowIndex : nat) (name domain action companyId : jsstring)
  (fieldErrors : list jsstring) : ImportResult.t :=
  ImportResult.mk rowIndex name domain action (length fieldErrors =? 0)
    (Some companyId) None
    (if 0 <? length fieldErrors then Some fieldErrors else None).

End Importing.

End CompanyImport.

(** ** Concrete remotes and inputs of the examples *)

Module Demo.

Definition numbered (prefix : string) (n : nat) : jsstring :=
  js prefix ++ digitsOf (N.of_nat n).

(** A stand-in for the text of a number, enough for the examples. *)
Definition numberText (x : number) : jsstring :=
  match x with
  | NaN => js "NaN"
  | Infinity neg => (if neg then js "-" else []) ++ js "Infinity"
  | Finite neg m e =>
      (if neg then js "-" else []) ++ digitsOf m
      ++ (if (e =? 0)%Z then []
          else js "e" ++ (if (e <? 0)%Z then js "-" else []) ++ digitsOf (Z.to_N (Z.abs e)))
  end.

(** *** Field migration: ten items, a sink whose fifth call fails *)

Definition previewItemNo (n : nat) : FieldMigration.PreviewItem.t jsstring :=
  FieldMigration.PreviewItem.mk (numbered "f" n) (numbered "Feature " n)
    (js "src") (js "Source") (js "tgt") (js "Target") (Some (js "v")) None
    FieldMigration.will_update.

Definition tenItems : list (FieldMigration.PreviewItem.t jsstring) :=
  List.map previewItemNo (seq 0 10).

(** The world counts the calls made to the sink. *)
Definition sinkFailingFifth (_ _ _ : jsstring) (_ : option jsstring) (_ : jsstring)
  (w : nat) : Outcome FieldMigration.SetValueResult.t * nat :=
  (if w =? 4
   then Returned (FieldMigration.SetValueResult.mk false None
                    (Some (js "Productboard server error")))
   else Returned (FieldMigration.SetValueResult.mk true (Some (js "{}")) None),
   S w).

(** One feature whose source and target fields both hold a value. *)
Definition bothPresent (_ customFieldId : jsstring) (_ : list jsstring) (w : unit)
  : Outcome (gmap jsstring (FieldMigration.FieldData.t jsstring)) * unit :=
  (Returned {[ js "f0" := FieldMigration.FieldData.mk (Some customFieldId) true ]}, w).


Definition featureZero : FieldMigration.Feature.t :=
  FieldMigration.Feature.mk (js "f0") (js "Feature 0") None None.

(** The listing of the features holds [featureZero] alone. *)
Definition oneFeature (w : unit) : Outcome (list FieldMigration.Feature.t) * unit :=
  (Returned [featureZero], w).

Definition srcToTgt : FieldMigration.FieldMapping.t :=
  FieldMigration.FieldMapping.mk (js "m1") (js "src") (js "tgt").

(** *** Bulk update: columns [uuid], [a] and [b], fields [fa] and [fb] *)

Definition fieldA : BulkUpdate.CustomField.t :=
  BulkUpdate.CustomField.mk (js "fa") (js "Score") (js "number").
Definition fieldB : BulkUpdate.CustomField.t :=
  BulkUpdate.CustomField.mk (js "fb") (js "Reach") (js "number").

Definition columnMappings : list BulkUpdate.ColumnMapping.t :=
  [ BulkUpdate.ColumnMapping.mk (js "uuid") None;
    BulkUpdate.ColumnMapping.mk (js "a") (Some (js "fa"));
    BulkUpdate.ColumnMapping.mk (js "b") (Some (js "fb")) ].

Definition rowOf (uuid a b : jsstring) : BulkUpdate.CSVRow :=
  <[ js "uuid" := uuid ]> (<[ js "a" := a ]> (<[ js "b" := b ]> ∅)).

Definition csvOf (rows : list BulkUpdate.CSVRow) : option BulkUpdate.CsvData.t :=
  Some (BulkUpdate.CsvData.mk [js "uuid"; js "a"; js "b"] rows).

Definition featureFound {W} (_ _ : jsstring) (w : W)
  : Outcome BulkUpdate.FeatureResult.t * W :=
  (Returned (BulkUpdate.FeatureResult.mk true (Some (Some (js "Feature")))), w).

(** Field [fa] already holds the value 5; every other field is empty. *)
Definition onlyFaPopulated {W} (_ customFieldId _ : jsstring) (w : W)
  : Outcome (BulkUpdate.ValueResult.t jsstring) * W :=
  (if jsstring_eqb customFieldId (js "fa")
   then Returned (BulkUpdate.ValueResult.mk true true (Some (js "5")))
   else Returned (BulkUpdate.ValueResult.mk true false None),
   w).

Definition updateAccepted {W} (_ _ : jsstring) (_ : list BulkUpdate.FieldPayload.t) (w : W)
  : Outcome BulkUpdate.UpdateResponse.t * W :=
  (Returned (BulkUpdate.UpdateResponse.mk true None), w).

Definition updateRefused {W} (_ _ : jsstring) (_ : list BulkUpdate.FieldPayload.t) (w : W)
  : Outcome BulkUpdate.UpdateResponse.t * W :=
  (Returned (BulkUpdate.UpdateResponse.mk false
               (Some (js "Field update failed: Productboard server error"))), w).

(** The world counts the updates sent; the fifth is refused. *)
Definition updateRefusedFifth (_ _ : jsstring) (_ : list BulkUpdate.FieldPayload.t) (w : nat)
  : Outcome BulkUpdate.UpdateResponse.t * nat :=
  (if w =? 4
   then Returned (BulkUpdate.UpdateResponse.mk false
                    (Some (js "Field update failed: Productboard server error")))
   else Returned (BulkUpdate.UpdateResponse.mk true None),
   S w).

(** A row with one field populated remotely ([a], field [fa]) and one empty
    ([b], field [fb]); a row whose [a] cell is not a number; ten rows with a
    number in [a] only. *)
Definition partlyPopulatedRow : BulkUpdate.CSVRow := rowOf (js "f-1") (js "10") (js "20%").
Definition unparsableRow : BulkUpdate.CSVRow := rowOf (js "f-1") (js "abc") (js "7").
Definition tenRows : list BulkUpdate.CSVRow :=
  List.map (fun n => rowOf (numbered "f" n) (digitsOf (N.of_nat (S n))) []) (seq 0 10).

(** Eleven rows, each with a number for field [fa]. *)
Definition elevenRows : list BulkUpdate.CSVRow :=
  List.map (fun n => rowOf (numbered "f" n) (digitsOf (N.of_nat (S n))) []) (seq 0 11).

Definition formatText (value : option jsstring) : jsstring := orEmpty value.

(** The bulk update run on the rows given, with the remote given. *)
Definition bulkUpdate {W}
  (updateFeatureCustomFields :
     jsstring -> jsstring -> list BulkUpdate.FieldPayload.t -> W ->
     Outcome BulkUpdate.UpdateResponse.t * W)
  (preserveExistingValues : bool) (rows : list BulkUpdate.CSVRow)
  : Run W (BulkUpdate.Call jsstring) (list BulkUpdate.UpdateResult.t) :=
  BulkUpdate.handleStartUpdate (js "token") featureFound onlyFaPopulated
    updateFeatureCustomFields formatText numberText [fieldA; fieldB]
    preserveExistingValues (csvOf rows) (js "uuid") columnMappings [].

(** *** Duplicate notes: twelve copies of one note, a remote that deletes *)

Definition copyNo (n : nat) : DuplicateNotes.Note.t :=
  DuplicateNotes.Note.mk (numbered "n" n) (Some (js "t")) (Some (js "x"))
    (Some (js "C1")) (Some (js "2020-01-" ++ digitsOf (N.of_nat (10 + n)))) None.

Definition twelveCopies : list DuplicateNotes.Note.t := List.map copyNo (seq 0 12).

(** A group of fifty-two notes of which fifty-one are to delete. *)
Definition plainNote (n : nat) : DuplicateNotes.Note.t :=
  DuplicateNotes.Note.mk (numbered "n" n) (Some (js "t")) (Some (js "x"))
    (Some (js "C1")) None None.

Definition fiftyOneToDelete : list DuplicateNotes.DuplicateGroup.t :=
  [ DuplicateNotes.DuplicateGroup.mk (js "x|||t|||C1") (List.map plainNote (seq 0 52))
      (plainNote 0) (List.map plainNote (seq 1 51)) ].

Definition noteDeleted {W} (_ _ : jsstring) (w : W)
  : Outcome Backend.DeleteNoteResult.t * W :=
  (Returned (Backend.DeleteNoteResult.mk true None (Some 204%N)), w).

(** *** Company import: a number field and a text field *)

Definition companyFields : list CompanyImport.CompanyFieldConfig.t :=
  [ CompanyImport.CompanyFieldConfig.mk (js "arr") (js "ARR") (js "number");
    CompanyImport.CompanyFieldConfig.mk (js "tier") (js "Tier") (js "text") ].

Definition fieldStored {W} (_ _ _ _ : jsstring) (_ : CompanyImport.ProcessedValue) (w : W)
  : Outcome CompanyImport.SetFieldResult.t * W :=
  (Returned (CompanyImport.SetFieldResult.mk true None), w).

(** The value of the specification's example, [He said, "hi"]. *)
Definition heSaid : jsstring := js "He said, " ++ [dquote] ++ js "hi" ++ [dquote].

(** A remote that answers every request with the status it was built
    with. *)
Definition fetchStatus (status : N) (_ : Backend.Request.t) (w : unit)
  : Outcome Backend.HttpResponse.t * unit :=
  (Returned (Backend.HttpResponse.mk status (Returned (js "gone"))), w).

End Demo.

(** ** More of the built-ins *)

Module JsText.

(** [cells.join(sep)] on an array of strings. *)
Fixpoint join (sep : jsstring) (cells : list jsstring) : jsstring :=
  match cells with
  | [] => []
  | c :: rest =>
      match rest with
      | [] => c
      | _ :: _ => c ++ sep ++ join sep rest
      end
  end.

(** The members an object literal inherits from [Object.prototype]. *)
Definition PROTO : jsstring := js "__proto__".

Definition inheritedKeys : list jsstring :=
  [ js "constructor"; js "hasOwnProperty"; js "isPrototypeOf";
    js "propertyIsEnumerable"; js "toLocaleString"; js "toString"; js "valueOf";
    js "__defineGetter__"; js "__defineSetter__"; js "__lookupGetter__";
    js "__lookupSetter__"; PROTO ].

(** [value || undefined] and the test [if (value)] on a string that may be
    [null] or left out: the empty string counts as none. *)
Definition given (o : option jsstring) : option jsstring :=
  match o with
  | Some s => if jsstring_eqb s [] then None else Some s
  | None => None
  end.

End JsText.
Import JsText.

(** ** CSV files: [parseCSV] and the failure report of the note import *)

Module CsvFile.
Import Csv BulkUpdate.

(** [csvText.split('\n').filter(line => line.trim())] *)
Definition nonBlankLines (csvText : jsstring) : list jsstring :=
  List.filter (fun line => negb (jsstring_eqb (trim line) [])) (split [newline] csvText).

(** [row[col] = value] on the object literal of a row: the own properties
    of the row are the keys of the map; assigning a string to [__proto__]
    leaves the object as it was. *)
Definition setCell (row : CSVRow) (col value : jsstring) : CSVRow :=
  if jsstring_eqb col PROTO then row else <[ col := value ]> row.

(** [columns.forEach((col, idx) => { row[col] = values[idx] || '' })] *)
Fixpoint fillRow (values : list jsstring) (idx : nat) (columns : list jsstring)
  (row : CSVRow) : CSVRow :=
  match columns with
  | [] => row
  | col :: rest =>
      fillRow values (S idx) rest (setCell row col (orEmpty (values !! idx)))
  end.

Definition parseCSV (csvText : jsstring) : CsvData.t :=
  match nonBlankLines csvText with
  | [] => CsvData.mk [] []
  | header :: lines =>
      let columns := parseCSVLine header in
      CsvData.mk columns
        (List.map (fun line => fillRow (parseCSVLine line) 0 columns ∅) lines)
  end.

(** What [row[col]] reads: the text of an own property, [undefined], or a
    member inherited from [Object.prototype], which is no string. *)
Inductive Cell : Type :=
| Text (s : jsstring)
| Missing
| Inherited.

Definition getCell (row : CSVRow) (col : jsstring) : Cell :=
  if jsstring_eqb col PROTO then Inherited
  else
    match row !! col with
    | Some s => Text s
    | None => if existsb (jsstring_eqb col) inheritedKeys then Inherited else Missing
    end.

Module FailedRow.
Record t : Type := mk { rowIndex : nat; rowData : CSVRow; error : jsstring }.
End FailedRow.

(** [escapeCSV(f.rowData[col] || '')]: [None] when the cell is no string,
    where [value.includes] is not a function and the call throws. *)
Definition reportCell (row : CSVRow) (col : jsstring) : option jsstring :=
  match getCell row col with
  | Text s => Some (escapeCSV s)
  | Missing => Some (escapeCSV [])
  | Inherited => None
  end.

Definition reportRow (columns : list jsstring) (f : FailedRow.t) : option jsstring :=
  match mapM (reportCell (FailedRow.rowData f)) columns with
  | Some values => Some (join [comma] (values ++ [escapeCSV (FailedRow.error f)]))
  | None => None
  end.

(** [downloadFailureReport], as the content of the file it saves. *)
Inductive Download : Type :=
| NotOffered
| TypeError
| Saved (csvContent : jsstring).

Definition downloadFailureReport (csvData : option CsvData.t)
  (failedRows : list FailedRow.t) : Download :=
  match csvData with
  | None => NotOffered
  | Some data =>
      if length failedRows =? 0 then NotOffered
      else
        let headers := CsvData.columns data ++ [js "Error"] in
        let headerRow := join [comma] (List.map escapeCSV headers) in
        match mapM (reportRow (CsvData.columns data)) failedRows with
        | Some dataRows => Saved (join [newline] (headerRow :: dataRows))
        | None => TypeError
        end
  end.

End CsvFile.

(** ** Backend: the actions that write

    [updateFeatureCustomFields] and [createNote]. A request carries the
    object the handler gives to [JSON.stringify] as its body; a response
    carries its status, the outcome of [response.text()] and, for
    [createNote], the outcome of reading the created note out of it. *)

Module BackendWrites.
Import Backend.

Module WriteRequest.
Record t (B : Type) : Type := mk {
  url : jsstring;
  method : jsstring;
  headers : list (jsstring * jsstring);
  body : B }.
Arguments mk {B} url method headers body.
Arguments url {B} t.
Arguments method {B} t.
Arguments headers {B} t.
Arguments body {B} t.
End WriteRequest.

(** [{ ...getHeaders(apiToken), "Content-Type": "application/json" }] *)
Definition jsonHeaders (apiToken : jsstring) : list (jsstring * jsstring) :=
  getHeaders apiToken ++ [ (js "Content-Type", js "application/json") ].

(** [response.ok] *)
Definition isOk (status : N) : bool := ((200 <=? status) && (status <=? 299))%N.

(** An exchange with the remote: the request and what awaiting it gave. *)
Module Exchange.
Record t (B R : Type) : Type := mk { request : WriteRequest.t B; answer : Outcome R }.
Arguments mk {B R} request answer.
Arguments request {B R} t.
Arguments answer {B R} t.
End Exchange.

(** *** [updateFeatureCustomFields] *)

Module FieldWrite.
Record t (V : Type) : Type := mk { fieldId : jsstring; fieldType : jsstring; value : V }.
Arguments mk {V} fieldId fieldType value.
Arguments fieldId {V} t.
Arguments fieldType {V} t.
Arguments value {V} t.
End FieldWrite.

(** [{ data: { type: field.fieldType, value: field.value } }] *)
Module FieldBody.
Record t (V : Type) : Type := mk { type : jsstring; value : V }.
Arguments mk {V} type value.
Arguments type {V} t.
Arguments value {V} t.
End FieldBody.

Module UpdateResult.
Record t : Type := mk { success : bool; error : option jsstring }.
End UpdateResult.

Definition valueUrl (fieldId featureId : jsstring) : jsstring :=
  API_BASE_URL ++ js "/hierarchy-entities/custom-fields-values/value?customField.id="
  ++ fieldId ++ js "&hierarchyEntity.id=" ++ featureId.

Definition putRequest {V} (apiToken featureId : jsstring) (field : FieldWrite.t V)
  : WriteRequest.t (FieldBody.t V) :=
  WriteRequest.mk (valueUrl (FieldWrite.fieldId field) featureId) (js "PUT")
    (jsonHeaders apiToken)
    (FieldBody.mk (FieldWrite.fieldType field) (FieldWrite.value field)).

(** Whether an answer is a response with [response.ok]. *)
Definition answeredOk (r : Outcome HttpResponse.t) : bool :=
  match r with
  | Returned response => isOk (HttpResponse.status response)
  | Threw _ => false
  end.

Section Fields.
Context {World V : Type}.
Variable fetch :
  WriteRequest.t (FieldBody.t V) -> World -> Outcome HttpResponse.t * World.
Variable toLowerCase : jsstring -> jsstring.

(** The error pushed for an answer that is not ok, if any. *)
Definition fieldError (r : Outcome HttpResponse.t) : list jsstring :=
  match r with
  | Threw message =>
      [js "Field update failed: " ++ sanitizeCatchError toLowerCase message]
  | Returned response =>
      if isOk (HttpResponse.status response) then []
      else
        match HttpResponse.text response with
        | Threw message =>
            [js "Field update failed: " ++ sanitizeCatchError toLowerCase message]
        | Returned errorText =>
            [js "Field update failed: "
             ++ sanitizeApiError (HttpResponse.status response) errorText]
        end
  end.

(** The body of [for (const field of customFields)]. *)
Definition updateOneField (apiToken featureId : jsstring) (i : nat)
  (field : FieldWrite.t V) (errors : list jsstring)
  : Run World (Exchange.t (FieldBody.t V) HttpResponse.t) (list jsstring) :=
  let request := putRequest apiToken featureId field in
  perform r <- await (fetch request) (Exchange.mk request) in
  ret (errors ++ fieldError r).

Definition updateFeatureCustomFields (apiToken featureId : jsstring)
  (customFields : list (FieldWrite.t V))
  : Run World (Exchange.t (FieldBody.t V) HttpResponse.t) UpdateResult.t :=
  perform errors <- forEach (updateOneField apiToken featureId) 0 customFields [] in
  if 0 <? length errors
  then ret (UpdateResult.mk false (Some (join (js "; ") errors)))
  else ret (UpdateResult.mk true None).

End Fields.

(** *** [createNote] *)

(** The object given to [JSON.stringify]: [user], [owner] and [tags] are
    set only under their conditions. *)
Module NoteBody.
Record t : Type := mk {
  title : jsstring;
  content : jsstring;
  user : option jsstring;
  owner : option jsstring;
  tags : option (list jsstring) }.
End NoteBody.

(** The response to the creation: [created] is [data.data || data] for the
    body read by [response.json()], or what reading it threw. *)
Module NoteResponse.
Record t (D : Type) : Type := mk {
  status : N;
  text : Outcome jsstring;
  created : Outcome D }.
Arguments mk {D} status text created.
Arguments status {D} t.
Arguments text {D} t.
Arguments created {D} t.
End NoteResponse.

Module CreateNoteResult.
Record t (D : Type) : Type := mk {
  success : bool;
  data : option D;
  error : option jsstring;
  createdWithoutOwner : bool }.
Arguments mk {D} success data error createdWithoutOwner.
Arguments success {D} t.
Arguments data {D} t.
Arguments error {D} t.
Arguments createdWithoutOwner {D} t.
End CreateNoteResult.

Section Notes.
Context {World D : Type}.
Variable fetch :
  WriteRequest.t NoteBody.t -> World -> Outcome (NoteResponse.t D) * World.
Variable toLowerCase : jsstring -> jsstring.

(** The request of [makeRequest(includeOwner)]. *)
Definition noteRequest (apiToken title content : jsstring)
  (userEmail ownerEmail : option jsstring) (tags : option (list jsstring))
  (includeOwner : bool) : WriteRequest.t NoteBody.t :=
  WriteRequest.mk (API_BASE_URL ++ js "/notes") (js "POST") (jsonHeaders apiToken)
    (NoteBody.mk title content (given userEmail)
       (if includeOwner then given ownerEmail else None)
       (match tags with
        | Some l => if 0 <? length l then Some l else None
        | None => None
        end)).

Definition isOwnerError (status : N) (errorText : jsstring) : bool :=
  let errorLower := toLowerCase errorText in
  includes (js "owner") errorLower || includes (js "member") errorLower
  || ((status =? 400)%N && includes (js "user") errorLower).

Definition failedWith (error : jsstring) : CreateNoteResult.t D :=
  CreateNoteResult.mk false None (Some error) false.

(** The end of a request whose response is ok, or is not and is not
    looked into further. *)
Definition noteResult (withoutOwner : bool) (response : NoteResponse.t D)
  : CreateNoteResult.t D :=
  if isOk (NoteResponse.status response) then
    match NoteResponse.created response with
    | Returned data => CreateNoteResult.mk true (Some data) None withoutOwner
    | Threw message => failedWith (sanitizeCatchError toLowerCase message)
    end
  else
    match NoteResponse.text response with
    | Returned errorText =>
        failedWith (sanitizeApiError (NoteResponse.status response) errorText)
    | Threw message => failedWith (sanitizeCatchError toLowerCase message)
    end.

Definition createNote (apiToken title content : jsstring)
  (userEmail ownerEmail : option jsstring) (tags : option (list jsstring))
  : Run World (Exchange.t NoteBody.t (NoteResponse.t D)) (CreateNoteResult.t D) :=
  let first := noteRequest apiToken title content userEmail ownerEmail tags true in
  perform r <- await (fetch first) (Exchange.mk first) in
  match r with
  | Threw message => ret (failedWith (sanitizeCatchError toLowerCase message))
  | Returned response =>
      if negb (isOk (NoteResponse.status response))
         && match given ownerEmail with Some _ => true | None => false end
      then
        match NoteResponse.text response with
        | Threw message => ret (failedWith (sanitizeCatchError toLowerCase message))
        | Returned errorText =>
            if isOwnerError (NoteResponse.status response) errorText then
              let second :=
                noteRequest apiToken title content userEmail ownerEmail tags false in
              perform r2 <- await (fetch second) (Exchange.mk second) in
              match r2 with
              | Threw message =>
                  ret (failedWith (sanitizeCatchError toLowerCase message))
              | Returned response2 => ret (noteResult true response2)
              end
            else
              ret (failedWith
                     (sanitizeApiError (NoteResponse.status response) errorText))
        end
      else ret (noteResult false response)
  end.

End Notes.

End BackendWrites.

(** ** The keys of the duplicate groups *)

Module NoteKeys.
Import DuplicateNotes.

(** The content and the title a note is grouped by. *)
Definition contentOf (note : Note.t) : jsstring := trim (orEmpty (Note.content note)).
Definition titleOf (note : Note.t) : jsstring := trim (orEmpty (Note.title note)).

(** The character of the separator, [|]. *)
Definition bar : N := 124%N.

(** A note whose content and title, trimmed, hold no [|]. *)
Definition plain (note : Note.t) : Prop :=
  ~ In bar (contentOf note) /\ ~ In bar (titleOf note).

(** The first two parts of the key are the content and the title of the
    note. *)
Definition keyed (k : jsstring) (note : Note.t) : Prop :=
  split SEP k !! 0%nat = Some (contentOf note)
  /\ split SEP k !! 1%nat = Some (titleOf note).

(** The key of a note with a company. *)
Definition fullKey (note : Note.t) (companyId : jsstring) : jsstring :=
  contentOf note ++ SEP ++ titleOf note ++ SEP ++ companyId.

(** The groups of a map are keyed by what their notes are grouped by; a
    note with a company is in the group of its full key. *)
Definition keyedMap (m : jsmap (list Note.t)) : Prop :=
  forall k g n, In (k, g) m -> In n g ->
    keyed k n
    /\ (forall companyId, companyIdOf n = Some companyId -> k = fullKey n companyId).

(** The groups of the notes without a company. *)
Definition looseMap (m : jsmap (list Note.t)) : Prop :=
  forall k g n, In (k, g) m -> In n g ->
    keyed k n /\ companyIdOf n = None /\ plain n.

End NoteKeys.

(** ** Reading the trace of the deletion *)

Module DeletionTrace.
Import DuplicateNotes.

(** The ids [deleteNote] was called with, and what the calls gave. *)
Definition deletedIds (t : list (Event Call)) : list jsstring :=
  List.map (fun c => match c with DeleteNote _ noteId _ => noteId end) (calls t).

Definition deletionOutcomes (t : list (Event Call))
  : list (Outcome Backend.DeleteNoteResult.t) :=
  List.map (fun c => match c with DeleteNote _ _ r => r end) (calls t).

End DeletionTrace.

(** ** CSV bulk update: the preview

    [handleLoadPreview] of the bulk update reads the file only. *)

Module BulkPreview.
Import BulkUpdate.

Inductive Status : Type :=
| valid
| not_found
| error.

Module PreviewItem.
Record t : Type := mk {
  rowIndex : nat;
  featureId : jsstring;
  featureName : jsstring;
  updates : list (jsstring * jsstring);
  status : Status;
  error : option jsstring }.
End PreviewItem.

Section Preview.
Variable numberToString : number -> jsstring.
Variable customFields : list CustomField.t.

(** The loop over [valueColumns]: the name of the field and the text of the
    number for every mapped cell that holds one. *)
Definition previewUpdates (valueColumns : list ColumnMapping.t) (row : CSVRow)
  : list (jsstring * jsstring) :=
  List.flat_map
    (fun mapping =>
       match List.find
               (fun f => bool_decide (Some (CustomField.id f) = ColumnMapping.mappedTo mapping))
               customFields with
       | None => []
       | Some field =>
           let value := row !! ColumnMapping.csvColumn mapping in
           if isBlankValue (of_option value) then []
           else
             let numericValue := numericValue (orEmpty value) in
             if isNaN numericValue then []
             else [(CustomField.name field, numberToString numericValue)]
       end)
    valueColumns.

(** The item pushed for the row at index [i]. *)
Definition previewRow (uuidColumn : jsstring) (valueColumns : list ColumnMapping.t)
  (i : nat) (row : CSVRow) : PreviewItem.t :=
  let missing :=
    PreviewItem.mk i (js "(empty)") [] [] error (Some (js "Missing feature UUID")) in
  match option_map trim (row !! uuidColumn) with
  | None => missing
  | Some featureId =>
      if jsstring_eqb featureId [] || jsstring_eqb featureId (js "-") then missing
      else
        let updates := previewUpdates valueColumns row in
        if length updates =? 0 then
          PreviewItem.mk i featureId [] [] error
            (Some (js "No values to update (all mapped columns are blank)"))
        else PreviewItem.mk i featureId [] updates valid None
  end.

(** [handleLoadPreview], as the new value of the state [previewItems]. *)
Definition handleLoadPreview (csvData : option CsvData.t) (uuidColumn : jsstring)
  (columnMappings : list ColumnMapping.t) (previewItems : list PreviewItem.t)
  : list PreviewItem.t :=
  match csvData with
  | None => previewItems
  | Some data =>
      if jsstring_eqb uuidColumn [] then previewItems
      else
        let valueColumns := getValueColumns columnMappings uuidColumn in
        imap (previewRow uuidColumn valueColumns) (take 100 (CsvData.rows data))
  end.

End Preview.

(** What the update records for a row, against the preview of that row. *)
Definition recorded (numberToString : number -> jsstring)
  (customFields : list CustomField.t) (uuidColumn : jsstring)
  (valueColumns : list ColumnMapping.t) (rows : list CSVRow) (r : UpdateResult.t) : Prop :=
  exists row,
    rows !! UpdateResult.rowIndex r = Some row
    /\ hasWork uuidColumn valueColumns row = true
    /\ UpdateResult.featureId r = trim (orEmpty (row !! uuidColumn))
    /\ UpdateResult.fieldUpdates r <> []
    /\ List.map (fun d => (FieldUpdateDetail.fieldName d, FieldUpdateDetail.newValue d))
         (UpdateResult.fieldUpdates r)
       = previewUpdates numberToString customFields valueColumns row.

(** The lookups of current values in a trace of the update. *)
Definition valueLookups {V} (t : list (Event (Call V))) : list (jsstring * jsstring) :=
  List.flat_map
    (fun c =>
       match c with
       | GetCustomFieldValue customFieldId featureId _ => [(customFieldId, featureId)]
       | _ => []
       end) (calls t).

(** A result whose fields were all sent: none skipped, none with an old
    value. *)
Definition allSent (r : UpdateResult.t) : Prop :=
  fullySkipped r = false
  /\ Forall (fun d => FieldUpdateDetail.skipped d = false
                      /\ FieldUpdateDetail.oldValue d = None)
       (UpdateResult.fieldUpdates r).

End BulkPreview.

(** ** Custom field migration: [loadAllFeatures]

    The [do ... while (nextPage)] loop over the pages of the feature
    listing. The loop ends when the remote says so; [fuel] bounds the pages
    asked for, and without fuel left the loop has not ended. *)

Module FeaturePaging.
Import FieldMigration.

Module ListResult.
Record t : Type := mk {
  success : bool;
  data : list Feature.t;
  nextPage : option jsstring }.
End ListResult.

Inductive Call : Type :=
| ListFeatures (pageToken : option jsstring) (r : Outcome ListResult.t).

Section Loading.
Context {World : Type}.
Variable listFeatures :
  jsstring -> option jsstring -> World -> Outcome ListResult.t * World.

(** The loop from one iteration on: [Some (Threw e)] when [listFeatures]
    throws, which rejects the promise of [loadAllFeatures]. *)
Fixpoint loadPages (apiToken : jsstring) (fuel : nat) (nextPage : option jsstring)
  (allFeatures : list Feature.t)
  : Run World Call (option (Outcome (list Feature.t))) :=
  match fuel with
  | O => ret None
  | S fuel' =>
      perform r <- await (listFeatures apiToken (given nextPage))
                         (ListFeatures (given nextPage)) in
      match r with
      | Threw e => ret (Some (Threw e))
      | Returned result =>
          if negb (ListResult.success result) then ret (Some (Returned allFeatures))
          else
            let allFeatures' := allFeatures ++ ListResult.data result in
            match given (ListResult.nextPage result) with
            | Some _ => loadPages apiToken fuel' (ListResult.nextPage result) allFeatures'
            | None => ret (Some (Returned allFeatures'))
            end
      end
  end.

Definition loadAllFeatures (apiToken : jsstring) (fuel : nat)
  : Run World Call (option (Outcome (list Feature.t))) :=
  loadPages apiToken fuel None [].

End Loading.

(** The pages of a list of calls: each call after the first asks for the
    page the call before it named, after a success. *)
Fixpoint chained (pageToken : option jsstring) (cs : list Call) : Prop :=
  match cs with
  | [] => True
  | ListFeatures token r :: rest =>
      token = pageToken
      /\ match rest with
         | [] => True
         | _ :: _ =>
             exists result,
               r = Returned result
               /\ ListResult.success result = true
               /\ given (ListResult.nextPage result) <> None
               /\ chained (given (ListResult.nextPage result)) rest
         end
  end.

(** The features of the pages that were a success. *)
Definition gathered (cs : list Call) : list Feature.t :=
  List.flat_map
    (fun c =>
       match c with
       | ListFeatures _ (Returned result) =>
           if ListResult.success result then ListResult.data result else []
       | ListFeatures _ (Threw _) => []
       end) cs.

(** What the last call of a loop that ended gave. *)
Inductive LastPage : Type :=
| Failed
| NoNextPage
| Thrown (e : jsstring)
| MorePages.

Definition lastPage (cs : list Call) : option LastPage :=
  match last cs with
  | None => None
  | Some (ListFeatures _ (Threw e)) => Some (Thrown e)
  | Some (ListFeatures _ (Returned result)) =>
      if negb (ListResult.success result) then Some Failed
      else match given (ListResult.nextPage result) with
           | Some _ => Some MorePages
           | None => Some NoNextPage
           end
  end.

End FeaturePaging.

(** ** CSV note import: building the notes and importing them

    The columns a row is read at are columns of the file, own properties of
    every row. *)

Module NoteImport.
Import BulkUpdate.

Definition nonEmpty (v : jsstring) : bool := negb (jsstring_eqb v []).

(** [row[col]?.trim() || ''] *)
Definition trimmedCell (row : CSVRow) (col : jsstring) : jsstring :=
  trim (orEmpty (row !! col)).

Module ImportResult.
Record t : Type := mk {
  rowIndex : nat;
  success : bool;
  error : option jsstring;
  createdWithoutOwner : option bool }.
End ImportResult.

Module FailedRow.
Record t : Type := mk { rowIndex : nat; rowData : CSVRow; error : jsstring }.
End FailedRow.

Module PreviewItem.
Record t : Type := mk {
  rowIndex : nat;
  title : jsstring;
  noteText : jsstring;
  userEmail : jsstring;
  owner : jsstring;
  tags : list jsstring;
  isValid : bool;
  error : option jsstring }.
End PreviewItem.

(** The arguments of the [createNote] action. *)
Module NoteArgs.
Record t : Type := mk {
  title : jsstring;
  content : jsstring;
  userEmail : option jsstring;
  ownerEmail : option jsstring;
  tags : option (list jsstring) }.
End NoteArgs.

(** What the action answers: [success], [error], [createdWithoutOwner]. *)
Module NoteAnswer.
Record t : Type := mk {
  success : bool;
  error : option jsstring;
  createdWithoutOwner : bool }.
End NoteAnswer.

Inductive Call : Type :=
| CreateNote (args : NoteArgs.t) (r : Outcome NoteAnswer.t).

Section Building.
Variables titleColumnOrder noteTextColumnOrder tagColumnOrder : list jsstring.
Variables userEmailColumn ownerColumn : option jsstring.

Definition buildTitle (row : CSVRow) : jsstring :=
  join (js ", ") (List.filter nonEmpty (List.map (trimmedCell row) titleColumnOrder)).

Definition buildNoteText (row : CSVRow) : jsstring :=
  join (js "<br><br>")
    (List.map (fun col => js "<b>" ++ col ++ js "</b><br>" ++ orEmpty (row !! col))
       noteTextColumnOrder).

Definition buildTags (row : CSVRow) : list jsstring :=
  List.filter nonEmpty (List.map (trimmedCell row) tagColumnOrder).

(** [column ? row[column]?.trim() || '' : ''] *)
Definition optionalCell (column : option jsstring) (row : CSVRow) : jsstring :=
  match given column with
  | Some col => trimmedCell row col
  | None => []
  end.

(** [title.length > 0 && noteText.length > 0] *)
Definition hasContent (row : CSVRow) : bool :=
  (0 <? length (buildTitle row)) && (0 <? length (buildNoteText row)).

Definition previewRow (i : nat) (row : CSVRow) : PreviewItem.t :=
  let title := buildTitle row in
  let noteText := buildNoteText row in
  let isValid := hasContent row in
  PreviewItem.mk i title noteText (optionalCell userEmailColumn row)
    (optionalCell ownerColumn row) (buildTags row) isValid
    (if isValid then None
     else if (length title =? 0) && (length noteText =? 0)
          then Some (js "Missing title and note text")
          else if length title =? 0 then Some (js "Missing title")
               else Some (js "Missing note text")).

(** [handleLoadPreview], as the new value of the state [previewItems]. *)
Definition handleLoadPreview (csvData : option CsvData.t)
  (previewItems : list PreviewItem.t) : list PreviewItem.t :=
  match csvData with
  | None => previewItems
  | Some data => imap previewRow (take 20 (CsvData.rows data))
  end.

Fixpoint rowsToProcess_from (i : nat) (rows : list CSVRow) : list (nat * CSVRow) :=
  match rows with
  | [] => []
  | row :: rest =>
      (if hasContent row then [(i, row)] else []) ++ rowsToProcess_from (S i) rest
  end.

Definition rowsToProcess (rows : list CSVRow) : list (nat * CSVRow) :=
  rowsToProcess_from 0 rows.

(** The arguments [handleStartImport] gives to [createNote] for a row. *)
Definition noteArgs (row : CSVRow) : NoteArgs.t :=
  let title := buildTitle row in
  let noteText := buildNoteText row in
  let tags := buildTags row in
  NoteArgs.mk (if jsstring_eqb title [] then js "Untitled Note" else title)
    noteText
    (given (Some (optionalCell userEmailColumn row)))
    (given (Some (optionalCell ownerColumn row)))
    (if 0 <? length tags then Some tags else None).

Section Importing.
Context {World : Type}.
Variable createNote : jsstring -> NoteArgs.t -> World -> Outcome NoteAnswer.t * World.

(** What is pushed to [results] and to [failed] for a row. *)
Definition importEntry (rowIndex : nat) (row : CSVRow) (r : Outcome NoteAnswer.t)
  : ImportResult.t * list FailedRow.t :=
  match r with
  | Returned result =>
      if NoteAnswer.success result then
        (ImportResult.mk rowIndex true None (Some (NoteAnswer.createdWithoutOwner result)),
         [])
      else
        let error :=
          match given (NoteAnswer.error result) with
          | Some e => e
          | None => js "Unknown error"
          end in
        (ImportResult.mk rowIndex false (Some error) None,
         [FailedRow.mk rowIndex row error])
  | Threw errorMsg =>
      (ImportResult.mk rowIndex false (Some errorMsg) None,
       [FailedRow.mk rowIndex row errorMsg])
  end.

(** The body of the import loop. *)
Definition importRow (apiToken : jsstring) (total : nat) (i : nat)
  (entry : nat * CSVRow) (acc : list ImportResult.t * list FailedRow.t)
  : Run World Call (list ImportResult.t * list FailedRow.t) :=
  let '(rowIndex, row) := entry in
  let args := noteArgs row in
  perform r <- await (createNote apiToken args) (CreateNote args) in
  let '(result, failedRow) := importEntry rowIndex row r in
  effect emit (EvProgress (i + 1) total) in
  effect rateLimitDelay 10 200 i total in
  ret (fst acc ++ [result], snd acc ++ failedRow).

(** [handleStartImport], as the new values of the states [importResults]
    and [failedRows]. *)
Definition handleStartImport (apiToken : jsstring) (csvData : option CsvData.t)
  (importResults : list ImportResult.t) (failedRows : list FailedRow.t)
  : Run World Call (list ImportResult.t * list FailedRow.t) :=
  match csvData with
  | None => ret (importResults, failedRows)
  | Some data =>
      let rows := rowsToProcess (CsvData.rows data) in
      effect emit (EvProgress 0 (length rows)) in
      forEach (importRow apiToken (length rows)) 0 rows ([], [])
  end.

End Importing.

End Building.

(** The arguments of the calls of a trace, and what the calls gave. *)
Definition created (t : list (Event Call)) : list NoteArgs.t :=
  List.map (fun c => match c with CreateNote args _ => args end) (calls t).

Definition creationOutcomes (t : list (Event Call)) : list (Outcome NoteAnswer.t) :=
  List.map (fun c => match c with CreateNote _ r => r end) (calls t).

Definition noteCreated (r : Outcome NoteAnswer.t) : bool :=
  match r with
  | Returned result => NoteAnswer.success result
  | Threw _ => false
  end.

End NoteImport.

(** ** More examples *)

(** ** Field migration: editing the list of mappings *)

Module MappingEditor.
Import FieldMigration.

Inductive Field : Type := sourceFieldId | targetFieldId.

(** [addMapping]; [id] is what [generateId()] answered. *)
Definition addMapping (id : jsstring) (prev : list FieldMapping.t) : list FieldMapping.t :=
  prev ++ [FieldMapping.mk id [] []].

Definition removeMapping (id : jsstring) (prev : list FieldMapping.t)
  : list FieldMapping.t :=
  if 1 <? length prev
  then List.filter (fun m => negb (jsstring_eqb (FieldMapping.id m) id)) prev
  else prev.

Definition updateMapping (id : jsstring) (field : Field) (value : jsstring)
  (prev : list FieldMapping.t) : list FieldMapping.t :=
  List.map
    (fun m =>
       if negb (jsstring_eqb (FieldMapping.id m) id) then m
       else
         match field with
         | sourceFieldId => FieldMapping.mk (FieldMapping.id m) value []
         | targetFieldId =>
             FieldMapping.mk (FieldMapping.id m) (FieldMapping.sourceFieldId m) value
         end) prev.

Inductive Edit : Type :=
| Add (id : jsstring)
| Remove (id : jsstring)
| Update (id : jsstring) (field : Field) (value : jsstring).

Definition edit (prev : list FieldMapping.t) (e : Edit) : list FieldMapping.t :=
  match e with
  | Add id => addMapping id prev
  | Remove id => removeMapping id prev
  | Update id field value => updateMapping id field value prev
  end.

(** The list the component starts with. *)
Definition initial (id : jsstring) : list FieldMapping.t := [FieldMapping.mk id [] []].

(** No id that [generateId()] answers is the id of a mapping of the list. *)
Fixpoint freshIds (edits : list Edit) (prev : list FieldMapping.t) : Prop :=
  match edits with
  | [] => True
  | e :: rest =>
      match e with
      | Add id => ~ In id (List.map FieldMapping.id prev)
      | _ => True
      end /\ freshIds rest (edit prev e)
  end.

End MappingEditor.

(** ** Note import: choosing and ordering the columns *)

Module ColumnOrder.

(** [array.indexOf(x)] *)
Fixpoint indexOf (x : jsstring) (l : list jsstring) : Z :=
  match l with
  | [] => (-1)%Z
  | y :: l' =>
      if jsstring_eqb y x then 0%Z
      else let i := indexOf x l' in if (i <? 0)%Z then (-1)%Z else (i + 1)%Z
  end.

(** The place [array.splice(start, ...)] starts at: a negative [start]
    counts from the end. *)
Definition spliceStart (start : Z) (len : nat) : nat :=
  if (start <? 0)%Z then Z.to_nat (Z.max (Z.of_nat len + start) 0)
  else Nat.min (Z.to_nat start) len.

(** The array after [array.splice(start, deleteCount, ...items)]. *)
Definition splice (start : Z) (deleteCount : nat) (items l : list jsstring)
  : list jsstring :=
  let s := spliceStart start (length l) in
  take s l ++ items ++ drop (s + deleteCount) l.

(** [handleDrop]: the order given to [setOrderState], if it is called. *)
Definition handleDrop (draggedItem : option jsstring) (targetColumn : jsstring)
  (orderState : list jsstring) : option (list jsstring) :=
  match given draggedItem with
  | None => None
  | Some dragged =>
      if jsstring_eqb dragged targetColumn then None
      else
        let draggedIndex := indexOf dragged orderState in
        let targetIndex := indexOf targetColumn orderState in
        Some (splice targetIndex 0 [dragged] (splice draggedIndex 1 [] orderState))
  end.

(** [prev.includes(column)] *)
Definition has (column : jsstring) (l : list jsstring) : bool :=
  existsb (jsstring_eqb column) l.

Definition without (column : jsstring) (l : list jsstring) : list jsstring :=
  List.filter (fun c => negb (jsstring_eqb c column)) l.

(** [toggleTitleColumn], [toggleNoteTextColumn] and [toggleTagColumn] on
    the pair of the chosen columns and of their order. *)
Definition toggleColumn (column : jsstring) (state : list jsstring * list jsstring)
  : list jsstring * list jsstring :=
  let '(prev, order) := state in
  if has column prev then (without column prev, without column order)
  else (if has column prev then prev else prev ++ [column],
        if has column order then order else order ++ [column]).

(** The chosen columns and their order hold the same columns, once each. *)
Definition aligned (state : list jsstring * list jsstring) : Prop :=
  NoDup (fst state) /\ NoDup (snd state)
  /\ forall c, In c (fst state) <-> In c (snd state).

End ColumnOrder.

(** ** Company import: the import itself *)

Module CompanyRun.
Import CompanyImport.

(** A company of the preview. [customFields] is
    [Object.entries(company.customFields)] and [existingCompany] is
    [company.existingCompany?.id]. *)
Module CompanyToImport.
Record t : Type := mk {
  rowIndex : nat;
  name : jsstring;
  domain : jsstring;
  customFields : list (jsstring * jsstring);
  existingCompany : option jsstring;
  action : jsstring }.
End CompanyToImport.

(** What [createCompany] answers; [data] is [createResult.data?.id]. *)
Module CreateResult.
Record t : Type := mk {
  success : bool;
  error : option jsstring;
  data : option jsstring }.
End CreateResult.

Inductive Call : Type :=
| CreateCompany (name domain : jsstring) (r : Outcome CreateResult.t)
| FieldWrite (c : CompanyImport.Call).

Definition fieldEvent (e : Event CompanyImport.Call) : Event Call :=
  match e with
  | EvCall c => EvCall (FieldWrite c)
  | EvProgress current total => EvProgress current total
  | EvDelay ms => EvDelay ms
  end.

(** The loop over the fields, run inside the import. *)
Definition fieldWrites {W A} (m : Run W CompanyImport.Call A) : Run W Call A :=
  fun w => let '(a, t, w') := m w in (a, List.map fieldEvent t, w').

(** The result pushed for a company that was not written to. *)
Definition failedResult (company : CompanyToImport.t) (action error : jsstring)
  : ImportResult.t :=
  ImportResult.mk (CompanyToImport.rowIndex company) (CompanyToImport.name company)
    (CompanyToImport.domain company) action false None (Some error) None.

Section Importing.
Context {World : Type}.
Variable apiToken : jsstring.
Variable createCompany :
  jsstring -> jsstring -> jsstring -> World -> Outcome CreateResult.t * World.
Variable setCompanyFieldValue :
  jsstring -> jsstring -> jsstring -> jsstring -> ProcessedValue -> World ->
  Outcome SetFieldResult.t * World.
Variable companyFields : list CompanyFieldConfig.t.

(** [results.push(result); setImportProgress(...); continue]: the delay is
    skipped. [next] is the rest of the loop. *)
Definition skipCompany (total i : nat) (results : list ImportResult.t)
  (result : ImportResult.t)
  (next : list ImportResult.t -> Run World Call (Outcome (list ImportResult.t)))
  : Run World Call (Outcome (list ImportResult.t)) :=
  effect emit (EvProgress (i + 1) total) in
  next (results ++ [result]).

(** The turn of the loop from [if (!companyId)] on. The calls are not
    guarded by a [try]: an error one throws leaves the handler. *)
Definition writeCompany (total i : nat) (company : CompanyToImport.t)
  (results : list ImportResult.t) (companyId : option jsstring)
  (next : list ImportResult.t -> Run World Call (Outcome (list ImportResult.t)))
  : Run World Call (Outcome (list ImportResult.t)) :=
  match given companyId with
  | None =>
      skipCompany total i results
        (failedResult company (CompanyToImport.action company)
           (js "No company ID available")) next
  | Some companyId =>
      perform written <-
        fieldWrites
          (setFieldValues apiToken setCompanyFieldValue companyFields companyId
             (CompanyToImport.customFields company) []) in
      match written with
      | Threw error => ret (Threw error)
      | Returned fieldErrors =>
          effect emit (EvProgress (i + 1) total) in
          effect rateLimitDelay 10 200 i total in
          next (results ++
                [fieldsResult (CompanyToImport.rowIndex company)
                   (CompanyToImport.name company) (CompanyToImport.domain company)
                   (CompanyToImport.action company) companyId fieldErrors])
      end
  end.

(** One turn of the loop of [handleStartImport]. *)
Definition importCompany (total i : nat) (company : CompanyToImport.t)
  (results : list ImportResult.t)
  (next : list ImportResult.t -> Run World Call (Outcome (list ImportResult.t)))
  : Run World Call (Outcome (list ImportResult.t)) :=
  if jsstring_eqb (CompanyToImport.action company) (js "create") then
    perform r <- await (createCompany apiToken (CompanyToImport.name company)
                          (CompanyToImport.domain company))
                       (CreateCompany (CompanyToImport.name company)
                          (CompanyToImport.domain company)) in
    match r with
    | Threw error => ret (Threw error)
    | Returned createResult =>
        if CreateResult.success createResult then
          writeCompany total i company results (CreateResult.data createResult) next
        else
          skipCompany total i results
            (failedResult company (js "create")
               (match given (CreateResult.error createResult) with
                | Some error => error
                | None => js "Failed to create company"
                end)) next
    end
  else writeCompany total i company results (CompanyToImport.existingCompany company) next.

Fixpoint importFrom (total i : nat) (companies : list CompanyToImport.t)
  (results : list ImportResult.t)
  : Run World Call (Outcome (list ImportResult.t)) :=
  match companies with
  | [] => ret (Returned results)
  | company :: rest =>
      importCompany total i company results (fun results => importFrom total (S i) rest results)
  end.

(** [handleStartImport]: [None] when there is nothing to import, else the
    results set at the end, or the error that left the handler. *)
Definition handleStartImport (companiesToImport : list CompanyToImport.t)
  : Run World Call (option (Outcome (list ImportResult.t))) :=
  if length companiesToImport =? 0 then ret None
  else
    effect emit (EvProgress 0 (length companiesToImport)) in
    perform r <- importFrom (length companiesToImport) 0 companiesToImport [] in
    ret (Some r).

End Importing.

(** The companies asked to be created, in the order of the requests. *)
Definition creations (cs : list Call) : list (jsstring * jsstring) :=
  List.flat_map
    (fun c => match c with CreateCompany name domain _ => [(name, domain)] | _ => [] end) cs.

(** The ids the creations that succeeded answered. *)
Definition createdIds (cs : list Call) : list jsstring :=
  List.flat_map
    (fun c =>
       match c with
       | CreateCompany _ _ (Returned r) =>
           if CreateResult.success r
           then match CreateResult.data r with Some companyId => [companyId] | None => [] end
           else []
       | _ => []
       end) cs.

(** The ids of the companies a field was written to. *)
Definition writtenIds (cs : list Call) : list jsstring :=
  List.flat_map
    (fun c =>
       match c with
       | FieldWrite (SetCompanyFieldValue companyId _ _ _ _) => [companyId]
       | _ => []
       end) cs.

(** What a result says of its company. *)
Definition resultOf (r : ImportResult.t) : nat * jsstring * jsstring * jsstring :=
  (ImportResult.rowIndex r, ImportResult.name r, ImportResult.domain r,
   ImportResult.action r).
Definition companyOf (c : CompanyToImport.t) : nat * jsstring * jsstring * jsstring :=
  (CompanyToImport.rowIndex c, CompanyToImport.name c, CompanyToImport.domain c,
   CompanyToImport.action c).

Definition toCreate (c : CompanyToImport.t) : bool :=
  jsstring_eqb (CompanyToImport.action c) (js "create").

(** The id a field call writes to. *)
Definition targetOf (c : CompanyImport.Call) : jsstring :=
  match c with
  | SetCompanyFieldValue companyId _ _ _ _ => companyId
  end.

(** A result that reports success has a company id and no error. *)
Definition sound (r : ImportResult.t) : Prop :=
  ImportResult.success r = true ->
  ImportResult.companyId r <> None
  /\ ImportResult.error r = None /\ ImportResult.fieldErrors r = None.

(** What holds of the rest of the loop, from the results so far. *)
Definition imported {World : Type} (companies : list CompanyToImport.t) (results : list ImportResult.t)
  (run : Outcome (list ImportResult.t) * list (Event Call) * World) : Prop :=
  forall out, result_of run = Returned out ->
    (exists news, out = results ++ news
                  /\ List.map resultOf news = List.map companyOf companies
                  /\ Forall sound news)
    /\ creations (calls (trace_of run))
       = List.map (fun c => (CompanyToImport.name c, CompanyToImport.domain c))
           (List.filter toCreate companies)
    /\ Forall (fun companyId =>
                 In (Some companyId) (List.map CompanyToImport.existingCompany
                                        (List.filter (fun c => negb (toCreate c)) companies))
                 \/ In companyId (createdIds (calls (trace_of run))))
         (writtenIds (calls (trace_of run))).

End CompanyRun.

Module Samples.

(** The file [a,b / 1,2], and its only row failed with an error. *)
Definition twoColumns : jsstring := js "a,b" ++ [newline] ++ js "1,2".

Definition failedFirst : CsvFile.FailedRow.t :=
  CsvFile.FailedRow.mk 0 (CsvFile.fillRow [js "1"; js "2"] 0 [js "a"; js "b"] ∅)
    (js "Bad request, retry").

(** A remote that accepts every write but the second. *)
Definition secondRefused {B} (_ : BackendWrites.WriteRequest.t B) (w : nat)
  : Outcome Backend.HttpResponse.t * nat :=
  (Returned (Backend.HttpResponse.mk (if w =? 1 then 500%N else 200%N)
              (Returned (js "{}"))), S w).

Definition twoWrites : list (BackendWrites.FieldWrite.t jsstring) :=
  [ BackendWrites.FieldWrite.mk (js "fa") (js "number") (js "1");
    BackendWrites.FieldWrite.mk (js "fb") (js "number") (js "2") ].

(** A remote that refuses a note with an owner, naming the owner, and
    creates a note without. *)
Definition ownerUnknown (request : BackendWrites.WriteRequest.t BackendWrites.NoteBody.t)
  (w : unit) : Outcome (BackendWrites.NoteResponse.t jsstring) * unit :=
  (Returned
     match BackendWrites.NoteBody.owner (BackendWrites.WriteRequest.body request) with
     | Some _ =>
         BackendWrites.NoteResponse.mk 400%N (Returned (js "owner not found"))
           (Threw (js "no body"))
     | None =>
         BackendWrites.NoteResponse.mk 201%N (Returned (js "{}")) (Returned (js "n1"))
     end, w).

(** A listing of two pages: the first names the second. *)
Definition featureOne : FieldMigration.Feature.t :=
  FieldMigration.Feature.mk (js "f1") (js "Feature 1") None None.

Definition twoPages (_ : jsstring) (pageToken : option jsstring) (w : unit)
  : Outcome FeaturePaging.ListResult.t * unit :=
  (Returned
     match pageToken with
     | None => FeaturePaging.ListResult.mk true [Demo.featureZero] (Some (js "p2"))
     | Some _ => FeaturePaging.ListResult.mk true [featureOne] None
     end, w).

(** Two companies of a preview: one to update, one to create, and a remote
    that refuses every creation. *)
Definition acme : CompanyRun.CompanyToImport.t :=
  CompanyRun.CompanyToImport.mk 0 (js "Acme") (js "acme.com") [(js "tier", js "gold")]
    (Some (js "c1")) (js "update").
Definition globex : CompanyRun.CompanyToImport.t :=
  CompanyRun.CompanyToImport.mk 1 (js "Globex") (js "globex.com") [(js "tier", js "free")]
    None (js "create").

Definition creationRefused (_ _ _ : jsstring) (w : unit)
  : Outcome CompanyRun.CreateResult.t * unit :=
  (Returned (CompanyRun.CreateResult.mk false None None), w).

End Samples.

(** * Properties *)

Section StringFacts.

Lemma includes_char_In (c : N) (s : jsstring) :
  includes [c] s = true <-> In c s.
Proof.
  induction s as [|x s IH]; simpl.
  - split; [discriminate | tauto].
  - rewrite orb_true_iff, andb_true_r, N.eqb_eq, IH. intuition.
Qed.

Lemma includes_char_false (c : N) (s : jsstring) :
  includes [c] s = false <-> ~ In c s.
Proof.
  rewrite <- includes_char_In. destruct (includes [c] s); split; congruence.
Qed.

End StringFacts.

(** ** Blank detection *)

Section BlankDetection.
Import BulkUpdate.

Lemma jsstring_eqb_true (a b : jsstring) : jsstring_eqb a b = true <-> a = b.
Proof. unfold jsstring_eqb. apply bool_decide_eq_true. Qed.

Lemma jsstring_eqb_false (a b : jsstring) : jsstring_eqb a b = false <-> a <> b.
Proof. unfold jsstring_eqb. apply bool_decide_eq_false. Qed.

Lemma jsstring_eqb_refl (a : jsstring) : jsstring_eqb a a = true.
Proof. now apply jsstring_eqb_true. Qed.

(** C5. [isBlankValue v] is true exactly when [v] is [null], [undefined],
    or a string whose trimmed value is the empty string, ["-"] or ["'-"];
    so it is true for [""], ["   "], ["-"], ["'-"], [null] and [undefined],
    and false for ["0"], ["-1"] and ["N/A"]. *)
Theorem isBlankValue_exact :
  (forall v : nullable,
      isBlankValue v = true <->
      (v = JNull \/ v = JUndefined \/
       exists s, v = JStr s /\
                 (trim s = [] \/ trim s = js "-" \/ trim s = js "'-")))
  /\ isBlankValue (JStr (js "")) = true
  /\ isBlankValue (JStr (js "   ")) = true
  /\ isBlankValue (JStr (js "-")) = true
  /\ isBlankValue (JStr (js "'-")) = true
  /\ isBlankValue JNull = true
  /\ isBlankValue JUndefined = true
  /\ isBlankValue (JStr (js "0")) = false
  /\ isBlankValue (JStr (js "-1")) = false
  /\ isBlankValue (JStr (js "N/A")) = false.
Proof.
  split; [| repeat split; reflexivity].
  intros [| |s]; simpl.
  - split; auto.
  - split; auto.
  - rewrite !orb_true_iff, !jsstring_eqb_true. split.
    + intros H. right; right. exists s. split; [reflexivity | tauto].
    + intros [H | [H | (s' & Hs & H)]]; try discriminate.
      injection Hs as <-. tauto.
Qed.

End BlankDetection.

(** ** CSV escaping and parsing *)

Section CsvRoundTrip.
Import Csv.

Lemma escapeCSV_quoted (value : jsstring) :
  needsQuoting value = true ->
  escapeCSV value = [dquote] ++ replaceAll dquote [dquote; dquote] value ++ [dquote].
Proof. unfold escapeCSV, needsQuoting. now intros ->. Qed.

Lemma escapeCSV_plain (value : jsstring) :
  needsQuoting value = false -> escapeCSV value = value.
Proof. unfold escapeCSV, needsQuoting. now intros ->. Qed.

(** Inside quotes the parser undoes the doubling and stops at the closing
    quote. *)
Lemma parse_quoted_body (s : jsstring) :
  forall result current,
    parseCSVLine_from (replaceAll dquote [dquote; dquote] s ++ [dquote])
      result current true
    = result ++ [trim (current ++ s)].
Proof.
  induction s as [|c s IH]; intros result current.
  - simpl. now rewrite app_nil_r.
  - unfold replaceAll in *. cbn [List.flat_map].
    destruct (c =? dquote)%N eqn:E.
    + apply N.eqb_eq in E. subst c.
      cbn [app parseCSVLine_from]. rewrite N.eqb_refl.
      rewrite IH. now rewrite <- app_assoc.
    + cbn [app parseCSVLine_from]. rewrite E.
      rewrite IH. now rewrite <- app_assoc.
Qed.

(** Outside quotes a text without comma and quote is read as it stands. *)
Lemma parse_plain_body (s : jsstring) :
  ~ In comma s -> ~ In dquote s ->
  forall result current,
    parseCSVLine_from s result current false = result ++ [trim (current ++ s)].
Proof.
  induction s as [|c s IH]; intros Hc Hq result current.
  - simpl. now rewrite app_nil_r.
  - cbn [parseCSVLine_from].
    assert (c <> dquote) as Hd by (intros ->; apply Hq; now left).
    assert (c <> comma) as Hm by (intros ->; apply Hc; now left).
    apply N.eqb_neq in Hd, Hm. rewrite Hd, Hm.
    rewrite IH; [now rewrite <- app_assoc | |]; intros H; [apply Hc | apply Hq]; now right.
Qed.

Lemma parse_escape (value : jsstring) :
  parseCSVLine (escapeCSV value) = [trim value].
Proof.
  unfold parseCSVLine. destruct (needsQuoting value) eqn:E.
  - rewrite (escapeCSV_quoted _ E).
    change ([dquote] ++ ?l) with (dquote :: l).
    cbn [parseCSVLine_from]. rewrite N.eqb_refl. now rewrite parse_quoted_body.
  - rewrite (escapeCSV_plain _ E).
    unfold needsQuoting in E. rewrite !orb_false_iff in E.
    destruct E as [[E1 E2] _].
    apply includes_char_false in E1, E2.
    now rewrite parse_plain_body.
Qed.

(** C8, as it holds. For a value holding a comma, a double quote or a
    newline, [escapeCSV] wraps it in double quotes and doubles each embedded
    quote, and [parseCSVLine] reads the escaped field as one field, not split
    at its commas: the trimmed value. It is the value itself when the value
    has no leading or trailing white space. *)
Theorem escapeCSV_parseCSVLine_roundtrip (value : jsstring) :
  needsQuoting value = true ->
  escapeCSV value = [dquote] ++ replaceAll dquote [dquote; dquote] value ++ [dquote]
  /\ parseCSVLine (escapeCSV value) = [trim value]
  /\ (trim value = value -> parseCSVLine (escapeCSV value) = [value]).
Proof.
  intros H. split; [now apply escapeCSV_quoted|].
  split; [apply parse_escape|].
  intros Ht. now rewrite parse_escape, Ht.
Qed.

Lemma escapeCSV_parseCSVLine_roundtrip_witness :
  needsQuoting Demo.heSaid = true
  /\ escapeCSV Demo.heSaid
     = [dquote] ++ js "He said, " ++ [dquote; dquote] ++ js "hi" ++ [dquote; dquote]
       ++ [dquote]
  /\ parseCSVLine (escapeCSV Demo.heSaid) = [Demo.heSaid].
Proof.
  assert (needsQuoting Demo.heSaid = true) as H by reflexivity.
  destruct (escapeCSV_parseCSVLine_roundtrip Demo.heSaid H) as (He & _ & Hp).
  split; [exact H|]. split; [rewrite He; reflexivity|].
  apply Hp. reflexivity.
Defined.

(** The claim as stated fails on a value with leading white space: the
    field read back is trimmed. *)
Lemma escapeCSV_roundtrip_not_exact :
  ~ (forall value : jsstring,
        needsQuoting value = true -> parseCSVLine (escapeCSV value) = [value]).
Proof.
  intros H. specialize (H (js " a,b") eq_refl). vm_compute in H. discriminate.
Qed.

End CsvRoundTrip.

(** ** The [deleteNote] action *)

Section DeleteNote.
Import Backend.
Context {World : Type}.
Variable fetch : Request.t -> World -> Outcome HttpResponse.t * World.
Variable toLowerCase : jsstring -> jsstring.

Lemma sanitizeApiError_nonempty (status : N) (raw : jsstring) :
  sanitizeApiError status raw <> [].
Proof.
  unfold sanitizeApiError, SAFE_ERROR_MAP. cbn [lookupStatus].
  repeat match goal with
         | |- context [(?k =? status)%N] => destruct (k =? status)%N; [discriminate|]
         end.
  discriminate.
Qed.

Lemma sanitizeCatchError_nonempty (message : jsstring) :
  sanitizeCatchError toLowerCase message <> [].
Proof.
  unfold sanitizeCatchError.
  repeat match goal with
         | |- context [if ?b then _ else _] => destruct b; [discriminate|]
         end.
  discriminate.
Qed.

(** C10, as it holds. A 404 answer to the deletion is reported as a
    success, as a 204 is; every other status, the other 2xx statuses
    included, gives [success: false] with an error message. *)
Theorem deleteNote_404_is_success (apiToken noteId : jsstring) (w w' : World)
  (response : HttpResponse.t) :
  fetch (deleteRequest apiToken noteId) w = (Returned response, w') ->
  let status := HttpResponse.status response in
  let result := fst (deleteNote fetch toLowerCase apiToken noteId w) in
  (status = 204%N \/ status = 404%N ->
   result = DeleteNoteResult.mk true None (Some status))
  /\ (status <> 204%N -> status <> 404%N ->
      DeleteNoteResult.success result = false
      /\ exists message, DeleteNoteResult.error result = Some message /\ message <> []).
Proof.
  intros Hf status result. subst result. unfold deleteNote.
  fold (deleteRequest apiToken noteId). rewrite Hf. fold status. split.
  - intros [H | H]; rewrite H; reflexivity.
  - intros H1 H2. apply N.eqb_neq in H1, H2. rewrite H1, H2. cbn [orb].
    destruct (status =? 429)%N.
    + split; [reflexivity|]. eexists. split; [reflexivity | discriminate].
    + destruct (HttpResponse.text response); cbn.
      * split; [reflexivity|]. eexists. split; [reflexivity|].
        apply sanitizeApiError_nonempty.
      * split; [reflexivity|]. eexists. split; [reflexivity|].
        apply sanitizeCatchError_nonempty.
Qed.

End DeleteNote.

Lemma deleteNote_404_is_success_witness :
  fst (Backend.deleteNote (Demo.fetchStatus 404) (fun s => s) (js "token") (js "n1") tt)
  = Backend.DeleteNoteResult.mk true None (Some 404%N)
  /\ Backend.DeleteNoteResult.success
       (fst (Backend.deleteNote (Demo.fetchStatus 204) (fun s => s) (js "token") (js "n1") tt))
     = true
  /\ Backend.DeleteNoteResult.success
       (fst (Backend.deleteNote (Demo.fetchStatus 500) (fun s => s) (js "token") (js "n1") tt))
     = false.
Proof.
  split; [|split].
  - apply (deleteNote_404_is_success (Demo.fetchStatus 404) (fun s => s) (js "token") (js "n1")
             tt tt (Backend.HttpResponse.mk 404 (Returned (js "gone"))) eq_refl).
    right. reflexivity.
  - reflexivity.
  - apply (deleteNote_404_is_success (Demo.fetchStatus 500) (fun s => s) (js "token") (js "n1")
             tt tt (Backend.HttpResponse.mk 500 (Returned (js "gone"))) eq_refl);
      discriminate.
Defined.

(** The claim as stated fails at status 200: [response.ok] is not tested,
    and a 2xx status other than 204 gives [success: false]. *)
Lemma deleteNote_200_is_failure :
  ~ (forall status : N,
        Backend.DeleteNoteResult.success
          (fst (Backend.deleteNote (Demo.fetchStatus status) (fun s => s) (js "token")
                  (js "n1") tt)) = false ->
        (status < 200 \/ 300 <= status)%N).
Proof. intros H. specialize (H 200%N eq_refl). lia. Qed.

(** ** Field-copy policy *)

Section FieldCopy.
Import FieldMigration.
Context {World V : Type}.
Variable apiToken : jsstring.
Variable getBatchCustomFieldValues :
  jsstring -> jsstring -> list jsstring -> World ->
  Outcome (gmap jsstring (FieldData.t V)) * World.
Variable setCustomFieldValue :
  jsstring -> jsstring -> jsstring -> option V -> jsstring -> World ->
  Outcome SetValueResult.t * World.
Variable customFields : list CustomField.t.
Variable onlyEmptyTargets : bool.
Variable allFeatures : list Feature.t.




End FieldCopy.

(** ** Stable sort *)

Section SortFacts.
Context {A : Type} (compareFn : A -> A -> Z).

Hypothesis precedes_total : forall a b, precedes compareFn a b \/ precedes compareFn b a.
Hypothesis precedes_trans :
  forall a b c, precedes compareFn a b -> precedes compareFn b c -> precedes compareFn a c.

Lemma insertSorted_In (x y : A) (l : list A) :
  In y (insertSorted compareFn x l) <-> y = x \/ In y l.
Proof.
  induction l as [|z l IH]; cbn.
  - intuition.
  - destruct (compareFn x z <=? 0)%Z; cbn; rewrite ?IH; intuition.
Qed.

Lemma sort_In (y : A) (l : list A) : In y (sort compareFn l) <-> In y l.
Proof.
  induction l as [|x l IH]; cbn; [tauto|].
  rewrite insertSorted_In, IH. intuition.
Qed.

Lemma insertSorted_length (x : A) (l : list A) :
  length (insertSorted compareFn x l) = S (length l).
Proof.
  induction l as [|z l IH]; cbn; [reflexivity|].
  destruct (compareFn x z <=? 0)%Z; cbn; [reflexivity|]. now rewrite IH.
Qed.

Lemma sort_length (l : list A) : length (sort compareFn l) = length l.
Proof.
  induction l as [|x l IH]; cbn; [reflexivity|].
  now rewrite insertSorted_length, <- IH.
Qed.

Lemma insertSorted_sorted (x : A) (l : list A) :
  StronglySorted (precedes compareFn) l -> StronglySorted (precedes compareFn) (insertSorted compareFn x l).
Proof using precedes_total precedes_trans.
  induction 1 as [|z l Hs IH Hz]; cbn.
  - constructor; constructor.
  - destruct (compareFn x z <=? 0)%Z eqn:E.
    + apply Z.leb_le in E. constructor; [now constructor|].
      constructor; [exact E|].
      eapply List.Forall_impl; [|exact Hz]. intros a Ha. now apply precedes_trans with z.
    + apply Z.leb_gt in E. constructor; [exact IH|].
      apply List.Forall_forall. intros a Ha. apply insertSorted_In in Ha as [->|Ha].
      * destruct (precedes_total z x) as [H|H]; [exact H|]. unfold precedes in H. lia.
      * rewrite List.Forall_forall in Hz. now apply Hz.
Qed.

Lemma sort_sorted (l : list A) : StronglySorted (precedes compareFn) (sort compareFn l).
Proof using precedes_total precedes_trans.
  induction l as [|x l IH]; cbn; [constructor|]. now apply insertSorted_sorted.
Qed.

Lemma filter_sorted (f : A -> bool) (l : list A) :
  StronglySorted (precedes compareFn) l -> StronglySorted (precedes compareFn) (List.filter f l).
Proof.
  induction 1 as [|z l Hs IH Hz]; cbn; [constructor|].
  destruct (f z); [|exact IH]. constructor; [exact IH|].
  rewrite List.Forall_forall in *. intros a Ha. apply List.filter_In in Ha. now apply Hz.
Qed.

Lemma sorted_head_least (x : A) (l : list A) :
  StronglySorted (precedes compareFn) (x :: l) -> forall y, In y (x :: l) -> precedes compareFn x y.
Proof using precedes_total.
  intros H y [<-|Hy].
  - destruct (precedes_total x x); assumption.
  - apply StronglySorted_inv in H as [_ H]. rewrite List.Forall_forall in H. now apply H.
Qed.

End SortFacts.


(** ** Duplicate grouping *)

Section JsMapFacts.
Context {V : Type}.

Lemma map_get_In (k : jsstring) (m : jsmap V) (v : V) :
  map_get k m = Some v -> In (k, v) m.
Proof.
  induction m as [|[k' v'] m IH]; cbn; [discriminate|].
  destruct (jsstring_eqb k k') eqn:E.
  - apply jsstring_eqb_true in E. subst k'. intros [= ->]. now left.
  - intros H. right. now apply IH.
Qed.

Lemma map_set_In (k k' : jsstring) (v v' : V) (m : jsmap V) :
  In (k', v') (map_set k v m) -> (k' = k /\ v' = v) \/ In (k', v') m.
Proof.
  induction m as [|[k0 v0] m IH]; cbn.
  - intros [[= <- <-]|[]]. now left.
  - destruct (jsstring_eqb k k0); cbn.
    + intros [[= <- <-]|H]; [now left | right; now right].
    + intros [H|H]; [right; now left|].
      destruct (IH H) as [?|?]; [now left | right; now right].
Qed.

End JsMapFacts.

Section GroupMembers.
Import DuplicateNotes.
Variable notes : list Note.t.

Lemma groupsFrom_nil : groupsFrom notes [].
Proof. intros k g n []. Qed.

Lemma groupsFrom_getOrEmpty (k : jsstring) (m : jsmap (list Note.t)) :
  groupsFrom notes m -> forall n, In n (getOrEmpty k m) -> In n notes.
Proof.
  intros Hm n. unfold getOrEmpty. destruct (map_get k m) as [g|] eqn:E; [|intros []].
  apply map_get_In in E. now apply (Hm k g n).
Qed.

Lemma groupsFrom_set (k : jsstring) (g : list Note.t) (m : jsmap (list Note.t)) :
  groupsFrom notes m -> (forall n, In n g -> In n notes) -> groupsFrom notes (map_set k g m).
Proof.
  intros Hm Hg k' g' n Hin Hn. apply map_set_In in Hin as [[_ ->]|Hin].
  - now apply Hg.
  - now apply (Hm k' g' n).
Qed.

Lemma groupsFrom_push (k : jsstring) (extra : list Note.t) (m : jsmap (list Note.t)) :
  groupsFrom notes m -> (forall n, In n extra -> In n notes) ->
  groupsFrom notes (map_set k (getOrEmpty k m ++ extra) m).
Proof.
  intros Hm He. apply groupsFrom_set; [exact Hm|].
  intros n Hn. apply in_app_or in Hn as [Hn|Hn].
  - now apply (groupsFrom_getOrEmpty k m).
  - now apply He.
Qed.

Lemma groupNote_from (l : list Note.t) :
  (forall n, In n l -> In n notes) ->
  forall groups, groupsFrom notes (fst groups) -> groupsFrom notes (snd groups) ->
    groupsFrom notes (fst (fold_left groupNote l groups))
    /\ groupsFrom notes (snd (fold_left groupNote l groups)).
Proof.
  induction l as [|note l IH]; intros Hl [gw gwo] H1 H2; cbn [fold_left]; [now split|].
  apply IH.
  - intros n Hn. apply Hl. now right.
  - cbn [groupNote]. destruct (companyIdOf note); cbn [fst]; [|exact H1].
    apply groupsFrom_push; [exact H1|]. intros n [<-|[]]. apply Hl. now left.
  - cbn [groupNote]. destruct (companyIdOf note); cbn [snd]; [exact H2|].
    apply groupsFrom_push; [exact H2|]. intros n [<-|[]]. apply Hl. now left.
Qed.

Lemma mergeInto_from (extra : list Note.t) (keys : list jsstring) :
  (forall n, In n extra -> In n notes) ->
  forall dm, groupsFrom notes dm ->
    groupsFrom notes
      (fold_left (fun dm matchKey => map_set matchKey (getOrEmpty matchKey dm ++ extra) dm)
         keys dm).
Proof.
  intros He. induction keys as [|k keys IH]; intros dm Hdm; cbn [fold_left]; [exact Hdm|].
  apply IH. now apply groupsFrom_push.
Qed.

Lemma mergeGroup_from (dm : jsmap (list Note.t)) (entry : jsstring * list Note.t) :
  groupsFrom notes dm -> (forall n, In n (snd entry) -> In n notes) ->
  groupsFrom notes (mergeGroup dm entry).
Proof.
  destruct entry as [k g]. cbn [snd]. intros Hdm Hg. unfold mergeGroup.
  destruct (List.filter _ (map_keys dm)) as [|k0 ks].
  - now apply groupsFrom_set.
  - now apply mergeInto_from.
Qed.

Lemma mergeGroups_from (entries : jsmap (list Note.t)) :
  groupsFrom notes entries ->
  forall dm, groupsFrom notes dm -> groupsFrom notes (fold_left mergeGroup entries dm).
Proof.
  induction entries as [|[k g] entries IH]; intros He dm Hdm; cbn [fold_left]; [exact Hdm|].
  apply IH.
  - intros k' g' n Hin. apply (He k' g' n). now right.
  - apply mergeGroup_from; [exact Hdm|]. cbn. intros n Hn. apply (He k g n); [now left|exact Hn].
Qed.

End GroupMembers.

Section DuplicateGrouping.
Import DuplicateNotes.
Variable localeCompare : jsstring -> jsstring -> Z.
Hypothesis localeCompare_total :
  forall a b, (localeCompare a b <= 0 \/ localeCompare b a <= 0)%Z.
Hypothesis localeCompare_trans :
  forall a b c,
    (localeCompare a b <= 0 -> localeCompare b c <= 0 -> localeCompare a c <= 0)%Z.

Lemma byCreatedAt_total (a b : Note.t) :
  precedes (byCreatedAt localeCompare) a b \/ precedes (byCreatedAt localeCompare) b a.
Proof using localeCompare_total. apply localeCompare_total. Qed.

Lemma byCreatedAt_trans (a b c : Note.t) :
  precedes (byCreatedAt localeCompare) a b -> precedes (byCreatedAt localeCompare) b c ->
  precedes (byCreatedAt localeCompare) a c.
Proof using localeCompare_trans. apply localeCompare_trans. Qed.

(** The group built from one entry of [duplicatesMap] follows the policy
    and has the notes of the entry. *)
Lemma duplicateGroupOf_policy (key : jsstring) (group : list Note.t) (g : DuplicateGroup.t) :
  In g (duplicateGroupOf localeCompare (key, group)) ->
  keepPolicy localeCompare g
  /\ (forall m, In m (DuplicateGroup.notes g) <-> In m group).
Proof using localeCompare_total localeCompare_trans.
  unfold duplicateGroupOf.
  destruct ((1 <? length group) && (1 <? length (newSet (List.map Note.id group))));
    [|intros []].
  set (sorted := sort (byCreatedAt localeCompare) group).
  assert (StronglySorted (precedes (byCreatedAt localeCompare)) sorted) as Hsorted
    by (apply sort_sorted; [apply byCreatedAt_total | apply byCreatedAt_trans]).
  assert (forall m, In m sorted <-> In m group) as Hmem by (intros m; apply sort_In).
  pose proof (filter_sorted (byCreatedAt localeCompare) hasCompany sorted Hsorted) as Hf.
  destruct (List.filter hasCompany sorted) as [|w ws] eqn:Ew; cbn [length Nat.ltb Nat.leb].
  - (* no member has a company *)
    destruct sorted as [|s0 rest] eqn:Es; cbn -[List.filter]; [intros []|].
    intros [<-|[]]. split; [|exact Hmem]. unfold keepPolicy. cbn -[List.filter].
    assert (forall m, In m (s0 :: rest) -> hasCompany m = false) as Hnone.
    { intros m Hm. destruct (hasCompany m) eqn:E; [|reflexivity].
      assert (In m (List.filter hasCompany (s0 :: rest))) as Hin
        by (apply List.filter_In; now split).
      rewrite Ew in Hin. destruct Hin. }
    split; [now left|]. split; [|split; [|split]].
    + intros m Hm Hc. rewrite (Hnone m Hm) in Hc. discriminate.
    + intros _ m Hm.
      apply (sorted_head_least (byCreatedAt localeCompare) byCreatedAt_total s0 rest Hsorted m Hm).
    + reflexivity.
    + intros m Hm Hid. apply List.filter_In. split; [exact Hm|].
      apply negb_true_iff. now apply jsstring_eqb_false.
  - (* the earliest member with a company is kept *)
    cbn -[List.filter]. intros [<-|[]]. split; [|exact Hmem].
    unfold keepPolicy. cbn -[List.filter].
    assert (In w (List.filter hasCompany sorted)) as Hw by (rewrite Ew; now left).
    apply List.filter_In in Hw as [Hws Hwc].
    split; [exact Hws|]. split; [|split; [|split]].
    + intros m Hm Hc. split; [exact Hwc|].
      apply (sorted_head_least (byCreatedAt localeCompare) byCreatedAt_total w ws Hf m).
      rewrite <- Ew. apply List.filter_In. now split.
    + intros Hnone. rewrite (Hnone w Hws) in Hwc. discriminate.
    + reflexivity.
    + intros m Hm Hid. apply List.filter_In. split; [exact Hm|].
      apply negb_true_iff. now apply jsstring_eqb_false.
Qed.

Lemma findDuplicateGroups_policy (notes : list Note.t) (g : DuplicateGroup.t) :
  In g (findDuplicateGroups localeCompare notes) ->
  keepPolicy localeCompare g
  /\ (forall m, In m (DuplicateGroup.notes g) -> In m notes).
Proof using localeCompare_total localeCompare_trans.
  unfold findDuplicateGroups.
  destruct (fold_left groupNote notes ([], [])) as [gw gwo] eqn:E.
  intros Hg. apply in_flat_map in Hg as ([key group] & Hin & Hg).
  apply duplicateGroupOf_policy in Hg as [Hp Hm]. split; [exact Hp|].
  intros m Hmg. apply Hm in Hmg.
  destruct (groupNote_from notes notes (fun n H => H) ([], [])
              (groupsFrom_nil notes) (groupsFrom_nil notes)) as [H1 H2].
  rewrite E in H1, H2. cbn in H1, H2.
  apply (mergeGroups_from notes gwo H2 gw H1 key group m Hin Hmg).
Qed.

End DuplicateGrouping.

Lemma codeUnitCompare_total (a b : jsstring) :
  (codeUnitCompare a b <= 0 \/ codeUnitCompare b a <= 0)%Z.
Proof.
  revert b. induction a as [|x a IH]; intros [|y b]; cbn; try lia.
  destruct (N.ltb_spec x y), (N.ltb_spec y x); try lia. apply IH.
Qed.

Lemma codeUnitCompare_trans (a b c : jsstring) :
  (codeUnitCompare a b <= 0 -> codeUnitCompare b c <= 0 -> codeUnitCompare a c <= 0)%Z.
Proof.
  revert b c. induction a as [|x a IH]; intros [|y b] [|z c]; cbn; try lia.
  destruct (N.ltb_spec x y), (N.ltb_spec y x), (N.ltb_spec y z), (N.ltb_spec z y),
    (N.ltb_spec x z), (N.ltb_spec z x); try lia.
  apply IH.
Qed.

(** C1. The three notes of the example, in whatever order they are listed,
    form one duplicate group in which A, the earliest note with a company,
    is kept and C and B are to delete. In general, for a comparator that is
    a total preorder, in every group found the note kept is the earliest
    member with a company if a member has one, else the earliest member, and
    every member with another id is to delete; the members are notes of the
    input. *)
Theorem duplicate_grouping_policy :
  (forall l,
      Permutation [DuplicateNotes.noteA; DuplicateNotes.noteB; DuplicateNotes.noteC] l ->
      DuplicateNotes.findDuplicateGroups codeUnitCompare l
      = [DuplicateNotes.DuplicateGroup.mk (js "x|||t|||C1")
           [DuplicateNotes.noteC; DuplicateNotes.noteA; DuplicateNotes.noteB]
           DuplicateNotes.noteA
           [DuplicateNotes.noteC; DuplicateNotes.noteB]])
  /\ (forall localeCompare : jsstring -> jsstring -> Z,
         (forall a b, (localeCompare a b <= 0 \/ localeCompare b a <= 0)%Z) ->
         (forall a b c,
             (localeCompare a b <= 0 -> localeCompare b c <= 0 -> localeCompare a c <= 0)%Z) ->
         forall notes g,
           In g (DuplicateNotes.findDuplicateGroups localeCompare notes) ->
           DuplicateNotes.keepPolicy localeCompare g
           /\ (forall m, In m (DuplicateNotes.DuplicateGroup.notes g) -> In m notes)).
Proof.
  split.
  - intros l Hl. apply permutations_Permutation in Hl.
    vm_compute permutations in Hl.
    repeat (apply elem_of_cons in Hl as [->|Hl]; [vm_compute; reflexivity|]).
    now apply elem_of_nil in Hl.
  - intros localeCompare Htotal Htrans notes g.
    now apply findDuplicateGroups_policy.
Qed.

Lemma duplicate_grouping_policy_witness :
  DuplicateNotes.keepPolicy codeUnitCompare
    (DuplicateNotes.DuplicateGroup.mk (js "x|||t|||C1")
       [DuplicateNotes.noteC; DuplicateNotes.noteA; DuplicateNotes.noteB]
       DuplicateNotes.noteA
       [DuplicateNotes.noteC; DuplicateNotes.noteB]).
Proof.
  apply (proj2 duplicate_grouping_policy codeUnitCompare codeUnitCompare_total
           codeUnitCompare_trans
           [DuplicateNotes.noteA; DuplicateNotes.noteB; DuplicateNotes.noteC]).
  rewrite (proj1 duplicate_grouping_policy _ (Permutation_refl _)). left. reflexivity.
Defined.

(** ** Runs and traces *)

Section RunFacts.
Context {W C : Type}.

Lemma bind_run {A B} (m : Run W C A) (k : A -> Run W C B) (w : W) :
  bind m k w
  = (result_of (k (result_of (m w)) (world_of (m w))),
     trace_of (m w) ++ trace_of (k (result_of (m w)) (world_of (m w))),
     world_of (k (result_of (m w)) (world_of (m w)))).
Proof.
  unfold bind, result_of, trace_of, world_of.
  destruct (m w) as [[a t1] w1]. cbn. now destruct (k a w1) as [[b t2] w2].
Qed.

(** The loop rule: a relation between the index, the accumulator and the
    trace so far that every iteration maintains holds when the loop ends. *)
Lemma forEach_invariant {A R} (body : nat -> A -> R -> Run W C R)
  (P : nat -> R -> list (Event C) -> Prop) (items : list A) :
  (forall i x acc t w,
      items !! i = Some x -> P i acc t ->
      P (S i) (result_of (body i x acc w)) (t ++ trace_of (body i x acc w))) ->
  forall acc w,
    P 0 acc [] ->
    P (length items) (result_of (forEach body 0 items acc w))
      (trace_of (forEach body 0 items acc w)).
Proof.
  intros Hbody.
  assert (forall (rest : list A) k acc t w,
             (forall j x, rest !! j = Some x -> items !! (k + j) = Some x) ->
             P k acc t ->
             P (k + length rest) (result_of (forEach body k rest acc w))
               (t ++ trace_of (forEach body k rest acc w))) as Hgen.
  { induction rest as [|x rest IH]; intros k acc t w Hs HP.
    - cbn. now rewrite Nat.add_0_r, app_nil_r.
    - cbn [forEach]. rewrite bind_run. cbn [result_of trace_of fst snd length].
      rewrite app_assoc, Nat.add_succ_r.
      apply (IH (S k)).
      + intros j y Hj. specialize (Hs (S j) y Hj). now rewrite Nat.add_succ_r in Hs.
      + apply Hbody; [|exact HP]. specialize (Hs 0 x eq_refl). now rewrite Nat.add_0_r in Hs. }
  intros acc w HP. apply (Hgen items 0 acc [] w); [|exact HP]. intros j x Hj. exact Hj.
Qed.

Lemma calls_app (t1 t2 : list (Event C)) : calls (t1 ++ t2) = calls t1 ++ calls t2.
Proof. unfold calls. apply flat_map_app. Qed.

Lemma delays_app (t1 t2 : list (Event C)) : delays (t1 ++ t2) = delays t1 ++ delays t2.
Proof. unfold delays. apply flat_map_app. Qed.

(** Two traces, the second not beginning with a delay, are throttled
    together exactly when each is. *)
Lemma throttled_app (every : nat) (ms : N) (t2 : list (Event C)) :
  noDelayHead t2 = true ->
  forall t1,
    throttled every ms (t1 ++ t2) = throttled every ms t1 && throttled every ms t2.
Proof.
  intros H2.
  assert (forall n (t1 : list (Event C)), length t1 <= n ->
                       throttled every ms (t1 ++ t2)
                       = throttled every ms t1 && throttled every ms t2) as Hn.
  { induction n as [|n IH]; intros [|e t1] Hlen; cbn in Hlen; try reflexivity; try lia.
    destruct e as [c|c total|d].
    - cbn [app throttled]. apply IH. lia.
    - cbn [app throttled]. destruct t1 as [|e' t1'].
      + cbn [app]. destruct t2 as [|[c'|c' n'|d'] t2']; try discriminate;
          cbn; rewrite ?andb_true_r; reflexivity.
      + destruct e' as [c'|c' n'|d'].
        * change ((EvCall c' :: t1') ++ t2) with (EvCall c' :: t1' ++ t2).
          cbv beta iota. rewrite <- andb_assoc. f_equal.
          apply (IH (EvCall c' :: t1')). cbn in *. lia.
        * change ((EvProgress c' n' :: t1') ++ t2) with (EvProgress c' n' :: t1' ++ t2).
          cbv beta iota. rewrite <- andb_assoc. f_equal.
          apply (IH (EvProgress c' n' :: t1')). cbn in *. lia.
        * change ((EvDelay d' :: t1') ++ t2) with (EvDelay d' :: t1' ++ t2).
          cbv beta iota. rewrite <- !andb_assoc. do 2 f_equal.
          apply IH. cbn in *. lia.
    - reflexivity. }
  intros t1. now apply (Hn (length t1)).
Qed.

Lemma throttled_calls (every : nat) (ms : N) (t1 t2 : list (Event C)) :
  callsOnly t1 = true -> throttled every ms (t1 ++ t2) = throttled every ms t2.
Proof.
  induction t1 as [|[c|c n|d] t1 IH]; cbn; try discriminate; auto.
Qed.

Lemma noDelayHead_calls (t1 t2 : list (Event C)) :
  callsOnly t1 = true -> noDelayHead t2 = true -> noDelayHead (t1 ++ t2) = true.
Proof. destruct t1 as [|[c|c n|d] t1]; cbn; try discriminate; auto. Qed.

Lemma callsOnly_app (t1 t2 : list (Event C)) :
  callsOnly (t1 ++ t2) = callsOnly t1 && callsOnly t2.
Proof. unfold callsOnly. apply forallb_app. Qed.

Lemma callsOnly_delays (t : list (Event C)) : callsOnly t = true -> delays t = [].
Proof.
  induction t as [|[c|c n|d] t IH]; cbn; try discriminate; auto.
Qed.

End RunFacts.

(** ** Throttling of the executors *)

Section Throttling.
Context {W C : Type}.

Lemma noDelayHead_app (t1 t2 : list (Event C)) :
  noDelayHead t1 = true -> noDelayHead t2 = true -> noDelayHead (t1 ++ t2) = true.
Proof. destruct t1 as [|[c|c n|d] t1]; cbn; auto. Qed.

Lemma rateLimitDelay_trace (every : nat) (ms : N) (i total : nat) (w : W) :
  trace_of (@rateLimitDelay W C every ms i total w)
  = if ((i + 1) mod every =? 0) && (i + 1 <? total) then [EvDelay ms] else [].
Proof.
  unfold rateLimitDelay. now destruct (((i + 1) mod every =? 0) && (i + 1 <? total)).
Qed.

(** A progress report followed by the delay the loop decides on is
    throttled. *)
Lemma throttled_endOfIteration (every : nat) (ms : N) (i total : nat) (w : W) :
  throttled every ms
    (EvProgress (i + 1) total :: trace_of (@rateLimitDelay W C every ms i total w)) = true.
Proof.
  rewrite rateLimitDelay_trace. unfold throttled, due.
  replace (0 <? i + 1) with true by (symmetry; apply Nat.ltb_lt; lia).
  rewrite andb_true_r.
  destruct (((i + 1) mod every =? 0) && (i + 1 <? total)); cbn.
  - now rewrite N.eqb_refl.
  - reflexivity.
Qed.

Lemma throttled_start (every : nat) (ms : N) (total : nat) (t : list (Event C)) :
  noDelayHead t = true -> throttled every ms t = true ->
  throttled every ms (EvProgress 0 total :: t) = true.
Proof.
  intros Hh Ht. cbn [throttled].
  assert (due every 0 total = false) as Hd by (unfold due; now rewrite andb_false_r).
  destruct t as [|[c|c n|d] t']; try discriminate; rewrite Hd; cbn [negb andb]; auto.
Qed.

Lemma calls_turnEnding (every : nat) (ms : N) (total i : nat) :
  calls (@turnEnding C every ms total i) = [].
Proof.
  unfold turnEnding. now destruct (((i + 1) mod every =? 0) && (i + 1 <? total)).
Qed.

Lemma turnEnding_trace (every : nat) (ms : N) (total i : nat) (w : W) :
  EvProgress (i + 1) total :: trace_of (@rateLimitDelay W C every ms i total w)
  = turnEnding every ms total i.
Proof. now rewrite rateLimitDelay_trace. Qed.

(** A trace of calls only is the list of its calls. *)
Lemma callsOnly_calls (t : list (Event C)) :
  callsOnly t = true -> List.map EvCall (calls t) = t.
Proof.
  induction t as [|[c|c n|d] t IH]; cbn; try discriminate; [reflexivity|].
  intros H. f_equal. now apply IH.
Qed.

Lemma div_succ (every k : nat) :
  0 < every ->
  (k + 1) / every = k / every + (if (k + 1) mod every =? 0 then 1 else 0).
Proof.
  intros He. pose proof (Nat.div_mod_eq k every) as Hk.
  pose proof (Nat.mod_upper_bound k every ltac:(lia)) as Hr.
  destruct (Nat.eq_dec (k mod every + 1) every) as [E|E].
  - assert (k + 1 = 0 + (k / every + 1) * every) as Hs by nia.
    rewrite Hs at 1 2. rewrite Nat.div_add, Nat.Div0.mod_add by lia.
    rewrite Nat.div_small, Nat.mod_small by lia. cbn. lia.
  - assert (k + 1 = (k mod every + 1) + (k / every) * every) as Hs by nia.
    rewrite Hs at 1 2. rewrite Nat.div_add, Nat.Div0.mod_add by lia.
    rewrite Nat.div_small, Nat.mod_small by lia.
    destruct (k mod every + 1 =? 0) eqn:E0; [apply Nat.eqb_eq in E0; lia|lia].
Qed.

Lemma turnsOf_snoc (every : nat) (ms : N) (total start : nat) (cs : list C) (c : C) :
  turnsOf every ms total start (cs ++ [c])
  = turnsOf every ms total start cs
    ++ EvCall c :: turnEnding every ms total (start + length cs).
Proof.
  unfold turnsOf. rewrite imap_app, List.concat_app. cbn [imap List.concat].
  now rewrite Nat.add_0_r, app_nil_r.
Qed.

Lemma turnsOf_calls (every : nat) (ms : N) (total start : nat) (cs : list C) :
  calls (turnsOf every ms total start cs) = cs.
Proof.
  induction cs as [|c cs IH] using rev_ind; [reflexivity|].
  rewrite turnsOf_snoc, calls_app, IH. cbn [calls List.flat_map].
  fold (calls (@turnEnding C every ms total (start + length cs))).
  now rewrite calls_turnEnding.
Qed.

(** The delays of such a loop: one after every [every] items, none after
    the last. *)
Lemma turnsOf_delays (every : nat) (ms : N) (total : nat) (cs : list C) :
  0 < every -> length cs <= total ->
  delays (turnsOf every ms total 0 cs)
  = List.repeat ms (Nat.min (length cs) (total - 1) / every).
Proof.
  intros He. induction cs as [|c cs IH] using rev_ind; intros Hlen.
  - cbn. now rewrite Nat.Div0.div_0_l.
  - rewrite length_app in Hlen. cbn [length] in Hlen.
    rewrite turnsOf_snoc, delays_app, IH by lia. rewrite length_app. cbn [length plus].
    unfold turnEnding. cbn [delays List.flat_map app].
    destruct (length cs + 1 <? total) eqn:El.
    + apply Nat.ltb_lt in El.
      rewrite !Nat.min_l by lia. rewrite (div_succ every (length cs) He).
      rewrite andb_true_r.
      destruct ((length cs + 1) mod every =? 0); cbn [List.flat_map app].
      * rewrite List.repeat_app. reflexivity.
      * now rewrite Nat.add_0_r, app_nil_r.
    + apply Nat.ltb_ge in El. rewrite andb_false_r. cbn [List.flat_map app].
      rewrite app_nil_r. f_equal. f_equal. lia.
Qed.

End Throttling.

Section DeletionThrottle.
Import DuplicateNotes.
Context {World : Type}.
Variable deleteNoteAction :
  jsstring -> jsstring -> World -> Outcome Backend.DeleteNoteResult.t * World.

Lemma deleteOne_run (apiToken : jsstring) (companies : jsmap Company.t)
  (total i : nat) (note : Note.t) (results : list DeletionResult.t) (w : World) :
  let r := fst (deleteNoteAction apiToken (Note.id note) w) in
  let w1 := snd (deleteNoteAction apiToken (Note.id note) w) in
  result_of (deleteOne deleteNoteAction apiToken companies total i note results w)
  = results ++ [deletionEntry companies note r]
  /\ trace_of (deleteOne deleteNoteAction apiToken companies total i note results w)
     = EvCall (DeleteNote apiToken (Note.id note) r)
       :: EvProgress (length results + 1) total
       :: trace_of (@rateLimitDelay World Call 50 1000 i total w1).
Proof.
  cbv zeta. unfold deleteOne, bind, await, emit, ret, result_of, trace_of.
  destruct (deleteNoteAction apiToken (Note.id note) w) as [r w1]. cbn [fst snd].
  rewrite length_app. cbn [length].
  destruct (rateLimitDelay 50 1000 i total w1) as [[u t] w2]. cbn.
  split; [reflexivity|]. now rewrite app_nil_r.
Qed.

Lemma deletion_throttled (apiToken : jsstring) (duplicateGroups : list DuplicateGroup.t)
  (companies : jsmap Company.t) (w : World) :
  throttled 50 1000
    (trace_of (handleDeleteDuplicates deleteNoteAction apiToken duplicateGroups companies w))
  = true.
Proof.
  unfold handleDeleteDuplicates. rewrite bind_run. cbn [trace_of fst snd emit app].
  set (notesToDelete := List.flat_map DuplicateGroup.deleteNotes duplicateGroups).
  cbn [result_of world_of emit fst snd].
  pose proof (forEach_invariant
                (deleteOne deleteNoteAction apiToken companies (length notesToDelete))
                (fun i acc t => length acc = i /\ throttled 50 1000 t = true
                                /\ noDelayHead t = true)
                notesToDelete) as Hinv.
  destruct (Hinv) with (acc := @nil DeletionResult.t) (w := w) as (_ & Ht & Hh).
  - intros i x acc t w0 _ (Hlen & Ht & Hh).
    destruct (deleteOne_run apiToken companies (length notesToDelete) i x acc w0) as [Hr Htr].
    rewrite Hr, Htr. split; [|split].
    + rewrite length_app. cbn. lia.
    + rewrite throttled_app by reflexivity. rewrite Ht. cbn [andb throttled].
      rewrite Hlen. apply throttled_endOfIteration.
    + now apply noDelayHead_app.
  - now repeat split.
  - now apply throttled_start.
Qed.

(** The trace of the deletion: the report of no progress yet, then for
    every note its call, the report of its progress and the delay the loop
    decides on. *)
Lemma deletion_trace (apiToken : jsstring) (duplicateGroups : list DuplicateGroup.t)
  (companies : jsmap Company.t) (w : World) :
  let run := handleDeleteDuplicates deleteNoteAction apiToken duplicateGroups companies w in
  let total := length (List.flat_map DuplicateGroup.deleteNotes duplicateGroups) in
  length (calls (trace_of run)) = total
  /\ trace_of run = EvProgress 0 total :: turnsOf 50 1000 total 0 (calls (trace_of run)).
Proof.
  cbv zeta. unfold handleDeleteDuplicates. rewrite bind_run. cbn [trace_of fst snd emit app].
  set (notesToDelete := List.flat_map DuplicateGroup.deleteNotes duplicateGroups).
  cbn [result_of world_of emit fst snd].
  pose proof (forEach_invariant
                (deleteOne deleteNoteAction apiToken companies (length notesToDelete))
                (fun i acc t =>
                   length acc = i /\ length (calls t) = i
                   /\ t = turnsOf 50 1000 (length notesToDelete) 0 (calls t))
                notesToDelete) as Hinv.
  destruct (Hinv) with (acc := @nil DeletionResult.t) (w := w) as (_ & Hl & Ht).
  - intros i x acc t w0 _ (Hlen & Hc & Ht).
    destruct (deleteOne_run apiToken companies (length notesToDelete) i x acc w0) as [Hr Htr].
    rewrite Hr, Htr, Hlen, turnEnding_trace. split; [|split].
    + rewrite length_app. cbn. lia.
    + rewrite calls_app. cbn [calls List.flat_map].
      fold (calls (@turnEnding Call 50 1000 (length notesToDelete) i)).
      rewrite calls_turnEnding, length_app, Hc. cbn. lia.
    + rewrite calls_app. cbn [calls List.flat_map].
      fold (calls (@turnEnding Call 50 1000 (length notesToDelete) i)).
      rewrite calls_turnEnding. cbn [app].
      rewrite turnsOf_snoc, <- Ht, Hc. reflexivity.
  - now repeat split.
  - cbn [calls List.flat_map app]. fold (calls (trace_of (forEach
        (deleteOne deleteNoteAction apiToken companies (length notesToDelete)) 0
        notesToDelete [] w))).
    split; [exact Hl|]. f_equal. exact Ht.
Qed.

End DeletionThrottle.

(** ** The migration executor *)

Section MigrationExecutor.
Import FieldMigration.
Context {World V : Type}.
Variable apiToken : jsstring.
Variable setCustomFieldValue :
  jsstring -> jsstring -> jsstring -> option V -> jsstring -> World ->
  Outcome SetValueResult.t * World.
Variable customFields : list CustomField.t.

Lemma migrateOne_run (total i : nat) (item : PreviewItem.t V)
  (results : list (MigrationResult.t V)) (w : World) :
  let r := fst (setCustomFieldValue apiToken (PreviewItem.targetFieldId item)
                  (PreviewItem.featureId item) (PreviewItem.sourceValue item)
                  (fieldTypeOf customFields item) w) in
  result_of (migrateOne apiToken setCustomFieldValue customFields total i item results w)
  = results ++ [migrationEntry item r]
  /\ trace_of (migrateOne apiToken setCustomFieldValue customFields total i item results w)
     = [EvCall (SetCustomFieldValue (PreviewItem.targetFieldId item)
                  (PreviewItem.featureId item) (PreviewItem.sourceValue item)
                  (fieldTypeOf customFields item) r);
        EvProgress (length results + 1) total].
Proof.
  cbv zeta. unfold migrateOne, bind, await, emit, ret, result_of, trace_of.
  destruct (setCustomFieldValue _ _ _ _ _ w) as [r w1]. cbn.
  now rewrite length_app.
Qed.

Lemma migrationEntry_success (item : PreviewItem.t V) (r : Outcome SetValueResult.t) :
  MigrationResult.success (migrationEntry item r) = succeeded r.
Proof. now destruct r. Qed.

Lemma sinkOutcomes_app (t1 t2 : list (Event (Call V))) :
  sinkOutcomes (t1 ++ t2) = sinkOutcomes t1 ++ sinkOutcomes t2.
Proof. unfold sinkOutcomes. now rewrite calls_app, flat_map_app. Qed.

Lemma sinkTargets_app (t1 t2 : list (Event (Call V))) :
  sinkTargets (t1 ++ t2) = sinkTargets t1 ++ sinkTargets t2.
Proof. unfold sinkTargets. now rewrite calls_app, flat_map_app. Qed.

(** The loop of the executor calls the sink once for every item, in order,
    whatever the earlier answers were, and records one result per item from
    the answer given for it. *)
Lemma migration_loop (items : list (PreviewItem.t V)) (total : nat) (w : World) :
  let run := forEach (migrateOne apiToken setCustomFieldValue customFields total) 0
               items [] w in
  result_of run = zip_with migrationEntry items (sinkOutcomes (trace_of run))
  /\ length (sinkOutcomes (trace_of run)) = length items
  /\ sinkTargets (trace_of run) = List.map targetOf items
  /\ length (List.filter failedEntry (result_of run))
     = length (List.filter (fun r => negb (succeeded r)) (sinkOutcomes (trace_of run)))
  /\ delays (trace_of run) = [].
Proof.
  cbv zeta.
  pose proof (forEach_invariant
                (migrateOne apiToken setCustomFieldValue customFields total)
                (fun i acc t =>
                   acc = zip_with migrationEntry (take i items) (sinkOutcomes t)
                   /\ length (sinkOutcomes t) = i
                   /\ sinkTargets t = List.map targetOf (take i items)
                   /\ length (List.filter failedEntry acc)
                      = length (List.filter (fun r => negb (succeeded r)) (sinkOutcomes t))
                   /\ delays t = [])
                items) as Hinv.
  destruct Hinv with (acc := @nil (MigrationResult.t V)) (w := w)
    as (Hr & Hl & Ht & Hf & Hd).
  - intros i x acc t w0 Hx (Hacc & Hlen & Htg & Hfail & Hdel).
    destruct (migrateOne_run total i x acc w0) as [Hr Htr]. rewrite Hr, Htr.
    rewrite sinkOutcomes_app, sinkTargets_app, delays_app, Hdel.
    rewrite (take_S_r _ _ _ Hx).
    assert (length (take i items) = i) as Hti.
    { rewrite length_take. apply lookup_lt_Some in Hx. lia. }
    split; [|split; [|split; [|split]]].
    + rewrite zip_with_app by (now rewrite Hti, Hlen). now rewrite <- Hacc.
    + rewrite length_app, Hlen. cbn. lia.
    + rewrite List.map_app, Htg. reflexivity.
    + rewrite !List.filter_app, !length_app, Hfail. cbn [sinkOutcomes calls List.flat_map app].
      cbn [List.filter]. unfold failedEntry at 1. rewrite migrationEntry_success.
      now destruct (negb (succeeded _)).
    + reflexivity.
  - cbn. repeat split.
  - rewrite firstn_all in Hr, Ht. repeat split; assumption.
Qed.

End MigrationExecutor.

(** ** The bulk update executor *)

Section BulkUpdateExecutor.
Import BulkUpdate.
Context {World V : Type}.
Variable apiToken : jsstring.
Variable getFeature : jsstring -> jsstring -> World -> Outcome FeatureResult.t * World.
Variable getCustomFieldValue :
  jsstring -> jsstring -> jsstring -> World -> Outcome (ValueResult.t V) * World.
Variable updateFeatureCustomFields :
  jsstring -> jsstring -> list FieldPayload.t -> World -> Outcome UpdateResponse.t * World.
Variable formatFieldValue : option V -> jsstring.
Variable numberToString : number -> jsstring.
Variable customFields : list CustomField.t.
Variable preserveExistingValues : bool.

Lemma forEach_app {A R} (body : nat -> A -> R -> Run World (Call V) R)
  (l1 l2 : list A) :
  forall i acc w,
    forEach body i (l1 ++ l2) acc w
    = bind (forEach body i l1 acc) (forEach body (i + length l1) l2) w.
Proof.
  induction l1 as [|x l1 IH]; intros i acc w.
  - cbn [app forEach length]. rewrite Nat.add_0_r. unfold bind, ret.
    now destruct (forEach body i l2 acc w) as [[b t] w'].
  - cbn [app forEach length]. rewrite !bind_run. rewrite IH. rewrite !bind_run.
    cbn [result_of trace_of world_of fst snd].
    now rewrite Nat.add_succ_r, app_assoc.
Qed.

Lemma forEach_index {A R} (body : A -> R -> Run World (Call V) R) (l : list A) :
  forall i j acc w,
    forEach (fun _ => body) i l acc w = forEach (fun _ => body) j l acc w.
Proof.
  induction l as [|x l IH]; intros i j acc w; [reflexivity|].
  cbn [forEach]. unfold bind. destruct (body x acc w) as [[a t1] w1].
  now rewrite (IH (S i) (S j)).
Qed.

(** The lookup of the current value: one call at most, and the field is
    skipped exactly when the call shows an existing value. *)
Lemma existingValue_run (fieldId featureId : jsstring) (w : World) :
  existingValue apiToken getCustomFieldValue formatFieldValue preserveExistingValues
    fieldId featureId w
  = if preserveExistingValues then
      let r := fst (getCustomFieldValue apiToken fieldId featureId w) in
      let w1 := snd (getCustomFieldValue apiToken fieldId featureId w) in
      ((match r with
        | Returned current =>
            if populated r then Some (formatFieldValue (ValueResult.value current)) else None
        | Threw _ => None
        end, populated r),
       [EvCall (GetCustomFieldValue fieldId featureId r)], w1)
    else ((None, false), [], w).
Proof.
  unfold existingValue. destruct preserveExistingValues; [|reflexivity].
  unfold bind, await, ret. destruct (getCustomFieldValue apiToken fieldId featureId w) as [r w1].
  cbn [fst snd]. destruct r as [current|e]; [|reflexivity]. cbn [populated].
  now destruct (ValueResult.success current && ValueResult.hasValue current).
Qed.

Lemma updateField_run (featureId : jsstring) (row : CSVRow) (i : nat)
  (mapping : ColumnMapping.t) (acc : list FieldUpdateDetail.t * list FieldPayload.t)
  (w : World) :
  updateField apiToken getCustomFieldValue formatFieldValue numberToString customFields
    preserveExistingValues featureId row i mapping acc w
  = match numericField customFields row mapping with
    | None => (acc, [], w)
    | Some (field, n) =>
        let x := existingValue apiToken getCustomFieldValue formatFieldValue
                   preserveExistingValues (CustomField.id field) featureId w in
        ((fst acc ++
          [FieldUpdateDetail.mk (CustomField.id field) (CustomField.name field)
             (fst (result_of x)) (numberToString n) (snd (result_of x))],
          if snd (result_of x) then snd acc
          else snd acc ++
               [FieldPayload.mk (CustomField.id field) (CustomField.type field) n]),
         trace_of x, world_of x)
    end.
Proof.
  unfold updateField, numericField. destruct acc as [fieldUpdates customFieldUpdates].
  destruct (List.find _ customFields) as [field|]; [|reflexivity].
  destruct (isBlankValue _); [reflexivity|].
  destruct (isNaN _); [reflexivity|].
  unfold bind, ret, result_of, trace_of, world_of. cbv zeta.
  destruct (existingValue _ _ _ _ _ _ w) as [[[oldValue shouldSkip] t] w1]. cbn.
  now rewrite app_nil_r.
Qed.

Lemma lookupsOnly_app (t1 t2 : list (Event (Call V))) :
  lookupsOnly (t1 ++ t2) = lookupsOnly t1 && lookupsOnly t2.
Proof. unfold lookupsOnly. apply forallb_app. Qed.

Lemma updateField_lookupsOnly (featureId : jsstring) (row : CSVRow) (i : nat)
  (mapping : ColumnMapping.t) (acc : list FieldUpdateDetail.t * list FieldPayload.t)
  (w : World) :
  lookupsOnly
    (trace_of
       (updateField apiToken getCustomFieldValue formatFieldValue numberToString
          customFields preserveExistingValues featureId row i mapping acc w)) = true.
Proof.
  rewrite updateField_run. destruct (numericField customFields row mapping) as [[field n]|]; [|reflexivity].
  cbv zeta. cbn [trace_of fst snd]. rewrite existingValue_run.
  now destruct preserveExistingValues.
Qed.

Lemma fieldLoop_lookupsOnly (featureId : jsstring) (row : CSVRow)
  (valueColumns : list ColumnMapping.t)
  (acc : list FieldUpdateDetail.t * list FieldPayload.t) (w : World) :
  lookupsOnly
    (trace_of
       (forEach
          (updateField apiToken getCustomFieldValue formatFieldValue numberToString
             customFields preserveExistingValues featureId row)
          0 valueColumns acc w)) = true.
Proof.
  apply (forEach_invariant
           (updateField apiToken getCustomFieldValue formatFieldValue numberToString
              customFields preserveExistingValues featureId row)
           (fun _ _ t => lookupsOnly t = true) valueColumns); [|reflexivity].
  intros i x a t w0 _ Ht. rewrite lookupsOnly_app, Ht. apply updateField_lookupsOnly.
Qed.

Lemma lookupsOnly_measures (t : list (Event (Call V))) :
  lookupsOnly t = true ->
  callsOnly t = true /\ visited t = [] /\ updateOutcomes t = [].
Proof.
  induction t as [|[[f r|c f r|f p r]|c n|d] t IH]; cbn; try discriminate; auto.
Qed.

Lemma rateLimitDelay_run (every : nat) (ms : N) (i total : nat) (w : World) :
  @rateLimitDelay World (Call V) every ms i total w
  = (tt, if ((i + 1) mod every =? 0) && (i + 1 <? total) then [EvDelay ms] else [], w).
Proof.
  unfold rateLimitDelay. now destruct (((i + 1) mod every =? 0) && (i + 1 <? total)).
Qed.

Lemma endOfRow_run (total i : nat) (results : list UpdateResult.t) (w : World) :
  @endOfRow World V total i results w
  = (results, rowEnding total i, w).
Proof.
  unfold endOfRow, rowEnding, bind, emit, ret. rewrite rateLimitDelay_run. cbn.
  now rewrite app_nil_r.
Qed.

(** One iteration of the main loop: the feature is looked up, the fields
    are prepared, then the row is reported as skipped, left without a
    result, or sent. *)
Lemma updateRow_run (uuidColumn : jsstring) (valueColumns : list ColumnMapping.t)
  (total i rowIndex : nat) (row : CSVRow) (results : list UpdateResult.t) (w : World) :
  let featureId := trim (orEmpty (row !! uuidColumn)) in
  let fr := fst (getFeature apiToken featureId w) in
  let fields :=
    forEach
      (updateField apiToken getCustomFieldValue formatFieldValue numberToString
         customFields preserveExistingValues featureId row)
      0 valueColumns ([], []) (snd (getFeature apiToken featureId w)) in
  let fieldUpdates := fst (result_of fields) in
  let payload := snd (result_of fields) in
  let ending := rowEnding total i in
  updateRow apiToken getFeature getCustomFieldValue updateFeatureCustomFields
    formatFieldValue numberToString customFields preserveExistingValues
    uuidColumn valueColumns total i (rowIndex, row) results w
  = if (0 <? length fieldUpdates) && (length payload =? 0) then
      (results ++
       [UpdateResult.mk rowIndex featureId (featureNameOf featureId fr) true None
          fieldUpdates (Some true)],
       EvCall (GetFeature featureId fr) :: trace_of fields ++ ending,
       world_of fields)
    else if length payload =? 0 then
      (results, EvCall (GetFeature featureId fr) :: trace_of fields, world_of fields)
    else
      let r := fst (updateFeatureCustomFields apiToken featureId payload (world_of fields)) in
      (results ++
       [sentResult rowIndex featureId (featureNameOf featureId fr) fieldUpdates r],
       EvCall (GetFeature featureId fr)
       :: trace_of fields ++ EvCall (UpdateFeatureCustomFields featureId payload r) :: ending,
       snd (updateFeatureCustomFields apiToken featureId payload (world_of fields))).
Proof.
  cbv zeta. unfold updateRow, bind, await, ret, result_of, trace_of, world_of.
  destruct (getFeature apiToken _ w) as [fr w1]. cbn [fst snd].
  destruct (forEach _ 0 valueColumns ([], []) w1) as [[[fieldUpdates payload] tf] w2].
  cbn [fst snd].
  destruct ((0 <? length fieldUpdates) && (length payload =? 0)).
  - rewrite endOfRow_run. reflexivity.
  - destruct (length payload =? 0).
    + cbn. now rewrite app_nil_r.
    + destruct (updateFeatureCustomFields apiToken _ payload w2) as [r w3].
      rewrite endOfRow_run. reflexivity.
Qed.

Lemma visited_app (t1 t2 : list (Event (Call V))) :
  visited (t1 ++ t2) = visited t1 ++ visited t2.
Proof. unfold visited. now rewrite calls_app, flat_map_app. Qed.

Lemma updateOutcomes_app (t1 t2 : list (Event (Call V))) :
  updateOutcomes (t1 ++ t2) = updateOutcomes t1 ++ updateOutcomes t2.
Proof. unfold updateOutcomes. now rewrite calls_app, flat_map_app. Qed.

Lemma sentResult_failed (rowIndex : nat) (featureId featureName : jsstring)
  (fieldUpdates : list FieldUpdateDetail.t) (r : Outcome UpdateResponse.t) :
  failed (sentResult rowIndex featureId featureName fieldUpdates r) = negb (succeeded r)
  /\ fullySkipped (sentResult rowIndex featureId featureName fieldUpdates r) = false.
Proof. now destruct r. Qed.

Lemma rowEnding_measures (total i : nat) :
  visited (@rowEnding V total i) = []
  /\ updateOutcomes (@rowEnding V total i) = []
  /\ throttled 10 200 (@rowEnding V total i) = true.
Proof.
  unfold rowEnding. split; [|split].
  - now destruct (((i + 1) mod 10 =? 0) && (i + 1 <? total)).
  - now destruct (((i + 1) mod 10 =? 0) && (i + 1 <? total)).
  - pose proof (throttled_endOfIteration (W := unit) (C := Call V) 10 200 i total tt) as H.
    now rewrite rateLimitDelay_trace in H.
Qed.

(** Every row to process is looked up, in order, whatever the answers to
    the earlier rows were; the failures recorded are the updates that did
    not succeed; every update sent has its result; the trace is throttled:
    200 ms after every tenth row reported, none after the last. *)
Lemma update_loop (uuidColumn : jsstring) (valueColumns : list ColumnMapping.t)
  (rows : list (nat * CSVRow)) (total : nat) (w : World) :
  let run :=
    forEach
      (updateRow apiToken getFeature getCustomFieldValue updateFeatureCustomFields
         formatFieldValue numberToString customFields preserveExistingValues
         uuidColumn valueColumns total)
      0 rows [] w in
  visited (trace_of run) = List.map (rowFeatureId uuidColumn) rows
  /\ length (List.filter failed (result_of run))
     = length (List.filter (fun r => negb (succeeded r)) (updateOutcomes (trace_of run)))
  /\ length (result_of run)
     = length (updateOutcomes (trace_of run))
       + length (List.filter fullySkipped (result_of run))
  /\ throttled 10 200 (trace_of run) = true
  /\ noDelayHead (trace_of run) = true.
Proof.
  cbv zeta.
  pose proof (forEach_invariant
                (updateRow apiToken getFeature getCustomFieldValue updateFeatureCustomFields
                   formatFieldValue numberToString customFields preserveExistingValues
                   uuidColumn valueColumns total)
                (fun i acc t =>
                   visited t = List.map (rowFeatureId uuidColumn) (take i rows)
                   /\ length (List.filter failed acc)
                      = length (List.filter (fun r => negb (succeeded r)) (updateOutcomes t))
                   /\ length acc
                      = length (updateOutcomes t) + length (List.filter fullySkipped acc)
                   /\ throttled 10 200 t = true
                   /\ noDelayHead t = true)
                rows) as Hinv.
  destruct Hinv with (acc := @nil UpdateResult.t) (w := w) as (Hv & Hf & Hl & Ht & Hh).
  - intros i [rowIndex row] acc t w0 Hx (Hv & Hf & Hl & Ht & Hh).
    rewrite (take_S_r _ _ _ Hx), List.map_app, <- Hv.
    rewrite updateRow_run. cbv zeta.
    set (featureId := trim (orEmpty (row !! uuidColumn))).
    set (fr := fst (getFeature apiToken featureId w0)).
    set (fields := forEach _ 0 valueColumns ([], []) _).
    destruct (lookupsOnly_measures (trace_of fields)
                (fieldLoop_lookupsOnly featureId row valueColumns ([], []) _))
      as (Hc & Hfv & Hfo).
    destruct (rowEnding_measures total i) as (Hev & Heo & Het).
    assert (forall l : list (Event (Call V)),
               EvCall (GetFeature featureId fr) :: l = [EvCall (GetFeature featureId fr)] ++ l)
      as Hcons by reflexivity.
    destruct ((0 <? length (fst (result_of fields)))
              && (length (snd (result_of fields)) =? 0)).
    + cbn [result_of trace_of fst snd]. rewrite Hcons.
      rewrite !List.filter_app, !length_app.
      rewrite !visited_app, !updateOutcomes_app, Hfv, Hfo, Hev, Heo.
      cbn [visited updateOutcomes calls List.flat_map app List.filter failed fullySkipped
             UpdateResult.success UpdateResult.allFieldsSkipped negb length].
      rewrite !app_nil_r.
      split; [reflexivity|]. split; [lia|]. split; [lia|].
      split.
      * rewrite throttled_app by reflexivity. rewrite Ht. cbn [app andb throttled].
        now rewrite throttled_calls by exact Hc.
      * now apply noDelayHead_app.
    + destruct (length (snd (result_of fields)) =? 0).
      * cbn [result_of trace_of fst snd]. rewrite Hcons.
        rewrite !visited_app, !updateOutcomes_app, Hfv, Hfo.
        cbn [visited updateOutcomes calls List.flat_map app]. rewrite !app_nil_r.
        split; [reflexivity|]. split; [exact Hf|]. split; [exact Hl|]. split.
        -- rewrite throttled_app by reflexivity. rewrite Ht. cbn [app andb throttled].
           rewrite <- (app_nil_r (trace_of fields)). now rewrite throttled_calls.
        -- now apply noDelayHead_app.
      * cbv zeta. cbn [result_of trace_of fst snd].
        set (payload := snd (result_of fields)).
        set (r := fst (updateFeatureCustomFields _ _ _ _)).
        assert (forall l : list (Event (Call V)),
                   EvCall (UpdateFeatureCustomFields featureId payload r) :: l
                   = [EvCall (UpdateFeatureCustomFields featureId payload r)] ++ l)
          as Hcons' by reflexivity.
        rewrite Hcons, Hcons'.
        rewrite !List.filter_app, !length_app.
        rewrite !visited_app, !updateOutcomes_app, Hfv, Hfo, Hev, Heo.
        cbn [visited updateOutcomes calls List.flat_map app List.filter length].
        destruct (sentResult_failed rowIndex featureId (featureNameOf featureId fr)
                    (fst (result_of fields)) r) as [Hsf Hsk].
        rewrite Hsf, Hsk, !List.filter_app, !length_app. cbn [List.filter].
        split; [reflexivity|]. split; [destruct (negb (succeeded r)); cbn; lia|].
        split; [cbn; lia|]. split.
        -- rewrite throttled_app by reflexivity. rewrite Ht. cbn [app andb throttled].
           rewrite throttled_calls by exact Hc. exact Het.
        -- now apply noDelayHead_app.
  - cbn. repeat split.
  - rewrite firstn_all in Hv. repeat split; assumption.
Qed.

(** A turn does not depend on the results so far: it appends to them what
    it gives from none. *)
Lemma updateRow_alone (uuidColumn : jsstring) (valueColumns : list ColumnMapping.t)
  (total i : nat) (entry : nat * CSVRow) (results : list UpdateResult.t) (w : World) :
  let turn :=
    updateRow apiToken getFeature getCustomFieldValue updateFeatureCustomFields
      formatFieldValue numberToString customFields preserveExistingValues
      uuidColumn valueColumns total i entry [] w in
  updateRow apiToken getFeature getCustomFieldValue updateFeatureCustomFields
    formatFieldValue numberToString customFields preserveExistingValues
    uuidColumn valueColumns total i entry results w
  = (results ++ result_of turn, trace_of turn, world_of turn).
Proof.
  destruct entry as [rowIndex row]. cbv zeta. rewrite !updateRow_run. cbv zeta.
  destruct ((0 <? length _) && (length _ =? 0)); [reflexivity|].
  destruct (length _ =? 0); [|reflexivity].
  cbn [result_of trace_of world_of fst snd]. now rewrite app_nil_r.
Qed.

(** The loop is its turns one after the other. *)
Lemma loop_turns (uuidColumn : jsstring) (valueColumns : list ColumnMapping.t)
  (total : nat) (rows : list (nat * CSVRow)) :
  forall i results w,
    let turns :=
      turnsFrom apiToken getFeature getCustomFieldValue updateFeatureCustomFields
        formatFieldValue numberToString customFields preserveExistingValues
        uuidColumn valueColumns total i rows w in
    let run :=
      forEach
        (updateRow apiToken getFeature getCustomFieldValue updateFeatureCustomFields
           formatFieldValue numberToString customFields preserveExistingValues
           uuidColumn valueColumns total)
        i rows results w in
    result_of run
    = results ++ List.concat (List.map (fun turn => result_of (snd turn)) turns)
    /\ trace_of run = List.concat (List.map (fun turn => trace_of (snd turn)) turns).
Proof.
  induction rows as [|entry rows IH]; intros i results w; cbv zeta.
  - cbn. now rewrite app_nil_r.
  - cbn [forEach turnsFrom List.map List.concat]. rewrite bind_run.
    rewrite updateRow_alone. cbv zeta. cbn [result_of trace_of world_of fst snd].
    destruct (IH (S i) (results ++ fst (fst (updateRow apiToken getFeature
                getCustomFieldValue updateFeatureCustomFields formatFieldValue
                numberToString customFields preserveExistingValues uuidColumn
                valueColumns total i entry [] w)))
                (snd (updateRow apiToken getFeature getCustomFieldValue
                updateFeatureCustomFields formatFieldValue numberToString customFields
                preserveExistingValues uuidColumn valueColumns total i entry [] w)))
      as [Hr Ht].
    cbv zeta in Hr, Ht. unfold result_of, trace_of, world_of in *.
    rewrite Hr, Ht. split; [now rewrite <- app_assoc|reflexivity].
Qed.

(** The rows and their turns go together. *)
Lemma turnsFrom_lookup (uuidColumn : jsstring) (valueColumns : list ColumnMapping.t)
  (total : nat) (rows : list (nat * CSVRow)) :
  forall start w,
    let turns :=
      turnsFrom apiToken getFeature getCustomFieldValue updateFeatureCustomFields
        formatFieldValue numberToString customFields preserveExistingValues
        uuidColumn valueColumns total start rows w in
    length turns = length rows
    /\ forall i w0 turn, turns !! i = Some (w0, turn) ->
         exists entry,
           rows !! i = Some entry
           /\ turn
              = updateRow apiToken getFeature getCustomFieldValue
                  updateFeatureCustomFields formatFieldValue numberToString customFields
                  preserveExistingValues uuidColumn valueColumns total (start + i) entry
                  [] w0.
Proof.
  induction rows as [|entry rows IH]; intros start w; cbv zeta.
  - split; [reflexivity|]. intros i w0 turn H. destruct i; discriminate.
  - cbn [turnsFrom length]. destruct (IH (S start) (world_of (updateRow apiToken getFeature
        getCustomFieldValue updateFeatureCustomFields formatFieldValue numberToString
        customFields preserveExistingValues uuidColumn valueColumns total start entry [] w)))
      as [Hl Hi]. cbv zeta in Hl, Hi.
    split; [now rewrite Hl|]. intros [|i] w0 turn H.
    + cbn in H. injection H as <- <-. exists entry. split; [reflexivity|].
      now rewrite Nat.add_0_r.
    + cbn in H. destruct (Hi i w0 turn H) as (e & He & Ht). exists e.
      split; [exact He|]. now rewrite Nat.add_succ_r.
Qed.

(** A turn is calls only, followed, when it gives a result, by the report
    of the progress and by the delay the loop decides on. *)
Lemma turn_ending (uuidColumn : jsstring) (valueColumns : list ColumnMapping.t)
  (total i : nat) (entry : nat * CSVRow) (w : World) :
  let turn :=
    updateRow apiToken getFeature getCustomFieldValue updateFeatureCustomFields
      formatFieldValue numberToString customFields preserveExistingValues
      uuidColumn valueColumns total i entry [] w in
  trace_of turn
  = List.map EvCall (calls (trace_of turn))
    ++ (if length (result_of turn) =? 0 then [] else turnEnding 10 200 total i).
Proof.
  destruct entry as [rowIndex row]. cbv zeta. rewrite updateRow_run. cbv zeta.
  set (featureId := trim (orEmpty (row !! uuidColumn))).
  set (fr := fst (getFeature apiToken featureId w)).
  set (fields := forEach _ 0 valueColumns ([], []) _).
  destruct (lookupsOnly_measures (trace_of fields)
              (fieldLoop_lookupsOnly featureId row valueColumns ([], []) _))
    as (Hc & _ & _).
  change (@rowEnding V total i) with (@turnEnding (Call V) 10 200 total i).
  assert (forall l : list (Event (Call V)),
             EvCall (GetFeature featureId fr) :: l = [EvCall (GetFeature featureId fr)] ++ l)
    as Hcons by reflexivity.
  destruct ((0 <? length (fst (result_of fields)))
            && (length (snd (result_of fields)) =? 0)).
  - cbn [result_of trace_of fst snd app length Nat.eqb].
    rewrite Hcons, !calls_app, calls_turnEnding, app_nil_r, List.map_app.
    rewrite (callsOnly_calls _ Hc). reflexivity.
  - destruct (length (snd (result_of fields)) =? 0).
    + cbn [result_of trace_of fst snd app length Nat.eqb].
      rewrite Hcons, !calls_app, List.map_app, (callsOnly_calls _ Hc), app_nil_r.
      reflexivity.
    + cbv zeta. cbn [result_of trace_of fst snd app length Nat.eqb].
      set (r := fst (updateFeatureCustomFields _ _ _ _)).
      rewrite Hcons.
      change (EvCall (UpdateFeatureCustomFields featureId (snd (result_of fields)) r)
              :: @turnEnding (Call V) 10 200 total i)
        with ([EvCall (UpdateFeatureCustomFields featureId (snd (result_of fields)) r)]
              ++ @turnEnding (Call V) 10 200 total i).
      rewrite !calls_app, calls_turnEnding, app_nil_r, !List.map_app.
      rewrite (callsOnly_calls _ Hc). cbn [calls List.flat_map List.map app].
      now rewrite <- app_assoc.
Qed.

(** What a turn sends: the update of the fields it prepared, if there are
    any, and then the result of the row is made of the answer to it; no
    update and no failure otherwise. *)
Lemma turn_sent (uuidColumn : jsstring) (valueColumns : list ColumnMapping.t)
  (total i rowIndex : nat) (row : CSVRow) (w : World) :
  let turn :=
    updateRow apiToken getFeature getCustomFieldValue updateFeatureCustomFields
      formatFieldValue numberToString customFields preserveExistingValues
      uuidColumn valueColumns total i (rowIndex, row) [] w in
  let featureId := trim (orEmpty (row !! uuidColumn)) in
  let fr := fst (getFeature apiToken featureId w) in
  let fields :=
    forEach
      (updateField apiToken getCustomFieldValue formatFieldValue numberToString
         customFields preserveExistingValues featureId row)
      0 valueColumns ([], []) (snd (getFeature apiToken featureId w)) in
  let payload := snd (result_of fields) in
  let r := fst (updateFeatureCustomFields apiToken featureId payload (world_of fields)) in
  if length payload =? 0 then
    updateOutcomes (trace_of turn) = []
    /\ Forall (fun result => UpdateResult.success result = true) (result_of turn)
  else
    calls (trace_of turn)
    = GetFeature featureId fr :: calls (trace_of fields)
      ++ [UpdateFeatureCustomFields featureId payload r]
    /\ result_of turn
       = [sentResult rowIndex featureId (featureNameOf featureId fr)
            (fst (result_of fields)) r]
    /\ List.map UpdateResult.success (result_of turn) = [succeeded r]
    /\ List.map UpdateResult.rowIndex (result_of turn) = [rowIndex].
Proof.
  cbv zeta. rewrite updateRow_run. cbv zeta.
  set (featureId := trim (orEmpty (row !! uuidColumn))).
  set (fr := fst (getFeature apiToken featureId w)).
  set (fields := forEach _ 0 valueColumns ([], []) _).
  destruct (lookupsOnly_measures (trace_of fields)
              (fieldLoop_lookupsOnly featureId row valueColumns ([], []) _))
    as (Hc & _ & Ho).
  destruct (rowEnding_measures total i) as (_ & Heo & _).
  assert (forall l : list (Event (Call V)),
             EvCall (GetFeature featureId fr) :: l = [EvCall (GetFeature featureId fr)] ++ l)
    as Hcons by reflexivity.
  destruct (length (snd (result_of fields)) =? 0) eqn:El.
  - rewrite andb_true_r. destruct (0 <? length (fst (result_of fields))).
    + cbn [result_of trace_of fst snd]. rewrite Hcons, !updateOutcomes_app, Ho, Heo.
      split; [reflexivity|]. now repeat constructor.
    + cbn [result_of trace_of fst snd]. rewrite Hcons, !updateOutcomes_app, Ho.
      split; [reflexivity|]. constructor.
  - rewrite andb_false_r. cbn [result_of trace_of fst snd].
    set (r := fst (updateFeatureCustomFields _ _ _ _)).
    split; [|split; [reflexivity|split]].
    + rewrite Hcons, !calls_app. cbn [calls List.flat_map app].
      f_equal. f_equal. f_equal.
      exact (calls_turnEnding (C := Call V) 10 200 total i).
    + now destruct r.
    + now destruct r.
Qed.

End BulkUpdateExecutor.

(** ** Throttling, as the executors do it *)

Section StartUpdate.
Import BulkUpdate.
Context {World V : Type}.
Variable apiToken : jsstring.
Variable getFeature : jsstring -> jsstring -> World -> Outcome FeatureResult.t * World.
Variable getCustomFieldValue :
  jsstring -> jsstring -> jsstring -> World -> Outcome (ValueResult.t V) * World.
Variable updateFeatureCustomFields :
  jsstring -> jsstring -> list FieldPayload.t -> World -> Outcome UpdateResponse.t * World.
Variable formatFieldValue : option V -> jsstring.
Variable numberToString : number -> jsstring.
Variable customFields : list CustomField.t.
Variable preserveExistingValues : bool.

(** A run that starts is the report of no progress yet, then the loop over
    the rows to process. *)
Lemma handleStartUpdate_run (data : CsvData.t) (uuidColumn : jsstring)
  (columnMappings : list ColumnMapping.t) (updateResults : list UpdateResult.t) (w : World) :
  jsstring_eqb uuidColumn [] = false ->
  let valueColumns := getValueColumns columnMappings uuidColumn in
  let rows := rowsToProcess uuidColumn valueColumns (CsvData.rows data) in
  let loop :=
    forEach
      (updateRow apiToken getFeature getCustomFieldValue updateFeatureCustomFields
         formatFieldValue numberToString customFields preserveExistingValues
         uuidColumn valueColumns (length rows))
      0 rows [] w in
  handleStartUpdate apiToken getFeature getCustomFieldValue updateFeatureCustomFields
    formatFieldValue numberToString customFields preserveExistingValues
    (Some data) uuidColumn columnMappings updateResults w
  = (result_of loop, EvProgress 0 (length rows) :: trace_of loop, world_of loop).
Proof.
  intros Hu. cbv zeta. unfold handleStartUpdate. rewrite Hu.
  rewrite bind_run. reflexivity.
Qed.

Lemma startUpdate_throttled (csvData : option CsvData.t) (uuidColumn : jsstring)
  (columnMappings : list ColumnMapping.t) (updateResults : list UpdateResult.t) (w : World) :
  throttled 10 200
    (trace_of
       (handleStartUpdate apiToken getFeature getCustomFieldValue updateFeatureCustomFields
          formatFieldValue numberToString customFields preserveExistingValues
          csvData uuidColumn columnMappings updateResults w)) = true.
Proof.
  destruct csvData as [data|]; [|reflexivity].
  destruct (jsstring_eqb uuidColumn []) eqn:Hu.
  - unfold handleStartUpdate. now rewrite Hu.
  - rewrite handleStartUpdate_run by exact Hu. cbv zeta. cbn [trace_of fst snd].
    destruct (update_loop apiToken getFeature getCustomFieldValue updateFeatureCustomFields
                formatFieldValue numberToString customFields preserveExistingValues
                uuidColumn (getValueColumns columnMappings uuidColumn)
                (rowsToProcess uuidColumn (getValueColumns columnMappings uuidColumn)
                   (CsvData.rows data))
                (length (rowsToProcess uuidColumn (getValueColumns columnMappings uuidColumn)
                           (CsvData.rows data))) w)
      as (_ & _ & _ & Ht & Hh).
    now apply throttled_start.
Qed.

(** A run that starts is the turns of its rows one after the other. *)
Lemma startUpdate_turns (data : CsvData.t) (uuidColumn : jsstring)
  (columnMappings : list ColumnMapping.t) (updateResults : list UpdateResult.t) (w : World) :
  jsstring_eqb uuidColumn [] = false ->
  let valueColumns := getValueColumns columnMappings uuidColumn in
  let rows := rowsToProcess uuidColumn valueColumns (CsvData.rows data) in
  let run :=
    handleStartUpdate apiToken getFeature getCustomFieldValue updateFeatureCustomFields
      formatFieldValue numberToString customFields preserveExistingValues
      (Some data) uuidColumn columnMappings updateResults w in
  let turns :=
    turnsFrom apiToken getFeature getCustomFieldValue updateFeatureCustomFields
      formatFieldValue numberToString customFields preserveExistingValues
      uuidColumn valueColumns (length rows) 0 rows w in
  length turns = length rows
  /\ result_of run = List.concat (List.map (fun turn => result_of (snd turn)) turns)
  /\ trace_of run
     = EvProgress 0 (length rows)
       :: List.concat (List.map (fun turn => trace_of (snd turn)) turns)
  /\ forall i w0 turn, turns !! i = Some (w0, turn) ->
       exists entry,
         rows !! i = Some entry
         /\ turn
            = updateRow apiToken getFeature getCustomFieldValue
                updateFeatureCustomFields formatFieldValue numberToString customFields
                preserveExistingValues uuidColumn valueColumns (length rows) i entry
                [] w0.
Proof.
  intros Hu. cbv zeta. rewrite handleStartUpdate_run by exact Hu. cbv zeta.
  cbn [result_of trace_of fst snd].
  set (valueColumns := getValueColumns columnMappings uuidColumn).
  set (rows := rowsToProcess uuidColumn valueColumns (CsvData.rows data)).
  destruct (loop_turns apiToken getFeature getCustomFieldValue updateFeatureCustomFields
              formatFieldValue numberToString customFields preserveExistingValues
              uuidColumn valueColumns (length rows) rows 0 [] w) as [Hr Ht].
  destruct (turnsFrom_lookup apiToken getFeature getCustomFieldValue
              updateFeatureCustomFields formatFieldValue numberToString customFields
              preserveExistingValues uuidColumn valueColumns (length rows) rows 0 w)
    as [Hl Hi].
  cbv zeta in Hr, Ht, Hl, Hi. unfold result_of, trace_of in *.
  split; [exact Hl|]. split; [exact Hr|]. split; [now rewrite Ht|exact Hi].
Qed.

End StartUpdate.

(** C7, as it holds. The bulk update is the turns of its rows one after
    the other, after the report of no progress yet; the turn of row [i] is
    calls only, followed, when the row gives a result, by the report of the
    progress [i + 1] and then by a wait of 200 ms exactly when [i + 1] is a
    multiple of ten and rows remain. The deletion of notes is, for every
    note to delete, its call, the report of its progress and a wait of
    1000 ms exactly after every fiftieth note when notes remain: its waits
    are one for every full fifty notes before the last. The field migration
    never waits. *)
Theorem executors_throttling :
  (forall (World V : Type) apiToken getFeature getCustomFieldValue
          updateFeatureCustomFields formatFieldValue numberToString customFields
          preserveExistingValues data uuidColumn columnMappings updateResults
          (w : World),
      jsstring_eqb uuidColumn [] = false ->
      let valueColumns := BulkUpdate.getValueColumns columnMappings uuidColumn in
      let rows :=
        BulkUpdate.rowsToProcess uuidColumn valueColumns (BulkUpdate.CsvData.rows data) in
      let run :=
        @BulkUpdate.handleStartUpdate World V apiToken getFeature getCustomFieldValue
          updateFeatureCustomFields formatFieldValue numberToString customFields
          preserveExistingValues (Some data) uuidColumn columnMappings updateResults w in
      let turns :=
        BulkUpdate.turnsFrom apiToken getFeature getCustomFieldValue
          updateFeatureCustomFields formatFieldValue numberToString customFields
          preserveExistingValues uuidColumn valueColumns (length rows) 0 rows w in
      length turns = length rows
      /\ trace_of run
         = EvProgress 0 (length rows)
           :: List.concat (List.map (fun turn => trace_of (snd turn)) turns)
      /\ forall i w0 turn, turns !! i = Some (w0, turn) ->
           trace_of turn
           = List.map EvCall (calls (trace_of turn))
             ++ (if length (result_of turn) =? 0 then []
                 else turnEnding 10 200 (length rows) i))
  /\ (forall (World V : Type) apiToken getFeature getCustomFieldValue
             updateFeatureCustomFields formatFieldValue numberToString customFields
             preserveExistingValues csvData uuidColumn columnMappings updateResults
             (w : World),
         throttled 10 200
           (trace_of
              (@BulkUpdate.handleStartUpdate World V apiToken getFeature
                 getCustomFieldValue updateFeatureCustomFields formatFieldValue
                 numberToString customFields preserveExistingValues csvData uuidColumn
                 columnMappings updateResults w))
         = true)
  /\ (forall (World : Type) deleteNoteAction apiToken duplicateGroups companies (w : World),
         let run :=
           @DuplicateNotes.handleDeleteDuplicates World deleteNoteAction apiToken
             duplicateGroups companies w in
         let total :=
           length (List.flat_map DuplicateNotes.DuplicateGroup.deleteNotes duplicateGroups) in
         length (calls (trace_of run)) = total
         /\ trace_of run
            = EvProgress 0 total :: turnsOf 50 1000 total 0 (calls (trace_of run))
         /\ delays (trace_of run) = List.repeat 1000%N ((total - 1) / 50)
         /\ throttled 50 1000 (trace_of run) = true)
  /\ (forall (World V : Type) apiToken setCustomFieldValue previewItems customFields
             (w : World),
         delays
           (trace_of
              (@FieldMigration.handleExecuteMigration World V apiToken setCustomFieldValue
                 previewItems customFields w))
         = []).
Proof.
  split; [|split; [|split]].
  - intros World V apiToken getFeature getCustomFieldValue updateFeatureCustomFields
      formatFieldValue numberToString customFields preserveExistingValues data uuidColumn
      columnMappings updateResults w Hu valueColumns rows run turns.
    destruct (startUpdate_turns apiToken getFeature getCustomFieldValue
                updateFeatureCustomFields formatFieldValue numberToString customFields
                preserveExistingValues data uuidColumn columnMappings updateResults w Hu)
      as (Hl & _ & Ht & Hi).
    split; [exact Hl|]. split; [exact Ht|].
    intros i w0 turn Hturn. destruct (Hi i w0 turn Hturn) as (entry & _ & ->).
    apply turn_ending.
  - intros. apply startUpdate_throttled.
  - intros World deleteNoteAction apiToken duplicateGroups companies w run total.
    destruct (deletion_trace deleteNoteAction apiToken duplicateGroups companies w)
      as [Hl Ht].
    split; [exact Hl|]. split; [exact Ht|]. split; [|apply deletion_throttled].
    fold run in Hl, Ht. fold total in Hl, Ht. rewrite Ht.
    change (EvProgress 0 total :: ?t) with ([@EvProgress DuplicateNotes.Call 0 total] ++ t).
    rewrite delays_app. cbn [delays List.flat_map app].
    fold (delays (turnsOf 50 1000 total 0 (calls (trace_of run)))).
    rewrite turnsOf_delays by lia. rewrite Hl. f_equal. f_equal. lia.
  - intros. unfold FieldMigration.handleExecuteMigration. rewrite bind_run.
    cbn [trace_of fst snd emit result_of world_of].
    rewrite delays_app. cbn [delays List.flat_map app].
    apply (migration_loop apiToken setCustomFieldValue customFields).
Qed.

(** Eleven rows updated: one wait, after the tenth. Fifty-one notes
    deleted: one wait, after the fiftieth. *)
Lemma executors_throttling_witness :
  delays (trace_of (Demo.bulkUpdate Demo.updateAccepted false Demo.elevenRows tt))
  = [200%N]
  /\ delays
       (trace_of
          (DuplicateNotes.handleDeleteDuplicates Demo.noteDeleted (js "token")
             Demo.fiftyOneToDelete [] tt))
     = [1000%N].
Proof.
  split.
  - destruct (proj1 executors_throttling unit jsstring (js "token") Demo.featureFound
                Demo.onlyFaPopulated Demo.updateAccepted Demo.formatText Demo.numberText
                [Demo.fieldA; Demo.fieldB] false
                (BulkUpdate.CsvData.mk [js "uuid"; js "a"; js "b"] Demo.elevenRows)
                (js "uuid") Demo.columnMappings [] tt eq_refl) as (_ & Ht & _).
    etransitivity; [exact (f_equal delays Ht)|]. vm_compute. reflexivity.
  - etransitivity;
      [exact (proj1 (proj2 (proj2
                (proj1 (proj2 (proj2 executors_throttling)) unit Demo.noteDeleted
                   (js "token") Demo.fiftyOneToDelete [] tt))))|].
    vm_compute. reflexivity.
Defined.

(** Twelve copies of one note: eleven are deleted one after the other and
    no delay is inserted after the tenth. *)
Lemma throttling_not_every_ten :
  let run :=
    DuplicateNotes.handleDeleteDuplicates Demo.noteDeleted (js "token")
      (DuplicateNotes.findDuplicateGroups codeUnitCompare Demo.twelveCopies) [] tt in
  length (result_of run) = 11
  /\ delays (trace_of run) = []
  /\ throttled 10 1000 (trace_of run) = false.
Proof. vm_compute. repeat split. Qed.

(** ** Partial failure isolation *)

(** C4. The executors call the sink for every item of the list, in order,
    whatever the answers to the earlier items were; an answer that is not a
    success, or an error thrown, is recorded as the failure of that item
    alone. For the bulk update: the run is the turns of its rows one after
    the other, each as it would be from no results so far, in the world the
    turn before left; the turn of a row that has prepared fields to send
    sends them in one update, whatever the turns before it gave, and gives
    one result, with the index of the row and the success of the answer to
    that update; the turn of a row with nothing to send sends no update and
    records no failure. Of ten items of which only the fifth is refused, all
    ten are sent and the results hold one failure and nine successes. *)
Theorem partial_failure_isolation :
  (forall (World V : Type) apiToken setCustomFieldValue previewItems customFields
          (w : World),
      let run := @FieldMigration.handleExecuteMigration World V apiToken
                   setCustomFieldValue previewItems customFields w in
      let items := FieldMigration.itemsToUpdate previewItems in
      FieldMigration.sinkTargets (trace_of run) = List.map FieldMigration.targetOf items
      /\ result_of run
         = zip_with FieldMigration.migrationEntry items
             (FieldMigration.sinkOutcomes (trace_of run))
      /\ length (result_of run) = length items
      /\ length (List.filter FieldMigration.failedEntry (result_of run))
         = length (List.filter (fun r => negb (FieldMigration.succeeded r))
                     (FieldMigration.sinkOutcomes (trace_of run))))
  /\ (forall (World V : Type) apiToken getFeature getCustomFieldValue
             updateFeatureCustomFields formatFieldValue numberToString customFields
             preserveExistingValues data uuidColumn columnMappings updateResults
             (w : World),
         jsstring_eqb uuidColumn [] = false ->
         let run := @BulkUpdate.handleStartUpdate World V apiToken getFeature
                      getCustomFieldValue updateFeatureCustomFields formatFieldValue
                      numberToString customFields preserveExistingValues (Some data)
                      uuidColumn columnMappings updateResults w in
         let rows := BulkUpdate.rowsToProcess uuidColumn
                       (BulkUpdate.getValueColumns columnMappings uuidColumn)
                       (BulkUpdate.CsvData.rows data) in
         let turns :=
           BulkUpdate.turnsFrom apiToken getFeature getCustomFieldValue
             updateFeatureCustomFields formatFieldValue numberToString customFields
             preserveExistingValues uuidColumn
             (BulkUpdate.getValueColumns columnMappings uuidColumn) (length rows) 0 rows w in
         BulkUpdate.visited (trace_of run) = List.map (BulkUpdate.rowFeatureId uuidColumn) rows
         /\ length (List.filter BulkUpdate.failed (result_of run))
            = length (List.filter (fun r => negb (BulkUpdate.succeeded r))
                        (BulkUpdate.updateOutcomes (trace_of run)))
         /\ length (result_of run)
            = length (BulkUpdate.updateOutcomes (trace_of run))
              + length (List.filter BulkUpdate.fullySkipped (result_of run))
         /\ length turns = length rows
         /\ result_of run = List.concat (List.map (fun turn => result_of (snd turn)) turns)
         /\ trace_of run
            = EvProgress 0 (length rows)
              :: List.concat (List.map (fun turn => trace_of (snd turn)) turns)
         /\ forall i w0 turn, turns !! i = Some (w0, turn) ->
              exists rowIndex row,
                rows !! i = Some (rowIndex, row)
                /\ let featureId := trim (orEmpty (row !! uuidColumn)) in
                   let fr := fst (getFeature apiToken featureId w0) in
                   let fields :=
                     forEach
                       (BulkUpdate.updateField apiToken getCustomFieldValue
                          formatFieldValue numberToString customFields
                          preserveExistingValues featureId row)
                       0 (BulkUpdate.getValueColumns columnMappings uuidColumn) ([], [])
                       (snd (getFeature apiToken featureId w0)) in
                   let payload := snd (result_of fields) in
                   let r :=
                     fst (updateFeatureCustomFields apiToken featureId payload
                            (world_of fields)) in
                   if length payload =? 0 then
                     BulkUpdate.updateOutcomes (trace_of turn) = []
                     /\ Forall (fun result => BulkUpdate.UpdateResult.success result = true)
                          (result_of turn)
                   else
                     calls (trace_of turn)
                     = BulkUpdate.GetFeature featureId fr :: calls (trace_of fields)
                       ++ [BulkUpdate.UpdateFeatureCustomFields featureId payload r]
                     /\ result_of turn
                        = [BulkUpdate.sentResult rowIndex featureId
                             (BulkUpdate.featureNameOf featureId fr)
                             (fst (result_of fields)) r]
                     /\ List.map BulkUpdate.UpdateResult.success (result_of turn)
                        = [BulkUpdate.succeeded r]
                     /\ List.map BulkUpdate.UpdateResult.rowIndex (result_of turn)
                        = [rowIndex])
  /\ (let run := FieldMigration.handleExecuteMigration (js "token") Demo.sinkFailingFifth
                   Demo.tenItems [] 0 in
      FieldMigration.sinkTargets (trace_of run)
      = List.map FieldMigration.targetOf Demo.tenItems
      /\ List.map FieldMigration.MigrationResult.success (result_of run)
         = [true; true; true; true; false; true; true; true; true; true])
  /\ (let run := Demo.bulkUpdate Demo.updateRefusedFifth false Demo.tenRows 0 in
      BulkUpdate.visited (trace_of run)
      = List.map (fun n => Demo.numbered "f" n) (seq 0 10)
      /\ List.map BulkUpdate.UpdateResult.success (result_of run)
         = [true; true; true; true; false; true; true; true; true; true]).
Proof.
  split; [|split; [|split]].
  - intros. subst run items. unfold FieldMigration.handleExecuteMigration.
    rewrite bind_run. cbn [trace_of result_of world_of fst snd emit].
    change ([EvProgress 0 ?n] ++ ?t) with (EvProgress 0 n :: t).
    destruct (migration_loop apiToken setCustomFieldValue customFields
                (FieldMigration.itemsToUpdate previewItems)
                (length (FieldMigration.itemsToUpdate previewItems)) w)
      as (Hr & Hl & Ht & Hf & _).
    cbv zeta in Hr, Hl, Ht, Hf. unfold result_of, trace_of in *.
    split; [exact Ht|]. split; [exact Hr|]. split; [|exact Hf].
    rewrite Hr, length_zip_with, Hl. lia.
  - intros World V apiToken getFeature getCustomFieldValue updateFeatureCustomFields
      formatFieldValue numberToString customFields preserveExistingValues data uuidColumn
      columnMappings updateResults w Hu run rows turns.
    destruct (startUpdate_turns apiToken getFeature getCustomFieldValue
                updateFeatureCustomFields formatFieldValue numberToString customFields
                preserveExistingValues data uuidColumn columnMappings updateResults w Hu)
      as (Htl & Htr & Htt & Hti).
    cbv zeta in Htl, Htr, Htt, Hti. fold rows in Htl, Htr, Htt, Hti.
    fold turns in Htl, Htr, Htt, Hti. fold run in Htr, Htt.
    assert (BulkUpdate.visited (trace_of run)
            = List.map (BulkUpdate.rowFeatureId uuidColumn) rows
            /\ length (List.filter BulkUpdate.failed (result_of run))
               = length (List.filter (fun r => negb (BulkUpdate.succeeded r))
                           (BulkUpdate.updateOutcomes (trace_of run)))
            /\ length (result_of run)
               = length (BulkUpdate.updateOutcomes (trace_of run))
                 + length (List.filter BulkUpdate.fullySkipped (result_of run)))
      as (Hv & Hf & Hl).
    { subst run. rewrite handleStartUpdate_run by exact Hu. cbv zeta.
      cbn [trace_of result_of fst snd].
      destruct (update_loop apiToken getFeature getCustomFieldValue
                  updateFeatureCustomFields formatFieldValue numberToString customFields
                  preserveExistingValues uuidColumn
                  (BulkUpdate.getValueColumns columnMappings uuidColumn)
                  rows (length rows) w) as (Hv & Hf & Hl & _).
      cbv zeta in Hv, Hf, Hl. unfold result_of, trace_of in *.
      split; [exact Hv|]. split; [exact Hf|exact Hl]. }
    split; [exact Hv|]. split; [exact Hf|]. split; [exact Hl|].
    split; [exact Htl|]. split; [exact Htr|]. split; [exact Htt|].
    intros i w0 turn Hturn. destruct (Hti i w0 turn Hturn) as ([rowIndex row] & Hrow & ->).
    exists rowIndex, row. split; [exact Hrow|].
    apply (turn_sent apiToken getFeature getCustomFieldValue updateFeatureCustomFields
             formatFieldValue numberToString customFields preserveExistingValues).
  - vm_compute. split; reflexivity.
  - vm_compute. split; reflexivity.
Qed.

Lemma partial_failure_isolation_witness :
  let run := Demo.bulkUpdate Demo.updateRefusedFifth false Demo.tenRows 0 in
  length (List.filter BulkUpdate.failed (result_of run))
  = length (List.filter (fun r => negb (BulkUpdate.succeeded r))
              (BulkUpdate.updateOutcomes (trace_of run))).
Proof.
  apply (proj1 (proj2 partial_failure_isolation) nat jsstring (js "token")
           Demo.featureFound Demo.onlyFaPopulated Demo.updateRefusedFifth Demo.formatText
           Demo.numberText [Demo.fieldA; Demo.fieldB] false
           (BulkUpdate.CsvData.mk [js "uuid"; js "a"; js "b"] Demo.tenRows)
           (js "uuid") Demo.columnMappings [] 0 eq_refl).
Defined.

(** ** Preserving existing values *)

Section PreserveExisting.
Import BulkUpdate.
Context {World V : Type}.
Variable apiToken : jsstring.
Variable getFeature : jsstring -> jsstring -> World -> Outcome FeatureResult.t * World.
Variable getCustomFieldValue :
  jsstring -> jsstring -> jsstring -> World -> Outcome (ValueResult.t V) * World.
Variable updateFeatureCustomFields :
  jsstring -> jsstring -> list FieldPayload.t -> World -> Outcome UpdateResponse.t * World.
Variable formatFieldValue : option V -> jsstring.
Variable numberToString : number -> jsstring.
Variable customFields : list CustomField.t.

(** C3, as it holds. Under [preserveExistingValues], a row with two mapped
    cells that hold numbers, the field of one already populated remotely and
    the field of the other empty, gets one result with two field updates:
    the populated field skipped, the empty one sent as the only field of the
    update. [allFieldsSkipped] is [false], and the row is a success exactly
    when the remote accepts that update: the skipped field does not make it
    a failure. *)
Theorem preserveExisting_partial_skip (uuidColumn : jsstring)
  (m1 m2 : ColumnMapping.t) (total i rowIndex : nat) (row : CSVRow)
  (results : list UpdateResult.t) (w : World)
  (field1 field2 : CustomField.t) (n1 n2 : number) :
  numericField customFields row m1 = Some (field1, n1) ->
  numericField customFields row m2 = Some (field2, n2) ->
  let featureId := trim (orEmpty (row !! uuidColumn)) in
  let w1 := snd (getFeature apiToken featureId w) in
  let r1 := fst (getCustomFieldValue apiToken (CustomField.id field1) featureId w1) in
  let w2 := snd (getCustomFieldValue apiToken (CustomField.id field1) featureId w1) in
  let r2 := fst (getCustomFieldValue apiToken (CustomField.id field2) featureId w2) in
  let w3 := snd (getCustomFieldValue apiToken (CustomField.id field2) featureId w2) in
  populated r1 = negb (populated r2) ->
  let payload :=
    if populated r1
    then [FieldPayload.mk (CustomField.id field2) (CustomField.type field2) n2]
    else [FieldPayload.mk (CustomField.id field1) (CustomField.type field1) n1] in
  let r3 := fst (updateFeatureCustomFields apiToken featureId payload w3) in
  let run :=
    updateRow apiToken getFeature getCustomFieldValue updateFeatureCustomFields
      formatFieldValue numberToString customFields true
      uuidColumn [m1; m2] total i (rowIndex, row) results w in
  exists entry,
    result_of run = results ++ [entry]
    /\ List.map FieldUpdateDetail.fieldId (UpdateResult.fieldUpdates entry)
       = [CustomField.id field1; CustomField.id field2]
    /\ List.map FieldUpdateDetail.skipped (UpdateResult.fieldUpdates entry)
       = [populated r1; populated r2]
    /\ length (List.filter FieldUpdateDetail.skipped (UpdateResult.fieldUpdates entry)) = 1
    /\ length (List.filter (fun u => negb (FieldUpdateDetail.skipped u))
                 (UpdateResult.fieldUpdates entry)) = 1
    /\ In (EvCall (UpdateFeatureCustomFields featureId payload r3)) (trace_of run)
    /\ updateOutcomes (trace_of run) = [r3]
    /\ UpdateResult.allFieldsSkipped entry = Some false
    /\ UpdateResult.success entry = succeeded r3.
Proof.
  intros H1 H2 featureId w1 r1 w2 r2 w3 Hp payload r3 run. subst run.
  rewrite updateRow_run. cbv zeta. fold featureId. fold w1.
  cbn [forEach]. rewrite !bind_run.
  rewrite !updateField_run, H1. cbv zeta.
  rewrite existingValue_run. cbv zeta. cbn [result_of trace_of world_of fst snd].
  fold r1. fold w2. rewrite H2. cbv zeta.
  rewrite existingValue_run. cbv zeta. cbn [result_of trace_of world_of fst snd ret app].
  fold r2. fold w3. subst r3 payload. rewrite Hp.
  assert (forall fus (r : Outcome UpdateResponse.t) name,
             UpdateResult.fieldUpdates (sentResult rowIndex featureId name fus r) = fus)
    as Hs1 by (now intros fus [r|e] name).
  assert (forall fus (r : Outcome UpdateResponse.t) name,
             UpdateResult.allFieldsSkipped (sentResult rowIndex featureId name fus r)
             = Some false) as Hs2 by (now intros fus [r|e] name).
  assert (forall fus (r : Outcome UpdateResponse.t) name,
             UpdateResult.success (sentResult rowIndex featureId name fus r) = succeeded r)
    as Hs3 by (now intros fus [r|e] name).
  assert (forall (c : Call V), updateOutcomes (EvCall c :: rowEnding total i)
                               = updateOutcomes [EvCall c]) as Hend.
  { intros c. change (EvCall c :: rowEnding total i) with ([EvCall c] ++ rowEnding total i).
    unfold updateOutcomes. rewrite calls_app, flat_map_app.
    destruct (rowEnding_measures (V := V) total i) as (_ & He & _).
    unfold updateOutcomes in He. now rewrite He, app_nil_r. }
  destruct (populated r2); cbn [negb app length Nat.ltb Nat.leb Nat.eqb andb];
    (eexists; split; [reflexivity|]);
    rewrite !Hs1, Hs2, Hs3;
    cbn [List.map List.filter FieldUpdateDetail.fieldId FieldUpdateDetail.skipped negb
           length trace_of fst snd];
    repeat split;
    try (right; right; right; left; reflexivity);
    change (EvCall ?a :: EvCall ?b :: EvCall ?c :: ?l)
      with ([EvCall a; EvCall b; EvCall c] ++ l);
    rewrite updateOutcomes_app, Hend; reflexivity.
Qed.

End PreserveExisting.

Lemma preserveExisting_partial_skip_witness :
  exists entry,
    result_of
      (BulkUpdate.updateRow (js "token") Demo.featureFound Demo.onlyFaPopulated
         Demo.updateAccepted Demo.formatText Demo.numberText [Demo.fieldA; Demo.fieldB]
         true (js "uuid")
         [BulkUpdate.ColumnMapping.mk (js "a") (Some (js "fa"));
          BulkUpdate.ColumnMapping.mk (js "b") (Some (js "fb"))]
         1 0 (0, Demo.partlyPopulatedRow) [] tt)
    = [entry]
    /\ List.map BulkUpdate.FieldUpdateDetail.skipped (BulkUpdate.UpdateResult.fieldUpdates entry)
       = [true; false]
    /\ BulkUpdate.UpdateResult.success entry = true.
Proof.
  destruct (preserveExisting_partial_skip (js "token") Demo.featureFound Demo.onlyFaPopulated
              Demo.updateAccepted Demo.formatText Demo.numberText
              [Demo.fieldA; Demo.fieldB] (js "uuid")
              (BulkUpdate.ColumnMapping.mk (js "a") (Some (js "fa")))
              (BulkUpdate.ColumnMapping.mk (js "b") (Some (js "fb")))
              1 0 0 Demo.partlyPopulatedRow [] tt
              Demo.fieldA Demo.fieldB (Finite false 10 0) (Finite false 20 0)
              eq_refl eq_refl eq_refl)
    as (entry & Hr & _ & Hk & _ & _ & _ & _ & _ & Hs).
  exists entry. split; [exact Hr|]. split; [exact Hk|exact Hs].
Defined.

(** The same row when the remote refuses the update: one field skipped, one
    sent, and the row is a failure. *)
Lemma partial_skip_refused_update :
  let run := Demo.bulkUpdate Demo.updateRefused true [Demo.partlyPopulatedRow] tt in
  List.map
    (fun r => List.map BulkUpdate.FieldUpdateDetail.skipped (BulkUpdate.UpdateResult.fieldUpdates r))
    (result_of run) = [[true; false]]
  /\ List.map BulkUpdate.UpdateResult.allFieldsSkipped (result_of run) = [Some false]
  /\ List.map BulkUpdate.UpdateResult.success (result_of run) = [false].
Proof. vm_compute. repeat split. Qed.

(** ** Numeric coercion *)

Section CompanyFields.
Import CompanyImport.
Context {World : Type}.
Variable apiToken : jsstring.
Variable setCompanyFieldValue :
  jsstring -> jsstring -> jsstring -> jsstring -> ProcessedValue -> World ->
  Outcome SetFieldResult.t * World.
Variable companyFields : list CompanyFieldConfig.t.

(** The field errors only grow along the loop. *)
Lemma setFieldValues_keeps_errors (companyId : jsstring) (entries : list (jsstring * jsstring)) :
  forall fieldErrors w errs,
    result_of (setFieldValues apiToken setCompanyFieldValue companyFields companyId
                 entries fieldErrors w) = Returned errs ->
    forall e, In e fieldErrors -> In e errs.
Proof.
  induction entries as [|[fieldId value] rest IH]; intros fieldErrors w errs H e He.
  - cbn in H. injection H as <-. exact He.
  - cbn [setFieldValues] in H.
    destruct (jsstring_eqb value []); [now apply (IH _ _ _ H)|].
    destruct (_ && isNaN (parseFloat value)).
    + apply (IH _ _ _ H). apply in_or_app. now left.
    + rewrite bind_run in H. cbn [result_of fst] in H.
      destruct (result_of (await _ _ w)) as [setResult|err]; [|discriminate].
      destruct (SetFieldResult.success setResult).
      * now apply (IH _ _ _ H).
      * apply (IH _ _ _ H). apply in_or_app. now left.
Qed.

Lemma setFieldValues_unparsable (companyId fieldId value : jsstring)
  (rest : list (jsstring * jsstring)) (fieldErrors : list jsstring) (w : World)
  (fieldConfig : CompanyFieldConfig.t) :
  List.find (fun f => jsstring_eqb (CompanyFieldConfig.id f) fieldId) companyFields
  = Some fieldConfig ->
  CompanyFieldConfig.type fieldConfig = js "number" ->
  value <> [] ->
  isNaN (parseFloat value) = true ->
  setFieldValues apiToken setCompanyFieldValue companyFields companyId
    ((fieldId, value) :: rest) fieldErrors w
  = setFieldValues apiToken setCompanyFieldValue companyFields companyId rest
      (fieldErrors ++
       [js "Invalid number value for " ++ CompanyFieldConfig.name fieldConfig
        ++ js ": " ++ value]) w.
Proof.
  intros Hf Ht Hv Hn. cbn [setFieldValues].
  apply jsstring_eqb_false in Hv. rewrite Hv, Hf, Ht, Hn. reflexivity.
Qed.

End CompanyFields.

Section UnparsableCells.
Import BulkUpdate.
Context {World V : Type}.
Variable apiToken : jsstring.
Variable getCustomFieldValue :
  jsstring -> jsstring -> jsstring -> World -> Outcome (ValueResult.t V) * World.
Variable formatFieldValue : option V -> jsstring.
Variable numberToString : number -> jsstring.
Variable customFields : list CustomField.t.
Variable preserveExistingValues : bool.

Lemma forEach_any_index {A R} (body : nat -> A -> R -> Run World (Call V) R) (l : list A) :
  (forall i j x acc w, body i x acc w = body j x acc w) ->
  forall i j acc w, forEach body i l acc w = forEach body j l acc w.
Proof.
  intros Hb. induction l as [|x l IH]; intros i j acc w; [reflexivity|].
  cbn [forEach]. rewrite !bind_run, (Hb i j). now rewrite (IH (S i) (S j)).
Qed.

(** A cell that is not blank and does not parse: the mapping leaves the
    field updates as they are and calls nothing. *)
Lemma updateField_unparsable (featureId : jsstring) (row : CSVRow) (i : nat)
  (mapping : ColumnMapping.t) (acc : list FieldUpdateDetail.t * list FieldPayload.t)
  (w : World) :
  isNaN (numericValue (orEmpty (row !! ColumnMapping.csvColumn mapping))) = true ->
  updateField apiToken getCustomFieldValue formatFieldValue numberToString customFields
    preserveExistingValues featureId row i mapping acc w
  = (acc, [], w).
Proof.
  intros Hn. rewrite updateField_run. unfold numericField. rewrite Hn.
  destruct (List.find _ customFields); [|reflexivity].
  now destruct (isBlankValue _).
Qed.

Lemma fieldLoop_skips_unparsable (featureId : jsstring) (row : CSVRow)
  (mapping : ColumnMapping.t) (before after : list ColumnMapping.t)
  (acc : list FieldUpdateDetail.t * list FieldPayload.t) (w : World) :
  isNaN (numericValue (orEmpty (row !! ColumnMapping.csvColumn mapping))) = true ->
  forEach
    (updateField apiToken getCustomFieldValue formatFieldValue numberToString customFields
       preserveExistingValues featureId row)
    0 (before ++ mapping :: after) acc w
  = forEach
      (updateField apiToken getCustomFieldValue formatFieldValue numberToString customFields
         preserveExistingValues featureId row)
      0 (before ++ after) acc w.
Proof.
  intros Hn. rewrite !forEach_app, !bind_run. cbn [forEach].
  rewrite bind_run, updateField_unparsable by exact Hn.
  cbn [result_of trace_of world_of fst snd app].
  now rewrite (forEach_any_index
                 (updateField apiToken getCustomFieldValue formatFieldValue numberToString
                    customFields preserveExistingValues featureId row)
                 after (fun i j x a w0 => eq_refl)
                 (S (0 + length before)) (0 + length before)).
Qed.

End UnparsableCells.

(** C6, as it holds. The numeric coercion trims the cell, strips every
    percent sign and parses the rest: ["45%"] gives 45, [" 12.5 % "] gives
    12.5, ["abc"] gives no number. A cell that is not blank and gives no
    number is never thrown and never turned into zero, and the other fields
    of the row are processed: the company import records a field error for
    that field and goes on without sending it; the bulk update leaves the
    field out of the update and records nothing for it. *)
Theorem unparsable_number_handling :
  (BulkUpdate.numericValue (js "45%") = Finite false 45 0
   /\ numberValue (BulkUpdate.numericValue (js "45%")) = Some 45%Q
   /\ BulkUpdate.numericValue (js " 12.5 % ") = Finite false 125 (-1)
   /\ numberValue (BulkUpdate.numericValue (js " 12.5 % ")) = Some 12.5%Q
   /\ isNaN (BulkUpdate.numericValue (js "abc")) = true)
  /\ (forall (World V : Type) apiToken getCustomFieldValue formatFieldValue numberToString
             customFields preserveExistingValues featureId row mapping before after acc
             (w : World),
         isNaN (BulkUpdate.numericValue
                  (orEmpty (row !! BulkUpdate.ColumnMapping.csvColumn mapping))) = true ->
         (forall i,
             @BulkUpdate.updateField World V apiToken getCustomFieldValue formatFieldValue
               numberToString customFields preserveExistingValues featureId row i mapping
               acc w
             = (acc, [], w))
         /\ forEach
              (@BulkUpdate.updateField World V apiToken getCustomFieldValue
                 formatFieldValue numberToString customFields preserveExistingValues
                 featureId row)
              0 (before ++ mapping :: after) acc w
            = forEach
                (@BulkUpdate.updateField World V apiToken getCustomFieldValue
                   formatFieldValue numberToString customFields preserveExistingValues
                   featureId row)
                0 (before ++ after) acc w)
  /\ (forall (World : Type) apiToken setCompanyFieldValue companyFields companyId fieldId
             value rest fieldErrors (w : World) fieldConfig,
         List.find (fun f => jsstring_eqb (CompanyImport.CompanyFieldConfig.id f) fieldId)
           companyFields = Some fieldConfig ->
         CompanyImport.CompanyFieldConfig.type fieldConfig = js "number" ->
         value <> [] ->
         isNaN (parseFloat value) = true ->
         let message :=
           js "Invalid number value for " ++ CompanyImport.CompanyFieldConfig.name fieldConfig
           ++ js ": " ++ value in
         let run := @CompanyImport.setFieldValues World apiToken setCompanyFieldValue
                      companyFields companyId ((fieldId, value) :: rest) fieldErrors w in
         run = CompanyImport.setFieldValues apiToken setCompanyFieldValue companyFields
                 companyId rest (fieldErrors ++ [message]) w
         /\ forall errs rowIndex name domain action,
             result_of run = Returned errs ->
             In message errs
             /\ CompanyImport.ImportResult.success
                  (CompanyImport.fieldsResult rowIndex name domain action companyId errs)
                = false
             /\ CompanyImport.ImportResult.fieldErrors
                  (CompanyImport.fieldsResult rowIndex name domain action companyId errs)
                = Some errs).
Proof.
  split; [repeat split|split].
  - intros World V apiToken getCustomFieldValue formatFieldValue numberToString customFields
      preserveExistingValues featureId row mapping before after acc w Hn. split.
    + intros i. now apply updateField_unparsable.
    + now apply fieldLoop_skips_unparsable.
  - intros World apiToken setCompanyFieldValue companyFields companyId fieldId value rest
      fieldErrors w fieldConfig Hf Ht Hv Hn message run.
    assert (run = CompanyImport.setFieldValues apiToken setCompanyFieldValue companyFields
                    companyId rest (fieldErrors ++ [message]) w) as Hrun
      by (now apply setFieldValues_unparsable).
    split; [exact Hrun|].
    intros errs rowIndex name domain action Hr. rewrite Hrun in Hr.
    assert (In message errs) as Hin.
    { apply (setFieldValues_keeps_errors _ _ _ _ _ _ _ _ Hr). apply in_or_app. right. now left. }
    split; [exact Hin|]. unfold CompanyImport.fieldsResult. cbn.
    destruct errs as [|e errs]; [destruct Hin|]. split; reflexivity.
Qed.

Lemma unparsable_number_handling_witness :
  let run :=
    CompanyImport.setFieldValues (js "token") Demo.fieldStored Demo.companyFields (js "c1")
      [(js "arr", js "abc"); (js "tier", js "gold")] [] tt in
  result_of run = Returned [js "Invalid number value for ARR: abc"]
  /\ calls (trace_of run)
     = [CompanyImport.SetCompanyFieldValue (js "c1") (js "tier") (js "text")
          (CompanyImport.TextValue (js "gold"))
          (Returned (CompanyImport.SetFieldResult.mk true None))].
Proof.
  cbv zeta.
  pose proof (proj2 (proj2 unparsable_number_handling) unit (js "token") Demo.fieldStored
                Demo.companyFields (js "c1") (js "arr") (js "abc")
                [(js "tier", js "gold")] [] tt
                (CompanyImport.CompanyFieldConfig.mk (js "arr") (js "ARR") (js "number"))
                eq_refl eq_refl ltac:(discriminate) eq_refl) as H.
  cbv zeta in H. destruct H as [H _]. split.
  - etransitivity; [exact (f_equal (fun r => result_of r) H) | reflexivity].
  - etransitivity; [exact (f_equal (fun r => calls (trace_of r)) H) | reflexivity].
Defined.

(** In the bulk update a cell holding ["abc"] leaves no trace in the result
    of its row: the row is a success without error, with the field update of
    the other cell only. *)
Lemma unparsable_cell_not_reported :
  let run := Demo.bulkUpdate Demo.updateAccepted false [Demo.unparsableRow] tt in
  BulkUpdate.isBlankValue (of_option (Demo.unparsableRow !! js "a")) = false
  /\ isNaN (BulkUpdate.numericValue (orEmpty (Demo.unparsableRow !! js "a"))) = true
  /\ List.map BulkUpdate.UpdateResult.success (result_of run) = [true]
  /\ List.map BulkUpdate.UpdateResult.error (result_of run) = [None]
  /\ List.map
       (fun r => List.map BulkUpdate.FieldUpdateDetail.fieldId
                   (BulkUpdate.UpdateResult.fieldUpdates r))
       (result_of run) = [[js "fb"]].
Proof. vm_compute. repeat split. Qed.


(** ** Duplicate grouping over the store *)

Section StoreFacts.
Import DuplicateNotes NoteArrays.

Lemma readArray_new_old (a : nat) (c : list Note.t) (h : Store) :
  a < length h -> readArray a (h ++ [c]) = readArray a h.
Proof. intros H. unfold readArray. now rewrite lookup_app_l. Qed.

Lemma readArray_new (c : list Note.t) (h : Store) : readArray (length h) (h ++ [c]) = c.
Proof. unfold readArray. now rewrite list_lookup_middle. Qed.

Lemma readArray_push_eq (a : nat) (xs : list Note.t) (h : Store) :
  a < length h -> readArray a (pushAll a xs h) = readArray a h ++ xs.
Proof. intros H. unfold pushAll, readArray at 1. now rewrite list_lookup_insert_eq. Qed.

Lemma readArray_push_ne (a b : nat) (xs : list Note.t) (h : Store) :
  a <> b -> readArray b (pushAll a xs h) = readArray b h.
Proof. intros H. unfold pushAll, readArray at 1 3. now rewrite list_lookup_insert_ne. Qed.

Lemma length_pushAll (a : nat) (xs : list Note.t) (h : Store) :
  length (pushAll a xs h) = length h.
Proof. apply length_insert. Qed.

Lemma readArray_app (a : nat) (h ext : Store) :
  a < length h -> readArray a (h ++ ext) = readArray a h.
Proof. intros H. unfold readArray. now rewrite lookup_app_l. Qed.

Lemma readArray_take (n : nat) (a : nat) (h h' : Store) :
  take n h' = take n h -> a < n -> readArray a h' = readArray a h.
Proof.
  intros Ht Ha. unfold readArray.
  rewrite <- (lookup_take_lt h' n a), <- (lookup_take_lt h n a) by exact Ha.
  now rewrite Ht.
Qed.

(** *** Maps of locations and the maps of arrays they stand for *)

Lemma abs_keys (h : Store) (m : jsmap nat) : map_keys (abs h m) = map_keys m.
Proof.
  unfold map_keys, abs. rewrite List.map_map. now apply List.map_ext.
Qed.

Lemma abs_get (h : Store) (k : jsstring) (m : jsmap nat) :
  map_get k (abs h m) = option_map (fun a => readArray a h) (map_get k m).
Proof.
  unfold abs. induction m as [|[k' a] m IH]; cbn; [reflexivity|].
  now destruct (jsstring_eqb k k').
Qed.

Lemma abs_set (h : Store) (k : jsstring) (a : nat) (m : jsmap nat) :
  abs h (map_set k a m) = map_set k (readArray a h) (abs h m).
Proof.
  unfold abs. induction m as [|[k' a'] m IH]; cbn; [reflexivity|].
  destruct (jsstring_eqb k k'); cbn; [reflexivity|]. now rewrite IH.
Qed.

Lemma abs_ext (h h' : Store) (m : jsmap nat) :
  (forall a, a ∈ locs m -> readArray a h' = readArray a h) -> abs h' m = abs h m.
Proof.
  unfold abs, locs. induction m as [|[k a] m IH]; cbn; intros H; [reflexivity|].
  rewrite (H a) by (now left). rewrite IH; [reflexivity|].
  intros b Hb. apply H. now right.
Qed.

Lemma map_get_elem {V} (k : jsstring) (m : jsmap V) (v : V) :
  map_get k m = Some v -> (k, v) ∈ m.
Proof. intros H. apply list_elem_of_In. now apply map_get_In. Qed.

Lemma map_get_None_keys {V} (k : jsstring) (m : jsmap V) :
  map_get k m = None -> k ∉ map_keys m.
Proof.
  induction m as [|[k' v] m IH]; cbn; [intros _; apply not_elem_of_nil|].
  destruct (jsstring_eqb k k') eqn:E; [discriminate|].
  intros H. apply not_elem_of_cons. split; [now apply jsstring_eqb_false|now apply IH].
Qed.

Lemma map_set_absent {V} (k : jsstring) (v : V) (m : jsmap V) :
  map_get k m = None -> map_set k v m = m ++ [(k, v)].
Proof.
  induction m as [|[k' v'] m IH]; cbn; [reflexivity|].
  destruct (jsstring_eqb k k'); [discriminate|]. intros H. now rewrite IH.
Qed.

Lemma map_set_present {V} (k : jsstring) (v : V) (m : jsmap V) :
  map_get k m = Some v -> map_set k v m = m.
Proof.
  induction m as [|[k' v'] m IH]; cbn; [discriminate|].
  destruct (jsstring_eqb k k') eqn:E.
  - apply jsstring_eqb_true in E. now intros [= ->]; subst.
  - intros H. now rewrite IH.
Qed.

(** Replacing the value of [k] hides what the maps held for [k]. *)
Lemma map_set_agree (k : jsstring) (v : list Note.t) (f g : nat -> list Note.t)
  (m : jsmap nat) :
  NoDup (map_keys m) ->
  (forall k' a, (k', a) ∈ m -> k' <> k -> f a = g a) ->
  map_set k v (List.map (fun e => (fst e, f (snd e))) m)
  = map_set k v (List.map (fun e => (fst e, g (snd e))) m).
Proof.
  induction m as [|[k0 a0] m IH]; cbn; intros Hk H; [reflexivity|].
  apply NoDup_cons in Hk as [Hk0 Hk].
  destruct (jsstring_eqb k k0) eqn:E.
  - apply jsstring_eqb_true in E. subst k0. f_equal.
    apply List.map_ext_in. intros [k' a'] Hin. cbn. f_equal.
    apply (H k' a'); [right; now apply list_elem_of_In|].
    intros ->. apply Hk0. unfold map_keys. apply list_elem_of_In.
    apply (in_map fst) in Hin. exact Hin.
  - apply jsstring_eqb_false in E. rewrite (H k0 a0); [|now left|congruence].
    f_equal. apply IH; [exact Hk|]. intros k' a Hin. apply H. now right.
Qed.

End StoreFacts.

Section PushInto.
Import DuplicateNotes NoteArrays.

Lemma locs_elem (k : jsstring) (a : nat) (m : jsmap nat) : (k, a) ∈ m -> a ∈ locs m.
Proof. intros H. unfold locs. apply list_elem_of_fmap. now exists (k, a). Qed.

Lemma locs_key_unique (m : jsmap nat) (k1 k2 : jsstring) (a : nat) :
  NoDup (locs m) -> (k1, a) ∈ m -> (k2, a) ∈ m -> k1 = k2.
Proof.
  induction m as [|[k0 a0] m IH]; cbn; intros Hn H1 H2.
  - now apply elem_of_nil in H1.
  - apply NoDup_cons in Hn as [Ha Hn].
    apply elem_of_cons in H1 as [H1|H1]; apply elem_of_cons in H2 as [H2|H2].
    + congruence.
    + injection H1 as -> ->. exfalso. apply Ha. now apply locs_elem with k2.
    + injection H2 as -> ->. exfalso. apply Ha. now apply locs_elem with k1.
    + now apply IH.
Qed.

Lemma getOrEmpty_abs (h : Store) (key : jsstring) (m : jsmap nat) :
  getOrEmpty key (abs h m)
  = match map_get key m with Some a => readArray a h | None => [] end.
Proof. unfold getOrEmpty. rewrite abs_get. now destruct (map_get key m). Qed.

(** Pushing into the group of a key, in the store, is the update of the map
    of arrays; it touches the array of that key or a new one, nothing
    else. *)
Lemma pushInto_refines (n : nat) (key : jsstring) (xs : list Note.t) (m : jsmap nat)
  (h : Store) :
  wfMap n h m -> n <= length h ->
  let m' := fst (pushInto key xs m h) in
  let h' := snd (pushInto key xs m h) in
  abs h' m' = map_set key (getOrEmpty key (abs h m) ++ xs) (abs h m)
  /\ wfMap n h' m'
  /\ (forall a, a ∈ locs m' -> a ∈ locs m \/ a = length h)
  /\ (forall b, b < length h -> b ∉ locs m -> readArray b h' = readArray b h)
  /\ take n h' = take n h
  /\ length h <= length h'.
Proof.
  intros (Hkeys & Hlocs & Hbound) Hn. cbv zeta. unfold pushInto. rewrite getOrEmpty_abs.
  destruct (map_get key m) as [a|] eqn:E; cbn [fst snd newArray].
  - pose proof (map_get_elem _ _ _ E) as Hin.
    pose proof (Hbound a (locs_elem _ _ _ Hin)) as Ha.
    rewrite (map_set_present _ _ _ E).
    assert (forall b, b <> a -> readArray b (pushAll a xs h) = readArray b h) as Hframe
      by (intros b Hb; apply readArray_push_ne; congruence).
    split; [|split; [|split; [|split; [|split]]]].
    + rewrite <- (map_set_present _ _ _ E) at 1. rewrite abs_set.
      rewrite readArray_push_eq by lia. unfold abs.
      apply (map_set_agree key _ (fun b => readArray b (pushAll a xs h))
               (fun b => readArray b h)); [exact Hkeys|].
      intros k' a' Hin' Hk. apply Hframe. intros ->.
      apply Hk. apply (locs_key_unique m k' key a Hlocs Hin' Hin).
    + split; [exact Hkeys|]. split; [exact Hlocs|].
      intros b Hb. rewrite length_pushAll. now apply Hbound.
    + intros b Hb. now left.
    + intros b _ Hb. apply Hframe. intros ->. apply Hb. now apply locs_elem with key.
    + unfold pushAll. apply take_insert_ge. lia.
    + now rewrite length_pushAll.
  - assert (forall b, b < length h ->
                      readArray b (pushAll (length h) xs (h ++ [[]])) = readArray b h)
      as Hframe.
    { intros b Hb. rewrite readArray_push_ne by lia. now apply readArray_new_old. }
    rewrite (map_set_absent _ _ _ E).
    split; [|split; [|split; [|split; [|split]]]].
    + rewrite map_set_absent by (rewrite abs_get, E; reflexivity).
      unfold abs at 1. rewrite List.map_app. cbn [List.map fst snd].
      rewrite readArray_push_eq by (rewrite length_app; cbn; lia).
      rewrite readArray_new. f_equal. apply abs_ext.
      intros a Ha. apply Hframe. now apply Hbound.
    + split; [|split].
      * unfold map_keys. rewrite List.map_app. cbn. apply NoDup_app.
        split; [exact Hkeys|]. split; [|apply NoDup_singleton].
        intros k Hk Hk'. apply list_elem_of_singleton in Hk'. subst k.
        now apply (map_get_None_keys _ _ E).
      * unfold locs. rewrite List.map_app. cbn. apply NoDup_app.
        split; [exact Hlocs|]. split; [|apply NoDup_singleton].
        intros a Ha Ha'. apply list_elem_of_singleton in Ha'. subst a.
        apply Hbound in Ha. lia.
      * intros a Ha. rewrite length_pushAll, length_app. cbn.
        unfold locs in Ha. rewrite List.map_app in Ha. apply elem_of_app in Ha as [Ha|Ha].
        -- apply Hbound in Ha. lia.
        -- apply list_elem_of_singleton in Ha. cbn in Ha. subst a. lia.
    + intros a Ha. unfold locs in Ha. rewrite List.map_app in Ha.
      apply elem_of_app in Ha as [Ha|Ha]; [now left|].
      apply list_elem_of_singleton in Ha. now right.
    + intros b Hb _. now apply Hframe.
    + unfold pushAll. rewrite take_insert_ge by exact Hn. now apply take_app_le.
    + rewrite length_pushAll, length_app. lia.
Qed.

End PushInto.

Section FirstLoop.
Import DuplicateNotes NoteArrays.

Lemma wfMap_grow (n : nat) (h h' : Store) (m : jsmap nat) :
  wfMap n h m -> length h <= length h' -> wfMap n h' m.
Proof.
  intros (Hk & Hl & Hb) Hlen. split; [exact Hk|]. split; [exact Hl|].
  intros a Ha. apply Hb in Ha. lia.
Qed.

(** One note grouped in the store is one note grouped in the maps of
    arrays. *)
Lemma groupNote_refines (n : nat) (h0 : Store) (note : Note.t)
  (p : jsmap (list Note.t) * jsmap (list Note.t)) (s : jsmap nat * jsmap nat) (h : Store) :
  groupsRel n h0 p s h ->
  groupsRel n h0 (DuplicateNotes.groupNote p note)
    (fst (NoteArrays.groupNote note s h)) (snd (NoteArrays.groupNote note s h)).
Proof.
  destruct p as [pgw pgwo], s as [gw gwo]. unfold groupsRel. cbn [fst snd].
  intros (Hgw & Hgwo & Wgw & Wgwo & Hdis & Htake & Hn).
  unfold DuplicateNotes.groupNote, NoteArrays.groupNote.
  destruct (companyIdOf note) as [companyId|].
  - set (key := trim (orEmpty (Note.content note)) ++ SEP
                ++ trim (orEmpty (Note.title note)) ++ SEP ++ companyId).
    destruct (pushInto_refines n key [note] gw h Wgw Hn) as (Ha & W' & Hnew & Hfr & Ht & Hl).
    destruct (pushInto key [note] gw h) as [m h'] eqn:E. cbn [fst snd] in *.
    split; [now rewrite Ha, Hgw|]. split.
    + rewrite <- Hgwo. apply abs_ext. intros a Ha'.
      apply Hfr; [apply Wgwo in Ha'; lia|]. intros Hc. now apply (Hdis a).
    + split; [exact W'|]. split; [now apply (wfMap_grow n h)|]. split.
      * intros a Ha' Hc. destruct (Hnew a Ha') as [Hold| ->]; [now apply (Hdis a)|].
        apply Wgwo in Hc. lia.
      * split; [now rewrite Ht|lia].
  - set (key := trim (orEmpty (Note.content note)) ++ SEP
                ++ trim (orEmpty (Note.title note))).
    destruct (pushInto_refines n key [note] gwo h Wgwo Hn) as (Ha & W' & Hnew & Hfr & Ht & Hl).
    destruct (pushInto key [note] gwo h) as [m h'] eqn:E. cbn [fst snd] in *.
    split.
    + rewrite <- Hgw. apply abs_ext. intros a Ha'.
      apply Hfr; [apply Wgw in Ha'; lia|]. intros Hc. now apply (Hdis a).
    + split; [now rewrite Ha, Hgwo|].
      split; [now apply (wfMap_grow n h)|]. split; [exact W'|]. split.
      * intros a Ha' Hc. destruct (Hnew a Hc) as [Hold| ->]; [now apply (Hdis a)|].
        apply Wgw in Ha'. lia.
      * split; [now rewrite Ht|lia].
Qed.

(** The loop over an array of the store that the body leaves as it is: with
    fuel for one more step than the array has elements, it ends, and it is
    the fold of the steps over the elements. *)
Lemma forOf_refines {S P : Type} (a : nat) (body : Note.t -> S -> Store -> S * Store)
  (step : P -> Note.t -> P) (R : P -> S -> Store -> Prop) (notes : list Note.t) :
  (forall x p s h,
      R p s h -> readArray a h = notes ->
      R (step p x) (fst (body x s h)) (snd (body x s h))
      /\ readArray a (snd (body x s h)) = notes) ->
  forall fuel i p s h,
    R p s h -> readArray a h = notes -> length notes - i < fuel ->
    exists s' h',
      forOf fuel a i body s h = Some (s', h')
      /\ R (fold_left step (drop i notes) p) s' h'
      /\ readArray a h' = notes.
Proof.
  intros Hbody. induction fuel as [|fuel IH]; intros i p s h HR Ha Hf; [lia|].
  cbn [forOf]. rewrite Ha. destruct (notes !! i) as [x|] eqn:E.
  - destruct (Hbody x p s h HR Ha) as [HR' Ha'].
    destruct (body x s h) as [s1 h1]. cbn [fst snd] in *.
    apply lookup_lt_Some in E as Hlt.
    destruct (IH (Datatypes.S i) (step p x) s1 h1 HR' Ha' ltac:(lia)) as (s' & h' & Hrun & HR'' & Ha'').
    exists s', h'. split; [exact Hrun|]. split; [|exact Ha''].
    now rewrite (drop_S _ _ _ E).
  - exists s, h. split; [reflexivity|]. split; [|exact Ha].
    apply lookup_ge_None in E. now rewrite drop_ge.
Qed.

End FirstLoop.

Section CopyAndMerge.
Import DuplicateNotes NoteArrays.

Lemma map_get_absent {V} (k : jsstring) (m : jsmap V) :
  k ∉ map_keys m -> map_get k m = None.
Proof.
  induction m as [|[k' v] m IH]; cbn; intros H; [reflexivity|].
  apply not_elem_of_cons in H as [Hk H].
  apply jsstring_eqb_false in Hk. rewrite Hk. now apply IH.
Qed.

Lemma locs_map_set (k : jsstring) (c : nat) (m : jsmap nat) (b : nat) :
  b ∈ locs (map_set k c m) -> b = c \/ b ∈ locs m.
Proof.
  unfold locs. induction m as [|[k' a] m IH]; cbn.
  - intros H. apply list_elem_of_singleton in H. now left.
  - destruct (jsstring_eqb k k'); cbn; intros H; apply elem_of_cons in H as [H|H].
    + now left.
    + right. apply elem_of_cons. now right.
    + right. apply elem_of_cons. now left.
    + destruct (IH H) as [?|?]; [now left|right; apply elem_of_cons; now right].
Qed.

Lemma keys_map_set {V} (k : jsstring) (v : V) (m : jsmap V) :
  NoDup (map_keys m) -> NoDup (map_keys (map_set k v m)).
Proof.
  intros H. destruct (map_get k m) as [v'|] eqn:E.
  - assert (map_keys (map_set k v m) = map_keys m) as ->; [|exact H].
    clear H. induction m as [|[k' v''] m IH]; cbn in *; [discriminate|].
    destruct (jsstring_eqb k k') eqn:Ek; cbn.
    + apply jsstring_eqb_true in Ek. now subst.
    + f_equal. now apply IH.
  - rewrite (map_set_absent _ _ _ E). unfold map_keys. rewrite List.map_app. cbn.
    apply NoDup_app. split; [exact H|]. split; [|apply NoDup_singleton].
    intros x Hx Hx'. apply list_elem_of_singleton in Hx'. subst x.
    now apply (map_get_None_keys _ _ E).
Qed.

Lemma locs_map_set_NoDup (k : jsstring) (c : nat) (m : jsmap nat) :
  NoDup (locs m) -> c ∉ locs m -> NoDup (locs (map_set k c m)).
Proof.
  unfold locs. induction m as [|[k' a] m IH]; cbn; intros Hn Hc.
  - apply NoDup_singleton.
  - apply NoDup_cons in Hn as [Ha Hn]. apply not_elem_of_cons in Hc as [Hca Hc].
    destruct (jsstring_eqb k k'); cbn; apply NoDup_cons.
    + split; [exact Hc|exact Hn].
    + split; [|now apply IH].
      intros H. apply (locs_map_set k c m a) in H as [->|H]; [congruence|now apply Ha].
Qed.

(** A key set to a new copy of an array. *)
Lemma setCopy_refines (n : nat) (key : jsstring) (content : list Note.t)
  (dm : jsmap nat) (h : Store) :
  wfMap n h dm -> n <= length h ->
  abs (h ++ [content]) (map_set key (length h) dm) = map_set key content (abs h dm)
  /\ wfMap n (h ++ [content]) (map_set key (length h) dm).
Proof.
  intros (Hk & Hl & Hb) Hn. split.
  - rewrite abs_set, readArray_new. f_equal. apply abs_ext.
    intros a Ha. apply readArray_new_old. now apply Hb.
  - split; [now apply keys_map_set|]. split.
    + apply locs_map_set_NoDup; [exact Hl|]. intros H. apply Hb in H. lia.
    + intros a Ha. rewrite length_app. cbn.
      apply locs_map_set in Ha as [->|Ha]; [lia|]. apply Hb in Ha. lia.
Qed.

(** The second loop copies the groups with a company, key by key. *)
Lemma copy_loop (n : nat) (es : jsmap nat) :
  forall dm h,
    wfMap n h dm -> n <= length h ->
    NoDup (map_keys dm ++ map_keys es) ->
    (forall a, a ∈ locs es -> a < length h) ->
    let r := fold_left copyGroup es (dm, h) in
    abs (snd r) (fst r) = abs h dm ++ abs h es
    /\ wfMap n (snd r) (fst r)
    /\ (forall a, a ∈ locs (fst r) -> a ∈ locs dm \/ length h <= a)
    /\ exists ext, snd r = h ++ ext.
Proof.
  induction es as [|[k a] es IH]; intros dm h W Hn Hkeys Hes; cbv zeta.
  - cbn. rewrite app_nil_r. split; [reflexivity|]. split; [exact W|].
    split; [intros a Ha; now left|]. exists []. now rewrite app_nil_r.
  - cbn [fold_left copyGroup newArray].
    destruct (setCopy_refines n k (readArray a h) dm h W Hn) as [Hab W'].
    assert (map_get k dm = None) as Hnone.
    { apply map_get_absent. apply NoDup_app in Hkeys as (_ & Hd & _).
      intros Hk. apply (Hd k Hk). cbn. apply elem_of_cons. now left. }
    assert (length h < length (h ++ [readArray a h])) as Hlen
      by (rewrite length_app; cbn; lia).
    destruct (IH (map_set k (length h) dm) (h ++ [readArray a h]) W' ltac:(lia))
      as (Hab' & W'' & Hloc & ext & Hext).
    + rewrite (map_set_absent _ _ _ Hnone). unfold map_keys in *.
      rewrite List.map_app. cbn. rewrite <- app_assoc. exact Hkeys.
    + intros b Hb. assert (b < length h); [|lia]. apply Hes. cbn.
      apply elem_of_cons. now right.
    + cbv zeta in *. split; [|split; [exact W''|split]].
      * rewrite Hab', Hab. rewrite map_set_absent by (rewrite abs_get, Hnone; reflexivity).
        rewrite <- app_assoc. cbn. do 2 f_equal.
        apply abs_ext. intros b Hb. apply readArray_new_old. apply Hes. cbn.
        apply elem_of_cons. now right.
      * intros b Hb. destruct (Hloc b Hb) as [Hb'|Hb']; [|lia].
        apply locs_map_set in Hb' as [->|Hb']; [right; lia|now left].
      * exists ([readArray a h] ++ ext). now rewrite Hext, app_assoc.
Qed.



(** The pushes of one group without company into the groups that match:
    the group pushed is read again at every step and is not one of the
    arrays pushed to. *)
Lemma mergeInto_refines (n a : nat) (keys : list jsstring) :
  forall (dm : jsmap nat) (h : Store),
    wfMap n h dm -> n <= length h -> a < length h -> a ∉ locs dm ->
    let r :=
      fold_left
        (fun acc matchKey =>
           pushInto matchKey (readArray a (snd acc)) (fst acc) (snd acc))
        keys (dm, h) in
    abs (snd r) (fst r)
    = fold_left
        (fun pdm matchKey =>
           map_set matchKey (getOrEmpty matchKey pdm ++ readArray a h) pdm)
        keys (abs h dm)
    /\ wfMap n (snd r) (fst r)
    /\ (forall b, b ∈ locs (fst r) -> b ∈ locs dm \/ length h <= b)
    /\ (forall b, b < length h -> b ∉ locs dm -> readArray b (snd r) = readArray b h)
    /\ take n (snd r) = take n h
    /\ length h <= length (snd r).
Proof.
  induction keys as [|k keys IH]; intros dm h W Hn Ha Hna; cbv zeta.
  - cbn. split; [reflexivity|]. split; [exact W|]. split; [intros b Hb; now left|].
    repeat split; auto.
  - cbn [fold_left fst snd].
    destruct (pushInto_refines n k (readArray a h) dm h W Hn)
      as (Hab & W' & Hnew & Hfr & Ht & Hl).
    destruct (pushInto k (readArray a h) dm h) as [dm1 h1] eqn:E. cbn [fst snd] in *.
    assert (a ∉ locs dm1) as Hna'.
    { intros Hc. destruct (Hnew a Hc) as [?| ->]; [now apply Hna|lia]. }
    destruct (IH dm1 h1 W' ltac:(lia) ltac:(lia) Hna')
      as (Hab' & W'' & Hnew' & Hfr' & Ht' & Hl').
    cbv zeta in *. rewrite (Hfr a Ha Hna) in Hab'.
    split; [now rewrite Hab', Hab|]. split; [exact W''|]. split; [|split; [|split]].
    + intros b Hb. destruct (Hnew' b Hb) as [Hb'|Hb']; [|right; lia].
      destruct (Hnew b Hb') as [?| ->]; [now left|right; lia].
    + intros b Hb Hnb. rewrite Hfr'; [now apply Hfr|lia|].
      intros Hc. destruct (Hnew b Hc) as [?| ->]; [now apply Hnb|lia].
    + now rewrite Ht', Ht.
    + lia.
Qed.

Lemma mergeGroup_refines (n : nat) (dm : jsmap nat) (h : Store) (k : jsstring) (a : nat) :
  wfMap n h dm -> n <= length h -> a < length h -> a ∉ locs dm ->
  let r := NoteArrays.mergeGroup (dm, h) (k, a) in
  abs (snd r) (fst r) = DuplicateNotes.mergeGroup (abs h dm) (k, readArray a h)
  /\ wfMap n (snd r) (fst r)
  /\ (forall b, b ∈ locs (fst r) -> b ∈ locs dm \/ length h <= b)
  /\ (forall b, b < length h -> b ∉ locs dm -> readArray b (snd r) = readArray b h)
  /\ take n (snd r) = take n h
  /\ length h <= length (snd r).
Proof.
  intros W Hn Ha Hna. cbv zeta.
  unfold NoteArrays.mergeGroup, DuplicateNotes.mergeGroup. rewrite abs_keys.
  destruct (List.filter _ (map_keys dm)) as [|mk mks] eqn:E.
  - cbn [newArray fst snd].
    destruct (setCopy_refines n
                (template (split SEP k !! 0) ++ SEP ++ template (split SEP k !! 1)
                 ++ js "|||null")
                (readArray a h) dm h W Hn) as [Hab W'].
    split; [exact Hab|]. split; [exact W'|]. split; [|split; [|split]].
    + intros b Hb. apply locs_map_set in Hb as [->|Hb]; [right; lia|now left].
    + intros b Hb _. now apply readArray_new_old.
    + now apply take_app_le.
    + rewrite length_app. lia.
  - now apply mergeInto_refines.
Qed.

(** The third loop merges the groups without company, one after the
    other. *)
Lemma merge_loop (n : nat) (es : jsmap nat) :
  forall (dm : jsmap nat) (h : Store),
    wfMap n h dm -> n <= length h ->
    (forall a, a ∈ locs es -> a < length h /\ a ∉ locs dm) ->
    let r := fold_left NoteArrays.mergeGroup es (dm, h) in
    abs (snd r) (fst r) = fold_left DuplicateNotes.mergeGroup (abs h es) (abs h dm)
    /\ wfMap n (snd r) (fst r)
    /\ take n (snd r) = take n h
    /\ length h <= length (snd r).
Proof.
  induction es as [|[k a] es IH]; intros dm h W Hn Hes; cbv zeta.
  - cbn. split; [reflexivity|]. split; [exact W|]. split; [reflexivity|lia].
  - cbn [fold_left abs List.map fst snd].
    destruct (Hes a ltac:(apply elem_of_cons; now left)) as [Ha Hna].
    destruct (mergeGroup_refines n dm h k a W Hn Ha Hna) as (Hab & W' & Hnew & Hfr & Ht & Hl).
    destruct (NoteArrays.mergeGroup (dm, h) (k, a)) as [dm1 h1] eqn:E. cbn [fst snd] in *.
    assert (forall b, b ∈ locs es -> b < length h1 /\ b ∉ locs dm1) as Hes'.
    { intros b Hb. destruct (Hes b ltac:(apply elem_of_cons; now right)) as [Hb1 Hb2].
      split; [lia|]. intros Hc. destruct (Hnew b Hc) as [?|?]; [now apply Hb2|lia]. }
    destruct (IH dm1 h1 W' ltac:(lia) Hes') as (Hab' & W'' & Ht' & Hl').
    cbv zeta in *. split; [|split; [exact W''|split; [now rewrite Ht', Ht|lia]]].
    rewrite Hab', Hab. f_equal. apply abs_ext.
    intros b Hb. destruct (Hes b ltac:(apply elem_of_cons; now right)) as [Hb1 Hb2].
    now apply Hfr.
Qed.

(** *** The last loop: the groups and their arrays *)

Lemma view_app (h ext : Store) (g : Group.t) : inStore h g -> view (h ++ ext) g = view h g.
Proof.
  intros [H1 H2]. unfold view. now rewrite !readArray_app.
Qed.

Section LastLoop.
Variable localeCompare : jsstring -> jsstring -> Z.

Lemma duplicateGroupOf_refines (gs : list Group.t) (h : Store) (k : jsstring) (a : nat) :
  a < length h ->
  let r := NoteArrays.duplicateGroupOf localeCompare (gs, h) (k, a) in
  exists ext new,
    snd r = h ++ ext /\ fst r = gs ++ new
    /\ List.map (view (snd r)) new
       = DuplicateNotes.duplicateGroupOf localeCompare (k, readArray a h)
    /\ Forall (inStore (snd r)) new.
Proof.
  intros Ha. cbv zeta. unfold NoteArrays.duplicateGroupOf, DuplicateNotes.duplicateGroupOf.
  destruct ((1 <? length (readArray a h))
            && (1 <? length (newSet (List.map Note.id (readArray a h))))).
  - cbn [newArray]. rewrite !readArray_new.
    rewrite (readArray_new_old (length h)) by (rewrite length_app; cbn; lia).
    rewrite !readArray_new.
    set (sorted := sort (byCreatedAt localeCompare) (readArray a h)).
    set (withCompany := List.filter hasCompany sorted).
    destruct (if 0 <? length withCompany then withCompany !! 0 else sorted !! 0)
      as [keepNote|].
    + cbn [fst snd]. eexists [_; _; _], [_]. split; [now rewrite <- !app_assoc|].
      split; [reflexivity|]. split.
      * cbn [List.map]. unfold view.
        cbn [Group.key Group.notes Group.keepNote Group.deleteNotes].
        rewrite !length_app. cbn [length].
        rewrite (readArray_app (length h) ((h ++ [sorted]) ++ [withCompany]))
          by (rewrite !length_app; cbn; lia).
        rewrite (readArray_app (length h) (h ++ [sorted]))
          by (rewrite !length_app; cbn; lia).
        rewrite readArray_new.
        replace (length h + 1 + 1) with (length ((h ++ [sorted]) ++ [withCompany]))
          by (rewrite !length_app; cbn; lia).
        now rewrite readArray_new.
      * constructor; [|constructor]. unfold inStore. cbn. rewrite !length_app. cbn. lia.
    + cbn [fst snd]. eexists [_; _], []. split; [now rewrite <- !app_assoc|].
      split; [now rewrite app_nil_r|]. split; [reflexivity|constructor].
  - cbn [fst snd]. exists [], []. rewrite !app_nil_r. repeat split. constructor.
Qed.

Lemma group_loop (es : jsmap nat) :
  forall (gs : list Group.t) (h : Store),
    (forall a, a ∈ locs es -> a < length h) ->
    Forall (inStore h) gs ->
    let r := fold_left (NoteArrays.duplicateGroupOf localeCompare) es (gs, h) in
    List.map (view (snd r)) (fst r)
    = List.map (view h) gs
      ++ List.flat_map (DuplicateNotes.duplicateGroupOf localeCompare) (abs h es)
    /\ Forall (inStore (snd r)) (fst r)
    /\ exists ext, snd r = h ++ ext.
Proof.
  induction es as [|[k a] es IH]; intros gs h Hes Hgs; cbv zeta.
  - cbn. rewrite app_nil_r. split; [reflexivity|]. split; [exact Hgs|].
    exists []. now rewrite app_nil_r.
  - cbn [fold_left abs List.map List.flat_map fst snd].
    destruct (duplicateGroupOf_refines gs h k a ltac:(apply Hes; apply elem_of_cons; now left))
      as (ext & new & Hh & Hg & Hv & Hin).
    destruct (NoteArrays.duplicateGroupOf localeCompare (gs, h) (k, a)) as [gs1 h1] eqn:E.
    cbn [fst snd] in *. subst gs1 h1.
    assert (Forall (inStore (h ++ ext)) (gs ++ new)) as Hall.
    { apply Forall_app. split; [|exact Hin].
      eapply List.Forall_impl; [|exact Hgs]. intros g [H1 H2]. unfold inStore.
      rewrite length_app. lia. }
    destruct (IH (gs ++ new) (h ++ ext)) as (Hv' & Hin' & ext' & Hext); [|exact Hall|].
    + intros b Hb. rewrite length_app.
      assert (b < length h); [|lia]. apply Hes. apply elem_of_cons. now right.
    + cbv zeta in *. split; [|split; [exact Hin'|]].
      * rewrite Hv', List.map_app, Hv, <- app_assoc. f_equal.
        -- apply List.map_ext_in. intros g Hg. apply view_app.
           rewrite List.Forall_forall in Hgs. now apply Hgs.
        -- f_equal. f_equal. apply abs_ext. intros b Hb. apply readArray_app.
           apply Hes. apply elem_of_cons. now right.
      * exists (ext ++ ext'). now rewrite Hext, app_assoc.
Qed.

End LastLoop.

End CopyAndMerge.

Section StoreRefinement.
Import DuplicateNotes NoteArrays.
Variable localeCompare : jsstring -> jsstring -> Z.

(** With the array of notes in the store, [findDuplicateGroups] ends, given
    fuel for one more step than there are notes; the groups it returns, read
    in the store it leaves, are those of the function on the list of the
    notes; and the arrays the store held before, the array of notes among
    them, are as they were. *)
Theorem findDuplicateGroups_store (h0 : Store) (a : nat) (notes : list Note.t) :
  h0 !! a = Some notes ->
  exists groups h',
    NoteArrays.findDuplicateGroups localeCompare (S (length notes)) a h0 = Some (groups, h')
    /\ List.map (view h') groups = DuplicateNotes.findDuplicateGroups localeCompare notes
    /\ take (length h0) h' = h0
    /\ Forall (inStore h') groups.
Proof.
  intros Hnotes.
  assert (a < length h0) as Ha by (now apply lookup_lt_Some in Hnotes).
  assert (readArray a h0 = notes) as Hread by exact (f_equal (default []) Hnotes).
  assert (wfMap (length h0) h0 []) as Wnil.
  { split; [constructor|]. split; [constructor|]. intros b Hb. now apply elem_of_nil in Hb. }
  destruct (forOf_refines a NoteArrays.groupNote DuplicateNotes.groupNote
              (groupsRel (length h0) h0) notes) with
    (fuel := S (length notes)) (i := 0)
    (p := (@nil (jsstring * list Note.t), @nil (jsstring * list Note.t)))
    (s := (@nil (jsstring * nat), @nil (jsstring * nat))) (h := h0)
    as ([gw gwo] & h1 & Hrun & HR & _).
  - intros x p s h HR _. pose proof (groupNote_refines _ _ x _ _ _ HR) as HR'.
    split; [exact HR'|]. destruct HR' as (_ & _ & _ & _ & _ & Ht & _).
    rewrite <- Hread. apply (readArray_take (length h0)); [|exact Ha].
    now rewrite Ht, firstn_all.
  - unfold groupsRel. cbn. repeat split; try constructor; try (now apply Wnil).
    + intros b Hb. now apply elem_of_nil in Hb.
    + apply firstn_all.
  - exact Hread.
  - lia.
  - unfold NoteArrays.findDuplicateGroups. rewrite Hrun.
    rewrite drop_0 in HR.
    destruct HR as (Hgw & Hgwo & Wgw & Wgwo & Hdis & Ht1 & Hn1). cbn [fst snd] in *.
    (* second loop *)
    assert (wfMap (length h0) h1 []) as Wnil1 by (now apply (wfMap_grow _ h0)).
    destruct (copy_loop (length h0) gw [] h1 Wnil1 Hn1) as (Hab2 & W2 & Hloc2 & ext2 & Hext2).
    { cbn. apply Wgw. }
    { intros b Hb. now apply Wgw in Hb. }
    unfold jsmap, Store in *.
    match type of Hext2 with snd ?t = _ => destruct t as [dm h2] eqn:E2 end.
    cbn [fst snd] in *.
    cbn [abs List.map app] in Hab2.
    assert (length h1 <= length h2) as Hl2 by (rewrite Hext2, length_app; lia).
    (* third loop *)
    destruct (merge_loop (length h0) gwo dm h2 W2 ltac:(lia)) as (Hab3 & W3 & Ht3 & Hl3).
    { intros b Hb. split; [apply Wgwo in Hb; lia|].
      intros Hc. destruct (Hloc2 b Hc) as [Hc'|Hc']; [now apply elem_of_nil in Hc'|].
      apply Wgwo in Hb. lia. }
    unfold jsmap, Store in *.
    match type of Ht3 with take _ (snd ?t) = _ => destruct t as [dm' h3] eqn:E3 end.
    cbn [fst snd] in *.
    (* last loop *)
    destruct (group_loop localeCompare dm' [] h3) as (Hv & Hin & ext4 & Hext4).
    { intros b Hb. now apply W3 in Hb. }
    { constructor. }
    unfold jsmap, Store in *.
    match type of Hext4 with snd ?t = _ => destruct t as [groups h4] eqn:E4 end.
    cbn [fst snd] in *.
    exists groups, h4. split; [reflexivity|]. split; [|split; [|exact Hin]].
    + rewrite Hv. cbn [List.map app]. unfold DuplicateNotes.findDuplicateGroups.
      unfold jsmap in *.
      match type of Hgw with _ = fst ?t => destruct t as [pgw pgwo] end.
      cbn [fst snd] in *. rewrite Hab3, Hab2. do 2 f_equal.
      * rewrite <- Hgwo, Hext2. apply abs_ext. intros b Hb. apply readArray_app.
        now apply Wgwo in Hb.
      * exact Hgw.
    + rewrite Hext4, take_app_le by lia. rewrite Ht3, Hext2, take_app_le by lia.
      exact Ht1.
Qed.

End StoreRefinement.

Section Reload.
Import FieldMigration.
Context {World V : Type}.
Variable apiToken : jsstring.
Variable loadAllFeatures : World -> Outcome (list Feature.t) * World.
Variable getBatchCustomFieldValues :
  jsstring -> jsstring -> list jsstring -> World ->
  Outcome (gmap jsstring (FieldData.t V)) * World.
Variables (customFields : list CustomField.t) (onlyEmptyTargets : bool).

(** The items of the loop over the mappings are a function of what the
    fetches answered: two runs with the same trace give the same items. *)
Lemma previewMappings_determined (allFeatures : list Feature.t)
  (mappings : list FieldMapping.t) :
  forall (allItems : list (PreviewItem.t V)) (w1 w2 : World),
    trace_of (previewMappings apiToken getBatchCustomFieldValues customFields
                onlyEmptyTargets allFeatures mappings allItems w1)
    = trace_of (previewMappings apiToken getBatchCustomFieldValues customFields
                  onlyEmptyTargets allFeatures mappings allItems w2) ->
    result_of (previewMappings apiToken getBatchCustomFieldValues customFields
                 onlyEmptyTargets allFeatures mappings allItems w1)
    = result_of (previewMappings apiToken getBatchCustomFieldValues customFields
                   onlyEmptyTargets allFeatures mappings allItems w2).
Proof.
  induction mappings as [|m rest IH]; intros allItems w1 w2; [reflexivity|].
  cbn [previewMappings]. rewrite !bind_run. unfold await.
  destruct (getBatchCustomFieldValues apiToken (FieldMapping.sourceFieldId m) _ w1)
    as [rs1 w1'].
  destruct (getBatchCustomFieldValues apiToken (FieldMapping.sourceFieldId m) _ w2)
    as [rs2 w2'].
  cbn [result_of trace_of world_of fst snd].
  destruct (getBatchCustomFieldValues apiToken (FieldMapping.targetFieldId m) _ w1')
    as [rt1 w1''].
  destruct (getBatchCustomFieldValues apiToken (FieldMapping.targetFieldId m) _ w2')
    as [rt2 w2''].
  cbn [result_of trace_of world_of fst snd app].
  intros H. injection H as <- <- H.
  destruct rs1 as [sv|e]; [destruct rt1 as [tv|f]|]; try reflexivity.
  now apply IH.
Qed.

(** The new value of [previewItems] is a function of the configuration and
    of what the calls answered; of the previous value too when no mapping
    is valid, where the handler returns at once. *)
Lemma handleLoadPreview_determined (fieldMappings : list FieldMapping.t)
  (items1 items2 : list (PreviewItem.t V)) (w1 w2 : World) :
  (validMappings fieldMappings = [] -> items1 = items2) ->
  trace_of (handleLoadPreview apiToken loadAllFeatures getBatchCustomFieldValues
              fieldMappings customFields onlyEmptyTargets items1 w1)
  = trace_of (handleLoadPreview apiToken loadAllFeatures getBatchCustomFieldValues
                fieldMappings customFields onlyEmptyTargets items2 w2) ->
  result_of (handleLoadPreview apiToken loadAllFeatures getBatchCustomFieldValues
               fieldMappings customFields onlyEmptyTargets items1 w1)
  = result_of (handleLoadPreview apiToken loadAllFeatures getBatchCustomFieldValues
                 fieldMappings customFields onlyEmptyTargets items2 w2).
Proof.
  intros Hprev.
  unfold handleLoadPreview.
  destruct (validMappings fieldMappings) as [|m ms]; [intros _; now apply Hprev|].
  generalize (m :: ms). intros mappings.
  rewrite !bind_run. unfold await.
  destruct (loadAllFeatures w1) as [r1 w1'], (loadAllFeatures w2) as [r2 w2'].
  cbn [result_of trace_of world_of fst snd app].
  intros H. injection H as <- H.
  destruct r1 as [allFeatures|e]; [|reflexivity].
  destruct (length allFeatures =? 0); [reflexivity|].
  rewrite !bind_run in *. cbn [result_of trace_of world_of fst snd] in *.
  assert (forall (o : option (list (PreviewItem.t V))) (u : World),
             trace_of (match o with
                       | Some allItems => ret (C:=Call V) allItems
                       | None => ret []
                       end u) = []) as Hret by (intros [x|] u; reflexivity).
  assert (forall (o : option (list (PreviewItem.t V))) (u : World),
             result_of (match o with
                        | Some allItems => ret (C:=Call V) allItems
                        | None => ret []
                        end u) = default [] o) as Hres by (intros [x|] u; reflexivity).
  rewrite !Hret, !app_nil_r in H. rewrite !Hres.
  now rewrite (previewMappings_determined _ _ _ _ _ H).
Qed.

End Reload.

Section Rerun.
Import DuplicateNotes NoteArrays.

Lemma view_take (h h' : Store) (g : Group.t) :
  inStore h g -> take (length h) h' = h -> view h' g = view h g.
Proof.
  intros [H1 H2] Ht. unfold view.
  rewrite (readArray_take (length h) (Group.notes g) h h'),
    (readArray_take (length h) (Group.deleteNotes g) h h');
    try assumption; try reflexivity; now rewrite Ht, firstn_all.
Qed.

Lemma lookup_kept (h h' : Store) (a : nat) (notes : list Note.t) :
  h !! a = Some notes -> take (length h) h' = h -> h' !! a = Some notes.
Proof.
  unfold Store in *. intros Ha Ht. apply lookup_lt_Some in Ha as Hlt.
  rewrite <- (lookup_take_lt h' (length h) a Hlt). now rewrite Ht.
Qed.

End Rerun.

(** C9. The classification can be run again. [findDuplicateGroups], run on
    the array of notes in the store, ends and returns the groups of the
    function on the list of the notes; it leaves every array the store held,
    the array of notes among them, as it was; run again from the store the
    first run left, it returns groups with the same keys, notes, kept note
    and notes to delete, in the same order, and the groups of the first run
    still read the same. [handleLoadPreview], run again after a first run,
    sets the preview the first run set whenever the calls answer as they did. *)
Theorem classification_rerun {World V : Type}
  (localeCompare : jsstring -> jsstring -> Z)
  (h : NoteArrays.Store) (a : nat) (notes : list DuplicateNotes.Note.t)
  (apiToken : jsstring)
  (loadAllFeatures : World -> Outcome (list FieldMigration.Feature.t) * World)
  (getBatchCustomFieldValues :
     jsstring -> jsstring -> list jsstring -> World ->
     Outcome (gmap jsstring (FieldMigration.FieldData.t V)) * World)
  (fieldMappings : list FieldMigration.FieldMapping.t)
  (customFields : list FieldMigration.CustomField.t) (onlyEmptyTargets : bool)
  (previewItems : list (FieldMigration.PreviewItem.t V)) (w w' : World) :
  (h !! a = Some notes ->
   exists groups1 h1 groups2 h2,
     NoteArrays.findDuplicateGroups localeCompare (S (length notes)) a h
     = Some (groups1, h1)
     /\ NoteArrays.findDuplicateGroups localeCompare (S (length notes)) a h1
        = Some (groups2, h2)
     /\ take (length h) h1 = h /\ take (length h1) h2 = h1
     /\ h1 !! a = Some notes /\ h2 !! a = Some notes
     /\ List.map (NoteArrays.view h1) groups1
        = DuplicateNotes.findDuplicateGroups localeCompare notes
     /\ List.map (NoteArrays.view h2) groups2 = List.map (NoteArrays.view h1) groups1
     /\ List.map (NoteArrays.view h2) groups1 = List.map (NoteArrays.view h1) groups1)
  /\ (let first :=
        FieldMigration.handleLoadPreview apiToken loadAllFeatures
          getBatchCustomFieldValues fieldMappings customFields onlyEmptyTargets
          previewItems w in
      let again :=
        FieldMigration.handleLoadPreview apiToken loadAllFeatures
          getBatchCustomFieldValues fieldMappings customFields onlyEmptyTargets
          (result_of first) w' in
      trace_of again = trace_of first -> result_of again = result_of first).
Proof.
  split.
  - intros Hnotes.
    destruct (findDuplicateGroups_store localeCompare h a notes Hnotes)
      as (groups1 & h1 & Hrun1 & Hv1 & Ht1 & Hin1).
    pose proof (lookup_kept h h1 a notes Hnotes Ht1) as Hnotes1.
    destruct (findDuplicateGroups_store localeCompare h1 a notes Hnotes1)
      as (groups2 & h2 & Hrun2 & Hv2 & Ht2 & Hin2).
    exists groups1, h1, groups2, h2.
    split; [exact Hrun1|]. split; [exact Hrun2|]. split; [exact Ht1|].
    split; [exact Ht2|]. split; [exact Hnotes1|].
    split; [exact (lookup_kept h1 h2 a notes Hnotes1 Ht2)|].
    split; [exact Hv1|]. split; [now rewrite Hv2, Hv1|].
    apply List.map_ext_in. intros g Hg.
    apply view_take; [|exact Ht2].
    rewrite List.Forall_forall in Hin1. now apply Hin1.
  - intros first again Htrace. subst first again.
    apply handleLoadPreview_determined; [|exact Htrace].
    intros Hnone. unfold FieldMigration.handleLoadPreview. now rewrite Hnone.
Qed.

Lemma classification_rerun_witness :
  (exists groups1 h1 groups2 h2,
     NoteArrays.findDuplicateGroups codeUnitCompare 4 0
       [[DuplicateNotes.noteA; DuplicateNotes.noteB; DuplicateNotes.noteC]]
     = Some (groups1, h1)
     /\ NoteArrays.findDuplicateGroups codeUnitCompare 4 0 h1 = Some (groups2, h2)
     /\ List.map (NoteArrays.view h2) groups2
        = [DuplicateNotes.DuplicateGroup.mk (js "x|||t|||C1")
             [DuplicateNotes.noteC; DuplicateNotes.noteA; DuplicateNotes.noteB]
             DuplicateNotes.noteA
             [DuplicateNotes.noteC; DuplicateNotes.noteB]])
  /\ result_of
       (FieldMigration.handleLoadPreview (js "token") Demo.oneFeature Demo.bothPresent
          [Demo.srcToTgt] [] true
          (result_of
             (FieldMigration.handleLoadPreview (js "token") Demo.oneFeature
                Demo.bothPresent [Demo.srcToTgt] [] true [] tt)) tt)
     = result_of
         (FieldMigration.handleLoadPreview (js "token") Demo.oneFeature
            Demo.bothPresent [Demo.srcToTgt] [] true [] tt).
Proof.
  split.
  - destruct (proj1 (classification_rerun (World:=unit) (V:=jsstring) codeUnitCompare
                       [[DuplicateNotes.noteA; DuplicateNotes.noteB; DuplicateNotes.noteC]]
                       0 [DuplicateNotes.noteA; DuplicateNotes.noteB; DuplicateNotes.noteC]
                       (js "token") Demo.oneFeature Demo.bothPresent [Demo.srcToTgt] []
                       true [] tt tt) eq_refl)
      as (groups1 & h1 & groups2 & h2 & Hrun1 & Hrun2 & _ & _ & _ & _ & Hv1 & Hv2 & _).
    exists groups1, h1, groups2, h2.
    split; [exact Hrun1|]. split; [exact Hrun2|].
    rewrite Hv2, Hv1. vm_compute. reflexivity.
  - apply (proj2 (classification_rerun (World:=unit) (V:=jsstring) codeUnitCompare
                    [] 0 [] (js "token") Demo.oneFeature Demo.bothPresent
                    [Demo.srcToTgt] [] true [] tt tt)).
    vm_compute. reflexivity.
Defined.

(** * More of the code *)

(** ** The calls of a trace *)

Section TraceFacts.
Context {W C : Type}.

Lemma calls_call (c : C) (t : list (Event C)) : calls (EvCall c :: t) = c :: calls t.
Proof. reflexivity. Qed.

Lemma calls_progress (current total : nat) (t : list (Event C)) :
  calls (EvProgress current total :: t) = calls t.
Proof. reflexivity. Qed.

Lemma rateLimitDelay_no_calls (every : nat) (ms : N) (i total : nat) (w : W) :
  calls (trace_of (@rateLimitDelay W C every ms i total w)) = [].
Proof.
  unfold rateLimitDelay. now destruct (((i + 1) mod every =? 0) && (i + 1 <? total)).
Qed.

End TraceFacts.

(** ** Trimming *)

Section TrimFacts.

Lemma trimStart_app_last (l : jsstring) (c : N) :
  isWhiteSpace c = false -> trimStart (l ++ [c]) = trimStart l ++ [c].
Proof.
  intros Hc. induction l as [|x l IH]; cbn [app trimStart].
  - now rewrite Hc.
  - destruct (isWhiteSpace x); [exact IH | reflexivity].
Qed.

Lemma trimStart_head (s : jsstring) (c : N) (t : jsstring) :
  trimStart s = c :: t -> isWhiteSpace c = false.
Proof.
  induction s as [|x s IH]; cbn [trimStart]; [discriminate|].
  destruct (isWhiteSpace x) eqn:E; [exact IH|]. now intros [= <- _].
Qed.

Lemma trimStart_idem (s : jsstring) : trimStart (trimStart s) = trimStart s.
Proof.
  destruct (trimStart s) as [|c t] eqn:E; [reflexivity|].
  cbn [trimStart]. now rewrite (trimStart_head s c t E).
Qed.

Lemma trimEnd_cons (c : N) (t : jsstring) :
  isWhiteSpace c = false -> trimEnd (c :: t) = c :: trimEnd t.
Proof.
  intros Hc. unfold trimEnd. cbn [rev].
  now rewrite trimStart_app_last, rev_app_distr.
Qed.

Lemma trimEnd_idem (s : jsstring) : trimEnd (trimEnd s) = trimEnd s.
Proof. unfold trimEnd. now rewrite rev_involutive, trimStart_idem. Qed.

Lemma trim_idem (s : jsstring) : trim (trim s) = trim s.
Proof.
  unfold trim. destruct (trimStart s) as [|c t] eqn:E; [reflexivity|].
  pose proof (trimStart_head s c t E) as Hc.
  rewrite (trimEnd_cons c t Hc). cbn [trimStart]. rewrite Hc.
  now rewrite (trimEnd_cons c _ Hc), trimEnd_idem.
Qed.

(** A text is blank when every character of it is white space. *)
Lemma trimStart_nil (s : jsstring) : trimStart s = [] <-> forallb isWhiteSpace s = true.
Proof.
  induction s as [|x s IH]; cbn [trimStart forallb]; [tauto|].
  destruct (isWhiteSpace x); cbn [andb]; [exact IH|]. split; discriminate.
Qed.

Lemma trim_nil (s : jsstring) : trim s = [] <-> forallb isWhiteSpace s = true.
Proof.
  rewrite <- trimStart_nil. unfold trim.
  destruct (trimStart s) as [|c t] eqn:E; [tauto|].
  rewrite (trimEnd_cons c t (trimStart_head s c t E)). split; discriminate.
Qed.

End TrimFacts.

(** ** Reading a CSV line *)

Section CsvLine.
Import Csv.

Lemma parseCSVLine_from_fields (n : nat) :
  forall line, length line <= n ->
  forall result current inQuotes,
    exists fields,
      parseCSVLine_from line result current inQuotes = result ++ fields
      /\ fields <> []
      /\ Forall (fun f => trim f = f) fields
      /\ length fields <= 1 + count_occ N.eq_dec line comma.
Proof.
  induction n as [|n IH]; intros line Hn result current inQuotes.
  - destruct line; [|cbn in Hn; lia].
    exists [trim current]. cbn. repeat split; try discriminate; try lia.
    constructor; [apply trim_idem | constructor].
  - destruct line as [|char rest].
    + exists [trim current]. cbn. repeat split; try discriminate; try lia.
      constructor; [apply trim_idem | constructor].
    + cbn [length] in Hn. cbn [parseCSVLine_from count_occ].
      assert (forall result current inQuotes,
                 exists fields,
                   parseCSVLine_from rest result current inQuotes = result ++ fields
                   /\ fields <> [] /\ Forall (fun f => trim f = f) fields
                   /\ length fields
                      <= 1 + (if N.eq_dec char comma then S (count_occ N.eq_dec rest comma)
                              else count_occ N.eq_dec rest comma)) as Hrest.
      { intros r c q. destruct (IH rest ltac:(lia) r c q) as (fs & H1 & H2 & H3 & H4).
        exists fs. repeat split; try assumption. destruct (N.eq_dec char comma); lia. }
      destruct inQuotes.
      * destruct (char =? dquote)%N eqn:Eq; [|apply Hrest].
        destruct rest as [|nextChar rest']; [apply Hrest|].
        destruct (nextChar =? dquote)%N eqn:En; [|apply Hrest].
        destruct (IH rest' ltac:(cbn in Hn; lia) result (current ++ [dquote]) true)
          as (fs & H1 & H2 & H3 & H4).
        exists fs. repeat split; try assumption.
        cbn [count_occ]. destruct (N.eq_dec char comma), (N.eq_dec nextChar comma); lia.
      * destruct (char =? dquote)%N eqn:Eq; [apply Hrest|].
        destruct (char =? comma)%N eqn:Ec; [|apply Hrest].
        destruct (IH rest ltac:(lia) (result ++ [trim current]) [] false)
          as (fs & H1 & H2 & H3 & H4).
        exists (trim current :: fs). rewrite H1, <- app_assoc.
        split; [reflexivity|]. split; [discriminate|].
        split; [constructor; [apply trim_idem | exact H3]|].
        apply N.eqb_eq in Ec. destruct (N.eq_dec char comma); [cbn; lia | contradiction].
Qed.

(** A line without double quotes is cut at its commas. *)
Lemma parseCSVLine_from_split (line : jsstring) :
  ~ In dquote line ->
  forall result current,
    parseCSVLine_from line result current false
    = result ++ List.map trim (split_from [comma] 0 current line).
Proof.
  induction line as [|char rest IH]; intros Hq result current; [reflexivity|].
  cbn [parseCSVLine_from split_from startsWith length].
  assert (char <> dquote) as Hd by (intros ->; apply Hq; now left).
  apply N.eqb_neq in Hd. rewrite Hd.
  assert (~ In dquote rest) as Hq' by (intros H; apply Hq; now right).
  rewrite (N.eqb_sym comma char). destruct (char =? comma)%N; cbn [andb].
  - rewrite IH by exact Hq'. cbn [List.map]. now rewrite <- app_assoc.
  - now apply IH.
Qed.

(** X1. Whatever the line, [parseCSVLine] returns at least one field, returns
    no more fields than the line has commas plus one, and returns every
    field trimmed. A line without double quotes is cut at each of its
    commas: the fields are the trimmed pieces of [line.split(',')]. *)
Theorem parseCSVLine_fields (line : jsstring) :
  parseCSVLine line <> []
  /\ length (parseCSVLine line) <= 1 + count_occ N.eq_dec line comma
  /\ Forall (fun f => trim f = f) (parseCSVLine line)
  /\ (includes [dquote] line = false ->
      parseCSVLine line = List.map trim (split [comma] line)).
Proof.
  unfold parseCSVLine.
  destruct (parseCSVLine_from_fields (length line) line (Nat.le_refl _) [] [] false)
    as (fs & H1 & H2 & H3 & H4).
  cbn [app] in H1. rewrite H1. split; [exact H2|]. split; [exact H4|]. split; [exact H3|].
  intros Hq. rewrite <- H1. apply includes_char_false in Hq.
  now rewrite parseCSVLine_from_split.
Qed.

Lemma parseCSVLine_fields_witness :
  parseCSVLine (js " a , b,c ") = [js "a"; js "b"; js "c"].
Proof.
  rewrite (proj2 (proj2 (proj2 (parseCSVLine_fields (js " a , b,c ")))) eq_refl).
  reflexivity.
Defined.

End CsvLine.

(** ** Writing a line and reading it back *)

Section CsvLineRoundTrip.
Import Csv.

(** Inside quotes the parser undoes the doubling up to the closing quote,
    and goes on after it. *)
Lemma parse_quoted_then (s tail : jsstring) :
  (forall t, tail <> dquote :: t) ->
  forall result current,
    parseCSVLine_from (replaceAll dquote [dquote; dquote] s ++ dquote :: tail)
      result current true
    = parseCSVLine_from tail result (current ++ s) false.
Proof.
  intros Htail. induction s as [|c s IH]; intros result current.
  - cbn [replaceAll List.flat_map app parseCSVLine_from]. rewrite N.eqb_refl, app_nil_r.
    destruct tail as [|x tail]; [reflexivity|].
    destruct (x =? dquote)%N eqn:E; [|reflexivity].
    apply N.eqb_eq in E. subst x. now destruct (Htail tail).
  - unfold replaceAll in *. cbn [List.flat_map].
    destruct (c =? dquote)%N eqn:E.
    + apply N.eqb_eq in E. subst c.
      cbn [app parseCSVLine_from]. rewrite N.eqb_refl.
      rewrite IH. now rewrite <- app_assoc.
    + cbn [app parseCSVLine_from]. rewrite E.
      rewrite IH. now rewrite <- app_assoc.
Qed.

Lemma parse_plain_then (s tail : jsstring) :
  ~ In comma s -> ~ In dquote s ->
  forall result current,
    parseCSVLine_from (s ++ tail) result current false
    = parseCSVLine_from tail result (current ++ s) false.
Proof.
  induction s as [|c s IH]; intros Hc Hq result current.
  - cbn [app]. now rewrite app_nil_r.
  - cbn [app parseCSVLine_from].
    assert (c <> dquote) as Hd by (intros ->; apply Hq; now left).
    assert (c <> comma) as Hm by (intros ->; apply Hc; now left).
    apply N.eqb_neq in Hd, Hm. rewrite Hd, Hm.
    rewrite IH; [now rewrite <- app_assoc | |]; intros H; [apply Hc | apply Hq]; now right.
Qed.

(** An escaped cell followed by a comma is read as one field. *)
Lemma parse_escaped_cell (value tail : jsstring) (result : list jsstring) :
  parseCSVLine_from (escapeCSV value ++ comma :: tail) result [] false
  = parseCSVLine_from tail (result ++ [trim value]) [] false.
Proof.
  destruct (needsQuoting value) eqn:E.
  - rewrite (escapeCSV_quoted _ E).
    rewrite <- !app_assoc.
    cbn [app parseCSVLine_from]. rewrite N.eqb_refl.
    rewrite parse_quoted_then by discriminate.
    cbn [app parseCSVLine_from]. reflexivity.
  - rewrite (escapeCSV_plain _ E).
    unfold needsQuoting in E. rewrite !orb_false_iff in E.
    destruct E as [[E1 E2] _]. apply includes_char_false in E1, E2.
    rewrite parse_plain_then by assumption.
    cbn [app parseCSVLine_from]. reflexivity.
Qed.

Lemma parse_joined_cells (cells : list jsstring) :
  cells <> [] ->
  forall result,
    parseCSVLine_from (join [comma] (List.map escapeCSV cells)) result [] false
    = result ++ List.map trim cells.
Proof.
  induction cells as [|c cells IH]; intros Hne result; [contradiction|].
  destruct cells as [|c' cells].
  - cbn [List.map join]. pose proof (parse_escape c) as H. unfold parseCSVLine in H.
    destruct (needsQuoting c) eqn:E.
    + rewrite (escapeCSV_quoted _ E). change ([dquote] ++ ?l) with (dquote :: l).
      cbn [parseCSVLine_from]. rewrite N.eqb_refl. now rewrite parse_quoted_body.
    + rewrite (escapeCSV_plain _ E).
      unfold needsQuoting in E. rewrite !orb_false_iff in E.
      destruct E as [[E1 E2] _]. apply includes_char_false in E1, E2.
      now rewrite parse_plain_body.
  - change (List.map escapeCSV (c :: c' :: cells))
      with (escapeCSV c :: List.map escapeCSV (c' :: cells)).
    change (join [comma] (escapeCSV c :: List.map escapeCSV (c' :: cells)))
      with (escapeCSV c ++ [comma] ++ join [comma] (List.map escapeCSV (c' :: cells))).
    cbn [app]. rewrite parse_escaped_cell, IH by discriminate.
    now rewrite <- app_assoc.
Qed.

(** X2. A line written as the escaped cells joined by commas is read back
    by [parseCSVLine] as the same cells, each trimmed: as many fields as
    cells, whatever commas, quotes and newlines the cells hold. *)
Theorem escaped_line_roundtrip (cells : list jsstring) :
  cells <> [] ->
  parseCSVLine (join [comma] (List.map escapeCSV cells)) = List.map trim cells.
Proof. intros H. unfold parseCSVLine. now rewrite parse_joined_cells. Qed.

Lemma escaped_line_roundtrip_witness :
  parseCSVLine (join [comma] (List.map escapeCSV [js "a,b"; Demo.heSaid; js " c "]))
  = [js "a,b"; Demo.heSaid; js "c"].
Proof.
  rewrite (escaped_line_roundtrip [js "a,b"; Demo.heSaid; js " c "]) by discriminate.
  reflexivity.
Defined.

End CsvLineRoundTrip.

(** ** The characters of what the CSV helpers return *)

Section CsvChars.
Import Csv.
Variable P : N -> Prop.

Lemma trimStart_chars (s : jsstring) : Forall P s -> Forall P (trimStart s).
Proof.
  induction s as [|c s IH]; intros H; cbn [trimStart]; [constructor|].
  destruct (isWhiteSpace c); [|exact H]. apply IH. now inversion H.
Qed.

Lemma trim_chars (s : jsstring) : Forall P s -> Forall P (trim s).
Proof.
  intros H. unfold trim, trimEnd. apply List.Forall_rev, trimStart_chars, List.Forall_rev.
  now apply trimStart_chars.
Qed.

Lemma parseCSVLine_from_chars (n : nat) :
  P dquote ->
  forall line, length line <= n ->
  forall result current inQuotes,
    Forall P line -> Forall P current -> Forall (Forall P) result ->
    Forall (Forall P) (parseCSVLine_from line result current inQuotes).
Proof.
  intros Hq. induction n as [|n IH]; intros line Hn result current inQuotes Hl Hc Hr.
  - destruct line; [|cbn in Hn; lia]. cbn. apply Forall_app. split; [exact Hr|].
    constructor; [now apply trim_chars | constructor].
  - destruct line as [|char rest].
    + cbn. apply Forall_app. split; [exact Hr|].
      constructor; [now apply trim_chars | constructor].
    + cbn [length] in Hn. inversion Hl as [|? ? Hchar Hrest]; subst.
      assert (Forall P (current ++ [char])) as Hcc
          by (apply Forall_app; split; [exact Hc | now constructor]).
      assert (Forall P (current ++ [dquote])) as Hcq
          by (apply Forall_app; split; [exact Hc | now constructor]).
      cbn [parseCSVLine_from]. destruct inQuotes.
      * destruct (char =? dquote)%N.
        -- destruct rest as [|nextChar rest']; [apply IH; auto; lia|].
           destruct (nextChar =? dquote)%N; [|apply IH; auto; lia].
           apply IH; auto; [cbn in Hn; lia|]. inversion Hrest; subst.
           now inversion Hrest.
        -- apply IH; auto; lia.
      * destruct (char =? dquote)%N; [apply IH; auto; lia|].
        destruct (char =? comma)%N; [|apply IH; auto; lia].
        apply IH; auto; [lia|]. apply Forall_app. split; [exact Hr|].
        constructor; [now apply trim_chars | constructor].
Qed.

Lemma parseCSVLine_chars (line : jsstring) :
  P dquote -> Forall P line -> Forall (Forall P) (parseCSVLine line).
Proof.
  intros Hq Hl. unfold parseCSVLine.
  apply (parseCSVLine_from_chars (length line)); auto.
Qed.

Lemma escapeCSV_chars (value : jsstring) :
  P dquote -> Forall P value -> Forall P (escapeCSV value).
Proof.
  intros Hq Hv. unfold escapeCSV.
  destruct (includes [comma] value || includes [dquote] value || includes [newline] value);
    [|exact Hv].
  apply Forall_app. split; [now constructor|]. apply Forall_app. split; [|now constructor].
  unfold replaceAll. induction Hv as [|c s Hc Hs IH]; cbn [List.flat_map]; [constructor|].
  apply Forall_app. split; [|exact IH].
  destruct (c =? dquote)%N; repeat constructor; assumption.
Qed.

Lemma join_chars (sep : jsstring) (cells : list jsstring) :
  Forall P sep -> Forall (Forall P) cells -> Forall P (join sep cells).
Proof.
  intros Hs Hc. induction Hc as [|c cells Hc Hcs IH]; [constructor|].
  cbn [join]. destruct cells as [|c' cells]; [exact Hc|].
  apply Forall_app. split; [exact Hc|]. apply Forall_app. split; [exact Hs | exact IH].
Qed.

End CsvChars.

(** ** Lines: [split] undoes [join] *)

Section Lines.

Lemma split_line_then (l tail cur : jsstring) :
  ~ In newline l ->
  split_from [newline] 0 cur (l ++ tail) = split_from [newline] 0 (cur ++ l) tail.
Proof.
  revert cur. induction l as [|c l IH]; intros cur Hl; cbn [app].
  - now rewrite app_nil_r.
  - cbn [split_from startsWith].
    assert (newline <> c) as Hc by (intros E; apply Hl; left; now symmetry).
    apply N.eqb_neq in Hc. rewrite Hc. cbn [andb].
    rewrite IH by (intros H; apply Hl; now right). now rewrite <- app_assoc.
Qed.

Lemma split_from_lines (lines : list jsstring) :
  lines <> [] -> Forall (fun l => ~ In newline l) lines ->
  forall cur,
    split_from [newline] 0 cur (join [newline] lines)
    = match lines with
      | [] => []
      | l :: rest => (cur ++ l) :: rest
      end.
Proof.
  induction lines as [|l lines IH]; intros Hne Hl cur; [contradiction|].
  inversion Hl as [|? ? Hl1 Hl2]; subst. destruct lines as [|l' lines].
  - cbn [join]. rewrite <- (app_nil_r l) at 1. rewrite split_line_then by exact Hl1.
    reflexivity.
  - change (join [newline] (l :: l' :: lines))
      with (l ++ [newline] ++ join [newline] (l' :: lines)).
    rewrite split_line_then by exact Hl1.
    cbn [app split_from startsWith length]. rewrite N.eqb_refl. cbn [andb Nat.sub].
    rewrite IH by (try discriminate; exact Hl2). reflexivity.
Qed.

Lemma split_join_lines (lines : list jsstring) :
  lines <> [] -> Forall (fun l => ~ In newline l) lines ->
  split [newline] (join [newline] lines) = lines.
Proof.
  intros Hne Hl. unfold split. rewrite split_from_lines by assumption.
  now destruct lines.
Qed.

Lemma split_from_no_newline (s : jsstring) :
  forall cur, ~ In newline cur ->
    Forall (fun l => ~ In newline l) (split_from [newline] 0 cur s).
Proof.
  induction s as [|c s IH]; intros cur Hcur; cbn [split_from startsWith length].
  - now repeat constructor.
  - destruct (newline =? c)%N eqn:E; cbn [andb Nat.sub].
    + constructor; [exact Hcur|]. apply IH. intros [].
    + apply IH. intros H. apply in_app_or in H as [H|[Hc|[]]]; [now apply Hcur|].
      subst c. now rewrite N.eqb_refl in E.
Qed.

End Lines.

(** ** The rows of [parseCSV] *)

Section CsvRows.
Import Csv BulkUpdate CsvFile.

Lemma setCell_lookup (row : CSVRow) (col value k : jsstring) :
  setCell row col value !! k
  = if bool_decide (col = k) && negb (bool_decide (col = PROTO)) then Some value
    else row !! k.
Proof.
  unfold setCell, jsstring_eqb.
  destruct (bool_decide_reflect (col = PROTO)) as [Hp|Hp]; cbn [negb].
  - now rewrite andb_false_r.
  - rewrite andb_true_r. destruct (bool_decide_reflect (col = k)) as [->|Hk].
    + apply lookup_insert_eq.
    + now apply lookup_insert_ne.
Qed.

Lemma fillRow_notin (values : list jsstring) (columns : list jsstring) (k : jsstring) :
  ~ In k columns \/ k = PROTO ->
  forall idx row, fillRow values idx columns row !! k = row !! k.
Proof.
  intros Hk. induction columns as [|c columns IH]; intros idx row; [reflexivity|].
  cbn [fillRow]. rewrite IH.
  - rewrite setCell_lookup.
    destruct (bool_decide_reflect (c = k)) as [->|Hc]; [|reflexivity].
    destruct Hk as [Hk | ->]; [exfalso; apply Hk; now left|].
    now rewrite bool_decide_eq_true_2.
  - destruct Hk as [Hk|Hk]; [left | now right]. intros H. apply Hk. now right.
Qed.

(** The cell of a column is the value at the index of its last occurrence
    in the header. *)
Lemma fillRow_lookup (values : list jsstring) (columns : list jsstring) (k : jsstring) :
  k <> PROTO -> In k columns ->
  forall idx row,
    exists j,
      columns !! j = Some k
      /\ (forall j', j < j' -> columns !! j' <> Some k)
      /\ fillRow values idx columns row !! k = Some (orEmpty (values !! (idx + j))).
Proof.
  intros Hp. induction columns as [|c columns IH]; intros Hin idx row; [destruct Hin|].
  cbn [fillRow].
  destruct (in_dec (List.list_eq_dec N.eq_dec) k columns) as [Hk|Hk].
  - destruct (IH Hk (S idx) (setCell row c (orEmpty (values !! idx)))) as (j & H1 & H2 & H3).
    exists (S j). split; [exact H1|]. split.
    + intros [|j'] Hj; [lia|]. apply H2. lia.
    + rewrite H3. now rewrite Nat.add_succ_r.
  - destruct Hin as [->|Hin]; [|contradiction].
    exists 0. split; [reflexivity|]. split.
    + intros [|j'] Hj; [lia|]. cbn. intros H. apply Hk.
      apply list_elem_of_In. now apply list_elem_of_lookup_2 in H.
    + rewrite fillRow_notin by now left. rewrite setCell_lookup.
      rewrite bool_decide_eq_true_2 by reflexivity.
      rewrite bool_decide_eq_false_2 by exact Hp. cbn. now rewrite Nat.add_0_r.
Qed.

Lemma emptyRow_lookup (k : jsstring) : (∅ : CSVRow) !! k = None.
Proof. exact (lookup_empty k). Qed.

Lemma fillRow_keys (values : list jsstring) (columns : list jsstring) (k : jsstring) :
  is_Some (fillRow values 0 columns ∅ !! k) <-> In k columns /\ k <> PROTO.
Proof.
  destruct (in_dec (List.list_eq_dec N.eq_dec) k columns) as [Hk|Hk].
  - destruct (decide (k = PROTO)) as [->|Hp].
    + rewrite fillRow_notin by now right. rewrite emptyRow_lookup. split.
      * intros [? H]. discriminate.
      * now intros [_ H].
    + destruct (fillRow_lookup values columns k Hp Hk 0 ∅) as (j & _ & _ & ->).
      split; [now intros _ | intros _; eauto].
  - rewrite fillRow_notin by now left. rewrite emptyRow_lookup. split.
    + intros [? H]. discriminate.
    + now intros [H _].
Qed.

Lemma fillRow_values (Q : jsstring -> Prop) (values columns : list jsstring) :
  Q [] -> Forall Q values ->
  forall k v, fillRow values 0 columns ∅ !! k = Some v -> Q v.
Proof.
  intros Hnil Hvalues k v Hv.
  assert (is_Some (fillRow values 0 columns ∅ !! k)) as Hs by (now exists v).
  apply fillRow_keys in Hs as [Hin Hp].
  destruct (fillRow_lookup values columns k Hp Hin 0 ∅) as (j & _ & _ & H).
  rewrite H in Hv. injection Hv as <-. cbn [Nat.add].
  destruct (values !! j) as [x|] eqn:E; cbn [orEmpty]; [|exact Hnil].
  rewrite List.Forall_forall in Hvalues. apply Hvalues.
  apply list_elem_of_In. now apply list_elem_of_lookup_2 in E.
Qed.

(** X3. [parseCSV] takes the first non-blank line as the header and makes a
    row of every other non-blank line: as many rows as such lines. The keys
    of every row are the columns of the header ([__proto__] apart, which an
    object literal does not take as a key), every cell is trimmed, and,
    where the header names no column twice, the cell of the column at
    index [j] is the field [j] of the line, or [''] when the line is
    too short. A text without a non-blank line has no column and no row. *)
Theorem parseCSV_rows (csvText : jsstring) :
  match nonBlankLines csvText with
  | [] => parseCSV csvText = CsvData.mk [] []
  | header :: lines =>
      CsvData.columns (parseCSV csvText) = parseCSVLine header
      /\ length (CsvData.rows (parseCSV csvText)) = length lines
      /\ forall i line,
           lines !! i = Some line ->
           exists row,
             CsvData.rows (parseCSV csvText) !! i = Some row
             /\ (forall col, is_Some (row !! col) <-> In col (parseCSVLine header) /\ col <> PROTO)
             /\ (forall col v, row !! col = Some v -> trim v = v)
             /\ (NoDup (parseCSVLine header) ->
                 forall j col,
                   parseCSVLine header !! j = Some col -> col <> PROTO ->
                   row !! col = Some (orEmpty (parseCSVLine line !! j)))
  end.
Proof.
  unfold parseCSV. destruct (nonBlankLines csvText) as [|header lines]; [reflexivity|].
  cbn [CsvData.columns CsvData.rows]. split; [reflexivity|].
  split; [apply length_map|].
  intros i line Hline. exists (fillRow (parseCSVLine line) 0 (parseCSVLine header) ∅).
  split; [now rewrite list_lookup_fmap, Hline|].
  split; [apply fillRow_keys|]. split.
  - apply fillRow_values; [reflexivity|]. apply parseCSVLine_fields.
  - intros Hnodup j col Hj Hp.
    assert (In col (parseCSVLine header)) as Hin.
    { apply list_elem_of_In. now apply list_elem_of_lookup_2 in Hj. }
    destruct (fillRow_lookup (parseCSVLine line) _ col Hp Hin 0 ∅) as (j' & H1 & _ & ->).
    cbn [Nat.add].
    now rewrite (NoDup_lookup _ _ _ _ Hnodup Hj H1).
Qed.

End CsvRows.

Lemma parseCSV_rows_witness :
  exists row,
    BulkUpdate.CsvData.rows (CsvFile.parseCSV (js "a,b" ++ [newline] ++ js "1")) !! 0
    = Some row
    /\ row !! js "a" = Some (js "1") /\ row !! js "b" = Some [].
Proof.
  pose proof (parseCSV_rows (js "a,b" ++ [newline] ++ js "1")) as H.
  change (CsvFile.nonBlankLines _) with [js "a,b"; js "1"] in H.
  destruct H as (_ & _ & H).
  destruct (H 0 (js "1") eq_refl) as (row & Hr & _ & _ & Hcell).
  assert (NoDup (Csv.parseCSVLine (js "a,b"))) as Hnodup
      by (apply (bool_decide_unpack _); vm_compute; exact I).
  exists row. split; [exact Hr|]. split.
  - now apply (Hcell Hnodup 0 (js "a") eq_refl).
  - now apply (Hcell Hnodup 1 (js "b") eq_refl).
Defined.

(** ** The failure report of the note import, read again *)

Section FailureReport.
Import Csv BulkUpdate CsvFile.

Lemma nonblank_incl (a b : jsstring) :
  (forall c, In c a -> In c b) -> trim a <> [] -> trim b <> [].
Proof.
  intros Hab Ha Hb. apply Ha. apply trim_nil. apply trim_nil in Hb.
  rewrite forallb_forall in *. auto.
Qed.

Lemma escapeCSV_keeps (value : jsstring) (c : N) : In c value -> In c (escapeCSV value).
Proof.
  intros Hc. unfold escapeCSV.
  destruct (includes [comma] value || includes [dquote] value || includes [newline] value);
    [|exact Hc].
  cbn [app]. right. apply in_or_app. left. unfold replaceAll. apply in_flat_map. exists c.
  split; [exact Hc|]. destruct (c =? dquote)%N eqn:E; [|now left].
  apply N.eqb_eq in E. subst. now left.
Qed.

Lemma join_keeps_last (sep : jsstring) (cells : list jsstring) (last : jsstring) (c : N) :
  In c last -> In c (join sep (cells ++ [last])).
Proof.
  intros Hc. induction cells as [|x cells IH]; [exact Hc|].
  cbn [app join]. destruct (cells ++ [last]) eqn:E.
  - now destruct cells.
  - apply in_or_app. right. apply in_or_app. now right.
Qed.

Lemma filter_all {A} (f : A -> bool) (l : list A) :
  Forall (fun x => f x = true) l -> List.filter f l = l.
Proof.
  induction 1 as [|x l Hx Hl IH]; [reflexivity|]. cbn [List.filter]. now rewrite Hx, IH.
Qed.

Lemma mapM_all {A B} (f : A -> option B) (g : A -> B) (l : list A) :
  (forall x, In x l -> f x = Some (g x)) -> mapM f l = Some (List.map g l).
Proof.
  induction l as [|x l IH]; intros H; [reflexivity|].
  cbn [mapM List.map]. rewrite (H x) by now left. cbn.
  rewrite IH by (intros y Hy; apply H; now right). reflexivity.
Qed.

Lemma fillRow_agree (values values' : list jsstring) (columns : list jsstring) :
  forall idx row,
    (forall j, j < length columns -> values !! (idx + j) = values' !! (idx + j)) ->
    fillRow values idx columns row = fillRow values' idx columns row.
Proof.
  induction columns as [|c columns IH]; intros idx row H; [reflexivity|].
  cbn [fillRow]. rewrite <- (Nat.add_0_r idx) at 2 4.
  rewrite (H 0) by (cbn; lia). rewrite Nat.add_0_r. apply IH.
  intros j Hj. replace (S idx + j) with (idx + S j) by lia. apply H. cbn. lia.
Qed.

Lemma fillRow_app (values : list jsstring) (cs1 cs2 : list jsstring) :
  forall idx row,
    fillRow values idx (cs1 ++ cs2) row
    = fillRow values (idx + length cs1) cs2 (fillRow values idx cs1 row).
Proof.
  induction cs1 as [|c cs1 IH]; intros idx row; cbn [app fillRow length].
  - now rewrite Nat.add_0_r.
  - rewrite IH. now rewrite Nat.add_succ_r.
Qed.

(** Writing to a row the cells it has leaves it as it is. *)
Lemma fillRow_same (values columns : list jsstring) :
  ~ In PROTO columns ->
  let row := fillRow values 0 columns ∅ in
  fillRow (List.map (fun col => default [] (row !! col)) columns) 0 columns ∅ = row.
Proof.
  intros Hp row. apply map_eq. intros k.
  destruct (in_dec (List.list_eq_dec N.eq_dec) k columns) as [Hk|Hk].
  - assert (k <> PROTO) as Hkp by (intros ->; contradiction).
    destruct (fillRow_lookup values columns k Hkp Hk 0 ∅) as (j & H1 & H2 & H3).
    destruct (fillRow_lookup (List.map (fun col => default [] (row !! col)) columns)
                columns k Hkp Hk 0 ∅) as (j' & H1' & H2' & H3').
    assert (j = j') as <-.
    { destruct (Nat.lt_trichotomy j j') as [Hlt|[Heq|Hlt]]; [|exact Heq|].
      - now destruct (H2 j' Hlt). - now destruct (H2' j Hlt). }
    etransitivity; [exact H3'|]. symmetry. etransitivity; [exact H3|].
    cbn [Nat.add]. rewrite list_lookup_fmap, H1. cbn [fmap option_fmap option_map orEmpty].
    f_equal. symmetry. exact (f_equal (default []) H3).
  - unfold row. now rewrite !fillRow_notin by now left.
Qed.

Lemma no_newline_Forall (l : jsstring) :
  Forall (fun c => c <> newline) l <-> ~ In newline l.
Proof.
  rewrite List.Forall_forall. split.
  - intros H Hin. now apply (H newline).
  - intros H c Hc ->. contradiction.
Qed.

Lemma map_trimmed (l : list jsstring) :
  Forall (fun f => trim f = f) l -> List.map trim l = l.
Proof. induction 1 as [|x l Hx Hl IH]; [reflexivity|]. cbn. now rewrite Hx, IH. Qed.

Lemma nonBlankLines_no_newline (csvText : jsstring) :
  Forall (fun l => ~ In newline l) (nonBlankLines csvText).
Proof.
  unfold nonBlankLines, split. apply List.Forall_forall. intros l Hl.
  apply filter_In in Hl as [Hl _].
  pose proof (split_from_no_newline csvText [] (fun H => H)) as H.
  rewrite List.Forall_forall in H. now apply H.
Qed.

(** The line of the report for the cells [cells] and the error [e]. *)
Lemma reportLine_read (cells : list jsstring) (e : jsstring) :
  Forall (fun f => trim f = f) cells ->
  parseCSVLine (join [comma] (List.map escapeCSV cells ++ [escapeCSV e]))
  = cells ++ [trim e].
Proof.
  intros Hc. rewrite <- (map_trimmed cells Hc) at 2.
  change [escapeCSV e] with (List.map escapeCSV [e]). rewrite <- List.map_app.
  unfold parseCSVLine. rewrite parse_joined_cells by (now destruct cells).
  now rewrite List.map_app.
Qed.

Lemma reportLine_line (cells : list jsstring) (e : jsstring) :
  Forall (fun f => ~ In newline f) cells -> ~ In newline e -> trim e <> [] ->
  let line := join [comma] (List.map escapeCSV cells ++ [escapeCSV e]) in
  ~ In newline line /\ negb (jsstring_eqb (trim line) []) = true.
Proof.
  intros Hc He Hb line. split.
  - apply no_newline_Forall. apply join_chars; [repeat constructor; discriminate|].
    apply Forall_app. split.
    + apply List.Forall_map. eapply List.Forall_impl; [|exact Hc].
      intros f Hf. apply escapeCSV_chars; [discriminate|]. now apply no_newline_Forall.
    + constructor; [|constructor]. apply escapeCSV_chars; [discriminate|].
      now apply no_newline_Forall.
  - apply negb_true_iff, jsstring_eqb_false.
    apply (nonblank_incl e); [|exact Hb].
    intros c Hc'. apply join_keeps_last. now apply escapeCSV_keeps.
Qed.

(** The cell the report writes for a column of a row of the file. *)
Lemma reportCell_own (values columns : list jsstring) (col : jsstring) :
  ~ In PROTO columns -> In col columns ->
  let row := fillRow values 0 columns ∅ in
  reportCell row col = Some (escapeCSV (default [] (row !! col))).
Proof.
  intros Hp Hcol row. unfold reportCell, getCell.
  assert (col <> PROTO) as Hc by (intros ->; contradiction).
  apply jsstring_eqb_false in Hc. rewrite Hc.
  destruct (proj2 (fillRow_keys values columns col)) as [v Hv].
  { split; [exact Hcol|]. now apply jsstring_eqb_false. }
  subst row. unfold CSVRow, jsstring in *. now rewrite Hv.
Qed.

Lemma reportRow_own (values columns : list jsstring) (rowIndex : nat) (e : jsstring) :
  ~ In PROTO columns ->
  let row := fillRow values 0 columns ∅ in
  reportRow columns (FailedRow.mk rowIndex row e)
  = Some (join [comma]
            (List.map escapeCSV (List.map (fun col => default [] (row !! col)) columns)
             ++ [escapeCSV e])).
Proof.
  intros Hp row. unfold reportRow. cbn [FailedRow.rowData FailedRow.error].
  rewrite (mapM_all _ (fun col => escapeCSV (default [] (row !! col)))).
  - now rewrite List.map_map.
  - intros col Hcol. now apply reportCell_own.
Qed.

(** The row read back from a line of the report. *)
Lemma reportRow_read (values columns : list jsstring) (e : jsstring) :
  ~ In PROTO columns -> Forall (fun f => trim f = f) values ->
  let row := fillRow values 0 columns ∅ in
  fillRow
    (parseCSVLine
       (join [comma]
          (List.map escapeCSV (List.map (fun col => default [] (row !! col)) columns)
           ++ [escapeCSV e])))
    0 (columns ++ [js "Error"]) ∅
  = <[ js "Error" := trim e ]> row.
Proof.
  intros Hp Hv row.
  set (cells := List.map (fun col => default [] (row !! col)) columns).
  assert (Forall (fun f => trim f = f) cells) as Hcells.
  { apply List.Forall_map, List.Forall_forall. intros col _.
    destruct (row !! col) as [v|] eqn:E; cbn [default]; [|reflexivity].
    now apply (fillRow_values (fun f => trim f = f) values columns eq_refl Hv col). }
  rewrite (reportLine_read cells e Hcells).
  rewrite fillRow_app. cbn [fillRow Nat.add].
  assert (length cells = length columns) as Hlen by apply length_map.
  rewrite <- Hlen, list_lookup_middle by reflexivity. cbn [orEmpty].
  rewrite (fillRow_agree (cells ++ [trim e]) cells).
  - change (setCell (fillRow cells 0 columns ∅) (js "Error") (trim e))
      with (<[ js "Error" := trim e ]> (fillRow cells 0 columns ∅)).
    f_equal. exact (fillRow_same values columns Hp).
  - intros j Hj. cbn [Nat.add]. rewrite lookup_app_l by (unfold cells; rewrite length_map; exact Hj).
    reflexivity.
Qed.

(** What [parseCSV] reads in the failure report. *)
Lemma failureReport_read (csvText : jsstring) (failedRows : list FailedRow.t) :
  failedRows <> [] ->
  ~ In PROTO (CsvData.columns (parseCSV csvText)) ->
  Forall (fun f => In (FailedRow.rowData f) (CsvData.rows (parseCSV csvText))
                   /\ ~ In newline (FailedRow.error f)
                   /\ trim (FailedRow.error f) <> []) failedRows ->
  exists csvContent,
    downloadFailureReport (Some (parseCSV csvText)) failedRows = Saved csvContent
    /\ parseCSV csvContent
       = CsvData.mk (CsvData.columns (parseCSV csvText) ++ [js "Error"])
           (List.map
              (fun f => <[ js "Error" := trim (FailedRow.error f) ]> (FailedRow.rowData f))
              failedRows).
Proof.
  intros Hne. unfold parseCSV at 1 2 3 5.
  pose proof (nonBlankLines_no_newline csvText) as Hlines.
  destruct (nonBlankLines csvText) as [|header lines].
  { intros _ Hf. destruct failedRows as [|f fs]; [contradiction|].
    inversion Hf as [|? ? [[] _] _]. }
  cbn [CsvData.columns CsvData.rows]. intros Hp Hf.
  inversion Hlines as [|? ? Hheader Hrest]; subst.
  set (columns := parseCSVLine header) in *.
  assert (Forall (fun f => trim f = f) columns) as Hct by apply parseCSVLine_fields.
  assert (Forall (fun f => ~ In newline f) columns) as Hcn.
  { pose proof (parseCSVLine_chars (fun c => c <> newline) header ltac:(discriminate)
                  (proj2 (no_newline_Forall header) Hheader)) as H.
    eapply List.Forall_impl; [|exact H]. intros f. apply no_newline_Forall. }
  (* what the report holds for a failed row *)
  set (line := fun f : FailedRow.t =>
         join [comma]
           (List.map escapeCSV
              (List.map (fun col => default [] (FailedRow.rowData f !! col)) columns)
            ++ [escapeCSV (FailedRow.error f)])).
  assert (forall f, In f failedRows ->
            exists values,
              FailedRow.rowData f = fillRow values 0 columns ∅
              /\ Forall (fun v => trim v = v) values
              /\ Forall (fun v => ~ In newline v) values) as Hrow.
  { intros f Hin. rewrite List.Forall_forall in Hf. destruct (Hf f Hin) as (Hr & _ & _).
    apply in_map_iff in Hr as (l & Hl & Hlin). exists (parseCSVLine l).
    split; [now symmetry|]. split; [apply parseCSVLine_fields|].
    rewrite List.Forall_forall in Hrest.
    pose proof (parseCSVLine_chars (fun c => c <> newline) l ltac:(discriminate)
                  (proj2 (no_newline_Forall l) (Hrest l Hlin))) as H.
    eapply List.Forall_impl; [|exact H]. intros v. apply no_newline_Forall. }
  assert (mapM (reportRow columns) failedRows = Some (List.map line failedRows)) as Hrows.
  { apply mapM_all. intros f Hin. destruct (Hrow f Hin) as (values & Hr & _ & _).
    destruct f as [i row e]. cbn [FailedRow.rowData] in Hr. subst row.
    now rewrite reportRow_own. }
  unfold downloadFailureReport. cbn [CsvData.columns].
  destruct failedRows as [|f0 fs] eqn:Efs; [contradiction|]. cbn [length Nat.eqb].
  rewrite <- Efs in *. rewrite Hrows. eexists. split; [reflexivity|].
  (* the lines of the report *)
  set (headerRow := join [comma] (List.map escapeCSV (columns ++ [js "Error"]))).
  assert (~ In newline headerRow /\ negb (jsstring_eqb (trim headerRow) []) = true)
    as [Hh1 Hh2].
  { unfold headerRow. rewrite List.map_app. cbn [List.map].
    apply (reportLine_line columns (js "Error")); [exact Hcn| |discriminate].
    intros H. vm_compute in H. intuition discriminate. }
  assert (Forall (fun l => ~ In newline l /\ negb (jsstring_eqb (trim l) []) = true)
            (List.map line failedRows)) as Hls.
  { apply List.Forall_map, List.Forall_forall. intros f Hin.
    rewrite List.Forall_forall in Hf. destruct (Hf f Hin) as (_ & He1 & He2).
    destruct (Hrow f Hin) as (values & Hr & Hvt & Hvn).
    apply reportLine_line; [|exact He1|exact He2].
    apply List.Forall_map, List.Forall_forall. intros col _. rewrite Hr.
    destruct (fillRow values 0 columns ∅ !! col) as [v|] eqn:E; cbn [default]; [|tauto].
    now apply (fillRow_values (fun f => ~ In newline f) values columns (fun H => H) Hvn col). }
  unfold parseCSV, nonBlankLines.
  rewrite split_join_lines; [|discriminate|].
  2:{ constructor; [exact Hh1|]. eapply List.Forall_impl; [|exact Hls]. now intros l [H _]. }
  rewrite filter_all.
  2:{ constructor; [exact Hh2|]. eapply List.Forall_impl; [|exact Hls]. now intros l [_ H]. }
  assert (parseCSVLine headerRow = columns ++ [js "Error"]) as ->.
  { unfold headerRow. rewrite List.map_app. cbn [List.map].
    now rewrite (reportLine_read columns (js "Error") Hct). }
  f_equal. rewrite List.map_map. apply List.map_ext_in. intros f Hin.
  destruct (Hrow f Hin) as (values & Hr & Hvt & _).
  unfold line. rewrite Hr. now apply reportRow_read.
Qed.

(** X4. The failure report of the note import can be imported again. For a
    file read by [parseCSV] whose header has no column [__proto__], and
    failed rows that are rows of the file with an error message that is not
    blank and holds no newline, the report is saved, and [parseCSV] reads
    it back as the columns of the file followed by [Error], with one row per
    failed row: its trimmed error under [Error], and the cells of the failed
    row as they were under every other column. For a file without a column
    [Error] of its own these are all the cells of the row; for a file with
    one, [Error] is twice in the header read back and the cell the row had
    under it is replaced by the error. *)
Theorem failureReport_reimport (csvText : jsstring) (failedRows : list FailedRow.t) :
  failedRows <> [] ->
  ~ In PROTO (CsvData.columns (parseCSV csvText)) ->
  Forall (fun f => In (FailedRow.rowData f) (CsvData.rows (parseCSV csvText))
                   /\ ~ In newline (FailedRow.error f)
                   /\ trim (FailedRow.error f) <> []) failedRows ->
  exists csvContent reread,
    downloadFailureReport (Some (parseCSV csvText)) failedRows = Saved csvContent
    /\ parseCSV csvContent
       = CsvData.mk (CsvData.columns (parseCSV csvText) ++ [js "Error"]) reread
    /\ reread
       = List.map
           (fun f => <[ js "Error" := trim (FailedRow.error f) ]> (FailedRow.rowData f))
           failedRows
    /\ Forall2
         (fun f row =>
            row !! js "Error" = Some (trim (FailedRow.error f))
            /\ (forall col, col <> js "Error" -> row !! col = FailedRow.rowData f !! col)
            /\ (~ In (js "Error") (CsvData.columns (parseCSV csvText)) ->
                forall col, In col (CsvData.columns (parseCSV csvText)) ->
                            row !! col = FailedRow.rowData f !! col))
         failedRows reread.
Proof.
  intros Hne Hp Hf.
  destruct (failureReport_read csvText failedRows Hne Hp Hf) as (csvContent & Hs & Hr).
  exists csvContent. eexists. split; [exact Hs|]. split; [exact Hr|]. split; [reflexivity|].
  clear. induction failedRows as [|f fs IH]; cbn [List.map]; constructor; [|exact IH].
  split; [apply (lookup_insert_eq (M := gmap jsstring))|]. split.
  - intros col Hc. apply (lookup_insert_ne (M := gmap jsstring)).
    intros E. apply Hc. now symmetry.
  - intros Hno col Hin. apply (lookup_insert_ne (M := gmap jsstring)).
    intros E. apply Hno. now rewrite E.
Qed.

End FailureReport.

Lemma failureReport_reimport_witness :
  exists csvContent reread,
    CsvFile.downloadFailureReport (Some (CsvFile.parseCSV Samples.twoColumns))
      [Samples.failedFirst]
    = CsvFile.Saved csvContent
    /\ CsvFile.parseCSV csvContent
       = BulkUpdate.CsvData.mk [js "a"; js "b"; js "Error"] reread
    /\ reread
       = [<[ js "Error" := js "Bad request, retry" ]>
            (CsvFile.FailedRow.rowData Samples.failedFirst)].
Proof.
  destruct (failureReport_reimport Samples.twoColumns [Samples.failedFirst])
    as (csvContent & reread & H1 & H2 & H3 & _).
  - discriminate.
  - vm_compute. intuition discriminate.
  - constructor; [|constructor]. split; [left; reflexivity|].
    split; [vm_compute; intuition discriminate | discriminate].
  - exists csvContent, reread. split; [exact H1|]. split; [exact H2|exact H3].
Defined.

(** ** Backend: [updateFeatureCustomFields] *)

Section FieldWrites.
Import Backend BackendWrites.
Context {World V : Type}.
Variable fetch :
  WriteRequest.t (FieldBody.t V) -> World -> Outcome HttpResponse.t * World.
Variable toLowerCase : jsstring -> jsstring.

Lemma fieldError_nil (r : Outcome HttpResponse.t) :
  fieldError toLowerCase r = [] <-> answeredOk r = true.
Proof.
  unfold fieldError, answeredOk. destruct r as [response|message].
  - destruct (isOk (HttpResponse.status response)); [tauto|].
    destruct (HttpResponse.text response); split; discriminate.
  - split; discriminate.
Qed.

Lemma fieldError_length (r : Outcome HttpResponse.t) :
  length (fieldError toLowerCase r) = if answeredOk r then 0 else 1.
Proof.
  unfold fieldError, answeredOk. destruct r as [response|message]; [|reflexivity].
  destruct (isOk (HttpResponse.status response)); [reflexivity|].
  now destruct (HttpResponse.text response).
Qed.

Lemma updateOneField_run (apiToken featureId : jsstring) (i : nat)
  (field : FieldWrite.t V) (errors : list jsstring) (w : World) :
  let request := putRequest apiToken featureId field in
  let r := fst (fetch request w) in
  result_of (updateOneField fetch toLowerCase apiToken featureId i field errors w)
  = errors ++ fieldError toLowerCase r
  /\ trace_of (updateOneField fetch toLowerCase apiToken featureId i field errors w)
     = [EvCall (Exchange.mk request r)].
Proof.
  cbv zeta. unfold updateOneField, bind, await, ret, result_of, trace_of.
  destruct (fetch (putRequest apiToken featureId field) w) as [r w1]. cbn. now split.
Qed.

Lemma fields_loop (apiToken featureId : jsstring) (customFields : list (FieldWrite.t V))
  (w : World) :
  let run := forEach (updateOneField fetch toLowerCase apiToken featureId) 0 customFields [] w in
  List.map Exchange.request (calls (trace_of run))
  = List.map (putRequest apiToken featureId) customFields
  /\ result_of run
     = List.flat_map (fieldError toLowerCase) (List.map Exchange.answer (calls (trace_of run))).
Proof.
  cbv zeta.
  pose proof (forEach_invariant
                (updateOneField fetch toLowerCase apiToken featureId)
                (fun i acc t =>
                   List.map Exchange.request (calls t)
                   = List.map (putRequest apiToken featureId) (take i customFields)
                   /\ acc = List.flat_map (fieldError toLowerCase)
                              (List.map Exchange.answer (calls t)))
                customFields) as Hinv.
  destruct (Hinv) with (acc := @nil jsstring) (w := w) as [H1 H2].
  - intros i x acc t w0 Hx [Ht Hacc].
    destruct (updateOneField_run apiToken featureId i x acc w0) as [Hr Htr].
    rewrite Hr, Htr, calls_app, !List.map_app, List.flat_map_app.
    cbn [calls List.flat_map List.map app Exchange.request Exchange.answer].
    rewrite Ht, <- Hacc, app_nil_r. split; [|reflexivity].
    rewrite (take_S_r _ _ _ Hx). now rewrite List.map_app.
  - now split.
  - rewrite firstn_all in H1. now split.
Qed.

(** X5. [updateFeatureCustomFields] sends one PUT for every field it is
    given, in their order, whatever the earlier ones answered; it reports a
    success exactly when every answer was ok, without an error; otherwise
    the error joins one message for every answer that was not. *)
Theorem updateFeatureCustomFields_requests (apiToken featureId : jsstring)
  (customFields : list (FieldWrite.t V)) (w : World) :
  let run := updateFeatureCustomFields fetch toLowerCase apiToken featureId customFields w in
  let answers := List.map Exchange.answer (calls (trace_of run)) in
  List.map Exchange.request (calls (trace_of run))
  = List.map (putRequest apiToken featureId) customFields
  /\ UpdateResult.success (result_of run) = forallb answeredOk answers
  /\ (UpdateResult.success (result_of run) = true ->
      UpdateResult.error (result_of run) = None)
  /\ (UpdateResult.success (result_of run) = false ->
      exists errors,
        UpdateResult.error (result_of run) = Some (join (js "; ") errors)
        /\ length errors = length (List.filter (fun r => negb (answeredOk r)) answers)).
Proof.
  cbv zeta. unfold updateFeatureCustomFields. rewrite bind_run.
  destruct (fields_loop apiToken featureId customFields w) as [Hreq Herr].
  set (loop := forEach (updateOneField fetch toLowerCase apiToken featureId) 0 customFields [] w)
    in *.
  assert (forall (b : bool) (x y : UpdateResult.t) (u : World),
             (if b then @ret World (Exchange.t (FieldBody.t V) HttpResponse.t) _ x
              else ret y) u = (if b then x else y, [], u)) as Hif
      by (intros [] x y u; reflexivity).
  rewrite Hif. cbn [result_of trace_of fst snd]. rewrite app_nil_r.
  split; [exact Hreq|].
  set (answers := List.map Exchange.answer (calls (trace_of loop))) in *.
  assert (length (result_of loop)
          = length (List.filter (fun r => negb (answeredOk r)) answers)) as Hlen.
  { rewrite Herr. clear. induction answers as [|r answers IH]; [reflexivity|].
    cbn [List.flat_map List.filter]. rewrite length_app, fieldError_length, IH.
    now destruct (answeredOk r). }
  assert (forallb answeredOk answers
          = negb (0 <? length (List.filter (fun r => negb (answeredOk r)) answers))) as Hall.
  { clear. induction answers as [|r answers IH]; [reflexivity|].
    cbn [forallb List.filter]. destruct (answeredOk r); cbn [negb andb]; [exact IH|].
    reflexivity. }
  rewrite Hall, <- Hlen.
  destruct (0 <? length (result_of loop)) eqn:E; cbn [UpdateResult.success UpdateResult.error negb].
  - split; [reflexivity|]. split; [discriminate|]. intros _. now exists (result_of loop).
  - split; [reflexivity|]. split; [reflexivity | discriminate].
Qed.

End FieldWrites.

Lemma updateFeatureCustomFields_requests_witness :
  exists errors,
    BackendWrites.UpdateResult.error
      (result_of (BackendWrites.updateFeatureCustomFields Samples.secondRefused
                    (fun s => s) (js "token") (js "f-1") Samples.twoWrites 0))
    = Some (join (js "; ") errors)
    /\ length errors = 1.
Proof.
  destruct (updateFeatureCustomFields_requests Samples.secondRefused (fun s => s)
              (js "token") (js "f-1") Samples.twoWrites 0) as (_ & _ & _ & H).
  exact (H eq_refl).
Defined.

(** ** Backend: [createNote] *)

Section NoteWrites.
Import Backend BackendWrites.
Context {World D : Type}.
Variable fetch :
  WriteRequest.t NoteBody.t -> World -> Outcome (NoteResponse.t D) * World.
Variable toLowerCase : jsstring -> jsstring.

Lemma noteResult_flag (withoutOwner : bool) (response : NoteResponse.t D) :
  CreateNoteResult.createdWithoutOwner (noteResult toLowerCase withoutOwner response) = true ->
  withoutOwner = true
  /\ CreateNoteResult.success (noteResult toLowerCase withoutOwner response) = true.
Proof.
  unfold noteResult. destruct (isOk (NoteResponse.status response)).
  - destruct (NoteResponse.created response); cbn; [now intros -> | discriminate].
  - destruct (NoteResponse.text response); cbn; discriminate.
Qed.

Lemma noteResult_success (withoutOwner : bool) (response : NoteResponse.t D) :
  CreateNoteResult.success (noteResult toLowerCase withoutOwner response) = true ->
  isOk (NoteResponse.status response) = true.
Proof.
  unfold noteResult. destruct (isOk (NoteResponse.status response)); [reflexivity|].
  destruct (NoteResponse.text response); cbn; discriminate.
Qed.

(** X6. [createNote] sends the note once, with the owner when one is given,
    and at most once more: the second request is sent only after a first
    response that is not ok, for a note with an owner, whose error text
    names the owner ([owner], [member], or [user] under status 400), and
    it is the first request without the owner. A note is reported as
    created without owner only when that second request succeeded; a
    success is always the answer of the last request sent being ok. *)
Theorem createNote_retry (apiToken title content : jsstring)
  (userEmail ownerEmail : option jsstring) (tags : option (list jsstring)) (w : World) :
  let run := createNote fetch toLowerCase apiToken title content userEmail ownerEmail tags w in
  let first := noteRequest apiToken title content userEmail ownerEmail tags true in
  let second := noteRequest apiToken title content userEmail ownerEmail tags false in
  let result := result_of run in
  exists r1,
    (calls (trace_of run) = [Exchange.mk first r1]
     /\ CreateNoteResult.createdWithoutOwner result = false
     /\ (CreateNoteResult.success result = true ->
         exists response, r1 = Returned response
                          /\ isOk (NoteResponse.status response) = true))
    \/ (exists response errorText r2,
          calls (trace_of run) = [Exchange.mk first r1; Exchange.mk second r2]
          /\ r1 = Returned response
          /\ isOk (NoteResponse.status response) = false
          /\ given ownerEmail <> None
          /\ NoteResponse.text response = Returned errorText
          /\ isOwnerError toLowerCase (NoteResponse.status response) errorText = true
          /\ NoteBody.owner (WriteRequest.body second) = None
          /\ CreateNoteResult.createdWithoutOwner result = CreateNoteResult.success result
          /\ (CreateNoteResult.success result = true ->
              exists response2, r2 = Returned response2
                                /\ isOk (NoteResponse.status response2) = true)).
Proof.
  cbv zeta. unfold createNote.
  destruct (fetch (noteRequest apiToken title content userEmail ownerEmail tags true) w)
    as [r1 w1] eqn:E1.
  assert (await (fetch (noteRequest apiToken title content userEmail ownerEmail tags true))
            (Exchange.mk (noteRequest apiToken title content userEmail ownerEmail tags true)) w
          = (r1, [EvCall (Exchange.mk
                            (noteRequest apiToken title content userEmail ownerEmail tags true)
                            r1)], w1)) as Haw by (unfold await; now rewrite E1).
  rewrite bind_run, Haw.
  cbn [result_of trace_of world_of fst snd]. exists r1.
  destruct r1 as [response|message].
  - destruct (isOk (NoteResponse.status response)) eqn:Eok; cbn [negb andb].
    + left. cbn [ret trace_of result_of fst snd app calls List.flat_map].
      split; [reflexivity|]. split.
      * destruct (CreateNoteResult.createdWithoutOwner (noteResult toLowerCase false response))
          eqn:Ef; [|reflexivity].
        now apply noteResult_flag in Ef as [Ef _].
      * intros _. now exists response.
    + destruct (given ownerEmail) as [owner|] eqn:Eowner.
      * destruct (NoteResponse.text response) as [errorText|message] eqn:Etext.
        -- destruct (isOwnerError toLowerCase (NoteResponse.status response) errorText) eqn:Eerr.
           ++ right.
              destruct (fetch (noteRequest apiToken title content userEmail ownerEmail tags false) w1)
                as [r2 w2] eqn:E2.
              assert (await
                        (fetch (noteRequest apiToken title content userEmail ownerEmail tags false))
                        (Exchange.mk
                           (noteRequest apiToken title content userEmail ownerEmail tags false))
                        w1
                      = (r2, [EvCall (Exchange.mk
                                        (noteRequest apiToken title content userEmail
                                           ownerEmail tags false) r2)], w2)) as Haw2
                  by (unfold await; now rewrite E2).
              rewrite bind_run, Haw2.
              cbn [result_of trace_of world_of fst snd].
              exists response, errorText, r2.
              assert (forall (r : Outcome (NoteResponse.t D)) (u : World),
                         trace_of
                           (match r with
                            | Returned response2 =>
                                @ret World (Exchange.t NoteBody.t (NoteResponse.t D)) _
                                  (noteResult toLowerCase true response2)
                            | Threw message =>
                                ret (failedWith (sanitizeCatchError toLowerCase message))
                            end u) = []) as Htr by (intros [] u; reflexivity).
              rewrite Htr. cbn [app calls List.flat_map].
              split; [reflexivity|]. split; [reflexivity|]. split; [exact Eok|].
              split; [rewrite ?Eowner; discriminate|]. split; [exact Etext|].
              split; [exact Eerr|]. split; [reflexivity|].
              destruct r2 as [response2|message2]; cbn [ret result_of fst].
              ** split.
                 --- unfold noteResult. destruct (isOk (NoteResponse.status response2)).
                     +++ now destruct (NoteResponse.created response2).
                     +++ now destruct (NoteResponse.text response2).
                 --- intros Hs. exists response2. split; [reflexivity|].
                     now apply noteResult_success in Hs.
              ** split; [reflexivity | discriminate].
           ++ left. cbn. split; [reflexivity|]. split; [reflexivity | discriminate].
        -- left. cbn. split; [reflexivity|]. split; [reflexivity | discriminate].
      * left. cbn [ret trace_of result_of fst snd app calls List.flat_map].
        split; [reflexivity|]. split.
        -- destruct (CreateNoteResult.createdWithoutOwner (noteResult toLowerCase false response))
             eqn:Ef; [|reflexivity].
           now apply noteResult_flag in Ef as [Ef _].
        -- intros Hs. apply noteResult_success in Hs. congruence.
  - left. cbn. split; [reflexivity|]. split; [reflexivity | discriminate].
Qed.

End NoteWrites.

Lemma createNote_retry_witness :
  exists r1 r2,
    calls (trace_of
             (BackendWrites.createNote Samples.ownerUnknown (fun s => s) (js "token")
                (js "Title") (js "text") None (Some (js "o@x.io")) None tt))
    = [ BackendWrites.Exchange.mk
          (BackendWrites.noteRequest (js "token") (js "Title") (js "text") None
             (Some (js "o@x.io")) None true) r1;
        BackendWrites.Exchange.mk
          (BackendWrites.noteRequest (js "token") (js "Title") (js "text") None
             (Some (js "o@x.io")) None false) r2 ].
Proof.
  destruct (createNote_retry Samples.ownerUnknown (fun s => s) (js "token") (js "Title")
              (js "text") None (Some (js "o@x.io")) None tt)
    as (r1 & [(H & _)|(response & errorText & r2 & H & _)]).
  - vm_compute in H. discriminate.
  - now exists r1, r2.
Defined.

(** ** Duplicate groups: what is deleted *)

Section DeletionSafety.
Import DuplicateNotes.
Variable localeCompare : jsstring -> jsstring -> Z.

Lemma setAdd_single (a x : jsstring) (s : list jsstring) :
  x = a -> (forall y, In y s -> y = a) -> length s <= 1 ->
  (forall y, In y (setAdd s x) -> y = a) /\ length (setAdd s x) <= 1.
Proof.
  intros -> Hs Hl. unfold setAdd. destruct (existsb (jsstring_eqb a) s) eqn:E.
  - now split.
  - destruct s as [|y s].
    + cbn. split; [|lia]. now intros y [<-|[]].
    + cbn in E. rewrite (Hs y (or_introl eq_refl)), jsstring_eqb_refl in E. discriminate.
Qed.

Lemma newSet_single (a : jsstring) (l : list jsstring) :
  (forall x, In x l -> x = a) -> length (newSet l) <= 1.
Proof.
  unfold newSet.
  assert (forall s, (forall y, In y s -> y = a) -> length s <= 1 ->
                    (forall x, In x l -> x = a) ->
                    length (fold_left setAdd l s) <= 1) as H.
  { induction l as [|x l IH]; intros s Hs Hl Hx; [exact Hl|].
    cbn [fold_left].
    destruct (setAdd_single a x s (Hx x (or_introl eq_refl)) Hs Hl) as [H1 H2].
    apply IH; [exact H1 | exact H2 |]. intros y Hy. apply Hx. now right. }
  intros Hl. apply H; [intros y [] | cbn; lia | exact Hl].
Qed.

(** A group that passes the test has a note with another id than any given
    one. *)
Lemma other_id (group : list Note.t) (a : jsstring) :
  1 < length (newSet (List.map Note.id group)) ->
  exists n, In n group /\ Note.id n <> a.
Proof.
  intros H.
  destruct (List.Exists_dec (fun n => Note.id n <> a) group) as [He|Hn].
  - intros n. destruct (decide (Note.id n = a)) as [->|Hne]; [right | left]; tauto.
  - apply List.Exists_exists in He as (n & Hin & Hne). now exists n.
  - exfalso. pose proof (newSet_single a (List.map Note.id group)) as Hs.
    assert (length (newSet (List.map Note.id group)) <= 1); [|lia].
    apply Hs. intros x Hx. apply in_map_iff in Hx as (n & <- & Hin).
    destruct (decide (Note.id n = a)) as [Heq|Hne]; [exact Heq|].
    exfalso. apply Hn. apply List.Exists_exists. now exists n.
Qed.

Lemma duplicateGroupOf_safe (key : jsstring) (group : list Note.t) (g : DuplicateGroup.t) :
  In g (duplicateGroupOf localeCompare (key, group)) ->
  2 <= length (DuplicateGroup.notes g)
  /\ In (DuplicateGroup.keepNote g) (DuplicateGroup.notes g)
  /\ DuplicateGroup.deleteNotes g <> []
  /\ (forall n, In n (DuplicateGroup.deleteNotes g) ->
        In n (DuplicateGroup.notes g)
        /\ Note.id n <> Note.id (DuplicateGroup.keepNote g))
  /\ (forall n, In n (DuplicateGroup.notes g) <-> In n group).
Proof.
  unfold duplicateGroupOf.
  destruct (1 <? length group) eqn:E1; [|intros []].
  destruct (1 <? length (newSet (List.map Note.id group))) eqn:E2; [|intros []].
  cbn [andb]. apply Nat.ltb_lt in E1, E2.
  set (sorted := sort (byCreatedAt localeCompare) group).
  set (keep := if 0 <? length (List.filter hasCompany sorted)
               then List.filter hasCompany sorted !! 0 else sorted !! 0).
  destruct keep as [keepNote|] eqn:Ek; [|intros []].
  intros [<-|[]]. cbn [DuplicateGroup.notes DuplicateGroup.keepNote DuplicateGroup.deleteNotes].
  assert (In keepNote sorted) as Hkeep.
  { unfold keep in Ek. destruct (0 <? length (List.filter hasCompany sorted)).
    - apply list_elem_of_lookup_2, list_elem_of_In in Ek. now apply List.filter_In in Ek.
    - now apply list_elem_of_lookup_2, list_elem_of_In in Ek. }
  split; [unfold sorted; rewrite sort_length; lia|]. split; [exact Hkeep|]. split; [|split].
  - destruct (other_id group (Note.id keepNote) E2) as (n & Hin & Hne).
    assert (In n (List.filter
                    (fun n => negb (jsstring_eqb (Note.id n) (Note.id keepNote))) sorted)) as H.
    { apply List.filter_In. split; [now apply sort_In|].
      apply negb_true_iff. now apply jsstring_eqb_false. }
    intros Hnil. rewrite Hnil in H. destruct H.
  - intros n Hn. apply List.filter_In in Hn as [Hn Hid]. split; [exact Hn|].
    apply negb_true_iff in Hid. now apply jsstring_eqb_false.
  - intros n. apply sort_In.
Qed.

(** X7. Whatever order [localeCompare] gives, every duplicate group found
    has at least two notes, all notes of the input; the note it keeps is one
    of them; it marks at least one note for deletion, and no note marked
    for deletion has the id of the note kept. *)
Theorem duplicates_deletion_safe (notes : list Note.t) (g : DuplicateGroup.t) :
  In g (findDuplicateGroups localeCompare notes) ->
  2 <= length (DuplicateGroup.notes g)
  /\ (forall n, In n (DuplicateGroup.notes g) -> In n notes)
  /\ In (DuplicateGroup.keepNote g) (DuplicateGroup.notes g)
  /\ DuplicateGroup.deleteNotes g <> []
  /\ (forall n, In n (DuplicateGroup.deleteNotes g) ->
        In n (DuplicateGroup.notes g)
        /\ Note.id n <> Note.id (DuplicateGroup.keepNote g)).
Proof.
  unfold findDuplicateGroups.
  destruct (fold_left groupNote notes ([], [])) as [gw gwo] eqn:E.
  intros Hg. apply in_flat_map in Hg as ([key group] & Hin & Hg).
  destruct (duplicateGroupOf_safe key group g Hg) as (H1 & H2 & H3 & H4 & H5).
  split; [exact H1|]. split; [|split; [exact H2|split; [exact H3|exact H4]]].
  intros n Hn. apply H5 in Hn.
  destruct (groupNote_from notes notes (fun n H => H) ([], [])
              (groupsFrom_nil notes) (groupsFrom_nil notes)) as [Hw Hwo].
  rewrite E in Hw, Hwo. cbn in Hw, Hwo.
  apply (mergeGroups_from notes gwo Hwo gw Hw key group n Hin Hn).
Qed.

End DeletionSafety.

Lemma duplicates_deletion_safe_witness :
  DuplicateNotes.Note.id DuplicateNotes.noteC <> DuplicateNotes.Note.id DuplicateNotes.noteA
  /\ DuplicateNotes.Note.id DuplicateNotes.noteB <> DuplicateNotes.Note.id DuplicateNotes.noteA.
Proof.
  assert (In (DuplicateNotes.DuplicateGroup.mk (js "x|||t|||C1")
                [DuplicateNotes.noteC; DuplicateNotes.noteA; DuplicateNotes.noteB]
                DuplicateNotes.noteA
                [DuplicateNotes.noteC; DuplicateNotes.noteB])
             (DuplicateNotes.findDuplicateGroups codeUnitCompare
                [DuplicateNotes.noteA; DuplicateNotes.noteB; DuplicateNotes.noteC])) as Hg
      by (left; reflexivity).
  destruct (duplicates_deletion_safe codeUnitCompare _ _ Hg) as (_ & _ & _ & _ & H).
  split; [apply (H DuplicateNotes.noteC) | apply (H DuplicateNotes.noteB)].
  - now left.
  - right. now left.
Defined.

(** ** The deletion loop *)

Section DeletionLoop.
Import DuplicateNotes DeletionTrace.
Context {World : Type}.
Variable deleteNoteAction :
  jsstring -> jsstring -> World -> Outcome Backend.DeleteNoteResult.t * World.

Lemma deletedIds_app (t1 t2 : list (Event Call)) :
  deletedIds (t1 ++ t2) = deletedIds t1 ++ deletedIds t2.
Proof. unfold deletedIds. now rewrite calls_app, List.map_app. Qed.

Lemma deletionOutcomes_app (t1 t2 : list (Event Call)) :
  deletionOutcomes (t1 ++ t2) = deletionOutcomes t1 ++ deletionOutcomes t2.
Proof. unfold deletionOutcomes. now rewrite calls_app, List.map_app. Qed.

Lemma rateLimitDelay_calls (every : nat) (ms : N) (i total : nat) (w : World) :
  calls (trace_of (@rateLimitDelay World Call every ms i total w)) = [].
Proof.
  unfold rateLimitDelay. now destruct (((i + 1) mod every =? 0) && (i + 1 <? total)).
Qed.

Lemma deletionEntry_id (companies : jsmap Company.t) (note : Note.t)
  (r : Outcome Backend.DeleteNoteResult.t) :
  DeletionResult.noteId (deletionEntry companies note r) = Note.id note.
Proof. now destruct r. Qed.

(** X8. The deletion calls [deleteNote] once for every note to delete of
    every group, in their order, whatever the earlier calls answered or
    threw; the results hold one entry per note, in the same order, made of
    the note and of the answer to its own call. *)
Theorem deletion_results_aligned (apiToken : jsstring)
  (duplicateGroups : list DuplicateGroup.t) (companies : jsmap Company.t) (w : World) :
  let run := handleDeleteDuplicates deleteNoteAction apiToken duplicateGroups companies w in
  let notesToDelete := List.flat_map DuplicateGroup.deleteNotes duplicateGroups in
  deletedIds (trace_of run) = List.map Note.id notesToDelete
  /\ result_of run
     = zip_with (deletionEntry companies) notesToDelete (deletionOutcomes (trace_of run))
  /\ List.map DeletionResult.noteId (result_of run) = List.map Note.id notesToDelete.
Proof.
  cbv zeta. unfold handleDeleteDuplicates. rewrite bind_run.
  cbn [trace_of result_of world_of emit fst snd app].
  set (notesToDelete := List.flat_map DuplicateGroup.deleteNotes duplicateGroups).
  pose proof (forEach_invariant
                (deleteOne deleteNoteAction apiToken companies (length notesToDelete))
                (fun i acc t =>
                   deletedIds t = List.map Note.id (take i notesToDelete)
                   /\ length (deletionOutcomes t) = i
                   /\ acc = zip_with (deletionEntry companies) (take i notesToDelete)
                              (deletionOutcomes t)
                   /\ List.map DeletionResult.noteId acc
                      = List.map Note.id (take i notesToDelete))
                notesToDelete) as Hinv.
  destruct Hinv with (acc := @nil DeletionResult.t) (w := w) as (H1 & H2 & H3 & H4).
  - intros i x acc t w0 Hx (Hid & Hlen & Hacc & Hids).
    destruct (deleteOne_run deleteNoteAction apiToken companies (length notesToDelete)
                i x acc w0) as [Hr Htr].
    rewrite Hr, Htr. rewrite (take_S_r _ _ _ Hx).
    assert (length (take i notesToDelete) = i) as Hti.
    { rewrite length_take. apply lookup_lt_Some in Hx. lia. }
    rewrite deletedIds_app, deletionOutcomes_app.
    unfold deletedIds at 2, deletionOutcomes at 2 4.
    rewrite calls_call, calls_progress, rateLimitDelay_calls. cbn [List.map].
    split; [|split; [|split]].
    + now rewrite List.map_app, Hid.
    + rewrite length_app, Hlen. cbn. lia.
    + rewrite zip_with_app by (now rewrite Hti, Hlen). now rewrite <- Hacc.
    + rewrite !List.map_app, Hids. cbn [List.map]. now rewrite deletionEntry_id.
  - cbn. repeat split.
  - rewrite firstn_all in H1, H3, H4.
    unfold deletedIds, deletionOutcomes in *. rewrite calls_progress.
    now split.
Qed.

End DeletionLoop.

(** ** CSV bulk update: the preview and the update *)

Section PreviewAndUpdate.
Import BulkUpdate BulkPreview.
Context {World V : Type}.
Variable apiToken : jsstring.
Variable getFeature : jsstring -> jsstring -> World -> Outcome FeatureResult.t * World.
Variable getCustomFieldValue :
  jsstring -> jsstring -> jsstring -> World -> Outcome (ValueResult.t V) * World.
Variable updateFeatureCustomFields :
  jsstring -> jsstring -> list FieldPayload.t -> World -> Outcome UpdateResponse.t * World.
Variable formatFieldValue : option V -> jsstring.
Variable numberToString : number -> jsstring.
Variable customFields : list CustomField.t.

Lemma previewUpdates_numericField (valueColumns : list ColumnMapping.t) (row : CSVRow) :
  previewUpdates numberToString customFields valueColumns row
  = List.flat_map
      (fun mapping =>
         match numericField customFields row mapping with
         | Some (field, n) => [(CustomField.name field, numberToString n)]
         | None => []
         end) valueColumns.
Proof.
  unfold previewUpdates. apply List.flat_map_ext. intros mapping. unfold numericField.
  destruct (List.find _ customFields) as [field|]; [|reflexivity].
  destruct (isBlankValue _); [reflexivity|]. now destruct (isNaN _).
Qed.

(** The loop over [valueColumns] for one row. *)
Lemma fieldLoop_details (preserveExistingValues : bool) (featureId : jsstring)
  (row : CSVRow) (valueColumns : list ColumnMapping.t) (w : World) :
  let run :=
    forEach
      (updateField apiToken getCustomFieldValue formatFieldValue numberToString
         customFields preserveExistingValues featureId row)
      0 valueColumns ([], []) w in
  List.map (fun d => (FieldUpdateDetail.fieldName d, FieldUpdateDetail.newValue d))
    (fst (result_of run))
  = previewUpdates numberToString customFields valueColumns row
  /\ List.map FieldPayload.fieldId (snd (result_of run))
     = List.map FieldUpdateDetail.fieldId
         (List.filter (fun d => negb (FieldUpdateDetail.skipped d)) (fst (result_of run)))
  /\ (preserveExistingValues = false ->
      trace_of run = []
      /\ Forall (fun d => FieldUpdateDetail.skipped d = false
                          /\ FieldUpdateDetail.oldValue d = None) (fst (result_of run))).
Proof.
  cbv zeta. rewrite previewUpdates_numericField.
  pose proof (forEach_invariant
                (updateField apiToken getCustomFieldValue formatFieldValue numberToString
                   customFields preserveExistingValues featureId row)
                (fun i acc t =>
                   List.map (fun d => (FieldUpdateDetail.fieldName d,
                                       FieldUpdateDetail.newValue d)) (fst acc)
                   = List.flat_map
                       (fun mapping =>
                          match numericField customFields row mapping with
                          | Some (field, n) => [(CustomField.name field, numberToString n)]
                          | None => []
                          end) (take i valueColumns)
                   /\ List.map FieldPayload.fieldId (snd acc)
                      = List.map FieldUpdateDetail.fieldId
                          (List.filter (fun d => negb (FieldUpdateDetail.skipped d)) (fst acc))
                   /\ (preserveExistingValues = false ->
                       t = []
                       /\ Forall (fun d => FieldUpdateDetail.skipped d = false
                                           /\ FieldUpdateDetail.oldValue d = None) (fst acc)))
                valueColumns) as Hinv.
  destruct Hinv with (acc := (@nil FieldUpdateDetail.t, @nil FieldPayload.t)) (w := w)
    as (H1 & H2 & H3).
  - intros i x acc t w0 Hx (Hn & Hp & Hf).
    rewrite updateField_run, (take_S_r _ _ _ Hx), List.flat_map_app.
    cbn [List.flat_map]. rewrite app_nil_r.
    destruct (numericField customFields row x) as [[field n]|].
    + cbv zeta. cbn [result_of trace_of fst snd]. rewrite existingValue_run.
      destruct preserveExistingValues.
      * cbv zeta. cbn [fst snd result_of].
        rewrite List.map_app, Hn, List.filter_app. cbn [List.map List.filter].
        split; [reflexivity|]. split; [|discriminate].
        cbn [FieldUpdateDetail.skipped].
        destruct (populated _); cbn [negb]; rewrite ?List.map_app, ?app_nil_r, Hp;
          reflexivity.
      * cbn [fst snd result_of]. rewrite !List.map_app, Hn, List.filter_app.
        cbn [List.map List.filter FieldUpdateDetail.skipped negb].
        rewrite List.map_app, Hp. split; [reflexivity|]. split; [reflexivity|].
        intros _. destruct (Hf eq_refl) as [-> Hall]. split; [reflexivity|].
        apply Forall_app. split; [exact Hall|]. now repeat constructor.
    + cbn [result_of trace_of fst snd]. rewrite !app_nil_r. now split.
  - cbn. split; [reflexivity|]. split; [reflexivity|]. intros _. now split.
  - rewrite firstn_all in H1. now split.
Qed.

Lemma rowsToProcess_from_In (uuidColumn : jsstring) (valueColumns : list ColumnMapping.t)
  (rows : list CSVRow) :
  forall k i row,
    In (i, row) (rowsToProcess_from uuidColumn valueColumns k rows)
    <-> (exists j, i = k + j /\ rows !! j = Some row)
        /\ hasWork uuidColumn valueColumns row = true.
Proof.
  induction rows as [|r rows IH]; intros k i row; cbn [rowsToProcess_from].
  - split; [intros [] | intros [(j & _ & H) _]; discriminate].
  - rewrite in_app_iff, IH. split.
    + intros [H|[(j & -> & Hj) Hw]].
      * destruct (hasWork uuidColumn valueColumns r) eqn:E; [|destruct H].
        destruct H as [[= <- <-]|[]]. split; [|exact E]. exists 0. split; [lia|reflexivity].
      * split; [|exact Hw]. exists (S j). split; [lia | exact Hj].
    + intros [(j & -> & Hj) Hw]. destruct j as [|j].
      * left. cbn in Hj. injection Hj as ->. rewrite Hw, Nat.add_0_r. now left.
      * right. split; [|exact Hw]. exists j. split; [lia | exact Hj].
Qed.

Lemma rowsToProcess_In (uuidColumn : jsstring) (valueColumns : list ColumnMapping.t)
  (rows : list CSVRow) (i : nat) (row : CSVRow) :
  In (i, row) (rowsToProcess uuidColumn valueColumns rows)
  <-> rows !! i = Some row /\ hasWork uuidColumn valueColumns row = true.
Proof.
  unfold rowsToProcess. rewrite rowsToProcess_from_In. split.
  - intros [(j & -> & Hj) Hw]. now split.
  - intros [Hi Hw]. split; [|exact Hw]. now exists i.
Qed.

Lemma valueLookups_app (t1 t2 : list (Event (Call V))) :
  valueLookups (t1 ++ t2) = valueLookups t1 ++ valueLookups t2.
Proof. unfold valueLookups. now rewrite calls_app, List.flat_map_app. Qed.

Lemma rowEnding_lookups (total i : nat) : valueLookups (@rowEnding V total i) = [].
Proof.
  unfold rowEnding. now destruct (((i + 1) mod 10 =? 0) && (i + 1 <? total)).
Qed.

Lemma sentResult_fields (rowIndex : nat) (featureId featureName : jsstring)
  (fieldUpdates : list FieldUpdateDetail.t) (r : Outcome UpdateResponse.t) :
  UpdateResult.rowIndex (sentResult rowIndex featureId featureName fieldUpdates r) = rowIndex
  /\ UpdateResult.featureId (sentResult rowIndex featureId featureName fieldUpdates r)
     = featureId
  /\ UpdateResult.fieldUpdates (sentResult rowIndex featureId featureName fieldUpdates r)
     = fieldUpdates
  /\ fullySkipped (sentResult rowIndex featureId featureName fieldUpdates r) = false.
Proof. now destruct r. Qed.

(** X9. Every result of the bulk update is about a row of the file that has
    a UUID and a non-blank mapped cell: it carries the index of the row and
    its trimmed UUID, and the field updates it lists are, by name and new
    value, the updates the preview computes for that row, of which there is
    at least one. Without [preserveExistingValues] the update looks up no
    current value, and no field of any result is skipped or has an old
    value. *)
Theorem update_records_preview (preserveExistingValues : bool) (data : CsvData.t)
  (uuidColumn : jsstring) (columnMappings : list ColumnMapping.t)
  (updateResults : list UpdateResult.t) (w : World) :
  jsstring_eqb uuidColumn [] = false ->
  let run :=
    handleStartUpdate apiToken getFeature getCustomFieldValue updateFeatureCustomFields
      formatFieldValue numberToString customFields preserveExistingValues
      (Some data) uuidColumn columnMappings updateResults w in
  let valueColumns := getValueColumns columnMappings uuidColumn in
  Forall (recorded numberToString customFields uuidColumn valueColumns (CsvData.rows data))
    (result_of run)
  /\ (preserveExistingValues = false ->
      valueLookups (trace_of run) = [] /\ Forall allSent (result_of run)).
Proof.
  intros Hu. cbv zeta. rewrite handleStartUpdate_run by exact Hu. cbv zeta.
  cbn [result_of trace_of fst snd].
  set (valueColumns := getValueColumns columnMappings uuidColumn).
  set (rows := rowsToProcess uuidColumn valueColumns (CsvData.rows data)).
  pose proof (forEach_invariant
                (updateRow apiToken getFeature getCustomFieldValue updateFeatureCustomFields
                   formatFieldValue numberToString customFields preserveExistingValues
                   uuidColumn valueColumns (length rows))
                (fun i acc t =>
                   Forall (recorded numberToString customFields uuidColumn valueColumns
                             (CsvData.rows data)) acc
                   /\ (preserveExistingValues = false ->
                       valueLookups t = [] /\ Forall allSent acc))
                rows) as Hinv.
  destruct Hinv with (acc := @nil UpdateResult.t) (w := w) as (H1 & H2).
  - intros i [rowIndex row] acc t w0 Hx (Hrec & Hno).
    apply list_elem_of_lookup_2, list_elem_of_In in Hx.
    apply rowsToProcess_In in Hx as [Hrow Hwork].
    rewrite updateRow_run. cbv zeta.
    set (featureId := trim (orEmpty (row !! uuidColumn))).
    set (fr := fst (getFeature apiToken featureId w0)).
    destruct (fieldLoop_details preserveExistingValues featureId row valueColumns
                (snd (getFeature apiToken featureId w0))) as (Hnames & Hpay & Hfalse).
    set (fields := forEach _ 0 valueColumns ([], []) _) in *.
    assert (length (snd (result_of fields)) <= length (fst (result_of fields))) as Hle.
    { rewrite <- (length_map FieldPayload.fieldId), Hpay, length_map.
      apply List.filter_length_le. }
    assert (forall r,
               UpdateResult.rowIndex r = rowIndex ->
               UpdateResult.featureId r = featureId ->
               UpdateResult.fieldUpdates r = fst (result_of fields) ->
               0 < length (fst (result_of fields)) ->
               recorded numberToString customFields uuidColumn valueColumns
                 (CsvData.rows data) r) as Hmk.
    { intros r Hr1 Hr2 Hr3 Hlen. exists row. rewrite Hr1, Hr2, Hr3.
      split; [exact Hrow|]. split; [exact Hwork|]. split; [reflexivity|].
      split; [|exact Hnames]. intros Hnil. rewrite Hnil in Hlen. cbn in Hlen. lia. }
    assert (preserveExistingValues = false ->
            length (snd (result_of fields)) = length (fst (result_of fields))) as Hall.
    { intros Hp. destruct (Hfalse Hp) as [_ Hf].
      rewrite <- (length_map FieldPayload.fieldId), Hpay, length_map. f_equal.
      apply filter_all. eapply List.Forall_impl; [|exact Hf]. now intros d [-> _]. }
    destruct ((0 <? length (fst (result_of fields)))
              && (length (snd (result_of fields)) =? 0)) eqn:E1.
    + apply andb_true_iff in E1 as [E1 E2]. apply Nat.ltb_lt in E1. apply Nat.eqb_eq in E2.
      cbn [result_of trace_of fst snd]. split.
      * apply Forall_app. split; [exact Hrec|]. constructor; [|constructor].
        now apply Hmk.
      * intros Hp. specialize (Hall Hp). lia.
    + destruct (length (snd (result_of fields)) =? 0) eqn:E2.
      * cbn [result_of trace_of fst snd]. split; [exact Hrec|].
        intros Hp. destruct (Hno Hp) as [Ht Hs]. destruct (Hfalse Hp) as [Hf _].
        rewrite valueLookups_app, Ht, Hf. now split.
      * apply Nat.eqb_neq in E2. cbv zeta. cbn [result_of trace_of fst snd].
        set (r := fst (updateFeatureCustomFields _ _ _ _)).
        destruct (sentResult_fields rowIndex featureId (featureNameOf featureId fr)
                    (fst (result_of fields)) r) as (S1 & S2 & S3 & S4).
        split.
        -- apply Forall_app. split; [exact Hrec|]. constructor; [|constructor].
           apply Hmk; try assumption. lia.
        -- intros Hp. destruct (Hno Hp) as [Ht Hs]. destruct (Hfalse Hp) as [Hf Hd].
           rewrite valueLookups_app, Ht, Hf. split.
           ++ cbn [app]. unfold valueLookups. rewrite calls_call, calls_call.
              cbn [List.flat_map app]. apply rowEnding_lookups.
           ++ apply Forall_app. split; [exact Hs|]. constructor; [|constructor].
              split; [exact S4|]. now rewrite S3.
  - split; [constructor|]. intros _. split; [reflexivity | constructor].
  - split; [exact H1|]. intros Hp. destruct (H2 Hp) as [Ht Hs]. split; [|exact Hs].
    unfold valueLookups in *. now rewrite calls_progress.
Qed.

End PreviewAndUpdate.

Lemma update_records_preview_witness :
  Forall
    (BulkPreview.recorded Demo.numberText [Demo.fieldA; Demo.fieldB] (js "uuid")
       (BulkUpdate.getValueColumns Demo.columnMappings (js "uuid")) [Demo.unparsableRow])
    (result_of (Demo.bulkUpdate Demo.updateAccepted false [Demo.unparsableRow] tt))
  /\ BulkPreview.valueLookups
       (trace_of (Demo.bulkUpdate Demo.updateAccepted false [Demo.unparsableRow] tt)) = [].
Proof.
  destruct (update_records_preview (js "token") Demo.featureFound Demo.onlyFaPopulated
              Demo.updateAccepted Demo.formatText Demo.numberText
              [Demo.fieldA; Demo.fieldB] false
              (BulkUpdate.CsvData.mk [js "uuid"; js "a"; js "b"] [Demo.unparsableRow])
              (js "uuid") Demo.columnMappings [] tt eq_refl) as [H1 H2].
  split; [exact H1 | exact (proj1 (H2 eq_refl))].
Defined.

Section PreviewValid.
Import BulkUpdate BulkPreview.
Variable numberToString : number -> jsstring.
Variable customFields : list CustomField.t.

Lemma previewUpdates_work (uuidColumn : jsstring) (valueColumns : list ColumnMapping.t)
  (row : CSVRow) :
  previewUpdates numberToString customFields valueColumns row <> [] ->
  existsb
    (fun mapping =>
       negb (isBlankValue (of_option (row !! ColumnMapping.csvColumn mapping))))
    valueColumns = true.
Proof.
  unfold previewUpdates. induction valueColumns as [|m ms IH]; [now intros H|].
  cbn [List.flat_map existsb].
  destruct (isBlankValue (of_option (row !! ColumnMapping.csvColumn m))) eqn:E;
    cbn [negb orb]; [|reflexivity].
  destruct (List.find _ customFields); cbn [app]; exact IH.
Qed.

(** X10. The preview and the update agree on the rows. The item at index
    [i] of the preview is about row [i] of the file, among its first
    hundred. A row the preview shows as valid is a row the update
    processes, unless its UUID cell is ['-], which only the update takes as
    blank; a row the update processes that the preview does not show as
    valid has no update to send. *)
Theorem preview_valid_is_processed (data : CsvData.t) (uuidColumn : jsstring)
  (columnMappings : list ColumnMapping.t) (previewItems : list PreviewItem.t)
  (i : nat) (item : PreviewItem.t) :
  jsstring_eqb uuidColumn [] = false ->
  handleLoadPreview numberToString customFields (Some data) uuidColumn columnMappings
    previewItems !! i = Some item ->
  let valueColumns := getValueColumns columnMappings uuidColumn in
  let processed := rowsToProcess uuidColumn valueColumns (CsvData.rows data) in
  exists row,
    CsvData.rows data !! i = Some row
    /\ i < 100
    /\ PreviewItem.rowIndex item = i
    /\ (PreviewItem.status item = valid ->
        PreviewItem.featureId item = trim (orEmpty (row !! uuidColumn))
        /\ PreviewItem.updates item
           = previewUpdates numberToString customFields valueColumns row
        /\ PreviewItem.updates item <> []
        /\ (PreviewItem.featureId item <> js "'-" -> In (i, row) processed))
    /\ (PreviewItem.status item <> valid -> In (i, row) processed ->
        previewUpdates numberToString customFields valueColumns row = []).
Proof.
  intros Hu. unfold handleLoadPreview. rewrite Hu. cbv zeta.
  set (valueColumns := getValueColumns columnMappings uuidColumn).
  rewrite list_lookup_imap. intros Hitem.
  destruct (take 100 (CsvData.rows data) !! i) as [row|] eqn:Erow; [|discriminate].
  apply lookup_take_Some in Erow as [Erow Hi]. cbn in Hitem. injection Hitem as <-.
  exists row. split; [exact Erow|]. split; [exact Hi|].
  unfold previewRow.
  destruct (row !! uuidColumn) as [raw|] eqn:Eraw; cbn [option_map orEmpty].
  - destruct (jsstring_eqb (trim raw) [] || jsstring_eqb (trim raw) (js "-")) eqn:Eblank.
    + cbn. split; [reflexivity|]. split; [discriminate|]. intros _ Hin.
      apply rowsToProcess_In in Hin as [_ Hw]. unfold hasWork in Hw.
      rewrite Eraw in Hw. cbn [option_map of_option isBlankValue] in Hw.
      rewrite trim_idem in Hw. apply orb_true_iff in Eblank.
      destruct Eblank as [E|E]; rewrite E in Hw; rewrite ?orb_true_r in Hw;
        cbn [orb negb andb] in Hw; discriminate.
    + apply orb_false_iff in Eblank as [Eb1 Eb2].
      destruct (length (previewUpdates numberToString customFields valueColumns row) =? 0)
        eqn:Elen.
      * cbn. split; [reflexivity|]. split; [discriminate|]. intros _ _.
        apply Nat.eqb_eq in Elen. now destruct (previewUpdates _ _ _ _).
      * cbn. split; [reflexivity|]. split.
        -- intros _. split; [reflexivity|]. split; [reflexivity|].
           assert (previewUpdates numberToString customFields valueColumns row <> [])
             as Hne by (intros Hnil; rewrite Hnil in Elen; discriminate).
           split; [exact Hne|]. intros Hquote. apply rowsToProcess_In.
           split; [exact Erow|]. unfold hasWork. rewrite Eraw.
           cbn [option_map of_option isBlankValue]. rewrite trim_idem, Eb1, Eb2.
           assert (jsstring_eqb (trim raw) (js "'-") = false) as Hq
               by (now apply jsstring_eqb_false).
           rewrite Hq. cbn [orb negb andb].
           now apply (previewUpdates_work uuidColumn).
        -- intros H. now destruct H.
  - cbn. split; [reflexivity|]. split; [discriminate|]. intros _ Hin.
    apply rowsToProcess_In in Hin as [_ Hw]. unfold hasWork in Hw.
    rewrite Eraw in Hw. cbn in Hw. discriminate.
Qed.

End PreviewValid.

Lemma preview_valid_is_processed_witness :
  In (0, Demo.partlyPopulatedRow)
    (BulkUpdate.rowsToProcess (js "uuid")
       (BulkUpdate.getValueColumns Demo.columnMappings (js "uuid"))
       [Demo.partlyPopulatedRow]).
Proof.
  destruct (preview_valid_is_processed Demo.numberText [Demo.fieldA; Demo.fieldB]
              (BulkUpdate.CsvData.mk [js "uuid"; js "a"; js "b"] [Demo.partlyPopulatedRow])
              (js "uuid") Demo.columnMappings [] 0
              (BulkPreview.previewRow Demo.numberText [Demo.fieldA; Demo.fieldB] (js "uuid")
                 (BulkUpdate.getValueColumns Demo.columnMappings (js "uuid")) 0
                 Demo.partlyPopulatedRow)
              eq_refl eq_refl) as (row & Hrow & _ & _ & Hv & _).
  injection Hrow as <-.
  destruct (Hv eq_refl) as (_ & _ & _ & Hin). apply Hin.
  intros H. vm_compute in H. discriminate.
Defined.

(** ** Custom field migration: the pages of the feature listing *)

Section FeaturePages.
Import FieldMigration FeaturePaging.
Context {World : Type}.
Variable listFeatures :
  jsstring -> option jsstring -> World -> Outcome ListResult.t * World.
Variable apiToken : jsstring.

Lemma loadPages_step (fuel : nat) (nextPage : option jsstring)
  (allFeatures : list Feature.t) (w : World) :
  let r := fst (listFeatures apiToken (given nextPage) w) in
  let w1 := snd (listFeatures apiToken (given nextPage) w) in
  let call := ListFeatures (given nextPage) r in
  loadPages listFeatures apiToken (S fuel) nextPage allFeatures w
  = match r with
    | Threw e => (Some (Threw e), [EvCall call], w1)
    | Returned result =>
        if negb (ListResult.success result)
        then (Some (Returned allFeatures), [EvCall call], w1)
        else
          match given (ListResult.nextPage result) with
          | Some _ =>
              let rest :=
                loadPages listFeatures apiToken fuel (ListResult.nextPage result)
                  (allFeatures ++ ListResult.data result) w1 in
              (result_of rest, EvCall call :: trace_of rest, world_of rest)
          | None =>
              (Some (Returned (allFeatures ++ ListResult.data result)), [EvCall call], w1)
          end
    end.
Proof.
  cbv zeta. cbn [loadPages]. unfold bind, await.
  destruct (listFeatures apiToken (given nextPage) w) as [r w1]. cbn [fst snd].
  destruct r as [result|e]; [|reflexivity].
  destruct (negb (ListResult.success result)); [reflexivity|].
  destruct (given (ListResult.nextPage result)); [|reflexivity].
  unfold result_of, trace_of, world_of.
  now destruct (loadPages _ _ _ _ _ w1) as [[out t] w2].
Qed.

Lemma lastPage_cons (c c' : Call) (cs : list Call) :
  lastPage (c :: c' :: cs) = lastPage (c' :: cs).
Proof. reflexivity. Qed.

Lemma loadPages_pages (fuel : nat) :
  forall (nextPage : option jsstring) (allFeatures : list Feature.t) (w : World),
    let run := loadPages listFeatures apiToken fuel nextPage allFeatures w in
    let cs := calls (trace_of run) in
    chained (given nextPage) cs
    /\ length cs <= fuel
    /\ match result_of run with
       | None => length cs = fuel /\ (cs = [] \/ lastPage cs = Some MorePages)
       | Some (Returned all) =>
           all = allFeatures ++ gathered cs
           /\ (lastPage cs = Some Failed \/ lastPage cs = Some NoNextPage)
       | Some (Threw e) => lastPage cs = Some (Thrown e)
       end.
Proof.
  induction fuel as [|fuel IH]; intros nextPage allFeatures w.
  - cbn. split; [exact I|]. split; [lia|]. split; [reflexivity | now left].
  - cbv zeta. rewrite loadPages_step. cbv zeta.
    destruct (listFeatures apiToken (given nextPage) w) as [r w1]. cbn [fst snd].
    destruct r as [result|e].
    + destruct (ListResult.success result) eqn:Es; cbn [negb].
      * destruct (given (ListResult.nextPage result)) as [token|] eqn:En.
        -- specialize (IH (ListResult.nextPage result)
                         (allFeatures ++ ListResult.data result) w1).
           cbv zeta in IH. destruct IH as (Hc & Hl & Hr).
           cbn [result_of trace_of fst snd]. rewrite calls_call.
           set (rest := loadPages _ _ _ _ _ w1) in *.
           split; [|split].
           ++ cbn [chained]. split; [reflexivity|].
              destruct (calls (trace_of rest)) as [|c cs] eqn:Ecs; [exact I|].
              exists result. split; [reflexivity|]. split; [exact Es|].
              rewrite En. split; [discriminate|]. now rewrite En in Hc.
           ++ cbn [length]. lia.
           ++ destruct (result_of rest) as [[all|e]|].
              ** destruct Hr as [-> Hlast]. split.
                 --- cbn [gathered List.flat_map]. rewrite Es.
                     now rewrite <- app_assoc.
                 --- destruct (calls (trace_of rest)) as [|c cs];
                       [destruct Hlast; discriminate|].
                     now rewrite lastPage_cons.
              ** destruct (calls (trace_of rest)) as [|c cs]; [discriminate|].
                 now rewrite lastPage_cons.
              ** destruct Hr as [Hlen Hlast]. split; [cbn [length]; lia|]. right.
                 destruct (calls (trace_of rest)) as [|c cs].
                 --- unfold lastPage. cbn. now rewrite Es, En.
                 --- rewrite lastPage_cons. destruct Hlast; [discriminate | assumption].
        -- cbn. rewrite Es, En. cbn. rewrite app_nil_r.
           split; [now split|]. split; [lia|]. split; [reflexivity | now right].
      * cbn. rewrite Es. cbn. rewrite app_nil_r.
        split; [now split|]. split; [lia|]. split; [reflexivity | now left].
    + cbn. split; [now split|]. split; [lia | reflexivity].
Qed.

(** With more fuel a loop that ended gives the same. *)
Lemma loadPages_more (fuel k : nat) :
  forall (nextPage : option jsstring) (allFeatures : list Feature.t) (w : World),
    result_of (loadPages listFeatures apiToken fuel nextPage allFeatures w) <> None ->
    loadPages listFeatures apiToken (fuel + k) nextPage allFeatures w
    = loadPages listFeatures apiToken fuel nextPage allFeatures w.
Proof.
  induction fuel as [|fuel IH]; intros nextPage allFeatures w Hr; [now cbn in Hr|].
  change (S fuel + k) with (S (fuel + k)). rewrite !loadPages_step in *. cbv zeta in *.
  destruct (listFeatures apiToken (given nextPage) w) as [r w1]. cbn [fst snd] in *.
  destruct r as [result|e]; [|reflexivity].
  destruct (negb (ListResult.success result)); [reflexivity|].
  destruct (given (ListResult.nextPage result)); [|reflexivity].
  cbn [result_of fst] in Hr. now rewrite IH.
Qed.

(** X11. [loadAllFeatures] asks for the first page without a page token and
    for each further page with the token the page before it named, going on
    only after a page that was a success and named a next page. When the
    loop ends without [listFeatures] throwing, it returns the features of
    the pages that were a success, in order, and the last page asked for
    either failed (the features gathered so far are returned as if they
    were all) or named no next page. A loop that ended within the pages
    allowed gives the same however many more are allowed; one that did not
    asked for every page allowed. *)
Theorem loadAllFeatures_pages (fuel : nat) (w : World) :
  let run := loadAllFeatures listFeatures apiToken fuel w in
  let cs := calls (trace_of run) in
  chained None cs
  /\ length cs <= fuel
  /\ match result_of run with
     | None => length cs = fuel
     | Some (Returned all) =>
         all = gathered cs
         /\ (lastPage cs = Some Failed \/ lastPage cs = Some NoNextPage)
     | Some (Threw e) => lastPage cs = Some (Thrown e)
     end
  /\ (result_of run <> None ->
      forall k, loadAllFeatures listFeatures apiToken (fuel + k) w = run).
Proof.
  cbv zeta. unfold loadAllFeatures.
  destruct (loadPages_pages fuel None [] w) as (Hc & Hl & Hr). cbv zeta in Hc, Hl, Hr.
  split; [exact Hc|]. split; [exact Hl|]. split.
  - destruct (result_of _) as [[all|e]|]; [exact Hr | exact Hr | now destruct Hr].
  - intros Hne k. now apply loadPages_more.
Qed.

End FeaturePages.

Lemma loadAllFeatures_pages_witness :
  result_of (FeaturePaging.loadAllFeatures Samples.twoPages (js "token") (2 + 5) tt)
  = Some (Returned [Demo.featureZero; Samples.featureOne]).
Proof.
  destruct (loadAllFeatures_pages Samples.twoPages (js "token") 2 tt) as (_ & _ & _ & H).
  rewrite (H ltac:(discriminate) 5). reflexivity.
Defined.

(** ** CSV note import: which rows are imported *)

Section NoteRows.
Import BulkUpdate NoteImport.
Variables titleColumnOrder noteTextColumnOrder tagColumnOrder : list jsstring.
Variables userEmailColumn ownerColumn : option jsstring.

Lemma join_nil (sep : jsstring) (cells : list jsstring) :
  Forall (fun c => c <> []) cells -> join sep cells = [] -> cells = [].
Proof.
  intros Hc. destruct Hc as [|c cells Hc Hcs]; [reflexivity|].
  cbn [join]. destruct cells; intros H; [contradiction|].
  apply app_eq_nil in H as [H _]. contradiction.
Qed.

Lemma nonEmpty_true (v : jsstring) : nonEmpty v = true <-> v <> [].
Proof. unfold nonEmpty. rewrite negb_true_iff. apply jsstring_eqb_false. Qed.

Lemma length_pos (s : jsstring) : (0 <? length s) = true <-> s <> [].
Proof.
  destruct s; cbn; split; try discriminate; try reflexivity. now intros H.
Qed.

Lemma buildTitle_nonempty (row : CSVRow) :
  buildTitle titleColumnOrder row <> []
  <-> exists col, In col titleColumnOrder /\ trimmedCell row col <> [].
Proof.
  unfold buildTitle. split.
  - intros H.
    destruct (List.filter nonEmpty (List.map (trimmedCell row) titleColumnOrder))
      as [|v vs] eqn:E; [now destruct H|].
    assert (In v (List.filter nonEmpty (List.map (trimmedCell row) titleColumnOrder))) as Hv
        by (rewrite E; now left).
    apply List.filter_In in Hv as [Hv Hne]. apply in_map_iff in Hv as (col & <- & Hcol).
    exists col. split; [exact Hcol|]. now apply nonEmpty_true.
  - intros (col & Hcol & Hne) H. apply join_nil in H.
    + assert (In (trimmedCell row col)
                (List.filter nonEmpty (List.map (trimmedCell row) titleColumnOrder))) as Hin.
      { apply List.filter_In. split; [now apply in_map|]. now apply nonEmpty_true. }
      rewrite H in Hin. destruct Hin.
    + apply List.Forall_forall. intros v Hv. apply List.filter_In in Hv as [_ Hv].
      now apply nonEmpty_true.
Qed.

Lemma buildNoteText_nonempty (row : CSVRow) :
  buildNoteText noteTextColumnOrder row <> [] <-> noteTextColumnOrder <> [].
Proof.
  unfold buildNoteText. split.
  - intros H Hnil. rewrite Hnil in H. now apply H.
  - intros Hne H. apply join_nil in H.
    + apply Hne. now apply map_eq_nil in H.
    + apply List.Forall_map, List.Forall_forall. intros col _. discriminate.
Qed.

(** X12. A row of the note import has content, and is imported, exactly
    when at least one note-text column is selected and some title column
    holds a cell that is not blank: the note text is never empty once a
    column is selected, whatever its cells hold. For such a row the title
    sent is the title built, never the fallback [Untitled Note]. The tags
    built are trimmed and none is empty. *)
Theorem note_rows_imported (row : CSVRow) :
  (hasContent titleColumnOrder noteTextColumnOrder row = true
   <-> noteTextColumnOrder <> []
       /\ exists col, In col titleColumnOrder /\ trimmedCell row col <> [])
  /\ (hasContent titleColumnOrder noteTextColumnOrder row = true ->
      NoteArgs.title
        (noteArgs titleColumnOrder noteTextColumnOrder tagColumnOrder userEmailColumn
           ownerColumn row)
      = buildTitle titleColumnOrder row)
  /\ Forall (fun tag => tag <> [] /\ trim tag = tag) (buildTags tagColumnOrder row).
Proof.
  assert (hasContent titleColumnOrder noteTextColumnOrder row = true
          <-> buildNoteText noteTextColumnOrder row <> []
              /\ buildTitle titleColumnOrder row <> []) as Hc.
  { unfold hasContent. rewrite andb_true_iff, !length_pos. tauto. }
  split; [|split].
  - rewrite Hc, buildNoteText_nonempty, buildTitle_nonempty. reflexivity.
  - intros H. apply Hc in H as [_ H]. cbn [noteArgs NoteArgs.title].
    apply jsstring_eqb_false in H. now rewrite H.
  - unfold buildTags. apply List.Forall_forall. intros tag Htag.
    apply List.filter_In in Htag as [Htag Hne]. split; [now apply nonEmpty_true|].
    apply in_map_iff in Htag as (col & <- & _). apply trim_idem.
Qed.

End NoteRows.

Lemma note_rows_imported_witness :
  NoteImport.NoteArgs.title
    (NoteImport.noteArgs [js "a"] [js "b"] [] None None
       (Demo.rowOf (js "f-1") (js " Title ") []))
  = js "Title".
Proof.
  rewrite (proj1 (proj2 (note_rows_imported [js "a"] [js "b"] [] None None
                           (Demo.rowOf (js "f-1") (js " Title ") []))) eq_refl).
  reflexivity.
Defined.

(** ** CSV note import: the import loop *)

Section NoteImportLoop.
Import BulkUpdate NoteImport.
Variables titleColumnOrder noteTextColumnOrder tagColumnOrder : list jsstring.
Variables userEmailColumn ownerColumn : option jsstring.
Context {World : Type}.
Variable createNote : jsstring -> NoteArgs.t -> World -> Outcome NoteAnswer.t * World.
Variable apiToken : jsstring.

Lemma noteRows_from_In (rows : list CSVRow) :
  forall k i row,
    In (i, row) (rowsToProcess_from titleColumnOrder noteTextColumnOrder k rows) ->
    exists j, i = k + j /\ rows !! j = Some row.
Proof.
  induction rows as [|r rows IH]; intros k i row; cbn [rowsToProcess_from]; [intros []|].
  intros H. apply in_app_or in H as [H|H].
  - destruct (hasContent _ _ r); [|destruct H]. destruct H as [[= <- <-]|[]].
    exists 0. split; [lia | reflexivity].
  - destruct (IH _ _ _ H) as (j & -> & Hj). exists (S j). split; [lia | exact Hj].
Qed.

Lemma importEntry_fields (rowIndex : nat) (row : CSVRow) (r : Outcome NoteAnswer.t) :
  ImportResult.rowIndex (fst (importEntry rowIndex row r)) = rowIndex
  /\ ImportResult.success (fst (importEntry rowIndex row r)) = noteCreated r
  /\ snd (importEntry rowIndex row r)
     = (if noteCreated r then []
        else [FailedRow.mk rowIndex row
                (default [] (ImportResult.error (fst (importEntry rowIndex row r))))]).
Proof.
  unfold importEntry, noteCreated. destruct r as [result|e]; [|now cbn].
  now destruct (NoteAnswer.success result).
Qed.

Lemma importRow_run (total i rowIndex : nat) (row : CSVRow)
  (acc : list ImportResult.t * list FailedRow.t) (w : World) :
  let args := noteArgs titleColumnOrder noteTextColumnOrder tagColumnOrder userEmailColumn
                ownerColumn row in
  let r := fst (createNote apiToken args w) in
  importRow titleColumnOrder noteTextColumnOrder tagColumnOrder userEmailColumn ownerColumn
    createNote apiToken total i (rowIndex, row) acc w
  = ((fst acc ++ [fst (importEntry rowIndex row r)],
      snd acc ++ snd (importEntry rowIndex row r)),
     EvCall (CreateNote args r) :: EvProgress (i + 1) total
     :: trace_of (@rateLimitDelay World Call 10 200 i total (snd (createNote apiToken args w))),
     snd (createNote apiToken args w)).
Proof.
  cbv zeta. unfold importRow, bind, await, emit, ret, trace_of.
  destruct (createNote apiToken _ w) as [r w1]. cbn [fst snd].
  destruct (importEntry rowIndex row r) as [result failedRow].
  unfold rateLimitDelay. destruct (((i + 1) mod 10 =? 0) && (i + 1 <? total)); cbn;
    reflexivity.
Qed.

Lemma created_app (t1 t2 : list (Event Call)) : created (t1 ++ t2) = created t1 ++ created t2.
Proof. unfold created. now rewrite calls_app, List.map_app. Qed.

Lemma creationOutcomes_app (t1 t2 : list (Event Call)) :
  creationOutcomes (t1 ++ t2) = creationOutcomes t1 ++ creationOutcomes t2.
Proof. unfold creationOutcomes. now rewrite calls_app, List.map_app. Qed.

Lemma created_row (args : NoteArgs.t) (r : Outcome NoteAnswer.t) (i total : nat) (w : World) :
  let t := EvCall (CreateNote args r) :: EvProgress (i + 1) total
           :: trace_of (@rateLimitDelay World Call 10 200 i total w) in
  created t = [args] /\ creationOutcomes t = [r].
Proof.
  cbv zeta. unfold created, creationOutcomes.
  now rewrite calls_call, calls_progress, rateLimitDelay_no_calls.
Qed.

(** The calls and the records of the note import. *)
Lemma note_import_records (data : CsvData.t) (importResults : list ImportResult.t)
  (failedRows : list FailedRow.t) (w : World) :
  let run :=
    handleStartImport titleColumnOrder noteTextColumnOrder tagColumnOrder userEmailColumn
      ownerColumn createNote apiToken (Some data) importResults failedRows w in
  let rows := rowsToProcess titleColumnOrder noteTextColumnOrder (CsvData.rows data) in
  created (trace_of run)
  = List.map (fun entry =>
                noteArgs titleColumnOrder noteTextColumnOrder tagColumnOrder
                  userEmailColumn ownerColumn (snd entry)) rows
  /\ List.map ImportResult.rowIndex (fst (result_of run)) = List.map fst rows
  /\ List.map ImportResult.success (fst (result_of run))
     = List.map noteCreated (creationOutcomes (trace_of run))
  /\ List.map FailedRow.rowIndex (snd (result_of run))
     = List.map ImportResult.rowIndex
         (List.filter (fun r => negb (ImportResult.success r)) (fst (result_of run)))
  /\ Forall (fun f => CsvData.rows data !! FailedRow.rowIndex f = Some (FailedRow.rowData f))
       (snd (result_of run))
  /\ throttled 10 200 (trace_of run) = true.
Proof.
  cbv zeta. unfold handleStartImport. rewrite bind_run.
  cbn [trace_of result_of world_of emit fst snd app].
  set (rows := rowsToProcess titleColumnOrder noteTextColumnOrder (CsvData.rows data)).
  pose proof (forEach_invariant
                (importRow titleColumnOrder noteTextColumnOrder tagColumnOrder
                   userEmailColumn ownerColumn createNote apiToken (length rows))
                (fun i acc t =>
                   created t
                   = List.map (fun entry =>
                                 noteArgs titleColumnOrder noteTextColumnOrder tagColumnOrder
                                   userEmailColumn ownerColumn (snd entry)) (take i rows)
                   /\ List.map ImportResult.rowIndex (fst acc) = List.map fst (take i rows)
                   /\ List.map ImportResult.success (fst acc)
                      = List.map noteCreated (creationOutcomes t)
                   /\ List.map FailedRow.rowIndex (snd acc)
                      = List.map ImportResult.rowIndex
                          (List.filter (fun r => negb (ImportResult.success r)) (fst acc))
                   /\ Forall (fun f => CsvData.rows data !! FailedRow.rowIndex f
                                       = Some (FailedRow.rowData f)) (snd acc)
                   /\ throttled 10 200 t = true /\ noDelayHead t = true)
                rows) as Hinv.
  destruct Hinv with (acc := (@nil ImportResult.t, @nil FailedRow.t)) (w := w)
    as (H1 & H2 & H3 & H4 & H5 & H6 & H7).
  - intros i [rowIndex row] acc t w0 Hx (Hc & Hi & Hs & Hf & Hr & Ht & Hh).
    rewrite importRow_run. cbv zeta. cbn [result_of trace_of fst snd].
    rewrite (take_S_r _ _ _ Hx).
    set (args := noteArgs _ _ _ _ _ row).
    set (r := fst (createNote apiToken args w0)).
    destruct (importEntry_fields rowIndex row r) as (E1 & E2 & E3).
    assert (forall l : list (Event Call),
               EvCall (CreateNote args r) :: l = [EvCall (CreateNote args r)] ++ l)
      as Hcons by reflexivity.
    split; [|split; [|split; [|split; [|split; [|split]]]]].
    + rewrite created_app, Hc, List.map_app.
      now rewrite (proj1 (created_row args r i (length rows) _)).
    + rewrite !List.map_app, Hi. cbn [List.map fst]. now rewrite E1.
    + rewrite creationOutcomes_app, !List.map_app, Hs.
      rewrite (proj2 (created_row args r i (length rows) _)).
      cbn [List.map]. now rewrite E2.
    + rewrite List.filter_app, !List.map_app, Hf. cbn [List.filter]. rewrite E2, E3.
      destruct (noteCreated r); cbn; now rewrite ?E1.
    + apply Forall_app. split; [exact Hr|]. rewrite E3.
      destruct (noteCreated r); constructor; [|constructor]. cbn.
      apply list_elem_of_lookup_2, list_elem_of_In in Hx.
      apply noteRows_from_In in Hx as (j & -> & Hj). exact Hj.
    + rewrite throttled_app by reflexivity. rewrite Ht. cbn [andb throttled].
      apply throttled_endOfIteration.
    + now apply noDelayHead_app.
  - cbn. repeat split; constructor.
  - rewrite firstn_all in H1, H2.
    split; [unfold created in *; now rewrite calls_progress|].
    split; [exact H2|]. split; [unfold creationOutcomes in *; now rewrite calls_progress|].
    split; [exact H4|]. split; [exact H5|]. now apply throttled_start.
Qed.

(** The trace of the note import: the report of no progress yet, then for
    every row its call, the report of its progress and the delay the loop
    decides on. *)
Lemma note_import_trace (data : CsvData.t) (importResults : list ImportResult.t)
  (failedRows : list FailedRow.t) (w : World) :
  let run :=
    handleStartImport titleColumnOrder noteTextColumnOrder tagColumnOrder userEmailColumn
      ownerColumn createNote apiToken (Some data) importResults failedRows w in
  let total :=
    length (rowsToProcess titleColumnOrder noteTextColumnOrder (CsvData.rows data)) in
  length (calls (trace_of run)) = total
  /\ trace_of run = EvProgress 0 total :: turnsOf 10 200 total 0 (calls (trace_of run)).
Proof.
  cbv zeta. unfold handleStartImport. rewrite bind_run.
  cbn [trace_of result_of world_of emit fst snd app].
  set (rows := rowsToProcess titleColumnOrder noteTextColumnOrder (CsvData.rows data)).
  pose proof (forEach_invariant
                (importRow titleColumnOrder noteTextColumnOrder tagColumnOrder
                   userEmailColumn ownerColumn createNote apiToken (length rows))
                (fun i acc t =>
                   length (calls t) = i
                   /\ t = turnsOf 10 200 (length rows) 0 (calls t))
                rows) as Hinv.
  destruct Hinv with (acc := (@nil ImportResult.t, @nil FailedRow.t)) (w := w) as (Hl & Ht).
  - intros i [rowIndex row] acc t w0 _ (Hc & Ht).
    rewrite importRow_run. cbv zeta. cbn [result_of trace_of fst snd].
    rewrite turnEnding_trace.
    set (args := noteArgs _ _ _ _ _ row).
    set (r := fst (createNote apiToken args w0)).
    assert (calls (t ++ EvCall (CreateNote args r) :: turnEnding 10 200 (length rows) i)
            = calls t ++ [CreateNote args r]) as Hcalls.
    { rewrite calls_app, calls_call. f_equal. f_equal. apply calls_turnEnding. }
    rewrite Hcalls. split.
    + rewrite length_app, Hc. cbn. lia.
    + rewrite turnsOf_snoc, <- Ht, Hc. reflexivity.
  - now split.
  - rewrite calls_progress. split; [exact Hl|]. f_equal. exact Ht.
Qed.

(** X13. The note import calls [createNote] once for every row that has
    content, in the order of the file, with the note built from the row,
    whatever the earlier calls answered or threw. It records one result per
    call, with the index of the row in the file and the success of that
    call, and one failed row, a row of the file under its index, for every
    call that did not create the note. Its trace is the report of no
    progress yet and then, for every row, the call, the report of the
    progress and a wait of 200 ms exactly after every tenth row when rows
    remain: there is one wait for every full ten rows before the last. *)
Theorem note_import_aligned (data : CsvData.t) (importResults : list ImportResult.t)
  (failedRows : list FailedRow.t) (w : World) :
  let run :=
    handleStartImport titleColumnOrder noteTextColumnOrder tagColumnOrder userEmailColumn
      ownerColumn createNote apiToken (Some data) importResults failedRows w in
  let rows := rowsToProcess titleColumnOrder noteTextColumnOrder (CsvData.rows data) in
  created (trace_of run)
  = List.map (fun entry =>
                noteArgs titleColumnOrder noteTextColumnOrder tagColumnOrder
                  userEmailColumn ownerColumn (snd entry)) rows
  /\ List.map ImportResult.rowIndex (fst (result_of run)) = List.map fst rows
  /\ List.map ImportResult.success (fst (result_of run))
     = List.map noteCreated (creationOutcomes (trace_of run))
  /\ List.map FailedRow.rowIndex (snd (result_of run))
     = List.map ImportResult.rowIndex
         (List.filter (fun r => negb (ImportResult.success r)) (fst (result_of run)))
  /\ Forall (fun f => CsvData.rows data !! FailedRow.rowIndex f = Some (FailedRow.rowData f))
       (snd (result_of run))
  /\ throttled 10 200 (trace_of run) = true
  /\ length (calls (trace_of run)) = length rows
  /\ trace_of run
     = EvProgress 0 (length rows)
       :: turnsOf 10 200 (length rows) 0 (calls (trace_of run))
  /\ delays (trace_of run) = List.repeat 200%N ((length rows - 1) / 10).
Proof.
  intros run rows.
  destruct (note_import_records data importResults failedRows w)
    as (H1 & H2 & H3 & H4 & H5 & H6).
  destruct (note_import_trace data importResults failedRows w) as [Hl Ht].
  cbv zeta in H1, H2, H3, H4, H5, H6, Hl, Ht.
  fold run in H1, H2, H3, H4, H5, H6, Hl, Ht. fold rows in H1, H2, Hl, Ht.
  split; [exact H1|]. split; [exact H2|]. split; [exact H3|]. split; [exact H4|].
  split; [exact H5|]. split; [exact H6|]. split; [exact Hl|]. split; [exact Ht|].
  rewrite Ht.
  change (EvProgress 0 (length rows) :: ?t)
    with ([@EvProgress Call 0 (length rows)] ++ t).
  rewrite delays_app. cbn [delays List.flat_map app].
  fold (delays (turnsOf 10 200 (length rows) 0 (calls (trace_of run)))).
  rewrite turnsOf_delays by lia. rewrite Hl. f_equal. f_equal. lia.
Qed.

End NoteImportLoop.

(** ** Duplicate groups: what a group holds *)

Section GroupKeys.
Import DuplicateNotes NoteKeys.

Lemma SEP_bars : SEP = [bar; bar; bar].
Proof. reflexivity. Qed.

Lemma startsWith_SEP_other (x : N) (s : jsstring) :
  x <> bar -> startsWith SEP (x :: s) = false.
Proof.
  intros Hx. rewrite SEP_bars. cbn [startsWith].
  apply N.eqb_neq in Hx. rewrite N.eqb_sym in Hx. now rewrite Hx.
Qed.

Lemma split_plain_end (c cur : jsstring) :
  ~ In bar c -> split_from SEP 0 cur c = [cur ++ c].
Proof.
  revert cur. induction c as [|x c IH]; intros cur Hc.
  - cbn. now rewrite app_nil_r.
  - cbn [split_from]. assert (x <> bar) as Hx by (intros ->; apply Hc; now left).
    rewrite (startsWith_SEP_other x c Hx).
    rewrite IH by (intros H; apply Hc; now right). now rewrite <- app_assoc.
Qed.

Lemma split_plain_part (c rest cur : jsstring) :
  ~ In bar c ->
  split_from SEP 0 cur (c ++ SEP ++ rest) = (cur ++ c) :: split_from SEP 0 [] rest.
Proof.
  revert cur. induction c as [|x c IH]; intros cur Hc.
  - cbn [app]. rewrite app_nil_r. rewrite SEP_bars. reflexivity.
  - cbn [app split_from]. assert (x <> bar) as Hx by (intros ->; apply Hc; now left).
    rewrite (startsWith_SEP_other x _ Hx).
    rewrite IH by (intros H; apply Hc; now right). now rewrite <- app_assoc.
Qed.

Lemma keyed_short (note : Note.t) :
  plain note -> keyed (contentOf note ++ SEP ++ titleOf note) note.
Proof.
  intros [Hc Ht]. unfold keyed, split.
  rewrite split_plain_part by exact Hc. rewrite split_plain_end by exact Ht. now split.
Qed.

Lemma keyed_full (note : Note.t) (rest : jsstring) :
  plain note -> keyed (contentOf note ++ SEP ++ titleOf note ++ SEP ++ rest) note.
Proof.
  intros [Hc Ht]. unfold keyed, split.
  rewrite split_plain_part by exact Hc. rewrite split_plain_part by exact Ht. now split.
Qed.

Lemma keyedMap_nil : keyedMap [].
Proof. intros k g n []. Qed.

Lemma keyedMap_set (k : jsstring) (g : list Note.t) (m : jsmap (list Note.t)) :
  keyedMap m ->
  (forall n, In n g ->
     keyed k n
     /\ (forall companyId, companyIdOf n = Some companyId -> k = fullKey n companyId)) ->
  keyedMap (map_set k g m).
Proof.
  intros Hm Hg k' g' n Hin Hn. apply map_set_In in Hin as [[-> ->]|Hin].
  - now apply Hg.
  - now apply (Hm k' g' n).
Qed.

Lemma keyedMap_get (k : jsstring) (m : jsmap (list Note.t)) (n : Note.t) :
  keyedMap m -> In n (getOrEmpty k m) ->
  keyed k n
  /\ (forall companyId, companyIdOf n = Some companyId -> k = fullKey n companyId).
Proof.
  intros Hm. unfold getOrEmpty. destruct (map_get k m) as [g|] eqn:E; [|intros []].
  apply map_get_In in E. now apply (Hm k g n).
Qed.

Lemma looseMap_nil : looseMap [].
Proof. intros k g n []. Qed.

Lemma groupNote_keyed (l : list Note.t) :
  Forall plain l ->
  forall groups,
    keyedMap (fst groups) -> looseMap (snd groups) ->
    let r := fold_left groupNote l groups in
    keyedMap (fst r) /\ looseMap (snd r).
Proof.
  induction 1 as [|note l Hnote Hl IH]; intros [gw gwo] H1 H2; cbn [fold_left];
    [now split|].
  apply IH; cbn [groupNote]; fold (contentOf note); fold (titleOf note);
    destruct (companyIdOf note) as [companyId|] eqn:Ec; cbn [fst snd];
    try assumption.
  - apply keyedMap_set; [exact H1|]. intros n Hn.
    apply in_app_or in Hn as [Hn|[<-|[]]]; [now apply (keyedMap_get _ gw)|].
    split; [now apply keyed_full|]. intros c Hc. rewrite Ec in Hc. now injection Hc as <-.
  - intros k g n Hin Hn. apply map_set_In in Hin as [[-> ->]|Hin];
      [|exact (H2 k g n Hin Hn)].
    apply in_app_or in Hn as [Hn|[<-|[]]].
    + unfold getOrEmpty in Hn. destruct (map_get _ gwo) as [g0|] eqn:E; [|destruct Hn].
      apply map_get_In in E. exact (H2 _ g0 n E Hn).
    + split; [now apply keyed_short|]. now split.
Qed.

Lemma mergeInto_keyed (content title : option jsstring) (extra : list Note.t)
  (keys : list jsstring) :
  (forall n, In n extra ->
     content = Some (contentOf n) /\ title = Some (titleOf n) /\ companyIdOf n = None) ->
  Forall (fun k => sameContentTitle content title k = true) keys ->
  forall dm, keyedMap dm ->
    keyedMap
      (fold_left (fun dm matchKey => map_set matchKey (getOrEmpty matchKey dm ++ extra) dm)
         keys dm).
Proof.
  intros He. induction 1 as [|k keys Hk Hkeys IH]; intros dm Hdm; cbn [fold_left];
    [exact Hdm|].
  apply IH. apply keyedMap_set; [exact Hdm|]. intros n Hn.
  apply in_app_or in Hn as [Hn|Hn]; [now apply (keyedMap_get _ dm)|].
  destruct (He n Hn) as (Hc & Ht & Hno).
  unfold sameContentTitle in Hk. apply andb_prop in Hk as [Hk0 Hk1].
  apply bool_decide_eq_true in Hk0, Hk1. split.
  - split; [now rewrite Hk0|now rewrite Hk1].
  - intros c Ec. rewrite Hno in Ec. discriminate.
Qed.

Lemma mergeGroup_keyed (dm : jsmap (list Note.t)) (k : jsstring) (g : list Note.t) :
  keyedMap dm ->
  (forall n, In n g -> keyed k n /\ companyIdOf n = None /\ plain n) ->
  keyedMap (mergeGroup dm (k, g)).
Proof.
  intros Hdm Hg. unfold mergeGroup.
  destruct (List.filter _ (map_keys dm)) as [|k0 ks] eqn:Ef.
  - apply keyedMap_set; [exact Hdm|]. intros n Hn.
    destruct (Hg n Hn) as ([Hc Ht] & Hno & Hp). rewrite Hc, Ht. cbn [template].
    split; [exact (keyed_full n (js "null") Hp)|].
    intros c Ec. rewrite Hno in Ec. discriminate.
  - apply (mergeInto_keyed (split SEP k !! 0%nat) (split SEP k !! 1%nat)); [| |exact Hdm].
    + intros n Hn. destruct (Hg n Hn) as ([Hc Ht] & Hno & _). now split.
    + rewrite <- Ef. apply List.Forall_forall. intros x Hx.
      now apply List.filter_In in Hx.
Qed.

Lemma mergeGroups_keyed (entries : jsmap (list Note.t)) :
  looseMap entries ->
  forall dm, keyedMap dm -> keyedMap (fold_left mergeGroup entries dm).
Proof.
  induction entries as [|[k g] entries IH]; intros He dm Hdm; cbn [fold_left]; [exact Hdm|].
  apply IH.
  - intros k' g' n Hin. apply (He k' g' n). now right.
  - apply mergeGroup_keyed; [exact Hdm|]. intros n Hn. apply (He k g n); [now left|exact Hn].
Qed.

(** X14: if no note has a [|] in its trimmed content or title, the
    notes of a duplicate group all have the same trimmed content and the
    same trimmed title, and the members with a company all have the same
    company. *)
Theorem duplicate_group_alike (localeCompare : jsstring -> jsstring -> Z)
  (notes : list Note.t) (g : DuplicateGroup.t) :
  Forall plain notes ->
  In g (findDuplicateGroups localeCompare notes) ->
  forall n m, In n (DuplicateGroup.notes g) -> In m (DuplicateGroup.notes g) ->
    contentOf n = contentOf m
    /\ titleOf n = titleOf m
    /\ (hasCompany n = true -> hasCompany m = true -> companyIdOf n = companyIdOf m).
Proof.
  intros Hplain. unfold findDuplicateGroups.
  destruct (fold_left groupNote notes ([], [])) as [gw gwo] eqn:E.
  intros Hg. apply in_flat_map in Hg as ([key group] & Hin & Hg).
  destruct (duplicateGroupOf_safe localeCompare key group g Hg) as (_ & _ & _ & _ & H5).
  destruct (groupNote_keyed notes Hplain ([], []) keyedMap_nil looseMap_nil) as [Hw Hwo].
  rewrite E in Hw, Hwo. cbn [fst snd] in Hw, Hwo.
  pose proof (mergeGroups_keyed gwo Hwo gw Hw) as Hdm.
  intros n m Hn Hm. apply H5 in Hn, Hm.
  destruct (Hdm key group n Hin Hn) as [[Hn0 Hn1] Hnc].
  destruct (Hdm key group m Hin Hm) as [[Hm0 Hm1] Hmc].
  assert (contentOf n = contentOf m) as Ec by congruence.
  assert (titleOf n = titleOf m) as Et by congruence.
  split; [exact Ec|]. split; [exact Et|].
  unfold hasCompany. destruct (companyIdOf n) as [cn|]; [|discriminate].
  destruct (companyIdOf m) as [cm|]; [|discriminate]. intros _ _.
  pose proof (Hnc cn eq_refl) as Kn. pose proof (Hmc cm eq_refl) as Km.
  rewrite Kn in Km. unfold fullKey in Km. rewrite Ec, Et in Km.
  apply app_inv_head in Km. apply app_inv_head in Km.
  apply app_inv_head in Km. apply app_inv_head in Km. now subst.
Qed.

End GroupKeys.

Lemma duplicate_group_alike_witness :
  DuplicateNotes.companyIdOf DuplicateNotes.noteA
  = DuplicateNotes.companyIdOf DuplicateNotes.noteB.
Proof.
  assert (Forall NoteKeys.plain
            [DuplicateNotes.noteA; DuplicateNotes.noteB; DuplicateNotes.noteC]) as Hp.
  { repeat constructor; vm_compute; intuition discriminate. }
  assert (In (DuplicateNotes.DuplicateGroup.mk (js "x|||t|||C1")
                [DuplicateNotes.noteC; DuplicateNotes.noteA; DuplicateNotes.noteB]
                DuplicateNotes.noteA
                [DuplicateNotes.noteC; DuplicateNotes.noteB])
             (DuplicateNotes.findDuplicateGroups codeUnitCompare
                [DuplicateNotes.noteA; DuplicateNotes.noteB; DuplicateNotes.noteC])) as Hg
      by (left; reflexivity).
  apply (duplicate_group_alike codeUnitCompare _ _ Hp Hg
           DuplicateNotes.noteA DuplicateNotes.noteB).
  - right. now left.
  - right. right. now left.
  - reflexivity.
  - reflexivity.
Defined.

(** ** Company import: the results and the requests *)

Section CompanyImportRun.
Import CompanyImport CompanyRun.
Context {World : Type}.
Variable apiToken : jsstring.
Variable createCompany :
  jsstring -> jsstring -> jsstring -> World -> Outcome CreateResult.t * World.
Variable setCompanyFieldValue :
  jsstring -> jsstring -> jsstring -> jsstring -> ProcessedValue -> World ->
  Outcome SetFieldResult.t * World.
Variable companyFields : list CompanyFieldConfig.t.

Lemma fieldLoop_target (companyId : jsstring) (entries : list (jsstring * jsstring)) :
  forall fieldErrors w,
    Forall (fun c => targetOf c = companyId)
      (calls (trace_of (setFieldValues apiToken setCompanyFieldValue companyFields
                          companyId entries fieldErrors w))).
Proof.
  induction entries as [|[fieldId value] rest IH]; intros fieldErrors w.
  - constructor.
  - cbn [setFieldValues]. destruct (jsstring_eqb value []); [apply IH|].
    destruct (_ && isNaN (parseFloat value)); [apply IH|].
    rewrite bind_run. cbn [trace_of fst snd]. rewrite calls_app. apply List.Forall_app. split.
    + unfold await. destruct (setCompanyFieldValue _ _ _ _ _ w) as [r w']. cbn.
      constructor; [reflexivity|constructor].
    + destruct (result_of (await _ _ w)) as [setResult|err]; [|constructor].
      destruct (SetFieldResult.success setResult); apply IH.
Qed.

Lemma fieldWrites_run {A} (m : Run World CompanyImport.Call A) (w : World) :
  fieldWrites m w = (result_of (m w), List.map fieldEvent (trace_of (m w)), world_of (m w)).
Proof. unfold fieldWrites. now destruct (m w) as [[a t] w']. Qed.

Lemma calls_fieldEvent (t : list (Event CompanyImport.Call)) :
  calls (List.map fieldEvent t) = List.map FieldWrite (calls t).
Proof.
  induction t as [|[c|current total|ms] t IH]; cbn; [reflexivity| |exact IH|exact IH].
  f_equal. exact IH.
Qed.

Lemma creations_fields (cs : list CompanyImport.Call) :
  creations (List.map FieldWrite cs) = [].
Proof. induction cs as [|c cs IH]; [reflexivity|exact IH]. Qed.

Lemma createdIds_fields (cs : list CompanyImport.Call) :
  createdIds (List.map FieldWrite cs) = [].
Proof. induction cs as [|c cs IH]; [reflexivity|exact IH]. Qed.

Lemma writtenIds_fields (cs : list CompanyImport.Call) :
  writtenIds (List.map FieldWrite cs) = List.map targetOf cs.
Proof.
  induction cs as [|[companyId fieldId fieldType value r] cs IH]; [reflexivity|].
  cbn. f_equal. exact IH.
Qed.

Lemma creations_app (a b : list Call) : creations (a ++ b) = creations a ++ creations b.
Proof. apply flat_map_app. Qed.

Lemma createdIds_app (a b : list Call) : createdIds (a ++ b) = createdIds a ++ createdIds b.
Proof. apply flat_map_app. Qed.

Lemma writtenIds_app (a b : list Call) : writtenIds (a ++ b) = writtenIds a ++ writtenIds b.
Proof. apply flat_map_app. Qed.

Lemma imported_nil (results : list ImportResult.t) (w : World) :
  imported [] results (@ret World Call _ (Returned results) w).
Proof.
  intros out H. cbn in H. injection H as <-. split; [|split].
  - exists []. rewrite app_nil_r. repeat split. constructor.
  - reflexivity.
  - constructor.
Qed.

Lemma imported_thrown (companies : list CompanyToImport.t) (results : list ImportResult.t)
  (run : Outcome (list ImportResult.t) * list (Event Call) * World) (e : jsstring) :
  result_of run = Threw e -> imported companies results run.
Proof. intros H out Hout. rewrite H in Hout. discriminate. Qed.

Lemma imported_step (company : CompanyToImport.t) (rest : list CompanyToImport.t)
  (results : list ImportResult.t) (result : ImportResult.t) (pre : list Call)
  (run run' : Outcome (list ImportResult.t) * list (Event Call) * World) :
  imported rest (results ++ [result]) run ->
  resultOf result = companyOf company -> sound result ->
  creations pre
  = (if toCreate company
     then [(CompanyToImport.name company, CompanyToImport.domain company)] else []) ->
  Forall (fun companyId =>
            (toCreate company = false
             /\ CompanyToImport.existingCompany company = Some companyId)
            \/ In companyId (createdIds pre)) (writtenIds pre) ->
  result_of run' = result_of run ->
  calls (trace_of run') = pre ++ calls (trace_of run) ->
  imported (company :: rest) results run'.
Proof.
  intros Hrun Hres Hsound Hpre Hids Hr Hc out Hout. rewrite Hr in Hout.
  destruct (Hrun out Hout) as ((news & -> & Hmap & Hnews) & Hcr & Hw).
  split; [|split].
  - exists (result :: news). rewrite <- app_assoc. split; [reflexivity|]. split.
    + cbn [List.map]. now rewrite Hres, Hmap.
    + now constructor.
  - rewrite Hc, creations_app, Hcr, Hpre. cbn [List.filter].
    now destruct (toCreate company).
  - rewrite Hc, writtenIds_app, createdIds_app. apply List.Forall_app. split.
    + eapply List.Forall_impl; [|exact Hids]. cbn beta. intros companyId [[Hno He]|Hin].
      * left. cbn [List.filter]. rewrite Hno. cbn [negb List.map]. left. exact He.
      * right. apply in_or_app. now left.
    + eapply List.Forall_impl; [|exact Hw]. cbn beta. intros companyId [Hin|Hin].
      * left. cbn [List.filter]. destruct (negb (toCreate company)); [right|]; exact Hin.
      * right. apply in_or_app. now right.
Qed.

Lemma fieldsResult_sound (rowIndex : nat) (name domain action companyId : jsstring)
  (fieldErrors : list jsstring) :
  sound (fieldsResult rowIndex name domain action companyId fieldErrors).
Proof.
  unfold sound, fieldsResult. cbn. intros H. apply Nat.eqb_eq in H. rewrite H.
  repeat split. discriminate.
Qed.

Lemma given_Some (o : option jsstring) (s : jsstring) : given o = Some s -> o = Some s.
Proof.
  unfold given. destruct o as [x|]; [|discriminate].
  destruct (jsstring_eqb x []); [discriminate|]. now intros [= ->].
Qed.

Lemma writeCompany_imported (total i : nat) (company : CompanyToImport.t)
  (rest : list CompanyToImport.t) (results : list ImportResult.t)
  (companyId : option jsstring) (pre : list Call)
  (next : list ImportResult.t -> Run World Call (Outcome (list ImportResult.t)))
  (w : World) (run' : Outcome (list ImportResult.t) * list (Event Call) * World) :
  (forall rs w', imported rest rs (next rs w')) ->
  creations pre
  = (if toCreate company
     then [(CompanyToImport.name company, CompanyToImport.domain company)] else []) ->
  writtenIds pre = [] ->
  (forall s, companyId = Some s ->
     (toCreate company = false /\ CompanyToImport.existingCompany company = Some s)
     \/ In s (createdIds pre)) ->
  let run :=
    writeCompany apiToken setCompanyFieldValue companyFields total i company results
      companyId next w in
  result_of run' = result_of run ->
  calls (trace_of run') = pre ++ calls (trace_of run) ->
  imported (company :: rest) results run'.
Proof.
  intros Hnext Hpre Hnone Hid run Hr Hc. unfold run, writeCompany in Hr, Hc.
  destruct (given companyId) as [s|] eqn:Eg.
  - apply given_Some in Eg. rewrite bind_run, fieldWrites_run in Hr, Hc.
    cbn [result_of trace_of world_of fst snd] in Hr, Hc.
    pose proof (fieldLoop_target s (CompanyToImport.customFields company) [] w) as Ht.
    destruct (setFieldValues _ _ _ s _ [] w) as [[written t] w1].
    cbn [result_of trace_of world_of fst snd] in Hr, Hc, Ht.
    destruct written as [fieldErrors|e]; [|now apply (imported_thrown _ _ _ e)].
    rewrite !bind_run in Hr, Hc. cbn [result_of trace_of world_of fst snd emit] in Hr, Hc.
    rewrite calls_app, calls_fieldEvent in Hc. cbn [app] in Hc.
    rewrite calls_progress, calls_app, rateLimitDelay_no_calls in Hc. cbn [app] in Hc.
    rewrite app_assoc in Hc.
    eapply imported_step; [apply Hnext| | | | |exact Hr|exact Hc].
    + reflexivity.
    + apply fieldsResult_sound.
    + now rewrite creations_app, creations_fields, app_nil_r.
    + rewrite writtenIds_app, writtenIds_fields, createdIds_app, Hnone. cbn [app].
      apply List.Forall_forall. intros x Hx. apply List.in_map_iff in Hx as (c & <- & Hin).
      rewrite List.Forall_forall in Ht. rewrite (Ht c Hin).
      destruct (Hid s Eg) as [H|H]; [now left|right]. apply in_or_app. now left.
  - unfold skipCompany in Hr, Hc. rewrite bind_run in Hr, Hc.
    cbn [result_of trace_of world_of fst snd emit] in Hr, Hc. cbn [app] in Hc.
    rewrite calls_progress in Hc.
    eapply imported_step; [apply Hnext| | | | |exact Hr|exact Hc].
    + reflexivity.
    + intros H. discriminate.
    + exact Hpre.
    + rewrite Hnone. constructor.
Qed.

Lemma importFrom_imported (total : nat) (companies : list CompanyToImport.t) :
  forall i results w,
    imported companies results
      (importFrom apiToken createCompany setCompanyFieldValue companyFields total i
         companies results w).
Proof.
  induction companies as [|company rest IH]; intros i results w; [apply imported_nil|].
  cbn [importFrom]. unfold importCompany.
  destruct (jsstring_eqb (CompanyToImport.action company) (js "create")) eqn:Ea.
  - set (run' := bind _ _ w). pose proof (eq_refl : run' = run') as Hrun.
    unfold run' at 2 in Hrun. rewrite bind_run in Hrun. unfold await in Hrun.
    destruct (createCompany apiToken (CompanyToImport.name company)
                (CompanyToImport.domain company) w) as [r w1].
    cbn [result_of trace_of world_of fst snd] in Hrun.
    destruct r as [createResult|e]; [|apply (imported_thrown _ _ _ e); now rewrite Hrun].
    destruct (CreateResult.success createResult) eqn:Es.
    + eapply (writeCompany_imported total i company rest results
                (CreateResult.data createResult)
                [CreateCompany (CompanyToImport.name company)
                   (CompanyToImport.domain company) (Returned createResult)]
                _ w1).
      * intros rs w'. apply IH.
      * unfold toCreate. now rewrite Ea.
      * reflexivity.
      * intros s Hs. right. cbn. rewrite Es, Hs. now left.
      * now rewrite Hrun.
      * now rewrite Hrun.
    + unfold skipCompany in Hrun. rewrite bind_run in Hrun.
      cbn [result_of trace_of world_of fst snd emit app] in Hrun.
      eapply (imported_step company rest results _
                [CreateCompany (CompanyToImport.name company)
                   (CompanyToImport.domain company) (Returned createResult)]);
        [apply IH| | | | |rewrite Hrun; reflexivity|rewrite Hrun; reflexivity].
      * unfold resultOf, companyOf, failedResult. cbn.
        apply jsstring_eqb_true in Ea. now rewrite Ea.
      * intros H. discriminate.
      * unfold toCreate. now rewrite Ea.
      * constructor.
  - eapply (writeCompany_imported total i company rest results
              (CompanyToImport.existingCompany company) [] _ w).
    + intros rs w'. apply IH.
    + unfold toCreate. now rewrite Ea.
    + reflexivity.
    + intros s Hs. left. now split.
    + reflexivity.
    + reflexivity.
Qed.

(** X15: when the import of the companies reaches its end, the results
    name the companies one for one in their order; one creation was asked
    for each company to create, in order, and none for the others; a field
    was only written to the company of an update or to a company a creation
    answered; a result that reports success has a company id and no error. *)
Theorem company_import_results (companiesToImport : list CompanyToImport.t) (w : World)
  (results : list ImportResult.t) :
  let run :=
    handleStartImport apiToken createCompany setCompanyFieldValue companyFields
      companiesToImport w in
  result_of run = Some (Returned results) ->
  List.map resultOf results = List.map companyOf companiesToImport
  /\ Forall sound results
  /\ creations (calls (trace_of run))
     = List.map (fun c => (CompanyToImport.name c, CompanyToImport.domain c))
         (List.filter toCreate companiesToImport)
  /\ Forall (fun companyId =>
               In (Some companyId)
                 (List.map CompanyToImport.existingCompany
                    (List.filter (fun c => negb (toCreate c)) companiesToImport))
               \/ In companyId (createdIds (calls (trace_of run))))
       (writtenIds (calls (trace_of run))).
Proof.
  intros run. unfold run, handleStartImport.
  destruct (length companiesToImport =? 0); [discriminate|].
  rewrite !bind_run. cbn [result_of trace_of world_of fst snd emit ret].
  intros H. injection H as H.
  destruct (importFrom_imported (length companiesToImport) companiesToImport 0 [] w
              results H) as ((news & Hout & Hmap & Hs) & Hc & Hw).
  cbn [app] in Hout. subst news. rewrite app_nil_r. cbn [app]. rewrite calls_progress.
  now repeat split.
Qed.

End CompanyImportRun.

Lemma company_import_results_witness :
  let run :=
    CompanyRun.handleStartImport (js "token") Samples.creationRefused Demo.fieldStored
      Demo.companyFields [Samples.acme; Samples.globex] tt in
  CompanyRun.creations (calls (trace_of run)) = [(js "Globex", js "globex.com")]
  /\ CompanyRun.writtenIds (calls (trace_of run)) = [js "c1"].
Proof.
  cbv zeta. split; [|reflexivity].
  refine (proj1 (proj2 (proj2
    (company_import_results (js "token") Samples.creationRefused Demo.fieldStored
       Demo.companyFields [Samples.acme; Samples.globex] tt
       [CompanyImport.fieldsResult 0 (js "Acme") (js "acme.com") (js "update") (js "c1") [];
        CompanyRun.failedResult Samples.globex (js "create")
          (js "Failed to create company")]
       _)))).
  reflexivity.
Defined.

(** ** Field migration: the list of mappings *)

Section MappingEdits.
Import FieldMigration MappingEditor.

Lemma ids_filter (p : FieldMapping.t -> bool) (l : list FieldMapping.t) (x : jsstring) :
  In x (List.map FieldMapping.id (List.filter p l)) -> In x (List.map FieldMapping.id l).
Proof.
  intros H. apply List.in_map_iff in H as (m & <- & Hm). apply List.filter_In in Hm as [Hm _].
  now apply List.in_map.
Qed.

Lemma ids_filter_NoDup (p : FieldMapping.t -> bool) (l : list FieldMapping.t) :
  NoDup (List.map FieldMapping.id l) ->
  NoDup (List.map FieldMapping.id (List.filter p l)).
Proof.
  induction l as [|m l IH]; cbn [List.map List.filter]; intros H; [exact H|].
  apply NoDup_cons in H as [Hm Hl]. destruct (p m); [|now apply IH].
  cbn [List.map]. apply NoDup_cons. split; [|now apply IH].
  intros Hin. apply Hm. apply list_elem_of_In. apply list_elem_of_In in Hin.
  now apply (ids_filter p).
Qed.

Lemma removeMapping_keeps_one (id : jsstring) (prev : list FieldMapping.t) :
  prev <> [] -> NoDup (List.map FieldMapping.id prev) -> removeMapping id prev <> [].
Proof.
  intros Hne Hnd. unfold removeMapping. destruct (1 <? length prev) eqn:E; [|exact Hne].
  apply Nat.ltb_lt in E. destruct prev as [|a [|b rest]]; cbn in E; try lia.
  cbn [List.map] in Hnd. apply NoDup_cons in Hnd as [Hab _].
  cbn [List.filter].
  destruct (jsstring_eqb (FieldMapping.id a) id) eqn:Ea; [|discriminate].
  destruct (jsstring_eqb (FieldMapping.id b) id) eqn:Eb; [|discriminate].
  apply jsstring_eqb_true in Ea, Eb. exfalso. apply Hab. apply list_elem_of_In. left. now rewrite Ea, Eb.
Qed.

Lemma updateMapping_ids (id : jsstring) (field : Field) (value : jsstring)
  (prev : list FieldMapping.t) :
  List.map FieldMapping.id (updateMapping id field value prev)
  = List.map FieldMapping.id prev.
Proof.
  unfold updateMapping. rewrite List.map_map. apply List.map_ext. intros m.
  destruct (negb _); [reflexivity|]. now destruct field.
Qed.

Lemma edits_keep (edits : list Edit) :
  forall prev,
    prev <> [] -> NoDup (List.map FieldMapping.id prev) -> freshIds edits prev ->
    fold_left edit edits prev <> []
    /\ NoDup (List.map FieldMapping.id (fold_left edit edits prev)).
Proof.
  induction edits as [|e edits IH]; intros prev Hne Hnd Hfresh; cbn [fold_left];
    [now split|].
  destruct Hfresh as [He Hrest]. apply IH; [| |exact Hrest].
  - destruct e as [id|id|id field value]; cbn [edit].
    + unfold addMapping. now destruct prev.
    + now apply removeMapping_keeps_one.
    + unfold updateMapping. destruct prev; [congruence|discriminate].
  - destruct e as [id|id|id field value]; cbn [edit].
    + unfold addMapping. rewrite List.map_app. cbn [List.map FieldMapping.id].
      apply NoDup_app. split; [exact Hnd|]. split; [|apply NoDup_singleton].
      intros x Hx Hin. apply list_elem_of_In in Hx, Hin. destruct Hin as [<-|[]].
      now apply He.
    + unfold removeMapping. destruct (1 <? length prev); [|exact Hnd].
      now apply ids_filter_NoDup.
    + now rewrite updateMapping_ids.
Qed.

(** X16: as long as no id that is generated is the id of a mapping of the
    list, the list of mappings is never empty and no two mappings have the
    same id, whatever is added, removed or changed. *)
Theorem mappings_never_empty (id : jsstring) (edits : list Edit) :
  freshIds edits (initial id) ->
  fold_left edit edits (initial id) <> []
  /\ NoDup (List.map FieldMapping.id (fold_left edit edits (initial id))).
Proof.
  intros H. apply edits_keep; [discriminate| |exact H].
  apply NoDup_singleton.
Qed.

End MappingEdits.

Lemma mappings_never_empty_witness :
  fold_left MappingEditor.edit
    [MappingEditor.Add (js "b"); MappingEditor.Remove (js "a"); MappingEditor.Remove (js "b")]
    (MappingEditor.initial (js "a")) <> [].
Proof.
  apply (mappings_never_empty (js "a")
           [MappingEditor.Add (js "b"); MappingEditor.Remove (js "a");
            MappingEditor.Remove (js "b")]).
  cbn. repeat split. intros [H|[]]. discriminate.
Defined.

(** ** Note import: the order of the columns *)

Section ColumnOrders.
Import ColumnOrder.

Lemma indexOf_found (x : jsstring) (l : list jsstring) :
  In x l ->
  exists l1 l2, l = l1 ++ x :: l2 /\ indexOf x l = Z.of_nat (length l1).
Proof.
  induction l as [|y l IH]; intros Hin; [destruct Hin|].
  cbn [indexOf]. destruct (jsstring_eqb y x) eqn:E.
  - apply jsstring_eqb_true in E as ->. now exists [], l.
  - destruct Hin as [->|Hin]; [now rewrite jsstring_eqb_refl in E|].
    destruct (IH Hin) as (l1 & l2 & -> & Hi). exists (y :: l1), l2.
    split; [reflexivity|]. rewrite Hi. cbn [length].
    destruct (Z.ltb_spec (Z.of_nat (length l1)) 0); lia.
Qed.

Lemma spliceStart_within (k len : nat) :
  k <= len -> spliceStart (Z.of_nat k) len = k.
Proof.
  intros H. unfold spliceStart. destruct (Z.ltb_spec (Z.of_nat k) 0); lia.
Qed.

Lemma splice_remove (l1 l2 : list jsstring) (x : jsstring) :
  splice (Z.of_nat (length l1)) 1 [] (l1 ++ x :: l2) = l1 ++ l2.
Proof.
  unfold splice. rewrite spliceStart_within by (rewrite length_app; cbn; lia).
  rewrite take_app_length. cbn [app]. f_equal.
  rewrite drop_app_ge by lia.
  replace (length l1 + 1 - length l1) with 1 by lia. reflexivity.
Qed.

Lemma splice_insert (k : nat) (x : jsstring) (l : list jsstring) :
  k <= length l ->
  splice (Z.of_nat k) 0 [x] l = take k l ++ x :: drop k l.
Proof.
  intros H. unfold splice. rewrite spliceStart_within by exact H.
  now rewrite Nat.add_0_r.
Qed.

Lemma without_app (x : jsstring) (a b : list jsstring) :
  without x (a ++ b) = without x a ++ without x b.
Proof. apply List.filter_app. Qed.

Lemma without_self (x : jsstring) (l : list jsstring) :
  without x (x :: l) = without x l.
Proof. unfold without. cbn [List.filter]. now rewrite jsstring_eqb_refl. Qed.

(** X17: dropping a column of a list on another column of the list gives
    an order that holds the same columns as often as before, with the
    dragged column at the place the target had and the other columns in the
    order they were in. *)
Theorem handleDrop_moves (dragged targetColumn : jsstring) (orderState : list jsstring) :
  dragged <> [] -> dragged <> targetColumn ->
  In dragged orderState -> In targetColumn orderState ->
  exists newOrder,
    handleDrop (Some dragged) targetColumn orderState = Some newOrder
    /\ Permutation newOrder orderState
    /\ newOrder !! Z.to_nat (indexOf targetColumn orderState) = Some dragged
    /\ without dragged newOrder = without dragged orderState.
Proof.
  intros Hne Hdt Hd Ht. unfold handleDrop, given.
  apply jsstring_eqb_false in Hne, Hdt. rewrite Hne, Hdt.
  destruct (indexOf_found dragged orderState Hd) as (l1 & l2 & El & Ed).
  destruct (indexOf_found targetColumn orderState Ht) as (t1 & t2 & Et & Ei).
  rewrite Ed, Ei, Nat2Z.id. eexists. split; [reflexivity|].
  assert (length t1 <= length (l1 ++ l2)) as Hk.
  { apply (f_equal (@length _)) in El, Et. rewrite Et in El.
    rewrite !length_app in *. cbn [length] in El. lia. }
  assert (splice (Z.of_nat (length l1)) 1 [] orderState = l1 ++ l2) as ->
    by (rewrite El; apply splice_remove).
  rewrite (splice_insert _ _ _ Hk). split; [|split].
  - rewrite <- Permutation_middle, take_drop, El. apply Permutation_middle.
  - rewrite lookup_app_r by (rewrite length_take; lia).
    rewrite length_take. replace (length t1 - length t1 `min` length (l1 ++ l2)) with 0 by lia.
    reflexivity.
  - rewrite without_app, without_self, <- without_app, take_drop.
    rewrite El. now rewrite !without_app, without_self.
Qed.

Lemma has_In (c : jsstring) (l : list jsstring) : has c l = true <-> In c l.
Proof.
  unfold has. rewrite List.existsb_exists. split.
  - intros (x & Hx & E). apply jsstring_eqb_true in E. now subst.
  - intros H. exists c. split; [exact H|apply jsstring_eqb_refl].
Qed.

Lemma without_In (c x : jsstring) (l : list jsstring) :
  In x (without c l) <-> In x l /\ x <> c.
Proof.
  unfold without. rewrite List.filter_In. rewrite negb_true_iff, jsstring_eqb_false.
  reflexivity.
Qed.

Lemma without_NoDup (c : jsstring) (l : list jsstring) : NoDup l -> NoDup (without c l).
Proof.
  induction l as [|x l IH]; intros H; [exact H|].
  apply NoDup_cons in H as [Hx Hl]. unfold without. cbn [List.filter].
  destruct (negb (jsstring_eqb x c)); [|now apply IH].
  apply NoDup_cons. split; [|now apply IH].
  intros Hin. apply Hx. apply list_elem_of_In. apply list_elem_of_In in Hin.
  now apply (without_In c x l).
Qed.

Lemma push_NoDup (c : jsstring) (l : list jsstring) :
  NoDup l -> ~ In c l -> NoDup (l ++ [c]).
Proof.
  intros Hl Hc. apply NoDup_app. split; [exact Hl|]. split; [|apply NoDup_singleton].
  intros x Hx Hin. apply list_elem_of_In in Hx, Hin. destruct Hin as [<-|[]]. now apply Hc.
Qed.

(** X18: toggling a column keeps the chosen columns and their order
    aligned: the same columns, once each. A column that was
    chosen is in neither afterwards; a column that was not is the last of
    both. *)
Theorem toggleColumn_aligned (column : jsstring) (state : list jsstring * list jsstring) :
  aligned state ->
  aligned (toggleColumn column state)
  /\ (In column (fst state) ->
      ~ In column (fst (toggleColumn column state))
      /\ ~ In column (snd (toggleColumn column state)))
  /\ (~ In column (fst state) ->
      toggleColumn column state = (fst state ++ [column], snd state ++ [column])).
Proof.
  destruct state as [prev order]. intros (Hp & Ho & Hsame). cbn [fst snd] in *.
  unfold toggleColumn. destruct (has column prev) eqn:E.
  - apply has_In in E. split; [|split].
    + split; [now apply without_NoDup|]. split; [now apply without_NoDup|].
      intros c. cbn [fst snd]. rewrite !without_In, Hsame. reflexivity.
    + intros _. cbn [fst snd]. rewrite !without_In. split; intros [_ H]; now apply H.
    + intros H. now destruct H.
  - assert (~ In column prev) as Hn by (rewrite <- has_In, E; discriminate).
    assert (has column order = false) as Eo.
    { destruct (has column order) eqn:Eo; [|reflexivity].
      apply has_In, Hsame in Eo. now destruct Hn. }
    rewrite Eo. split; [|split].
    + split; [now apply push_NoDup|]. split.
      * apply push_NoDup; [exact Ho|]. now rewrite <- Hsame.
      * intros c. cbn [fst snd]. rewrite !in_app_iff, Hsame. reflexivity.
    + intros H. now destruct Hn.
    + reflexivity.
Qed.

End ColumnOrders.

Lemma handleDrop_moves_witness :
  exists newOrder,
    ColumnOrder.handleDrop (Some (js "c")) (js "a") [js "a"; js "b"; js "c"] = Some newOrder
    /\ Permutation newOrder [js "a"; js "b"; js "c"]
    /\ newOrder !! 0%nat = Some (js "c")
    /\ ColumnOrder.without (js "c") newOrder = [js "a"; js "b"].
Proof.
  apply (handleDrop_moves (js "c") (js "a") [js "a"; js "b"; js "c"]).
  - discriminate.
  - discriminate.
  - right. right. now left.
  - now left.
Defined.

Lemma toggleColumn_aligned_witness :
  ColumnOrder.toggleColumn (js "b") ([js "a"; js "b"], [js "b"; js "a"])
  = ([js "a"], [js "a"])
  /\ ColumnOrder.aligned ([js "a"], [js "a"]).
Proof.
  split; [reflexivity|].
  apply (toggleColumn_aligned (js "b") ([js "a"; js "b"], [js "b"; js "a"])).
  split; [|split].
  - apply (bool_decide_unpack _). vm_compute. exact I.
  - apply (bool_decide_unpack _). vm_compute. exact I.
  - intros c. cbn. tauto.
Defined.
